(** * VRPLDTT / ALNSv2: a shallow embedding of the ALNS core

    The development follows the C++ sources of the solver:

    - [tools.h], [tools.cpp]        the KISS generator, [rand_number], [range],
                                      [remove_at], [sort_indices], [get_ranks];
    - [evaluate.cpp]                the route evaluator ([route_evaluate]);
    - [solution.cpp], [solution.h]  the [Solution] object and its incremental
                                      re-evaluation;
    - [operator.cpp]                insertion probing, destroy and repair
                                      operators;
    - [roulette_wheel.cpp]          the adaptive operator wheel;
    - [alns.cpp]                    the simulated annealing driver and the
                                      initial solution;
    - [alns_data.h], [alns_data.cpp] the members the data object derives.

    Modelling conventions.

    - A C++ [double] is an exact rational ([Q]); rounding of IEEE arithmetic
      is not modelled.  Equalities between computed doubles are therefore
      stated with [==] ([Qeq]).  [std::numeric_limits<double>::max()] is the
      rational [(2^53 - 1) * 2^971].  The one function whose result hangs
      on the rounding, [get_load_bucket], is given on binary64 numbers as
      well ([B64]).
    - A C++ [int] is a [Z].  Conversions between [int] and [unsigned int]
      are written out ([to_unsigned], [to_int]); the targets are LLP64
      (the sources use [__int64] and [Windows.h]), so [unsigned long] has
      32 bits.
    - A [std::vector<T>] is a [list T]; [v[i]] is [nth] with a default and
      [v[i] = x] is [vset].  Reads and writes outside the vector are
      undefined behaviour in C++; the model reads the default and ignores
      the write, and the theorems carry the range hypotheses they need.
    - Customer ids and route ids are natural numbers (they index vectors);
      positions that the code computes as [pos - 1] are integers.
    - A function that mutates the [Solution] takes it and returns the new
      one.  A function that may throw returns a [result] whose two arms
      both carry the state reached, because the C++ object keeps every
      mutation done before the [throw].
    - Library functions whose values are not rational ([pow], [exp], [log])
      and the samples of [std::normal_distribution] and of the wall clock
      are parameters of the functions that use them. *)

From Stdlib Require Import ZArith QArith Qround Qminmax Qabs Lia Lqa List Bool.
From Stdlib Require Import Permutation Sorted.
From Stdlib Require String.
From Stdlib Require Floats Uint63.
Import String.StringSyntax.
Import ListNotations.

Set Implicit Arguments.

(** ** Numbers *)

Module Num.

(** [a < b] on doubles, as a boolean. *)
Definition Qltb (a b : Q) : bool := negb (Qle_bool b a).

(** [std::max(a, b)]: [(a < b) ? b : a]. *)
Definition fmax (a b : Q) : Q := if Qltb a b then b else a.

(** [int(x)] for a double [x]: the fractional part is discarded
    (truncation toward zero). *)
Definition double_to_int (x : Q) : Z := Z.quot (Qnum x) (Zpos (Qden x)).

(** [round(x)]: nearest integer, halfway cases away from zero. *)
Definition round (x : Q) : Z :=
  if Qle_bool 0 x then Qfloor (x + (1 # 2)) else Qceiling (x - (1 # 2)).

(** [std::numeric_limits<double>::max()]. *)
Definition DBL_MAX : Q := inject_Z ((2 ^ 53 - 1) * 2 ^ 971)%Z.

(** conversion of an [int] to [unsigned int] and back. *)
Definition to_unsigned (x : Z) : Z := (x mod 2 ^ 32)%Z.
Definition to_int (x : Z) : Z :=
  let y := (x mod 2 ^ 32)%Z in if (y <? 2 ^ 31)%Z then y else (y - 2 ^ 32)%Z.

(** sum of a vector of doubles, left to right from [0]. *)
Definition Qsum (l : list Q) : Q := fold_left Qplus l 0.

End Num.
Import Num.

(** ** Vectors *)

Section Vectors.
Context {A : Type}.

(** [v[i] = x]. *)
Fixpoint vset (v : list A) (i : nat) (x : A) : list A :=
  match v, i with
  | [], _ => []
  | _ :: t, O => x :: t
  | h :: t, S j => h :: vset t j x
  end.

(** [tools::remove_at(v, n)]: [v.erase(v.begin() + n)]. *)
Fixpoint remove_at (v : list A) (n : nat) : list A :=
  match v, n with
  | [], _ => []
  | _ :: t, O => t
  | h :: t, S m => h :: remove_at t m
  end.

(** [v.insert(v.begin() + n, x)]. *)
Fixpoint insert_at (v : list A) (n : nat) (x : A) {struct n} : list A :=
  match n, v with
  | O, _ => x :: v
  | S m, h :: t => h :: insert_at t m x
  | S _, [] => [x]
  end.
End Vectors.

(** reads with the default of the element type *)
Definition qget (v : list Q) (i : nat) : Q := nth i v 0%Q.
Definition zget (v : list Z) (i : nat) : Z := nth i v 0%Z.
Definition nget (v : list nat) (i : nat) : nat := nth i v O.
Definition rget (v : list (list nat)) (i : nat) : list nat := nth i v [].
Definition mget (m : list (list Q)) (i j : nat) : Q := qget (nth i m []) j.
Definition cget (c : list (list (list Q))) (b : Z) (i j : nat) : Q :=
  mget (nth (Z.to_nat b) c []) i j.

(** ** Problem data ([alns_data.h]) *)

Record ALNSData := {
  vehicle_weight : Z;
  vehicle_cap : Z;
  add_pseudo_capacity : Z;
  load_bucket_size : Q;
  nr_vehicles : nat;
  nr_nodes : nat;
  nr_customer : nat;
  demand : list Q;
  service_times : list Q;
  start_window : list Q;
  end_window : list Q;
  time_cube : list (list (list Q));
  norm_distance_matrix : list (list Q);
  norm_start_window_matrix : list (list Q);
  norm_end_window_matrix : list (list Q);
  norm_demand_matrix : list (list Q)
}.

(** ** Route evaluation ([evaluate.cpp]) *)

Module route_evaluate.

(** [update_route_chromosome(route_chromosome, route, route_id, start_pos = 0)] *)
Definition update_route_chromosome
  (route_chromosome : list nat) (route : list nat) (route_id : nat) : list nat :=
  fold_left (fun chrom customer_id => vset chrom customer_id route_id)
            route route_chromosome.

(** [get_load_bucket(customer_demand, load_bucket_size)]:
    [int((customer_demand - 0.3) / load_bucket_size)]. *)
Definition get_load_bucket (customer_demand load_bucket_size : Q) : Z :=
  double_to_int ((customer_demand - (3 # 10)) / load_bucket_size).

(** the reverse loop of [update_load_levels]: [n] iterations that visit the
    positions [n-1, ..., 0]. *)
Fixpoint load_levels_loop (n : nat) (route : list nat) (demand : list Q)
  (load_bucket_size : Q) (new_load : Q) (loads : list Q) (load_levels : list Z)
  : list Q * list Z :=
  match n with
  | O => (loads, load_levels)
  | S route_pos =>
      let customer_id := nget route route_pos in
      let new_load := (new_load + qget demand customer_id)%Q in
      load_levels_loop route_pos route demand load_bucket_size new_load
        (vset loads customer_id new_load)
        (vset load_levels customer_id (get_load_bucket new_load load_bucket_size))
  end.

(** [update_load_levels(loads, load_levels, route, end_pos, demand, bucket)].
    [end_pos] is declared [unsigned int]; callers pass [ins_pos - 1], which
    is [-1] for a change at the head of the route. *)
Definition update_load_levels (loads : list Q) (load_levels : list Z)
  (route : list nat) (end_pos : Z) (demand : list Q) (load_bucket_size : Q)
  : list Q * list Z :=
  let end_pos := to_unsigned end_pos in
  let r_size := Z.of_nat (length route) in
  if (0 <? r_size)%Z then
    let new_load :=
      if (end_pos <? r_size - 1)%Z
      then qget loads (nget route (Z.to_nat (end_pos + 1)))
      else 0%Q in
    (* int route_pos = end_pos; route_pos >= 0; route_pos-- *)
    load_levels_loop (Z.to_nat (to_int end_pos + 1)) route demand
      load_bucket_size new_load loads load_levels
  else (loads, load_levels).

(** state of the forward loop of [update_visit_times] *)
Record visit_state := {
  vs_route_driving_time : Q;
  vs_arrival_times : list Q;
  vs_departure_times : list Q;
  vs_prev_node_id : nat;
  vs_current_time : Q
}.

Definition visit_step (load_levels : list Z) (start_windows : list Q)
  (time_cube : list (list (list Q))) (service_times : list Q)
  (st : visit_state) (customer_id : nat) : visit_state :=
  let node_id := S customer_id in
  let ctoctime := cget time_cube (zget load_levels customer_id)
                       (vs_prev_node_id st) node_id in
  let current_time := (vs_current_time st + ctoctime)%Q in
  let route_driving_time := (vs_route_driving_time st + ctoctime)%Q in
  let current_time := fmax current_time (qget start_windows customer_id) in
  let arrival_times := vset (vs_arrival_times st) customer_id current_time in
  let current_time := (current_time + qget service_times customer_id)%Q in
  let departure_times := vset (vs_departure_times st) customer_id current_time in
  {| vs_route_driving_time := route_driving_time;
     vs_arrival_times := arrival_times;
     vs_departure_times := departure_times;
     vs_prev_node_id := node_id;
     vs_current_time := current_time |}.

(** [update_visit_times]: returns the new [route_driving_time],
    [arrival_times] and [departure_times]. *)
Definition update_visit_times (arrival_times departure_times : list Q)
  (starting_time : Q) (route : list nat) (load_levels : list Z)
  (start_windows : list Q) (time_cube : list (list (list Q)))
  (service_times : list Q) : Q * list Q * list Q :=
  let st := fold_left (visit_step load_levels start_windows time_cube service_times)
              route
              {| vs_route_driving_time := 0;
                 vs_arrival_times := arrival_times;
                 vs_departure_times := departure_times;
                 vs_prev_node_id := O;
                 vs_current_time := starting_time |} in
  ((vs_route_driving_time st + cget time_cube 0 (vs_prev_node_id st) O)%Q,
   vs_arrival_times st, vs_departure_times st).

(** [get_starting_time(route, load_levels, start_windows, time_cube)] *)
Definition get_starting_time (route : list nat) (loads_levels : list Z)
  (start_windows : list Q) (time_cube : list (list (list Q))) : Q :=
  match route with
  | first_customer_id :: _ =>
      let starting_time :=
        (qget start_windows first_customer_id
         - cget time_cube (zget loads_levels first_customer_id) O
                (S first_customer_id))%Q in
      fmax 0 starting_time
  | [] => 0%Q
  end.

(** [get_quality] *)
Definition get_quality (time capa_error frame_error capa_error_weight
                        frame_error_weight : Q) : Q :=
  (time + capa_error_weight * capa_error + frame_error * frame_error_weight)%Q.

(** [get_capa_error(route, vehicle_capacity, loads)]; the capacity is passed
    as [unsigned int]. *)
Definition get_capa_error (route : list nat) (vehicle_capacity : Z)
  (loads : list Q) : Q :=
  match route with
  | customer_id :: _ =>
      let capacity_difference :=
        (qget loads customer_id - inject_Z (to_unsigned vehicle_capacity))%Q in
      if Qltb 0 capacity_difference then capacity_difference else 0%Q
  | [] => 0%Q
  end.

(** [get_frame_error(route, end_window, arrival_times)] *)
Definition get_frame_error (route : list nat) (end_window arrival_times : list Q)
  : Q :=
  fold_left (fun frame_error customer_id =>
               let late_diff :=
                 (qget arrival_times customer_id - qget end_window customer_id)%Q in
               if Qltb 0 late_diff then (frame_error + late_diff)%Q
               else frame_error)
            route 0%Q.

(** [is_feasible(capa_error, time_error)] *)
Definition is_feasible (capa_error time_error : Q) : bool :=
  if Qltb 0 capa_error || Qltb 0 time_error then false else true.

(** the search loop of [get_customer_pos] *)
Fixpoint find_pos (route : list nat) (customer_id : nat) (route_pos : nat)
  : option nat :=
  match route with
  | [] => None
  | c :: rest =>
      if Nat.eqb c customer_id then Some route_pos
      else find_pos rest customer_id (S route_pos)
  end.

(** [get_customer_pos(route, customer_id)]; [None] stands for the
    [logic_error] thrown when the customer is not in the route. *)
Definition get_customer_pos (route : list nat) (customer_id : nat) : option nat :=
  find_pos route customer_id O.

End route_evaluate.

(** ** Tools ([tools.h], [tools.cpp]) *)

Module tools.

(** The state of the KISS generator of [tools.h]: the [static] variables
    [z], [w], [jsr] and [jcong], each an [unsigned long] of 32 bits.  The
    variables are [static] in a header, so every translation unit owns a
    copy of them. *)
Record kiss := { kz : Z; kw : Z; kjsr : Z; kjcong : Z }.

Definition kiss_init : kiss :=
  {| kz := 362436069; kw := 521288629; kjsr := 123456789; kjcong := 380116160 |}.

Definition u32 (x : Z) : Z := (x mod 2 ^ 32)%Z.

(** [#define znew (z=36969*(z&65535)+(z>>16))] *)
Definition znew (z : Z) : Z := u32 (36969 * Z.land z 65535 + Z.shiftr z 16).
(** [#define wnew (w=18000*(w&65535)+(w>>16))] *)
Definition wnew (w : Z) : Z := u32 (18000 * Z.land w 65535 + Z.shiftr w 16).
(** [#define SHR3 (jsr^=(jsr<<17), jsr^=(jsr>>13), jsr^=(jsr<<5))] *)
Definition SHR3 (jsr : Z) : Z :=
  let jsr := Z.lxor jsr (u32 (Z.shiftl jsr 17)) in
  let jsr := Z.lxor jsr (Z.shiftr jsr 13) in
  Z.lxor jsr (u32 (Z.shiftl jsr 5)).
(** [#define CONG (jcong=69069*jcong+1234567)] *)
Definition CONG (jcong : Z) : Z := u32 (69069 * jcong + 1234567).

(** [#define MWC ((znew<<16)+wnew)] and [#define KISS ((MWC^CONG)+SHR3)]:
    the value and the new generator state. *)
Definition KISS (k : kiss) : Z * kiss :=
  let z := znew (kz k) in
  let w := wnew (kw k) in
  let mwc := u32 (u32 (Z.shiftl z 16) + w) in
  let jcong := CONG (kjcong k) in
  let jsr := SHR3 (kjsr k) in
  (u32 (Z.lxor mwc jcong + jsr),
   {| kz := z; kw := w; kjsr := jsr; kjcong := jcong |}).

(** [#define UNI (KISS*2.328306e-10)] *)
Definition UNI (k : kiss) : Q * kiss :=
  let (v, k') := KISS k in
  ((inject_Z v * (2328306 # 10000000000000000))%Q, k').

(** [rand_number(max, min)]: [int(round(UNI*(max - min) + min))].  Both
    arguments are [int]s, so [max - min] is a difference of [int]s and wraps
    around at 32 bits before it is converted to a double. *)
Definition rand_number (max min : Z) (k : kiss) : Z * kiss :=
  let (u, k') := UNI k in
  (round (u * inject_Z (to_int (max - min)) + inject_Z min), k').

(** [range(max, min = 0)] for customer ids *)
Definition range (max : nat) : list nat := seq 0 max.

(** [std::sort] of a vector whose elements are pairwise distinct under the
    order [ltb]: the sorted vector is unique, and insertion sort computes
    it. *)
Section Sort.
Context {A : Type} (ltb : A -> A -> bool).
Fixpoint sort_insert (x : A) (l : list A) : list A :=
  match l with
  | [] => [x]
  | y :: t => if ltb y x then y :: sort_insert x t else x :: l
  end.
Definition sort (l : list A) : list A := fold_right sort_insert [] l.
End Sort.

(** [operator<] of [std::tuple<double, int>] *)
Definition tuple2_ltb (a b : Q * nat) : bool :=
  Qltb (fst a) (fst b)
  || (negb (Qltb (fst b) (fst a)) && Nat.ltb (snd a) (snd b)).

(** the first step of [sort_indices] and [get_ranks]:
    [tup_v[i] = make_tuple(v[i], i)], then [std::sort] *)
Definition sorted_tuples (v : list Q) : list (Q * nat) :=
  sort tuple2_ltb (combine v (seq 0 (length v))).

(** [sort_indices(v)] *)
Definition sort_indices (v : list Q) : list nat := map snd (sorted_tuples v).

(** [get_ranks(v)]; the source reads [tup_v[0]], so [v] is not empty. *)
Definition get_ranks (v : list Q) : list Z :=
  match sorted_tuples v with
  | [] => []
  | (value0, index0) :: rest =>
      let ranks := vset (repeat 0%Z (length v)) index0 1%Z in
      let '(ranks, _, _) :=
        fold_left
          (fun acc t =>
             let '(ranks, rank, prev_value) := acc in
             let current_value := fst t in
             if Qeq_bool prev_value current_value
             then (vset ranks (snd t) rank, rank, current_value)
             else (vset ranks (snd t) (rank + 1)%Z, (rank + 1)%Z, current_value))
          rest (ranks, 1%Z, value0) in
      ranks
  end.

End tools.

(** ** Exceptions and the state-and-exception monad *)

Inductive exn : Set :=
| InfeasibilityException   (* solution.h *)
| logic_error              (* get_customer_pos *)
| std_exception            (* get_random_functor_id *)
| invalid_argument         (* unknown operator name *)
| out_of_range.            (* undefined behaviour: an erase outside a vector *)

(** The outcome of a call that works on a mutable state [S]: the state is
    present in both arms, since a C++ [throw] does not undo the mutations
    made before it. *)
Inductive result (S A : Type) : Type :=
| Ok (a : A) (s : S)
| Throw (e : exn) (s : S).
Arguments Ok {S A} a s.
Arguments Throw {S A} e s.

Definition M (S A : Type) : Type := S -> result S A.

Definition ret {S A} (a : A) : M S A := fun s => Ok a s.
Definition bind {S A B} (m : M S A) (k : A -> M S B) : M S B :=
  fun s => match m s with
           | Ok a s' => k a s'
           | Throw e s' => Throw e s'
           end.
Definition throw {S A} (e : exn) : M S A := fun s => Throw e s.
Definition get {S} : M S S := fun s => Ok s s.
Definition put {S} (s : S) : M S unit := fun _ => Ok tt s.
Definition modify {S} (f : S -> S) : M S unit := fun s => Ok tt (f s).

(** [try { m } catch (InfeasibilityException) { h }] *)
Definition try_catch {S A} (m : M S A) (h : M S A) : M S A :=
  fun s => match m s with
           | Ok a s' => Ok a s'
           | Throw InfeasibilityException s' => h s'
           | Throw e s' => Throw e s'
           end.

Definition state_of {S A} (r : result S A) : S :=
  match r with Ok _ s => s | Throw _ s => s end.

Declare Scope monad_scope.
Delimit Scope monad_scope with monad.
Notation "x <- m ;; k" := (bind m (fun x => k))
  (at level 61, m at next level, right associativity) : monad_scope.
Notation "m ;;; k" := (bind m (fun _ => k))
  (at level 61, right associativity) : monad_scope.

(** a [for] loop over [l] whose body may throw *)
Fixpoint foldM {S A B} (body : B -> A -> M S B) (l : list A) (acc : B)
  : M S B :=
  match l with
  | [] => ret acc
  | x :: t => bind (body acc x) (fun acc' => foldM body t acc')
  end.

(** ** The solution object ([solution.h], [solution.cpp]) *)

Record Solution := {
  solution_representation : list (list nat);
  route_chromosome : list nat;
  loads : list Q;
  load_levels : list Z;
  arrival_times : list Q;
  departure_times : list Q;
  driving_time : Q;
  capa_error : Q;
  frame_error : Q;
  is_feasible : bool;
  solution_quality : Q;
  start_times : list Q;
  route_driving_times : list Q;
  route_capa_errors : list Q;
  route_frame_errors : list Q;
  route_qualities : list Q
}.

(** [Solution(ALNSData &data_obj)]: the default constructor sets only
    [driving_time]; the members with a default initialiser are [0.0], and
    the other scalars are left uninitialised (taken as [false] and [0]). *)
Definition Solution_default : Solution :=
  {| solution_representation := []; route_chromosome := [];
     loads := []; load_levels := []; arrival_times := []; departure_times := [];
     driving_time := DBL_MAX; capa_error := 0; frame_error := 0;
     is_feasible := false; solution_quality := 0;
     start_times := []; route_driving_times := []; route_capa_errors := [];
     route_frame_errors := []; route_qualities := [] |}.

(** assignments to the members of a [Solution] *)
Definition upd_solution_representation (v : list (list nat)) (s : Solution) : Solution :=
  {| solution_representation := v; route_chromosome := route_chromosome s;
     loads := loads s; load_levels := load_levels s;
     arrival_times := arrival_times s; departure_times := departure_times s;
     driving_time := driving_time s; capa_error := capa_error s;
     frame_error := frame_error s; is_feasible := is_feasible s;
     solution_quality := solution_quality s; start_times := start_times s;
     route_driving_times := route_driving_times s;
     route_capa_errors := route_capa_errors s;
     route_frame_errors := route_frame_errors s;
     route_qualities := route_qualities s |}.
Definition upd_route_chromosome (v : list nat) (s : Solution) : Solution :=
  {| solution_representation := solution_representation s;
     route_chromosome := v; loads := loads s; load_levels := load_levels s;
     arrival_times := arrival_times s; departure_times := departure_times s;
     driving_time := driving_time s; capa_error := capa_error s;
     frame_error := frame_error s; is_feasible := is_feasible s;
     solution_quality := solution_quality s; start_times := start_times s;
     route_driving_times := route_driving_times s;
     route_capa_errors := route_capa_errors s;
     route_frame_errors := route_frame_errors s;
     route_qualities := route_qualities s |}.
Definition upd_loads (v : list Q) (s : Solution) : Solution :=
  {| solution_representation := solution_representation s;
     route_chromosome := route_chromosome s; loads := v;
     load_levels := load_levels s; arrival_times := arrival_times s;
     departure_times := departure_times s; driving_time := driving_time s;
     capa_error := capa_error s; frame_error := frame_error s;
     is_feasible := is_feasible s; solution_quality := solution_quality s;
     start_times := start_times s;
     route_driving_times := route_driving_times s;
     route_capa_errors := route_capa_errors s;
     route_frame_errors := route_frame_errors s;
     route_qualities := route_qualities s |}.
Definition upd_load_levels (v : list Z) (s : Solution) : Solution :=
  {| solution_representation := solution_representation s;
     route_chromosome := route_chromosome s; loads := loads s;
     load_levels := v; arrival_times := arrival_times s;
     departure_times := departure_times s; driving_time := driving_time s;
     capa_error := capa_error s; frame_error := frame_error s;
     is_feasible := is_feasible s; solution_quality := solution_quality s;
     start_times := start_times s;
     route_driving_times := route_driving_times s;
     route_capa_errors := route_capa_errors s;
     route_frame_errors := route_frame_errors s;
     route_qualities := route_qualities s |}.
Definition upd_arrival_times (v : list Q) (s : Solution) : Solution :=
  {| solution_representation := solution_representation s;
     route_chromosome := route_chromosome s; loads := loads s;
     load_levels := load_levels s; arrival_times := v;
     departure_times := departure_times s; driving_time := driving_time s;
     capa_error := capa_error s; frame_error := frame_error s;
     is_feasible := is_feasible s; solution_quality := solution_quality s;
     start_times := start_times s;
     route_driving_times := route_driving_times s;
     route_capa_errors := route_capa_errors s;
     route_frame_errors := route_frame_errors s;
     route_qualities := route_qualities s |}.
Definition upd_departure_times (v : list Q) (s : Solution) : Solution :=
  {| solution_representation := solution_representation s;
     route_chromosome := route_chromosome s; loads := loads s;
     load_levels := load_levels s; arrival_times := arrival_times s;
     departure_times := v; driving_time := driving_time s;
     capa_error := capa_error s; frame_error := frame_error s;
     is_feasible := is_feasible s; solution_quality := solution_quality s;
     start_times := start_times s;
     route_driving_times := route_driving_times s;
     route_capa_errors := route_capa_errors s;
     route_frame_errors := route_frame_errors s;
     route_qualities := route_qualities s |}.
Definition upd_driving_time (v : Q) (s : Solution) : Solution :=
  {| solution_representation := solution_representation s;
     route_chromosome := route_chromosome s; loads := loads s;
     load_levels := load_levels s; arrival_times := arrival_times s;
     departure_times := departure_times s; driving_time := v;
     capa_error := capa_error s; frame_error := frame_error s;
     is_feasible := is_feasible s; solution_quality := solution_quality s;
     start_times := start_times s;
     route_driving_times := route_driving_times s;
     route_capa_errors := route_capa_errors s;
     route_frame_errors := route_frame_errors s;
     route_qualities := route_qualities s |}.
Definition upd_capa_error (v : Q) (s : Solution) : Solution :=
  {| solution_representation := solution_representation s;
     route_chromosome := route_chromosome s; loads := loads s;
     load_levels := load_levels s; arrival_times := arrival_times s;
     departure_times := departure_times s; driving_time := driving_time s;
     capa_error := v; frame_error := frame_error s;
     is_feasible := is_feasible s; solution_quality := solution_quality s;
     start_times := start_times s;
     route_driving_times := route_driving_times s;
     route_capa_errors := route_capa_errors s;
     route_frame_errors := route_frame_errors s;
     route_qualities := route_qualities s |}.
Definition upd_frame_error (v : Q) (s : Solution) : Solution :=
  {| solution_representation := solution_representation s;
     route_chromosome := route_chromosome s; loads := loads s;
     load_levels := load_levels s; arrival_times := arrival_times s;
     departure_times := departure_times s; driving_time := driving_time s;
     capa_error := capa_error s; frame_error := v;
     is_feasible := is_feasible s; solution_quality := solution_quality s;
     start_times := start_times s;
     route_driving_times := route_driving_times s;
     route_capa_errors := route_capa_errors s;
     route_frame_errors := route_frame_errors s;
     route_qualities := route_qualities s |}.
Definition upd_is_feasible (v : bool) (s : Solution) : Solution :=
  {| solution_representation := solution_representation s;
     route_chromosome := route_chromosome s; loads := loads s;
     load_levels := load_levels s; arrival_times := arrival_times s;
     departure_times := departure_times s; driving_time := driving_time s;
     capa_error := capa_error s; frame_error := frame_error s;
     is_feasible := v; solution_quality := solution_quality s;
     start_times := start_times s;
     route_driving_times := route_driving_times s;
     route_capa_errors := route_capa_errors s;
     route_frame_errors := route_frame_errors s;
     route_qualities := route_qualities s |}.
Definition upd_solution_quality (v : Q) (s : Solution) : Solution :=
  {| solution_representation := solution_representation s;
     route_chromosome := route_chromosome s; loads := loads s;
     load_levels := load_levels s; arrival_times := arrival_times s;
     departure_times := departure_times s; driving_time := driving_time s;
     capa_error := capa_error s; frame_error := frame_error s;
     is_feasible := is_feasible s; solution_quality := v;
     start_times := start_times s;
     route_driving_times := route_driving_times s;
     route_capa_errors := route_capa_errors s;
     route_frame_errors := route_frame_errors s;
     route_qualities := route_qualities s |}.
Definition upd_start_times (v : list Q) (s : Solution) : Solution :=
  {| solution_representation := solution_representation s;
     route_chromosome := route_chromosome s; loads := loads s;
     load_levels := load_levels s; arrival_times := arrival_times s;
     departure_times := departure_times s; driving_time := driving_time s;
     capa_error := capa_error s; frame_error := frame_error s;
     is_feasible := is_feasible s; solution_quality := solution_quality s;
     start_times := v; route_driving_times := route_driving_times s;
     route_capa_errors := route_capa_errors s;
     route_frame_errors := route_frame_errors s;
     route_qualities := route_qualities s |}.
Definition upd_route_driving_times (v : list Q) (s : Solution) : Solution :=
  {| solution_representation := solution_representation s;
     route_chromosome := route_chromosome s; loads := loads s;
     load_levels := load_levels s; arrival_times := arrival_times s;
     departure_times := departure_times s; driving_time := driving_time s;
     capa_error := capa_error s; frame_error := frame_error s;
     is_feasible := is_feasible s; solution_quality := solution_quality s;
     start_times := start_times s; route_driving_times := v;
     route_capa_errors := route_capa_errors s;
     route_frame_errors := route_frame_errors s;
     route_qualities := route_qualities s |}.
Definition upd_route_capa_errors (v : list Q) (s : Solution) : Solution :=
  {| solution_representation := solution_representation s;
     route_chromosome := route_chromosome s; loads := loads s;
     load_levels := load_levels s; arrival_times := arrival_times s;
     departure_times := departure_times s; driving_time := driving_time s;
     capa_error := capa_error s; frame_error := frame_error s;
     is_feasible := is_feasible s; solution_quality := solution_quality s;
     start_times := start_times s;
     route_driving_times := route_driving_times s; route_capa_errors := v;
     route_frame_errors := route_frame_errors s;
     route_qualities := route_qualities s |}.
Definition upd_route_frame_errors (v : list Q) (s : Solution) : Solution :=
  {| solution_representation := solution_representation s;
     route_chromosome := route_chromosome s; loads := loads s;
     load_levels := load_levels s; arrival_times := arrival_times s;
     departure_times := departure_times s; driving_time := driving_time s;
     capa_error := capa_error s; frame_error := frame_error s;
     is_feasible := is_feasible s; solution_quality := solution_quality s;
     start_times := start_times s;
     route_driving_times := route_driving_times s;
     route_capa_errors := route_capa_errors s; route_frame_errors := v;
     route_qualities := route_qualities s |}.
Definition upd_route_qualities (v : list Q) (s : Solution) : Solution :=
  {| solution_representation := solution_representation s;
     route_chromosome := route_chromosome s; loads := loads s;
     load_levels := load_levels s; arrival_times := arrival_times s;
     departure_times := departure_times s; driving_time := driving_time s;
     capa_error := capa_error s; frame_error := frame_error s;
     is_feasible := is_feasible s; solution_quality := solution_quality s;
     start_times := start_times s;
     route_driving_times := route_driving_times s;
     route_capa_errors := route_capa_errors s;
     route_frame_errors := route_frame_errors s; route_qualities := v |}.

Module Sol.
Import route_evaluate.
Local Open Scope monad_scope.

(** iteration over the routes with the running [route_id] *)
Definition for_routes {St : Type} (routes : list (list nat))
  (body : nat -> list nat -> St -> St) (init : St) : St :=
  snd (fold_left (fun acc route =>
                    let '(route_id, st) := acc in
                    (S route_id, body route_id route st))
                 routes (O, init)).

(** [Solution::set_chromosomes] *)
Definition set_chromosomes (data : ALNSData) (s : Solution) : Solution :=
  let route_chromosome :=
    for_routes (solution_representation s)
      (fun route_id route chrom => update_route_chromosome chrom route route_id)
      (repeat O (nr_customer data)) in
  upd_route_chromosome route_chromosome s.

(** [Solution::set_load_levels] *)
Definition set_load_levels (data : ALNSData) (s : Solution) : Solution :=
  let '(loads, loads_lvls) :=
    for_routes (solution_representation s)
      (fun _ route acc =>
         update_load_levels (fst acc) (snd acc) route
           (Z.of_nat (length route) - 1) (demand data) (load_bucket_size data))
      (repeat 0%Q (nr_customer data), repeat 0%Z (nr_customer data)) in
  upd_load_levels loads_lvls (upd_loads loads s).

(** [Solution::set_solution_time] *)
Definition set_solution_time (data : ALNSData) (s : Solution) : Solution :=
  let routes := solution_representation s in
  let '(total_time, start_times, route_driving_times, arr_times, dep_times) :=
    for_routes routes
      (fun route_id route acc =>
         let '(total_time, start_times, route_driving_times, arr, dep) := acc in
         let start_time :=
           get_starting_time route (load_levels s) (start_window data)
             (time_cube data) in
         let start_times := vset start_times route_id start_time in
         let '(rdt, arr, dep) :=
           update_visit_times arr dep start_time route (load_levels s)
             (start_window data) (time_cube data) (service_times data) in
         let route_driving_times := vset route_driving_times route_id rdt in
         ((total_time + qget route_driving_times route_id)%Q,
          start_times, route_driving_times, arr, dep))
      (0%Q, repeat 0%Q (length routes), repeat 0%Q (length routes),
       repeat 0%Q (nr_customer data), repeat 0%Q (nr_customer data)) in
  upd_departure_times dep_times
    (upd_arrival_times arr_times
       (upd_route_driving_times route_driving_times
          (upd_driving_time total_time
             (upd_start_times start_times s)))).

(** [Solution::set_capa_error] *)
Definition set_capa_error (data : ALNSData) (s : Solution) : Solution :=
  let '(capa_error, route_capa_errors) :=
    for_routes (solution_representation s)
      (fun route_id route acc =>
         let route_capa_error :=
           get_capa_error route (vehicle_cap data) (loads s) in
         ((fst acc + route_capa_error)%Q,
          vset (snd acc) route_id route_capa_error))
      (0%Q, repeat 0%Q (nr_vehicles data)) in
  upd_route_capa_errors route_capa_errors (upd_capa_error capa_error s).

(** [Solution::set_frame_error] *)
Definition set_frame_error (data : ALNSData) (s : Solution) : Solution :=
  let routes := solution_representation s in
  let '(frame_error, route_frame_errors) :=
    for_routes routes
      (fun route_id route acc =>
         let route_frame_error :=
           get_frame_error route (end_window data) (arrival_times s) in
         ((fst acc + route_frame_error)%Q,
          vset (snd acc) route_id route_frame_error))
      (0%Q, repeat 0%Q (length routes)) in
  upd_route_frame_errors route_frame_errors (upd_frame_error frame_error s).

(** [Solution::set_is_feasible] *)
Definition set_is_feasible (s : Solution) : Solution :=
  upd_is_feasible
    (if Qltb 0 (capa_error s) || Qltb 0 (frame_error s) then false else true) s.

(** [Solution::set_quality(capa_error_weight, frame_error_weight)] *)
Definition set_quality (data : ALNSData) (capa_error_weight frame_error_weight : Q)
  (s : Solution) : Solution :=
  let '(solution_quality, route_qualities) :=
    fold_left
      (fun acc route_id =>
         let route_quality :=
           get_quality (qget (route_driving_times s) route_id)
             (qget (route_capa_errors s) route_id)
             (qget (route_frame_errors s) route_id)
             capa_error_weight frame_error_weight in
         ((fst acc + route_quality)%Q, vset (snd acc) route_id route_quality))
      (seq 0 (nr_vehicles data))
      (0%Q, repeat 0%Q (nr_vehicles data)) in
  upd_route_qualities route_qualities (upd_solution_quality solution_quality s).

(** [Solution::evaluate_solution(capa_error_weight, frame_error_weight)] *)
Definition evaluate_solution (data : ALNSData)
  (capa_error_weight frame_error_weight : Q) (s : Solution) : Solution :=
  set_is_feasible
    (set_quality data capa_error_weight frame_error_weight
       (set_frame_error data
          (set_capa_error data
             (set_solution_time data
                (set_load_levels data
                   (set_chromosomes data s)))))).

(** [Solution::Solution(data_obj, solution_rep, w_capa, w_frame)] *)
Definition Solution_new (data : ALNSData) (solution_rep : list (list nat))
  (capa_error_weight frame_error_weight : Q) : Solution :=
  evaluate_solution data capa_error_weight frame_error_weight
    (upd_solution_representation solution_rep Solution_default).

(** [Solution::evaluate_change(route_id, ins_pos, w_capa, w_frame)].
    The statements run in the order of the source; the [throw] leaves the
    object with the members assigned so far. *)
Definition evaluate_change (data : ALNSData) (route_id : nat) (ins_pos : Z)
  (capa_error_weight frame_error_weight : Q) : M Solution unit :=
  fun s =>
  let route := rget (solution_representation s) route_id in
  (* 1) load levels and capacity *)
  let s := upd_capa_error
             (capa_error s - qget (route_capa_errors s) route_id)%Q s in
  let '(loads', levels') :=
    update_load_levels (loads s) (load_levels s) route ins_pos
      (demand data) (load_bucket_size data) in
  let s := upd_load_levels levels' (upd_loads loads' s) in
  let route_capa_error := get_capa_error route (vehicle_cap data) (loads s) in
  let s := upd_capa_error (capa_error s + route_capa_error)%Q s in
  if Qle_bool (inject_Z (add_pseudo_capacity data)) route_capa_error then
    Throw InfeasibilityException s
  else
  (* 2.1) *)
  let s := upd_driving_time
             (driving_time s - qget (route_driving_times s) route_id)%Q s in
  let s := upd_frame_error
             (frame_error s - qget (route_frame_errors s) route_id)%Q s in
  let s := upd_solution_quality
             (solution_quality s - qget (route_qualities s) route_id)%Q s in
  (* 2.2) *)
  let start_time :=
    get_starting_time route (load_levels s) (start_window data) (time_cube data) in
  let '(rdt, arr, dep) :=
    update_visit_times (arrival_times s) (departure_times s) start_time route
      (load_levels s) (start_window data) (time_cube data) (service_times data) in
  let s := upd_departure_times dep
             (upd_arrival_times arr
                (upd_route_driving_times
                   (vset (route_driving_times s) route_id rdt) s)) in
  let route_frame_error :=
    get_frame_error route (end_window data) (arrival_times s) in
  let route_quality :=
    get_quality (qget (route_driving_times s) route_id) route_capa_error
      route_frame_error capa_error_weight frame_error_weight in
  (* 2.3) *)
  let s := upd_driving_time
             (driving_time s + qget (route_driving_times s) route_id)%Q s in
  let s := upd_frame_error (frame_error s + route_frame_error)%Q s in
  let s := upd_solution_quality (solution_quality s + route_quality)%Q s in
  (* 2.4) *)
  let s := upd_route_capa_errors
             (vset (route_capa_errors s) route_id route_capa_error) s in
  let s := upd_route_frame_errors
             (vset (route_frame_errors s) route_id route_frame_error) s in
  let s := upd_route_qualities
             (vset (route_qualities s) route_id route_quality) s in
  Ok tt (set_is_feasible s).

(** the inner loop of [get_diversity] over one route; [usage / new_iter]
    divides two [int]s. *)
Definition diversity_route (usage : list (list Z)) (new_iter : Z)
  (route : list nat) (diversity : Q) : Q :=
  let '(diversity, prev_node_id) :=
    fold_left
      (fun acc customer_id =>
         let '(diversity, prev_node_id) := acc in
         ((diversity
           + inject_Z (1 - Z.quot (zget (nth prev_node_id usage []) (S customer_id))
                                  new_iter))%Q,
          S customer_id))
      route (diversity, O) in
  (diversity
   + inject_Z (1 - Z.quot (zget (nth prev_node_id usage []) O) new_iter))%Q.

(** [Solution::get_diversity(node_pair_useage_matrix, iteration)] *)
Definition get_diversity (data : ALNSData) (s : Solution)
  (node_pair_useage_matrix : list (list Z)) (iteration : Z) : Q :=
  let new_iter := (iteration + 1)%Z in
  let '(diversity_norm, diversity) :=
    fold_left
      (fun acc route =>
         let '(diversity_norm, diversity) := acc in
         match route with
         | [] => (diversity_norm, diversity)
         | _ :: _ =>
             ((diversity_norm + 1)%Z,
              diversity_route node_pair_useage_matrix new_iter route diversity)
         end)
      (solution_representation s)
      (Z.of_nat (nr_customer data), 0%Q) in
  (diversity / inject_Z diversity_norm)%Q.

End Sol.

(** ** Operators ([operator.h], [operator.cpp]) *)

Module Op.
Import route_evaluate Sol.
Local Open Scope monad_scope.

(** What an operator works on: the running solution (a reference shared
    with the driver) and the two generators it draws from, the one of
    [operator.cpp] (uses of [UNI]) and the one of [tools.cpp] (calls of
    [tools::rand_number]). *)
Record OpState := {
  sol : Solution;
  rng_operator : tools.kiss;
  rng_tools : tools.kiss
}.

(** What an operator reads: the data object, the members it holds by
    reference to the driver ([capa_error_weight], [frame_error_weight],
    [mean_removal]), its noise exponent, [pow] of [math.h], the sample that
    [tools::rand_number_normal] returns in this invocation, and the
    potential matrix of the driver. *)
Record OpEnv := {
  data : ALNSData;
  capa_error_weight : Q;
  frame_error_weight : Q;
  mean_removal : Q;
  rnd_factor : Q;
  pow : Q -> Q -> Q;
  normal_sample : Z;
  node_pair_potential_matrix : list (list Q)
}.

Definition on_sol {A} (m : M Solution A) : M OpState A :=
  fun st =>
    match m (sol st) with
    | Ok a s => Ok a {| sol := s; rng_operator := rng_operator st;
                        rng_tools := rng_tools st |}
    | Throw e s => Throw e {| sol := s; rng_operator := rng_operator st;
                              rng_tools := rng_tools st |}
    end.

(** [UNI] inside [operator.cpp] *)
Definition uni : M OpState Q :=
  fun st =>
    let (u, k) := tools.UNI (rng_operator st) in
    Ok u {| sol := sol st; rng_operator := k; rng_tools := rng_tools st |}.

(** [tools::rand_number(max, min)] *)
Definition rand_number (max min : Z) : M OpState Z :=
  fun st =>
    let (r, k) := tools.rand_number max min (rng_tools st) in
    Ok r {| sol := sol st; rng_operator := rng_operator st; rng_tools := k |}.

(** [max(0, min(data.nr_customer - 1, rand_number_normal(...)))] *)
Definition clip_removals (env : OpEnv) : Z :=
  Z.max 0 (Z.min (Z.of_nat (nr_customer (data env)) - 1) (normal_sample env)).

(** [route.insert(route.begin() + pos, customer_id)] on route [route_id] *)
Definition insert_customer (route_id pos customer_id : nat) (s : Solution)
  : Solution :=
  let routes := solution_representation s in
  upd_solution_representation
    (vset routes route_id (insert_at (rget routes route_id) pos customer_id)) s.

(** [tools::remove_at(route, pos)] on route [route_id] *)
Definition remove_customer (route_id pos : nat) (s : Solution) : Solution :=
  let routes := solution_representation s in
  upd_solution_representation
    (vset routes route_id (remove_at (rget routes route_id) pos)) s.

(** [solution_obj.route_chromosome[customer_id] = route_id] *)
Definition assign_chromosome (customer_id route_id : nat) (s : Solution)
  : Solution :=
  upd_route_chromosome (vset (route_chromosome s) customer_id route_id) s.

Section WithWeights.
Variable dat : ALNSData.
Variables cw fw : Q.

(** [evaluate_insertion_position] *)
Definition evaluate_insertion_position (route_id customer_id ins_pos : nat)
  : M Solution Q :=
  try_catch
    (modify (insert_customer route_id ins_pos customer_id) ;;;
     modify (assign_chromosome customer_id route_id) ;;;
     evaluate_change dat route_id (Z.of_nat ins_pos) cw fw)
    (modify (remove_customer route_id ins_pos) ;;;
     evaluate_change dat route_id (Z.of_nat ins_pos - 1) cw fw ;;;
     throw InfeasibilityException) ;;;
  s <- get ;;
  let tmp_cost := solution_quality s in
  modify (remove_customer route_id ins_pos) ;;;
  evaluate_change dat route_id (Z.of_nat ins_pos - 1) cw fw ;;;
  ret tmp_cost.

(** the insertion loop shared by [evaluate_insertion_chain] and the block
    insertion of the beta-hybrid operator *)
Fixpoint insert_chain (route_id ins_pos : nat) (customer_ids : list nat)
  (add_pos : nat) (s : Solution) : Solution * nat :=
  match customer_ids with
  | [] => (s, add_pos)
  | customer_id :: rest =>
      insert_chain route_id ins_pos rest (S add_pos)
        (assign_chromosome customer_id route_id
           (insert_customer route_id (ins_pos + add_pos) customer_id s))
  end.

(** [for (rem_pos = 0; rem_pos < add_pos; rem_pos++) remove_at(route, ins_pos)] *)
Fixpoint remove_chain (route_id ins_pos add_pos : nat) (s : Solution)
  : Solution :=
  match add_pos with
  | O => s
  | S n => remove_chain route_id ins_pos n (remove_customer route_id ins_pos s)
  end.

(** [evaluate_insertion_chain]; [add_pos] is a local of the function that
    the handler reads, so it is returned by the guarded block. *)
Definition evaluate_insertion_chain (route_id : nat) (customer_ids : list nat)
  (ins_pos : nat) : M Solution Q :=
  fun s0 =>
  let (s1, add_pos) := insert_chain route_id ins_pos customer_ids O s0 in
  (try_catch
     (evaluate_change dat route_id (Z.of_nat ins_pos + Z.of_nat add_pos - 1)
        cw fw)
     (modify (remove_chain route_id ins_pos add_pos) ;;;
      evaluate_change dat route_id (Z.of_nat ins_pos - 1) cw fw ;;;
      throw InfeasibilityException) ;;;
   s <- get ;;
   let tmp_cost := solution_quality s in
   modify (remove_chain route_id ins_pos add_pos) ;;;
   evaluate_change dat route_id (Z.of_nat ins_pos - 1) cw fw ;;;
   ret tmp_cost) s1.

(** [tuple<double, int, int>]: cost, route id, position *)
Definition insertion : Type := (Q * Z * Z)%type.
Definition ins_cost (i : insertion) : Q := fst (fst i).
Definition ins_route (i : insertion) : Z := snd (fst i).
Definition ins_pos (i : insertion) : Z := snd i.

(** the loop over the positions of route [rid] in [get_best_insertion].
    The positions [0 .. route.size()] are those of the route at loop
    entry: every probe restores the route before the bound is read again
    ([eip_routes] below).  In
    [evaluate_insertion_position(...) - solution_obj.solution_quality]
    the call is evaluated before the member is read. *)
Fixpoint probe_positions (rid customer_id : nat) (positions : list nat)
  (acc : Q * insertion) : M Solution (Q * insertion) :=
  match positions with
  | [] => ret acc
  | pos :: rest =>
      fun s =>
        match evaluate_insertion_position rid customer_id pos s with
        | Ok cost s' =>
            let tmp_cost := (cost - solution_quality s')%Q in
            let acc' :=
              if Qltb tmp_cost (fst acc)
              then (tmp_cost, (tmp_cost, Z.of_nat rid, Z.of_nat pos))
              else acc in
            probe_positions rid customer_id rest acc' s'
        | Throw InfeasibilityException s' => Ok acc s'   (* break *)
        | Throw e s' => Throw e s'
        end
  end.

(** the loop over the routes [start_id .. stop_id - 1] *)
Fixpoint probe_routes (customer_id : nat) (rids : list nat)
  (acc : Q * insertion) : M Solution (Q * insertion) :=
  match rids with
  | [] => ret acc
  | rid :: rest =>
      s <- get ;;
      let route := rget (solution_representation s) rid in
      acc' <- probe_positions rid customer_id (seq 0 (S (length route))) acc ;;
      probe_routes customer_id rest acc'
  end.

(** [get_best_insertion(customer_id, solution_obj, w_capa, w_frame,
    route_id = -1)] *)
Definition get_best_insertion (customer_id : nat) (route_id : Z)
  : M Solution insertion :=
  s <- get ;;
  let rids :=
    if (0 <=? route_id)%Z then [Z.to_nat route_id]
    else seq 0 (length (solution_representation s)) in
  r <- probe_routes customer_id rids (DBL_MAX, (DBL_MAX, 0%Z, 0%Z)) ;;
  ret (snd r).

(** [evaluate_removal_position] *)
Definition evaluate_removal_position (route_id rem_pos : nat) : M Solution Q :=
  s <- get ;;
  let customer_id := nget (rget (solution_representation s) route_id) rem_pos in
  modify (remove_customer route_id rem_pos) ;;;
  evaluate_change dat route_id (Z.of_nat rem_pos - 1) cw fw ;;;
  s <- get ;;
  let tmp_cost := solution_quality s in
  modify (insert_customer route_id rem_pos customer_id) ;;;
  modify (assign_chromosome customer_id route_id) ;;;
  evaluate_change dat route_id (Z.of_nat rem_pos) cw fw ;;;
  ret tmp_cost.

(** the step every greedy repair operator ends with: insert the customer
    at the chosen place and re-evaluate the route *)
Definition commit_insertion (customer_id : nat) (best_insertion : insertion)
  : M Solution unit :=
  let best_route_id := Z.to_nat (ins_route best_insertion) in
  let best_route_pos := Z.to_nat (ins_pos best_insertion) in
  modify (insert_customer best_route_id best_route_pos customer_id) ;;;
  modify (assign_chromosome customer_id best_route_id) ;;;
  evaluate_change dat best_route_id (ins_pos best_insertion) cw fw.

(** [BasicGreedyInsertionOperator::operator()] *)
Fixpoint BasicGreedyInsertionOperator (removed_customers : list nat)
  : M Solution unit :=
  match removed_customers with
  | [] => ret tt
  | customer_id :: rest =>
      best_insertion <- get_best_insertion customer_id (-1) ;;
      commit_insertion customer_id best_insertion ;;;
      BasicGreedyInsertionOperator rest
  end.

(** the removal loop of the rank-based and Shaw destroy operators: the
    customer is looked up through its chromosome *)
Fixpoint remove_customers (removed_customers : list nat) : M Solution unit :=
  match removed_customers with
  | [] => ret tt
  | customer_id :: rest =>
      s <- get ;;
      let route_id := nget (route_chromosome s) customer_id in
      let route := rget (solution_representation s) route_id in
      match get_customer_pos route customer_id with
      | None => throw logic_error
      | Some customer_pos =>
          modify (remove_customer route_id customer_pos) ;;;
          remove_customers rest
      end
  end.

End WithWeights.

(** the while loop of [RandomGreedyInsertionOperator::operator()], also the
    second phase of the beta-hybrid operator; each turn erases one element
    of the list, so [fuel = removed_customers.size()] turns run. *)
Fixpoint random_greedy_loop (env : OpEnv) (fuel : nat)
  (removed_customers : list nat) : M OpState unit :=
  match fuel, removed_customers with
  | S fuel', _ :: _ =>
      r <- rand_number (Z.of_nat (length removed_customers) - 1) 0 ;;
      let customer_pos := Z.to_nat r in
      let customer_id := nget removed_customers customer_pos in
      best_insertion <-
        on_sol (get_best_insertion (data env) (capa_error_weight env)
                  (frame_error_weight env) customer_id (-1)) ;;
      on_sol (commit_insertion (data env) (capa_error_weight env)
                (frame_error_weight env) customer_id best_insertion) ;;;
      random_greedy_loop env fuel' (remove_at removed_customers customer_pos)
  | _, _ => ret tt
  end.

(** [RandomGreedyInsertionOperator::operator()] *)
Definition RandomGreedyInsertionOperator (env : OpEnv)
  (removed_customers : list nat) : M OpState unit :=
  random_greedy_loop env (length removed_customers) removed_customers.

(** the loops of [RandomDestroyOperator::operator()] over one route *)
Fixpoint random_destroy_route (env : OpEnv) (route : list nat)
  (new_route removed_customers : list nat) : M OpState (list nat * list nat) :=
  match route with
  | [] => ret (new_route, removed_customers)
  | customer_id :: rest =>
      rnd_int <- rand_number (Z.of_nat (nr_customer (data env))) 0 ;;
      if Qltb (mean_removal env) (inject_Z rnd_int)
      then random_destroy_route env rest (new_route ++ [customer_id])
             removed_customers
      else random_destroy_route env rest new_route
             (removed_customers ++ [customer_id])
  end.

Fixpoint random_destroy_routes (env : OpEnv) (routes : list (list nat))
  (tmp_destroyed_route : list (list nat)) (removed_customers : list nat)
  : M OpState (list (list nat) * list nat) :=
  match routes with
  | [] => ret (tmp_destroyed_route, removed_customers)
  | route :: rest =>
      r <- random_destroy_route env route [] removed_customers ;;
      random_destroy_routes env rest (tmp_destroyed_route ++ [fst r]) (snd r)
  end.

(** [RandomDestroyOperator::operator()] *)
Definition RandomDestroyOperator (env : OpEnv) : M OpState (list nat) :=
  st <- get ;;
  r <- random_destroy_routes env (solution_representation (sol st)) [] [] ;;
  on_sol (modify (upd_solution_representation (fst r))) ;;;
  on_sol (modify (evaluate_solution (data env) (capa_error_weight env)
                    (frame_error_weight env))) ;;;
  ret (snd r).

(** [RandomRouteDestroyOperator::operator()] *)
Definition RandomRouteDestroyOperator (env : OpEnv) : M OpState (list nat) :=
  r <- rand_number (Z.of_nat (nr_vehicles (data env)) - 1) 0 ;;
  let route_id := Z.to_nat r in
  st <- get ;;
  let removed_customers := rget (solution_representation (sol st)) route_id in
  on_sol (modify (fun s => upd_solution_representation
                             (vset (solution_representation s) route_id []) s)) ;;;
  on_sol (modify (evaluate_solution (data env) (capa_error_weight env)
                    (frame_error_weight env))) ;;;
  ret removed_customers.

(** *** Rank based destroy operators *)

(** [vector<int> removed_customers(sorted_indices.end() - rnd_int,
    sorted_indices.end())] *)
Definition take_back (rnd_int : Z) (sorted_indices : list nat) : list nat :=
  skipn (length sorted_indices - Z.to_nat rnd_int) sorted_indices.

(** [skewed[i] = ranks[i] * pow(UNI, rnd_factor)] for [i < n] *)
Definition skew_ranks (env : OpEnv) (ranks : list Z) (n : nat)
  : M OpState (list Q) :=
  foldM (fun skewed i =>
           u <- uni ;;
           let bias := pow env u (rnd_factor env) in
           ret (vset skewed i (inject_Z (zget ranks i) * bias)%Q))
        (seq 0 n) (repeat 0%Q n).

(** the common end of the rank based operators: take the customers with
    the largest skewed ranks, remove them, re-evaluate *)
Definition remove_by_rank (env : OpEnv) (skewed_ranks : list Q)
  : M OpState (list nat) :=
  let sorted_indices := tools.sort_indices skewed_ranks in
  let removed_customers := take_back (clip_removals env) sorted_indices in
  on_sol (remove_customers removed_customers) ;;;
  on_sol (modify (evaluate_solution (data env) (capa_error_weight env)
                    (frame_error_weight env))) ;;;
  ret removed_customers.

(** [BiggestDemandDestroyOperator::operator()]; [demand_ranks] is
    [tools::get_ranks(demands)], set by the constructor. *)
Definition BiggestDemandDestroyOperator (env : OpEnv) : M OpState (list nat) :=
  let demand_ranks := tools.get_ranks (demand (data env)) in
  skewed <- skew_ranks env demand_ranks (nr_customer (data env)) ;;
  remove_by_rank env skewed.

(** the loop of [WorstTravelTimeDestroyOperator::operator()] over a route *)
Definition travel_times_route (dat : ALNSData) (s : Solution)
  (route : list nat) (travel_times : list Q) : list Q :=
  match route with
  | [] => travel_times
  | _ :: _ =>
      let '(travel_times, prev_customer_id) :=
        fold_left
          (fun acc customer_id =>
             let '(travel_times, prev_customer_id) := acc in
             let load_level := zget (load_levels s) customer_id in
             let travel_time :=
               cget (time_cube dat) load_level
                    (Z.to_nat (prev_customer_id + 1)) (S customer_id) in
             let travel_times := vset travel_times customer_id travel_time in
             let travel_times :=
               if (0 <? prev_customer_id)%Z
               then vset travel_times (Z.to_nat prev_customer_id)
                      (qget travel_times (Z.to_nat prev_customer_id)
                       + travel_time)%Q
               else travel_times in
             (travel_times, Z.of_nat customer_id))
          route (travel_times, (-1)%Z) in
      vset travel_times (Z.to_nat prev_customer_id)
        (qget travel_times (Z.to_nat prev_customer_id)
         + cget (time_cube dat) 0 (Z.to_nat (prev_customer_id + 1)) O)%Q
  end.

(** [WorstTravelTimeDestroyOperator::operator()] *)
Definition WorstTravelTimeDestroyOperator (env : OpEnv) : M OpState (list nat) :=
  st <- get ;;
  let travel_times :=
    fold_left (fun tt route => travel_times_route (data env) (sol st) route tt)
      (solution_representation (sol st))
      (repeat 0%Q (nr_customer (data env))) in
  let travel_time_ranks := tools.get_ranks travel_times in
  skewed <- skew_ranks env travel_time_ranks (length travel_time_ranks) ;;
  remove_by_rank env skewed.

(** the loop of [NodePairDestroyOperator::operator()] over a route *)
Definition historic_perf_route (potential : list (list Q)) (route : list nat)
  (historic_perf : list Q) : list Q :=
  match route with
  | [] => historic_perf
  | _ :: _ =>
      let '(historic_perf, prev_customer_id) :=
        fold_left
          (fun acc customer_id =>
             let '(historic_perf, prev_customer_id) := acc in
             let p := mget potential (Z.to_nat (prev_customer_id + 1))
                           (S customer_id) in
             let historic_perf :=
               vset historic_perf customer_id
                 (qget historic_perf customer_id + p)%Q in
             let historic_perf :=
               if (-1 <? prev_customer_id)%Z
               then vset historic_perf (Z.to_nat prev_customer_id)
                      (qget historic_perf (Z.to_nat prev_customer_id) + p)%Q
               else historic_perf in
             (historic_perf, Z.of_nat customer_id))
          route (historic_perf, (-1)%Z) in
      vset historic_perf (Z.to_nat prev_customer_id)
        (qget historic_perf (Z.to_nat prev_customer_id)
         + mget potential (Z.to_nat (prev_customer_id + 1)) O)%Q
  end.

(** [NodePairDestroyOperator::operator()] *)
Definition NodePairDestroyOperator (env : OpEnv) : M OpState (list nat) :=
  st <- get ;;
  let historic_perf :=
    fold_left (fun hp route =>
                 historic_perf_route (node_pair_potential_matrix env) route hp)
      (solution_representation (sol st))
      (repeat 0%Q (nr_customer (data env))) in
  let performance_ranks := tools.get_ranks historic_perf in
  skewed <- skew_ranks env performance_ranks (length performance_ranks) ;;
  remove_by_rank env skewed.

(** *** Shaw removal *)

Record ShawWeights := {
  sw_distance_weight : Q;
  sw_window_weight : Q;
  sw_demand_weight : Q;
  sw_vehicle_weight : Q
}.

(** the relatedness of candidate [cand_id] to the reference customer
    [rnd_customer_id], before the random perturbation (steps 2.2.1 and
    "Check if its the same route" of the source) *)
Definition shaw_relatedness (dat : ALNSData) (w : ShawWeights) (s : Solution)
  (rnd_customer_id cand_id : nat) : Q :=
  let relatedness :=
    (sw_distance_weight w
       * mget (norm_distance_matrix dat) (S rnd_customer_id) (S cand_id)
     + sw_window_weight w
       * mget (norm_start_window_matrix dat) rnd_customer_id cand_id
     + sw_window_weight w
       * mget (norm_end_window_matrix dat) rnd_customer_id cand_id
     + sw_demand_weight w
       * mget (norm_demand_matrix dat) rnd_customer_id cand_id)%Q in
  if Nat.eqb (nget (route_chromosome s) cand_id)
             (nget (route_chromosome s) cand_id)
  then (relatedness + sw_vehicle_weight w)%Q
  else relatedness.

(** step 2.2: the scan of the candidates *)
Definition shaw_scan (env : OpEnv) (w : ShawWeights) (rnd_customer_id : nat)
  (candidates : list nat) (related_cust_id_pos : nat) : M OpState nat :=
  r <- foldM (fun acc cand_pos =>
                let '(max_relatedness, related_cust_id_pos) := acc in
                let cand_id := nget candidates cand_pos in
                st <- get ;;
                let relatedness :=
                  shaw_relatedness (data env) w (sol st) rnd_customer_id cand_id in
                u <- uni ;;
                let relatedness :=
                  (relatedness * pow env u (rnd_factor env))%Q in
                if Qltb relatedness max_relatedness
                then ret (relatedness, cand_pos)
                else ret (max_relatedness, related_cust_id_pos))
             (seq 0 (length candidates)) (DBL_MAX, related_cust_id_pos) ;;
  ret (snd r).

(** [ShawDestroyOperator::operator()]; [related_cust_id_pos] is declared
    without a value before the loop (taken as [0]). *)
Definition ShawDestroyOperator (w : ShawWeights) (env : OpEnv)
  : M OpState (list nat) :=
  let nr_removed_customers := clip_removals env in
  let candidates := tools.range (nr_customer (data env)) in
  r <- rand_number (Z.of_nat (nr_customer (data env)) - 1) 0 ;;
  let customer_id := Z.to_nat r in
  let removed_customers := [customer_id] in
  let candidates := remove_at candidates customer_id in
  acc <- foldM (fun acc i =>
                  let '(removed_customers, candidates, related_cust_id_pos) := acc in
                  r <- rand_number (Z.of_nat i - 1) 0 ;;
                  let rnd_customer_id := nget removed_customers (Z.to_nat r) in
                  related_cust_id_pos <-
                    shaw_scan env w rnd_customer_id candidates
                      related_cust_id_pos ;;
                  ret (removed_customers
                         ++ [nget candidates related_cust_id_pos],
                       remove_at candidates related_cust_id_pos,
                       related_cust_id_pos))
               (seq 1 (Z.to_nat nr_removed_customers - 1))
               (removed_customers, candidates, O) ;;
  let removed_customers := fst (fst acc) in
  on_sol (remove_customers removed_customers) ;;;
  on_sol (modify (evaluate_solution (data env) (capa_error_weight env)
                    (frame_error_weight env))) ;;;
  ret removed_customers.

(** *** Worst removal *)

(** [tuple<double, int>]: perturbed gain and position *)
Definition removal : Type := (Q * Z)%type.

Record worst_state := {
  removed_customers_w : list nat;
  candidates_w : list nat;
  overall_max_diff : Q;
  best_customer_id_pos : nat;
  best_route_id : nat;
  best_rem_pos : Z;
  best_removals : list (list removal)
}.

(** [best_removals[i][j] = t] *)
Definition mset {A} (m : list (list A)) (i j : nat) (t : A) : list (list A) :=
  vset m i (vset (nth i m []) j t).

(** [tmp_cost = solution_quality - evaluate_removal_position(...);
    tmp_cost *= pow(UNI, rnd_factor)]: the member is read before the call. *)
Definition removal_gain (env : OpEnv) (route_id pos : nat) : M OpState Q :=
  st <- get ;;
  let quality := solution_quality (sol st) in
  c <- on_sol (evaluate_removal_position (data env) (capa_error_weight env)
                 (frame_error_weight env) route_id pos) ;;
  u <- uni ;;
  ret ((quality - c) * pow env u (rnd_factor env))%Q.

(** step 1 of [WorstRemovalDestroyOperator::operator()], for one candidate
    and one route *)
Definition worst_init_route (env : OpEnv) (customer_id_pos route_id : nat)
  (ws : worst_state) : M OpState worst_state :=
  st <- get ;;
  let route := rget (solution_representation (sol st)) route_id in
  r <- foldM (fun acc pos =>
                let '(max_cost_diff, ws) := acc in
                tmp_cost <- removal_gain env route_id pos ;;
                if Qltb max_cost_diff tmp_cost then
                  let ws1 :=
                    {| removed_customers_w := removed_customers_w ws;
                       candidates_w := candidates_w ws;
                       overall_max_diff := overall_max_diff ws;
                       best_customer_id_pos := best_customer_id_pos ws;
                       best_route_id := best_route_id ws;
                       best_rem_pos := best_rem_pos ws;
                       best_removals :=
                         mset (best_removals ws) customer_id_pos route_id
                              (tmp_cost, Z.of_nat pos) |} in
                  if Qltb (overall_max_diff ws1) tmp_cost then
                    ret (tmp_cost,
                         {| removed_customers_w := removed_customers_w ws1;
                            candidates_w := candidates_w ws1;
                            overall_max_diff := tmp_cost;
                            best_customer_id_pos := customer_id_pos;
                            best_route_id := route_id;
                            best_rem_pos := Z.of_nat pos;
                            best_removals := best_removals ws1 |})
                  else ret (tmp_cost, ws1)
                else ret (max_cost_diff, ws))
             (seq 0 (length route)) ((- DBL_MAX)%Q, ws) ;;
  ret (snd r).

(** step 1 *)
Definition worst_init (env : OpEnv) (ws : worst_state) : M OpState worst_state :=
  foldM (fun ws customer_id_pos =>
           foldM (fun ws route_id =>
                    worst_init_route env customer_id_pos route_id ws)
                 (seq 0 (nr_vehicles (data env))) ws)
        (seq 0 (length (candidates_w ws))) ws.

(** step 2.3 for one candidate *)
Definition worst_rescan_route (env : OpEnv) (route_id : nat)
  : M OpState removal :=
  st <- get ;;
  let route := rget (solution_representation (sol st)) route_id in
  foldM (fun acc pos =>
           tmp_cost <- removal_gain env route_id pos ;;
           if Qltb (fst acc) tmp_cost then ret (tmp_cost, Z.of_nat pos)
           else ret acc)
        (seq 0 (length route)) ((- DBL_MAX)%Q, 0%Z).

(** step 2.4: the scan for the next best candidate; the outer bound is
    [removed_customers.size()]. *)
Definition worst_next (nr_veh : nat) (ws : worst_state) : worst_state :=
  fold_left
    (fun ws customer_id_pos =>
       fold_left
         (fun ws route_id =>
            let t := nth route_id (nth customer_id_pos (best_removals ws) [])
                         (0%Q, 0%Z) in
            if Qltb (overall_max_diff ws) (fst t) then
              {| removed_customers_w := removed_customers_w ws;
                 candidates_w := candidates_w ws;
                 overall_max_diff := fst t;
                 best_customer_id_pos := customer_id_pos;
                 best_route_id := route_id;
                 best_rem_pos := snd t;
                 best_removals := best_removals ws |}
            else ws)
         (seq 0 nr_veh) ws)
    (seq 0 (length (removed_customers_w ws)))
    {| removed_customers_w := removed_customers_w ws;
       candidates_w := candidates_w ws;
       overall_max_diff := (- DBL_MAX)%Q;
       best_customer_id_pos := best_customer_id_pos ws;
       best_route_id := best_route_id ws;
       best_rem_pos := best_rem_pos ws;
       best_removals := best_removals ws |}.

(** one turn of the while loop of step 2 *)
Definition worst_turn (env : OpEnv) (ws : worst_state) : M OpState worst_state :=
  (* 2.1 *)
  let removed := removed_customers_w ws
                 ++ [nget (candidates_w ws) (best_customer_id_pos ws)] in
  on_sol (modify (remove_customer (best_route_id ws)
                    (Z.to_nat (best_rem_pos ws)))) ;;;
  on_sol (evaluate_change (data env) (best_route_id ws) (best_rem_pos ws - 1)
            (capa_error_weight env) (frame_error_weight env)) ;;;
  (* 2.2 *)
  let candidates := remove_at (candidates_w ws) (best_customer_id_pos ws) in
  let removals := remove_at (best_removals ws) (best_customer_id_pos ws) in
  (* 2.3 *)
  removals <-
    foldM (fun removals customer_id_pos =>
             t <- worst_rescan_route env (best_route_id ws) ;;
             ret (mset removals customer_id_pos (best_route_id ws) t))
          (seq 0 (length candidates)) removals ;;
  (* 2.4 *)
  ret (worst_next (nr_vehicles (data env))
         {| removed_customers_w := removed;
            candidates_w := candidates;
            overall_max_diff := overall_max_diff ws;
            best_customer_id_pos := best_customer_id_pos ws;
            best_route_id := best_route_id ws;
            best_rem_pos := best_rem_pos ws;
            best_removals := removals |}).

(** [while (unsigned(nr_removed_customers) < removed_customers.size())];
    [fuel] bounds the number of turns the model follows. *)
Fixpoint worst_loop (env : OpEnv) (fuel : nat) (nr_removed_customers : Z)
  (ws : worst_state) : M OpState worst_state :=
  if (to_unsigned nr_removed_customers
        <? Z.of_nat (length (removed_customers_w ws)))%Z
  then match fuel with
       | O => ret ws
       | S fuel' =>
           ws' <- worst_turn env ws ;;
           worst_loop env fuel' nr_removed_customers ws'
       end
  else ret ws.

(** [WorstRemovalDestroyOperator::operator()] *)
Definition WorstRemovalDestroyOperator (fuel : nat) (env : OpEnv)
  : M OpState (list nat) :=
  let nr_removed_customers := clip_removals env in
  let n := nr_customer (data env) in
  ws <- worst_init env
          {| removed_customers_w := [];
             candidates_w := tools.range n;
             overall_max_diff := (- DBL_MAX)%Q;
             best_customer_id_pos := O;
             best_route_id := O;
             best_rem_pos := 0%Z;
             best_removals :=
               repeat (repeat (0%Q, 0%Z) (nr_vehicles (data env))) n |} ;;
  ws <- worst_loop env fuel nr_removed_customers ws ;;
  ret (removed_customers_w ws).


(** *** Beta-hybrid insertion *)

(** the loop over the positions of one route in step 1.2 *)
Fixpoint chain_positions (dat : ALNSData) (cw fw : Q) (rid : nat)
  (customer_ids : list nat) (positions : list nat) (best_insertion : insertion)
  : M Solution insertion :=
  match positions with
  | [] => ret best_insertion
  | pos :: rest =>
      fun s =>
        match evaluate_insertion_chain dat cw fw rid customer_ids pos s with
        | Ok cost s' =>
            let cost_diff := (cost - solution_quality s')%Q in
            let best' :=
              if Qltb cost_diff (ins_cost best_insertion)
              then (cost_diff, Z.of_nat rid, Z.of_nat pos)
              else best_insertion in
            chain_positions dat cw fw rid customer_ids rest best' s'
        | Throw InfeasibilityException s' => Ok best_insertion s'   (* break *)
        | Throw e s' => Throw e s'
        end
  end.

(** the loop over the routes in step 1.2 *)
Definition chain_routes (dat : ALNSData) (cw fw : Q) (customer_ids : list nat)
  (rids : list nat) (best_insertion : insertion) : M Solution insertion :=
  foldM (fun best rid =>
           s <- get ;;
           let route := rget (solution_representation s) rid in
           chain_positions dat cw fw rid customer_ids
             (seq 0 (S (length route))) best)
        rids best_insertion.

(** step 1.3: insert the block and re-evaluate *)
Definition commit_chain (dat : ALNSData) (cw fw : Q) (customer_ids : list nat)
  (best_insertion : insertion) : M Solution unit :=
  let route_id := Z.to_nat (ins_route best_insertion) in
  let route_pos := Z.to_nat (ins_pos best_insertion) in
  s <- get ;;
  let (s1, add_pos) := insert_chain route_id route_pos customer_ids O s in
  put s1 ;;;
  evaluate_change dat route_id
    (ins_pos best_insertion + Z.of_nat add_pos - 1) cw fw.

(** [BetaHybridInsertionOperator::operator()] *)
Definition BetaHybridInsertionOperator (beta : Z) (env : OpEnv)
  (removed_customers : list nat) : M OpState unit :=
  let dat := data env in
  let cw := capa_error_weight env in
  let fw := frame_error_weight env in
  let best0 : insertion := (DBL_MAX, (-1)%Z, (-1)%Z) in
  let size := Z.of_nat (length removed_customers) in
  r <- (if (size <=? to_unsigned beta)%Z && (0 <? size)%Z then
          c <- rand_number 1 0 ;;
          let removed_customers :=
            if (c =? 0)%Z then rev removed_customers else removed_customers in
          st <- get ;;
          best <- on_sol (chain_routes dat cw fw removed_customers
                            (seq 0 (length (solution_representation (sol st))))
                            best0) ;;
          (if (0 <=? ins_route best)%Z
           then on_sol (commit_chain dat cw fw removed_customers best)
           else ret tt) ;;;
          ret (best, removed_customers)
        else ret (best0, removed_customers)) ;;
  let '(best_insertion, removed_customers) := r in
  if (ins_route best_insertion <? 0)%Z
     || (beta <? Z.of_nat (length removed_customers))%Z
  then random_greedy_loop env (length removed_customers) removed_customers
  else ret tt.

(** *** Deep greedy insertion *)

Definition insertion0 : insertion := (0%Q, 0%Z, 0%Z).
Definition iget (m : list (list insertion)) (i j : nat) : insertion :=
  nth j (nth i m []) insertion0.

(** step 1 *)
Definition deep_init (dat : ALNSData) (cw fw : Q) (removed_customers : list nat)
  : M Solution (list (list insertion) * insertion * nat) :=
  foldM (fun acc customer_id_pos =>
           foldM (fun acc route_id =>
                    let '(best_insertions, best_insertion, best_pos) := acc in
                    i <- get_best_insertion dat cw fw
                           (nget removed_customers customer_id_pos)
                           (Z.of_nat route_id) ;;
                    let best_insertions :=
                      mset best_insertions customer_id_pos route_id i in
                    if Qltb (ins_cost i) (ins_cost best_insertion)
                    then ret (best_insertions, i, customer_id_pos)
                    else ret (best_insertions, best_insertion, best_pos))
                 (seq 0 (nr_vehicles dat)) acc)
        (seq 0 (length removed_customers))
        (repeat (repeat insertion0 (nr_vehicles dat)) (length removed_customers),
         (DBL_MAX, 0%Z, 0%Z), O).

(** step 2.4 *)
Definition deep_next (nr_veh nr_removed : nat)
  (best_insertions : list (list insertion)) (best_pos : nat)
  : insertion * nat :=
  fold_left
    (fun acc customer_id_pos =>
       fold_left
         (fun acc route_id =>
            let i := iget best_insertions customer_id_pos route_id in
            if Qltb (ins_cost i) (ins_cost (fst acc))
            then (i, customer_id_pos) else acc)
         (seq 0 nr_veh) acc)
    (seq 0 nr_removed) ((DBL_MAX, 0%Z, 0%Z), best_pos).

(** step 2.3: the column of the changed route is computed again *)
Definition refresh_column (dat : ALNSData) (cw fw : Q)
  (removed_customers : list nat) (changed_route_id : nat)
  (best_insertions : list (list insertion))
  : M Solution (list (list insertion)) :=
  foldM (fun best_insertions customer_id_pos =>
           i <- get_best_insertion dat cw fw
                  (nget removed_customers customer_id_pos)
                  (Z.of_nat changed_route_id) ;;
           ret (mset best_insertions customer_id_pos changed_route_id i))
        (seq 0 (length removed_customers)) best_insertions.

(** the while loop of step 2.  Every turn erases one element of
    [removed_customers], so [fuel = removed_customers.size()] turns run.
    When step 2.4 finds no insertion below [DBL_MAX] it leaves
    [best_customer_id_pos] as it was, and the source reads and erases the
    list there without a check.  Inside the list the model does the same;
    at or beyond its end the source has undefined behaviour, and the model
    stops the run with [out_of_range], which stands for it.  A run that
    ends so is no return of the operator: no statement about the whole
    search below covers this operator. *)
Fixpoint deep_loop (dat : ALNSData) (cw fw : Q) (fuel : nat)
  (removed_customers : list nat) (best_insertions : list (list insertion))
  (best_insertion : insertion) (best_pos : nat) : M Solution unit :=
  match fuel with
  | O => ret tt
  | S fuel' =>
      if (length removed_customers <=? best_pos)%nat then throw out_of_range
      else
        let best_customer_id := nget removed_customers best_pos in
        commit_insertion dat cw fw best_customer_id best_insertion ;;;
        let removed_customers := remove_at removed_customers best_pos in
        let best_insertions := remove_at best_insertions best_pos in
        best_insertions <-
          refresh_column dat cw fw removed_customers
            (Z.to_nat (ins_route best_insertion)) best_insertions ;;
        let '(best_insertion, best_pos) :=
          deep_next (nr_vehicles dat) (length removed_customers)
            best_insertions best_pos in
        deep_loop dat cw fw fuel' removed_customers best_insertions
          best_insertion best_pos
  end.

(** [DeepGreedyInsertionOperator::operator()] *)
Definition DeepGreedyInsertionOperator (dat : ALNSData) (cw fw : Q)
  (removed_customers : list nat) : M Solution unit :=
  r <- deep_init dat cw fw removed_customers ;;
  let '(best_insertions, best_insertion, best_pos) := r in
  deep_loop dat cw fw (length removed_customers) removed_customers
    best_insertions best_insertion best_pos.

(** *** k-regret insertion *)

(** [less<tuple<double, int, int>>] *)
Definition tuple3_ltb (a b : insertion) : bool :=
  Qltb (ins_cost a) (ins_cost b)
  || (negb (Qltb (ins_cost b) (ins_cost a))
      && ((ins_route a <? ins_route b)%Z
          || ((ins_route a =? ins_route b)%Z && (ins_pos a <? ins_pos b)%Z))).

(** [std::partial_sort_copy(src.begin(), src.end(), dst.begin(), dst.end(),
    less)]: the smallest elements of [src], sorted, overwrite the front of
    [dst]; the rest of [dst] keeps its values. *)
Definition partial_sort_copy (src dst : list insertion) : list insertion :=
  let sorted := firstn (length dst) (tools.sort tuple3_ltb src) in
  sorted ++ skipn (length sorted) dst.

(** [for (k = 1; k < k_regret; k++)
       regret += get<0>(k_best[k]) - get<0>(k_best[k - 1])] *)
Definition regret_value (k_regret : nat) (k_best : list insertion) : Q :=
  fold_left (fun regret k =>
               (regret + (ins_cost (nth k k_best insertion0)
                          - ins_cost (nth (k - 1) k_best insertion0)))%Q)
            (seq 1 (k_regret - 1)) 0%Q.

(** steps 1.2/1.3 and 2.5/2.6: the regret of one customer and the update
    of the best choice *)
Definition regret_update (k_regret : nat) (best_ins : list insertion)
  (customer_id_pos : nat) (acc : list insertion * insertion * nat)
  : list insertion * insertion * nat :=
  let '(k_best, best_insertion, best_pos) := acc in
  let k_best := partial_sort_copy best_ins k_best in
  let regret := regret_value k_regret k_best in
  if Qltb (ins_cost best_insertion) regret
  then (k_best,
        (regret, ins_route (nth 0 k_best insertion0),
         ins_pos (nth 0 k_best insertion0)),
        customer_id_pos)
  else (k_best, best_insertion, best_pos).

(** step 1 *)
Definition regret_init (dat : ALNSData) (cw fw : Q) (k_regret : nat)
  (removed_customers : list nat)
  : M Solution (list (list insertion) * (list insertion * insertion * nat)) :=
  foldM (fun acc customer_id_pos =>
           let '(best_insertions, st) := acc in
           best_insertions <-
             foldM (fun best_insertions route_id =>
                      i <- get_best_insertion dat cw fw
                             (nget removed_customers customer_id_pos)
                             (Z.of_nat route_id) ;;
                      ret (mset best_insertions customer_id_pos route_id i))
                   (seq 0 (nr_vehicles dat)) best_insertions ;;
           ret (best_insertions,
                regret_update k_regret (nth customer_id_pos best_insertions [])
                  customer_id_pos st))
        (seq 0 (length removed_customers))
        (repeat (repeat insertion0 (nr_vehicles dat)) (length removed_customers),
         (repeat insertion0 k_regret, ((- DBL_MAX)%Q, 0%Z, 0%Z), O)).

(** steps 2.3 to 2.6 *)
Definition regret_refresh (dat : ALNSData) (cw fw : Q) (k_regret : nat)
  (removed_customers : list nat) (changed_route_id : nat)
  (best_insertions : list (list insertion)) (k_best : list insertion)
  (best_pos : nat)
  : M Solution (list (list insertion) * (list insertion * insertion * nat)) :=
  foldM (fun acc customer_id_pos =>
           let '(best_insertions, st) := acc in
           i <- get_best_insertion dat cw fw
                  (nget removed_customers customer_id_pos)
                  (Z.of_nat changed_route_id) ;;
           let best_insertions :=
             mset best_insertions customer_id_pos changed_route_id i in
           ret (best_insertions,
                regret_update k_regret (nth customer_id_pos best_insertions [])
                  customer_id_pos st))
        (seq 0 (length removed_customers))
        (best_insertions, (k_best, ((- DBL_MAX)%Q, 0%Z, 0%Z), best_pos)).

(** the while loop of step 2, with the conventions of [deep_loop] *)
Fixpoint regret_loop (dat : ALNSData) (cw fw : Q) (k_regret : nat) (fuel : nat)
  (removed_customers : list nat) (best_insertions : list (list insertion))
  (k_best : list insertion) (best_insertion : insertion) (best_pos : nat)
  : M Solution unit :=
  match fuel with
  | O => ret tt
  | S fuel' =>
      if (length removed_customers <=? best_pos)%nat then throw out_of_range
      else
        let best_customer_id := nget removed_customers best_pos in
        commit_insertion dat cw fw best_customer_id best_insertion ;;;
        let removed_customers := remove_at removed_customers best_pos in
        let best_insertions := remove_at best_insertions best_pos in
        r <- regret_refresh dat cw fw k_regret removed_customers
               (Z.to_nat (ins_route best_insertion)) best_insertions k_best
               best_pos ;;
        let '(best_insertions, (k_best, best_insertion, best_pos)) := r in
        regret_loop dat cw fw k_regret fuel' removed_customers best_insertions
          k_best best_insertion best_pos
  end.

(** [KRegretInsertionOperator::operator()] *)
Definition KRegretInsertionOperator (k_regret : nat) (dat : ALNSData)
  (cw fw : Q) (removed_customers : list nat) : M Solution unit :=
  r <- regret_init dat cw fw k_regret removed_customers ;;
  let '(best_insertions, (k_best, best_insertion, best_pos)) := r in
  regret_loop dat cw fw k_regret (length removed_customers) removed_customers
    best_insertions k_best best_insertion best_pos.


End Op.

(** ** The roulette wheel ([roulette_wheel.h], [roulette_wheel.cpp]) *)

Module Wheel.

Record RouletteWheel := {
  wheel_parameter : Q;
  memory_length : Z;
  min_weight : Q;
  nr_functors : nat;
  last_functor_id : nat;
  weights : list Q;
  scores : list Q;
  nr_uses : list Z
}.

(** [RouletteWheel(nr_functors, wheel_par, memory_length, min_weight)];
    [last_functor_id] is not initialised by the constructor (taken as [0]). *)
Definition RouletteWheel_new (nr_functors : nat) (wheel_par : Q)
  (memory_length : Z) (min_weight : Q) : RouletteWheel :=
  {| wheel_parameter := wheel_par;
     memory_length := memory_length;
     min_weight := min_weight;
     nr_functors := nr_functors;
     last_functor_id := O;
     weights := repeat (1 / inject_Z (Z.of_nat nr_functors))%Q nr_functors;
     scores := repeat 0%Q nr_functors;
     nr_uses := repeat 0%Z nr_functors |}.

(** the second loop of [get_random_functor_id]: [n] functors remain, the
    next one is [functor_id]; [None] when the loop ends without a [return]. *)
Fixpoint select_functor (rnd : Q) (weights : list Q) (n functor_id : nat)
  (current_weight : Q) : option nat :=
  match n with
  | O => None
  | S n' =>
      let current_weight := (current_weight + qget weights functor_id)%Q in
      if Qle_bool rnd current_weight then Some functor_id
      else select_functor rnd weights n' (S functor_id) current_weight
  end.

(** [RouletteWheel::get_random_functor_id()]; the state is the wheel and
    the generator of [roulette_wheel.cpp]. *)
Definition get_random_functor_id : M (RouletteWheel * tools.kiss) nat :=
  fun st =>
    let (w, k) := st in
    let sum_of_weight := Qsum (weights w) in
    let (u, k') := tools.UNI k in
    let rnd := (u * sum_of_weight)%Q in
    match select_functor rnd (weights w) (nr_functors w) O 0%Q with
    | Some functor_id =>
        Ok functor_id
           ({| wheel_parameter := wheel_parameter w;
               memory_length := memory_length w;
               min_weight := min_weight w;
               nr_functors := nr_functors w;
               last_functor_id := functor_id;
               weights := weights w;
               scores := scores w;
               nr_uses := nr_uses w |}, k')
    | None => Throw std_exception (w, k')
    end.

(** [RouletteWheel::update_stats(new_score)] *)
Definition update_stats (new_score : Q) (w : RouletteWheel) : RouletteWheel :=
  let new_functor_id := last_functor_id w in
  {| wheel_parameter := wheel_parameter w;
     memory_length := memory_length w;
     min_weight := min_weight w;
     nr_functors := nr_functors w;
     last_functor_id := last_functor_id w;
     weights := weights w;
     scores := vset (scores w) new_functor_id
                 (qget (scores w) new_functor_id + new_score)%Q;
     nr_uses := vset (nr_uses w) new_functor_id
                  (zget (nr_uses w) new_functor_id + 1)%Z |}.

(** the body of the loop of [update_weights] for one functor *)
Definition update_weight (functor_id : nat) (w : RouletteWheel) : RouletteWheel :=
  let new_weights :=
    if (0 <? zget (nr_uses w) functor_id)%Z then
      let weight :=
        (wheel_parameter w
           * (qget (scores w) functor_id
              / inject_Z (zget (nr_uses w) functor_id))
         + (1 - wheel_parameter w) * qget (weights w) functor_id)%Q in
      if Qltb weight (min_weight w)
      then vset (weights w) functor_id (min_weight w)
      else vset (weights w) functor_id weight
    else vset (weights w) functor_id (min_weight w) in
  {| wheel_parameter := wheel_parameter w;
     memory_length := memory_length w;
     min_weight := min_weight w;
     nr_functors := nr_functors w;
     last_functor_id := last_functor_id w;
     weights := new_weights;
     scores := vset (scores w) functor_id 0%Q;
     nr_uses := vset (nr_uses w) functor_id 0%Z |}.

(** [RouletteWheel::update_weights()] *)
Definition update_weights (w : RouletteWheel) : RouletteWheel :=
  fold_left (fun w functor_id => update_weight functor_id w)
            (seq 0 (nr_functors w)) w.

End Wheel.

(** ** The driver ([alns.h], [alns.cpp], initialisation) *)

Module Driver.
Import Sol.
Local Open Scope monad_scope.
Local Open Scope string_scope.
Local Abbreviation string := String.string.

Definition destroy_functor : Type := Op.OpEnv -> M Op.OpState (list nat).
Definition repair_functor : Type := Op.OpEnv -> list nat -> M Op.OpState unit.

(** the constant members of [ALNS] *)
Record Config := {
  max_time : Z;
  max_iterations : Q;
  init_temperature : Q;
  cooling_rate : Q;
  wheel_memory_length : Z;
  wheel_parameter : Q;
  functor_reward_best : Q;
  functor_reward_accept_better : Q;
  functor_reward_unique : Q;
  functor_reward_divers : Q;
  functor_penalty : Q;
  functor_min_weight : Q;
  random_noise : Q;
  target_inf : Q;
  shakeup_log : Q;
  mean_removal_log : Q;
  operator_names_d : list string;
  operator_names_r : list string
}.

(** [pow], [exp] and [log] of [math.h] *)
Record MathLib := {
  m_pow : Q -> Q -> Q;
  m_exp : Q -> Q;
  m_log : Q -> Q
}.

(** the mutable members of [ALNS] and the four copies of the generator
    (of [operator.cpp], [tools.cpp], [roulette_wheel.cpp], [alns.cpp]) *)
Record ALNS := {
  mean_removal : Q;
  inf_count : Q;
  node_pair_potential_matrix : list (list Q);
  node_pair_useage_matrix : list (list Z);
  current_solution : Solution;
  running_solution : Solution;
  visited_solutions : list (list (list nat) * Z);
  capa_error_weight : Q;
  frame_error_weight : Q;
  destroy_wheel : Wheel.RouletteWheel;
  insertion_wheel : Wheel.RouletteWheel;
  solution : Solution;
  rng_operator : tools.kiss;
  rng_tools : tools.kiss;
  rng_wheel : tools.kiss;
  rng_alns : tools.kiss
}.

(** the locals of [ALNS::solve] *)
Record Locals := {
  current_temperature : Q;
  iteration : Z;
  iteration_wi : Z;
  iteration_inf : Z;
  start : Z;
  prev_time_stamp : Z
}.

(** what one turn of the main loop takes from outside: the two readings
    of the clock and the sample of [tools::rand_number_normal] *)
Record Tick := {
  time_stamp : Z;
  clock_after : Z;
  normal_sample : Z
}.

(** [ALNS::get_destroy_functors()] for one name; [None] is the
    [invalid_argument] of an unknown name. *)
Definition get_destroy_functor (worst_fuel : nat) (operator_name : string)
  : option destroy_functor :=
  if String.eqb operator_name "random_destroy" then
    Some Op.RandomDestroyOperator
  else if String.eqb operator_name "route_destroy" then
    Some Op.RandomRouteDestroyOperator
  else if String.eqb operator_name "demand_destroy" then
    Some Op.BiggestDemandDestroyOperator
  else if String.eqb operator_name "time_destroy" then
    Some Op.WorstTravelTimeDestroyOperator
  else if String.eqb operator_name "worst_destroy" then
    Some (Op.WorstRemovalDestroyOperator worst_fuel)
  else if String.eqb operator_name "node_pair_destroy" then
    Some Op.NodePairDestroyOperator
  else if String.eqb operator_name "shaw_destroy" then
    Some (Op.ShawDestroyOperator
            {| Op.sw_distance_weight := 9; Op.sw_window_weight := 3;
               Op.sw_demand_weight := 2; Op.sw_vehicle_weight := 5 |})
  else if String.eqb operator_name "distance_similarity" then
    Some (Op.ShawDestroyOperator
            {| Op.sw_distance_weight := 1; Op.sw_window_weight := 0;
               Op.sw_demand_weight := 0; Op.sw_vehicle_weight := 0 |})
  else if String.eqb operator_name "window_similarity" then
    Some (Op.ShawDestroyOperator
            {| Op.sw_distance_weight := 0; Op.sw_window_weight := 1;
               Op.sw_demand_weight := 0; Op.sw_vehicle_weight := 0 |})
  else if String.eqb operator_name "demand_similarity" then
    Some (Op.ShawDestroyOperator
            {| Op.sw_distance_weight := 0; Op.sw_window_weight := 0;
               Op.sw_demand_weight := 1; Op.sw_vehicle_weight := 0 |})
  else None.

Definition lift_repair (f : ALNSData -> Q -> Q -> list nat -> M Solution unit)
  : repair_functor :=
  fun env removed_customers =>
    Op.on_sol (f (Op.data env) (Op.capa_error_weight env)
                 (Op.frame_error_weight env) removed_customers).

(** [ALNS::get_insertion_functors()] for one name *)
Definition get_insertion_functor (operator_name : string)
  : option repair_functor :=
  if String.eqb operator_name "basic_greedy" then
    Some (lift_repair Op.BasicGreedyInsertionOperator)
  else if String.eqb operator_name "random_greedy" then
    Some Op.RandomGreedyInsertionOperator
  else if String.eqb operator_name "deep_greedy" then
    Some (lift_repair Op.DeepGreedyInsertionOperator)
  else if String.eqb operator_name "2_regret" then
    Some (lift_repair (Op.KRegretInsertionOperator 2))
  else if String.eqb operator_name "3_regret" then
    Some (lift_repair (Op.KRegretInsertionOperator 3))
  else if String.eqb operator_name "5_regret" then
    Some (lift_repair (Op.KRegretInsertionOperator 5))
  else if String.eqb operator_name "beta_hybrid" then
    Some (Op.BetaHybridInsertionOperator 3)
  else None.

(** the functors for a list of names; an empty list stands for the
    default operator. *)
Fixpoint collect {A} (f : string -> option A) (names : list string)
  : option (list A) :=
  match names with
  | [] => Some []
  | n :: rest =>
      match f n, collect f rest with
      | Some x, Some xs => Some (x :: xs)
      | _, _ => None
      end
  end.

Definition names_or_default (names : list string) (default : string)
  : list string :=
  match names with [] => [default] | _ :: _ => names end.

Definition get_destroy_functors (worst_fuel : nat) (cfg : Config)
  : option (list destroy_functor) :=
  collect (get_destroy_functor worst_fuel)
    (names_or_default (operator_names_d cfg) "random_destroy").

Definition get_insertion_functors (cfg : Config)
  : option (list repair_functor) :=
  collect get_insertion_functor
    (names_or_default (operator_names_r cfg) "basic_greedy").

(** assignments to the members of [ALNS] that the loop changes *)
Definition with_running (v : Solution) (a : ALNS) : ALNS :=
  {| mean_removal := mean_removal a; inf_count := inf_count a;
     node_pair_potential_matrix := node_pair_potential_matrix a;
     node_pair_useage_matrix := node_pair_useage_matrix a;
     current_solution := current_solution a; running_solution := v;
     visited_solutions := visited_solutions a;
     capa_error_weight := capa_error_weight a;
     frame_error_weight := frame_error_weight a;
     destroy_wheel := destroy_wheel a; insertion_wheel := insertion_wheel a;
     solution := solution a; rng_operator := rng_operator a;
     rng_tools := rng_tools a; rng_wheel := rng_wheel a;
     rng_alns := rng_alns a |}.

Definition with_current (v : Solution) (a : ALNS) : ALNS :=
  {| mean_removal := mean_removal a; inf_count := inf_count a;
     node_pair_potential_matrix := node_pair_potential_matrix a;
     node_pair_useage_matrix := node_pair_useage_matrix a;
     current_solution := v; running_solution := running_solution a;
     visited_solutions := visited_solutions a;
     capa_error_weight := capa_error_weight a;
     frame_error_weight := frame_error_weight a;
     destroy_wheel := destroy_wheel a; insertion_wheel := insertion_wheel a;
     solution := solution a; rng_operator := rng_operator a;
     rng_tools := rng_tools a; rng_wheel := rng_wheel a;
     rng_alns := rng_alns a |}.

Definition with_solution (v : Solution) (a : ALNS) : ALNS :=
  {| mean_removal := mean_removal a; inf_count := inf_count a;
     node_pair_potential_matrix := node_pair_potential_matrix a;
     node_pair_useage_matrix := node_pair_useage_matrix a;
     current_solution := current_solution a;
     running_solution := running_solution a;
     visited_solutions := visited_solutions a;
     capa_error_weight := capa_error_weight a;
     frame_error_weight := frame_error_weight a;
     destroy_wheel := destroy_wheel a; insertion_wheel := insertion_wheel a;
     solution := v; rng_operator := rng_operator a;
     rng_tools := rng_tools a; rng_wheel := rng_wheel a;
     rng_alns := rng_alns a |}.

Definition with_mean_removal (v : Q) (a : ALNS) : ALNS :=
  {| mean_removal := v; inf_count := inf_count a;
     node_pair_potential_matrix := node_pair_potential_matrix a;
     node_pair_useage_matrix := node_pair_useage_matrix a;
     current_solution := current_solution a;
     running_solution := running_solution a;
     visited_solutions := visited_solutions a;
     capa_error_weight := capa_error_weight a;
     frame_error_weight := frame_error_weight a;
     destroy_wheel := destroy_wheel a; insertion_wheel := insertion_wheel a;
     solution := solution a; rng_operator := rng_operator a;
     rng_tools := rng_tools a; rng_wheel := rng_wheel a;
     rng_alns := rng_alns a |}.

Definition with_inf_count (v : Q) (a : ALNS) : ALNS :=
  {| mean_removal := mean_removal a; inf_count := v;
     node_pair_potential_matrix := node_pair_potential_matrix a;
     node_pair_useage_matrix := node_pair_useage_matrix a;
     current_solution := current_solution a;
     running_solution := running_solution a;
     visited_solutions := visited_solutions a;
     capa_error_weight := capa_error_weight a;
     frame_error_weight := frame_error_weight a;
     destroy_wheel := destroy_wheel a; insertion_wheel := insertion_wheel a;
     solution := solution a; rng_operator := rng_operator a;
     rng_tools := rng_tools a; rng_wheel := rng_wheel a;
     rng_alns := rng_alns a |}.

Definition with_matrices (p : list (list Q)) (u : list (list Z)) (a : ALNS)
  : ALNS :=
  {| mean_removal := mean_removal a; inf_count := inf_count a;
     node_pair_potential_matrix := p; node_pair_useage_matrix := u;
     current_solution := current_solution a;
     running_solution := running_solution a;
     visited_solutions := visited_solutions a;
     capa_error_weight := capa_error_weight a;
     frame_error_weight := frame_error_weight a;
     destroy_wheel := destroy_wheel a; insertion_wheel := insertion_wheel a;
     solution := solution a; rng_operator := rng_operator a;
     rng_tools := rng_tools a; rng_wheel := rng_wheel a;
     rng_alns := rng_alns a |}.

Definition with_visited (v : list (list (list nat) * Z)) (a : ALNS) : ALNS :=
  {| mean_removal := mean_removal a; inf_count := inf_count a;
     node_pair_potential_matrix := node_pair_potential_matrix a;
     node_pair_useage_matrix := node_pair_useage_matrix a;
     current_solution := current_solution a;
     running_solution := running_solution a;
     visited_solutions := v;
     capa_error_weight := capa_error_weight a;
     frame_error_weight := frame_error_weight a;
     destroy_wheel := destroy_wheel a; insertion_wheel := insertion_wheel a;
     solution := solution a; rng_operator := rng_operator a;
     rng_tools := rng_tools a; rng_wheel := rng_wheel a;
     rng_alns := rng_alns a |}.

Definition with_error_weights (cw fw : Q) (a : ALNS) : ALNS :=
  {| mean_removal := mean_removal a; inf_count := inf_count a;
     node_pair_potential_matrix := node_pair_potential_matrix a;
     node_pair_useage_matrix := node_pair_useage_matrix a;
     current_solution := current_solution a;
     running_solution := running_solution a;
     visited_solutions := visited_solutions a;
     capa_error_weight := cw; frame_error_weight := fw;
     destroy_wheel := destroy_wheel a; insertion_wheel := insertion_wheel a;
     solution := solution a; rng_operator := rng_operator a;
     rng_tools := rng_tools a; rng_wheel := rng_wheel a;
     rng_alns := rng_alns a |}.

Definition with_wheels (d r : Wheel.RouletteWheel) (k : tools.kiss) (a : ALNS)
  : ALNS :=
  {| mean_removal := mean_removal a; inf_count := inf_count a;
     node_pair_potential_matrix := node_pair_potential_matrix a;
     node_pair_useage_matrix := node_pair_useage_matrix a;
     current_solution := current_solution a;
     running_solution := running_solution a;
     visited_solutions := visited_solutions a;
     capa_error_weight := capa_error_weight a;
     frame_error_weight := frame_error_weight a;
     destroy_wheel := d; insertion_wheel := r;
     solution := solution a; rng_operator := rng_operator a;
     rng_tools := rng_tools a; rng_wheel := k;
     rng_alns := rng_alns a |}.

Definition with_op_state (st : Op.OpState) (a : ALNS) : ALNS :=
  {| mean_removal := mean_removal a; inf_count := inf_count a;
     node_pair_potential_matrix := node_pair_potential_matrix a;
     node_pair_useage_matrix := node_pair_useage_matrix a;
     current_solution := current_solution a;
     running_solution := Op.sol st;
     visited_solutions := visited_solutions a;
     capa_error_weight := capa_error_weight a;
     frame_error_weight := frame_error_weight a;
     destroy_wheel := destroy_wheel a; insertion_wheel := insertion_wheel a;
     solution := solution a; rng_operator := Op.rng_operator st;
     rng_tools := Op.rng_tools st; rng_wheel := rng_wheel a;
     rng_alns := rng_alns a |}.

Definition with_rng_alns (k : tools.kiss) (a : ALNS) : ALNS :=
  {| mean_removal := mean_removal a; inf_count := inf_count a;
     node_pair_potential_matrix := node_pair_potential_matrix a;
     node_pair_useage_matrix := node_pair_useage_matrix a;
     current_solution := current_solution a;
     running_solution := running_solution a;
     visited_solutions := visited_solutions a;
     capa_error_weight := capa_error_weight a;
     frame_error_weight := frame_error_weight a;
     destroy_wheel := destroy_wheel a; insertion_wheel := insertion_wheel a;
     solution := solution a; rng_operator := rng_operator a;
     rng_tools := rng_tools a; rng_wheel := rng_wheel a;
     rng_alns := k |}.

(** the view of the driver an operator works on, and what it reads *)
Definition op_state (a : ALNS) : Op.OpState :=
  {| Op.sol := running_solution a; Op.rng_operator := rng_operator a;
     Op.rng_tools := rng_tools a |}.

Definition op_env (dat : ALNSData) (cfg : Config) (lib : MathLib) (t : Tick)
  (a : ALNS) : Op.OpEnv :=
  {| Op.data := dat;
     Op.capa_error_weight := capa_error_weight a;
     Op.frame_error_weight := frame_error_weight a;
     Op.mean_removal := mean_removal a;
     Op.rnd_factor := random_noise cfg;
     Op.pow := m_pow lib;
     Op.normal_sample := normal_sample t;
     Op.node_pair_potential_matrix := node_pair_potential_matrix a |}.

(** [m[i][j]] and [m[i][j] = x] on the historic matrices *)
Definition uget (m : list (list Z)) (i j : nat) : Z := zget (nth i m []) j.

(** [ALNS::update_historic_matrices()] for one route *)
Definition historic_route (driving_time : Q) (route : list nat)
  (pu : list (list Q) * list (list Z)) : list (list Q) * list (list Z) :=
  match route with
  | [] => pu
  | _ :: _ =>
      let '(p, u, prev_node_id) :=
        fold_left
          (fun acc customer_id =>
             let '(p, u, prev_node_id) := acc in
             let p :=
               if Qltb driving_time (mget p prev_node_id (S customer_id))
               then Op.mset p prev_node_id (S customer_id) driving_time
               else p in
             let u := Op.mset u prev_node_id (S customer_id)
                        (uget u prev_node_id (S customer_id) + 1)%Z in
             (p, u, S customer_id))
          route (fst pu, snd pu, O) in
      (Op.mset p prev_node_id O driving_time,
       Op.mset u prev_node_id O (uget u prev_node_id O + 1)%Z)
  end.

(** [ALNS::update_historic_matrices()] *)
Definition update_historic_matrices (a : ALNS) : ALNS :=
  let running := running_solution a in
  let (p, u) :=
    fold_left (fun pu route => historic_route (driving_time running) route pu)
      (solution_representation running)
      (node_pair_potential_matrix a, node_pair_useage_matrix a) in
  with_matrices p u a.

(** [ALNS::update_weights()] *)
Definition update_weights (dat : ALNSData) (cfg : Config) (a : ALNS) : ALNS :=
  let current_inf := (inf_count a / 100)%Q in
  let '(cw, fw) :=
    if Qltb (current_inf + (5 # 100)) (target_inf cfg) then
      ((capa_error_weight a * (85 # 100))%Q,
       (frame_error_weight a * (85 # 100))%Q)
    else if Qltb (target_inf cfg) (current_inf - (5 # 100)) then
      ((capa_error_weight a * (12 # 10))%Q,
       (frame_error_weight a * (12 # 10))%Q)
    else (capa_error_weight a, frame_error_weight a) in
  let a := with_error_weights cw fw a in
  let a := with_current (set_quality dat cw fw (current_solution a)) a in
  with_running (set_quality dat cw fw (running_solution a)) a.

(** the search for a route with room in [route_init_random], over the
    route ids [rids] *)
Fixpoint try_routes (rids : list nat) (node_id : nat) (demands : list Q)
  (max_capacity : Z) (solution_value : list (list nat))
  (vehicle_loads : list Q) : option (list (list nat) * list Q) :=
  match rids with
  | [] => None
  | route_id :: rest =>
      let new_vehicle_load :=
        (qget vehicle_loads route_id + qget demands node_id)%Q in
      if Qltb new_vehicle_load (inject_Z max_capacity) then
        Some (vset solution_value route_id
                (rget solution_value route_id ++ [node_id]),
              vset vehicle_loads route_id new_vehicle_load)
      else try_routes rest node_id demands max_capacity solution_value
             vehicle_loads
  end.

(** the while loop of [route_init_random]; every turn erases one node id,
    so [fuel = node_ids.size()] turns run. *)
Fixpoint init_loop (fuel : nat) (nr_veh : nat) (demands : list Q)
  (max_capacity : Z) (node_ids : list nat) (solution_value : list (list nat))
  (vehicle_loads : list Q) : M tools.kiss (list (list nat)) :=
  match fuel with
  | O => ret solution_value
  | S fuel' =>
      fun k =>
        let (r, k) := tools.rand_number (Z.of_nat (List.length node_ids) - 1) 0 k in
        let node_pos := Z.to_nat r in
        let node_id := nget node_ids node_pos in
        let (r, k) := tools.rand_number (Z.of_nat nr_veh - 1) 0 k in
        let route_id_start := Z.to_nat r in
        let found :=
          match try_routes (seq route_id_start (nr_veh - route_id_start))
                  node_id demands max_capacity solution_value vehicle_loads with
          | Some r => Some r
          | None =>
              try_routes (seq 0 route_id_start) node_id demands max_capacity
                solution_value vehicle_loads
          end in
        match found with
        | Some (solution_value, vehicle_loads) =>
            init_loop fuel' nr_veh demands max_capacity
              (remove_at node_ids node_pos) solution_value vehicle_loads k
        | None => Throw invalid_argument k
        end
  end.

(** [route_init_random(nr_vehicles, nr_customers, demands, max_capacity)] *)
Definition route_init_random (nr_veh nr_customers : nat) (demands : list Q)
  (max_capacity : Z) : M tools.kiss (list (list nat)) :=
  init_loop nr_customers nr_veh demands max_capacity (tools.range nr_customers)
    (repeat [] nr_veh) (repeat 0%Q nr_veh).

(** [ALNS::initialization()] *)
Definition initialization (dat : ALNSData) : M ALNS unit :=
  fun a =>
    let max_capacity := (vehicle_cap dat + add_pseudo_capacity dat)%Z in
    match route_init_random (nr_vehicles dat) (nr_customer dat) (demand dat)
            max_capacity (rng_tools a) with
    | Throw e k =>
        Throw e (with_op_state
                   {| Op.sol := running_solution a;
                      Op.rng_operator := rng_operator a;
                      Op.rng_tools := k |} a)
    | Ok solution_rep k =>
        let initial_solution :=
          Solution_new dat solution_rep (capa_error_weight a)
            (frame_error_weight a) in
        Ok tt (with_current initial_solution
                 (with_op_state
                    {| Op.sol := initial_solution;
                       Op.rng_operator := rng_operator a;
                       Op.rng_tools := k |} a))
    end.

(** [visited_solutions.count(routes)] on the map from routes to time stamps *)
Definition routes_eqb (x y : list (list nat)) : bool :=
  if list_eq_dec (list_eq_dec Nat.eq_dec) x y then true else false.

Definition count_visited (routes : list (list nat))
  (visited : list (list (list nat) * Z)) : bool :=
  existsb (fun e => routes_eqb (fst e) routes) visited.

Definition with_locals (T : Q) (it wi inf st pts : Z) : Locals :=
  {| current_temperature := T; iteration := it; iteration_wi := wi;
     iteration_inf := inf; start := st; prev_time_stamp := pts |}.

(** step 4.2: comparison of the running with the current solution;
    returns the driver and the benefit collected. *)
Definition accept_current (dat : ALNSData) (cfg : Config) (lib : MathLib)
  (l : Locals) (operation_benefit : Q) (a : ALNS) : ALNS * Q :=
  let running_quality := solution_quality (running_solution a) in
  let current_quality := solution_quality (current_solution a) in
  if Qltb running_quality current_quality then
    (with_current (running_solution a) a,
     (operation_benefit + functor_reward_accept_better cfg)%Q)
  else
    let diversity_relevance :=
      m_exp lib (- (running_quality - current_quality)
                 / current_temperature l)%Q in
    let diversity :=
      get_diversity dat (running_solution a) (node_pair_useage_matrix a)
        (iteration l) in
    let operation_benefit :=
      (operation_benefit
       + diversity * diversity_relevance * functor_reward_divers cfg)%Q in
    let operation_benefit := (operation_benefit + functor_penalty cfg)%Q in
    let (random_int, k) := tools.UNI (rng_alns a) in
    let a := with_rng_alns k a in
    (if Qltb random_int diversity_relevance
     then with_current (running_solution a) a else a,
     operation_benefit).

(** step 4.3: comparison of the running with the best solution; returns
    the driver, the benefit and [iteration_wi]. *)
Definition accept_best (dat : ALNSData) (cfg : Config) (lib : MathLib)
  (iteration_wi : Z) (operation_benefit : Q) (a : ALNS) : ALNS * Q * Z :=
  let base :=
    (m_log lib (inject_Z (Z.of_nat (nr_customer dat)))
     / m_log lib (mean_removal_log cfg))%Q in
  if Qltb (driving_time (running_solution a)) (driving_time (solution a))
     && is_feasible (running_solution a)
  then
    let a := with_solution (running_solution a) a in
    let a :=
      if Qltb 0 (shakeup_log cfg)
      then with_mean_removal (inject_Z (Qceiling base)) a else a in
    (a, (operation_benefit + functor_reward_best cfg)%Q, 0%Z)
  else
    let iteration_wi := (iteration_wi + 1)%Z in
    let a :=
      if Qltb 0 (shakeup_log cfg)
      then with_mean_removal
             (inject_Z
                (Qceiling ((m_log lib (inject_Z (iteration_wi + 1))
                            / m_log lib (shakeup_log cfg)) * base)))%Q a
      else a in
    (a, operation_benefit, iteration_wi).

(** a functor that is never called: the wheel returns an id below the
    number of functors *)
Definition no_destroy : destroy_functor := fun _ => ret [].
Definition no_repair : repair_functor := fun _ _ => ret tt.

(** one turn of the while loop of [ALNS::solve] *)
Definition turn (dat : ALNSData) (cfg : Config) (lib : MathLib)
  (dfs : list destroy_functor) (rfs : list repair_functor) (t : Tick)
  : M (ALNS * Locals) unit :=
  fun al =>
  let (a, l) := al in
  (* 2) *)
  match Wheel.get_random_functor_id (destroy_wheel a, rng_wheel a) with
  | Throw e (w, k) => Throw e (with_wheels w (insertion_wheel a) k a, l)
  | Ok d_id (dw, k) =>
  match Wheel.get_random_functor_id (insertion_wheel a, k) with
  | Throw e (w, k) => Throw e (with_wheels dw w k a, l)
  | Ok r_id (iw, k) =>
  let a := with_wheels dw iw k a in
  let destroy_operator := nth d_id dfs no_destroy in
  let insertion_operator := nth r_id rfs no_repair in
  (* 3) *)
  let env := op_env dat cfg lib t a in
  match (removed_customers <- destroy_operator env ;;
         insertion_operator env removed_customers) (op_state a) with
  | Throw e st => Throw e (with_op_state st a, l)
  | Ok _ st =>
  let a := with_op_state st a in
  let a := update_historic_matrices a in
  (* 4.1) *)
  let count_sol :=
    count_visited (solution_representation (running_solution a))
      (visited_solutions a) in
  let operation_benefit :=
    if count_sol then 0%Q else (0 + functor_reward_unique cfg)%Q in
  (* 4.2) *)
  let (a, operation_benefit) := accept_current dat cfg lib l operation_benefit a in
  (* 4.3) *)
  let '(a, operation_benefit, iteration_wi) :=
    accept_best dat cfg lib (iteration_wi l) operation_benefit a in
  (* 5.1) *)
  let a :=
    if count_sol then a
    else with_visited
           ((solution_representation (running_solution a), time_stamp t)
            :: visited_solutions a) a in
  (* 5.2) *)
  let a :=
    if is_feasible (running_solution a) then a
    else with_inf_count (inf_count a + 1)%Q a in
  let (a, iteration_inf) :=
    if (iteration_inf l =? 99)%Z
    then (with_inf_count 0 (update_weights dat cfg a), 0%Z)
    else (a, (iteration_inf l + 1)%Z) in
  let execution_time := (clock_after t - time_stamp t + 1)%Z in
  let score := (operation_benefit / inject_Z execution_time)%Q in
  let dw := Wheel.update_stats score (destroy_wheel a) in
  let iw := Wheel.update_stats score (insertion_wheel a) in
  let nd := List.length (names_or_default (operator_names_d cfg) "random_destroy") in
  let nr := List.length (names_or_default (operator_names_r cfg) "basic_greedy") in
  let dw :=
    if (iteration l mod (Z.of_nat nd * wheel_memory_length cfg) =? 0)%Z
    then Wheel.update_weights dw else dw in
  let iw :=
    if (iteration l mod (Z.of_nat nr * wheel_memory_length cfg) =? 0)%Z
    then Wheel.update_weights iw else iw in
  let a := with_wheels dw iw (rng_wheel a) a in
  (* 5.3), 5.4), 5.6) *)
  let a := with_running (current_solution a) a in
  Ok tt (a, with_locals (current_temperature l * cooling_rate cfg)%Q
              (iteration l + 1)%Z iteration_wi iteration_inf (start l)
              (time_stamp t))
  end end end.

(** the while loop of [ALNS::solve]; it runs as long as its condition
    holds and the clock readings [ticks] last. *)
Fixpoint main_loop (dat : ALNSData) (cfg : Config) (lib : MathLib)
  (dfs : list destroy_functor) (rfs : list repair_functor) (ticks : list Tick)
  : M (ALNS * Locals) unit :=
  fun al =>
    let l := snd al in
    if (Z.quot (prev_time_stamp l - start l) 1000 <? max_time cfg)%Z
       && Qltb (inject_Z (iteration_wi l)) (max_iterations cfg)
    then match ticks with
         | [] => Ok tt al
         | t :: rest =>
             match turn dat cfg lib dfs rfs t al with
             | Ok _ al' => main_loop dat cfg lib dfs rfs rest al'
             | Throw e al' => Throw e al'
             end
         end
    else Ok tt al.

(** [ALNS::solve()]: [clock0] and [clock1] are the two readings of the
    clock before the loop.  The result is the best solution with the
    members [iterations] and [solution_time_ms]. *)
Definition solve (dat : ALNSData) (cfg : Config) (lib : MathLib)
  (dfs : list destroy_functor) (rfs : list repair_functor)
  (clock0 clock1 : Z) (ticks : list Tick) : M ALNS (Solution * Z * Z) :=
  fun a =>
    match initialization dat a with
    | Throw e a => Throw e a
    | Ok _ a =>
        let T := (init_temperature cfg
                  * solution_quality (running_solution a))%Q in
        match main_loop dat cfg lib dfs rfs ticks
                (a, with_locals T 0 0 0 clock0 clock1) with
        | Throw e (a, _) => Throw e a
        | Ok _ (a, l) =>
            Ok (solution a, iteration l, (prev_time_stamp l - start l)%Z) a
        end
    end.

(** [ALNS::ALNS(...)]: the state of the driver after construction *)
Definition ALNS_new (dat : ALNSData) (cfg : Config) (lib : MathLib) : ALNS :=
  let nd := List.length (names_or_default (operator_names_d cfg) "random_destroy") in
  let nr := List.length (names_or_default (operator_names_r cfg) "basic_greedy") in
  {| mean_removal :=
       (m_log lib (inject_Z (Z.of_nat (nr_customer dat)))
        / m_log lib (mean_removal_log cfg))%Q;
     inf_count := 0;
     node_pair_potential_matrix :=
       repeat (repeat DBL_MAX (nr_nodes dat)) (nr_nodes dat);
     node_pair_useage_matrix :=
       repeat (repeat 0%Z (nr_nodes dat)) (nr_nodes dat);
     current_solution := Solution_default;
     running_solution := Solution_default;
     visited_solutions := [];
     capa_error_weight := 1;
     frame_error_weight := 1;
     destroy_wheel :=
       Wheel.RouletteWheel_new nd (wheel_parameter cfg)
         (Z.of_nat nd * wheel_memory_length cfg) (functor_min_weight cfg);
     insertion_wheel :=
       Wheel.RouletteWheel_new nr (wheel_parameter cfg)
         (Z.of_nat nr * wheel_memory_length cfg) (functor_min_weight cfg);
     solution := Solution_default;
     rng_operator := tools.kiss_init;
     rng_tools := tools.kiss_init;
     rng_wheel := tools.kiss_init;
     rng_alns := tools.kiss_init |}.

End Driver.

(** ** A small instance

    Five customers, two vehicles, one load bucket and unit travel times
    between distinct nodes.  The statements that are settled by running
    the code are run on this instance. *)

Module Examples.

Definition unit_cube (n : nat) : list (list (list Q)) :=
  [ map (fun i => map (fun j => if Nat.eqb i j then 0%Q else 1%Q) (seq 0 n))
        (seq 0 n) ].

Definition five (cap : Z) : ALNSData :=
  {| vehicle_weight := 0; vehicle_cap := cap; add_pseudo_capacity := 6;
     load_bucket_size := 20; nr_vehicles := 2; nr_nodes := 6; nr_customer := 5;
     demand := [6; 5; 4; 6; 6]; service_times := [0; 0; 0; 0; 0];
     start_window := [0; 0; 0; 0; 0];
     end_window := [1000; 1000; 1000; 1000; 1000];
     time_cube := unit_cube 6;
     norm_distance_matrix := repeat (repeat 1 6) 6;
     norm_start_window_matrix := repeat (repeat 0 5) 5;
     norm_end_window_matrix := repeat (repeat 0 5) 5;
     norm_demand_matrix := repeat (repeat 0 5) 5 |}.

(** the operator members: both error weights 1, [pow] constantly 1 and a
    normal sample of 2 *)
Definition env_of (dat : ALNSData) : Op.OpEnv :=
  {| Op.data := dat; Op.capa_error_weight := 1; Op.frame_error_weight := 1;
     Op.mean_removal := 2; Op.rnd_factor := 1; Op.pow := fun _ _ => 1;
     Op.normal_sample := 2;
     Op.node_pair_potential_matrix := repeat (repeat 0 6) 6 |}.

Definition state_of_routes (dat : ALNSData) (routes : list (list nat))
  : Op.OpState :=
  {| Op.sol := Sol.Solution_new dat routes 1 1;
     Op.rng_operator := tools.kiss_init; Op.rng_tools := tools.kiss_init |}.

(** the start of every run below: routes [0 1 2] and [3 4] *)
Definition start (cap : Z) : Op.OpState :=
  state_of_routes (five cap) [[0; 1; 2]; [3; 4]]%nat.

(** the value and the state of a run *)
Definition value_of {S A : Type} (d : A) (r : result S A) : A :=
  match r with Ok a _ => a | Throw _ _ => d end.

(** customers 2 and 4 taken out of the start, capacity 10 *)
Definition two_out : Solution :=
  Sol.evaluate_solution (five 10) 1 1
    (upd_solution_representation [[0; 1]; [3]]%nat (Op.sol (start 10))).

(** customer 4 put at the end of the first route of the start, not yet
    evaluated *)
Definition four_in : Solution :=
  upd_solution_representation [[0; 1; 2; 4]; [3]]%nat (Op.sol (start 10)).

(** an instance with two customers: the usage counts after a
    first iteration with route [0 1] and a second with route [1 0] *)
Definition two_customers : ALNSData :=
  {| vehicle_weight := 0; vehicle_cap := 100; add_pseudo_capacity := 6;
     load_bucket_size := 20; nr_vehicles := 1; nr_nodes := 3; nr_customer := 2;
     demand := [1; 1]; service_times := [0; 0]; start_window := [0; 0];
     end_window := [1000; 1000]; time_cube := unit_cube 3;
     norm_distance_matrix := repeat (repeat 1 3) 3;
     norm_start_window_matrix := repeat (repeat 0 2) 2;
     norm_end_window_matrix := repeat (repeat 0 2) 2;
     norm_demand_matrix := repeat (repeat 0 2) 2 |}.
Definition usage_after_two : list (list Z) :=
  [[0; 1; 1]; [1; 0; 1]; [1; 1; 0]]%Z.
Definition second_routes : Solution :=
  Sol.Solution_new two_customers [[1; 0]]%nat 1 1.

(** the names of the operators of the run *)
Section Names.
Local Open Scope string_scope.
Definition destroy_name : String.string := "random_destroy".
Definition repair_name : String.string := "basic_greedy".
End Names.

End Examples.

(** ** The formulas of the specification, for comparison *)

(** relatedness with the vehicle term for candidates in the route of the
    reference customer only *)
Definition shaw_relatedness_claimed (dat : ALNSData) (w : Op.ShawWeights)
  (s : Solution) (rnd_customer_id cand_id : nat) : Q :=
  let relatedness :=
    (Op.sw_distance_weight w
       * mget (norm_distance_matrix dat) (S rnd_customer_id) (S cand_id)
     + Op.sw_window_weight w
       * mget (norm_start_window_matrix dat) rnd_customer_id cand_id
     + Op.sw_window_weight w
       * mget (norm_end_window_matrix dat) rnd_customer_id cand_id
     + Op.sw_demand_weight w
       * mget (norm_demand_matrix dat) rnd_customer_id cand_id)%Q in
  if Nat.eqb (nget (route_chromosome s) rnd_customer_id)
             (nget (route_chromosome s) cand_id)
  then (relatedness + Op.sw_vehicle_weight w)%Q
  else relatedness.

(** the arcs of a route that leaves node [from], back to the depot *)
Fixpoint arcs (from : nat) (route : list nat) : list (nat * nat) :=
  match route with
  | [] => [(from, O)]
  | c :: rest => (from, S c) :: arcs (S c) rest
  end.

(** [sum over the arcs of (1 - usage[arc] / (iter + 1))
     / (n_customers + routes used)], with the division of the rationals *)
Definition diversity_claimed (dat : ALNSData) (s : Solution)
  (usage : list (list Z)) (iteration : Z) : Q :=
  let used := filter (fun route => negb (Nat.eqb (length route) 0))
                     (solution_representation s) in
  let terms :=
    map (fun a => (1 - inject_Z (zget (nth (fst a) usage []) (snd a))
                       / inject_Z (iteration + 1))%Q)
        (concat (map (arcs O) used)) in
  (Qsum terms / inject_Z (Z.of_nat (nr_customer dat) + Z.of_nat (length used)))%Q.

(** ** What the statements below speak of *)

(** *** The wheel *)

Section WheelNotions.
Import Wheel.

(** the three vectors of a wheel have one entry per functor *)
Definition wheel_wf (w : RouletteWheel) : Prop :=
  length (weights w) = nr_functors w
  /\ length (scores w) = nr_functors w
  /\ length (nr_uses w) = nr_functors w.

(** the weight the specification assigns to functor [i] *)
Definition updated_weight (w : RouletteWheel) (i : nat) : Q :=
  if (0 <? zget (nr_uses w) i)%Z
  then fmax (wheel_parameter w * (qget (scores w) i / inject_Z (zget (nr_uses w) i))
             + (1 - wheel_parameter w) * qget (weights w) i)
            (min_weight w)
  else min_weight w.

End WheelNotions.

(** *** The best solution *)

Section DriverNotions.
Import Driver.

(** the relation between the best solution before and after some turns *)
Definition best_step (b b' : Solution) : Prop :=
  b' = b \/ (is_feasible b' = true /\ driving_time b' < driving_time b).

End DriverNotions.

(** *** What it means that the caches of a route agree with its contents
    (invariants I3 to I9 of the specification) *)

Section SolutionNotions.
Import Sol.

(** the demand served from the head of [route] to its end *)
Fixpoint route_load (dat : ALNSData) (route : list nat) : Q :=
  match route with
  | [] => 0
  | c :: rest => qget (demand dat) c + route_load dat rest
  end.

(** I3 for the positions [from ..] of a route *)
Definition loads_consistent (dat : ALNSData) (route : list nat)
  (lds : list Q) (lvls : list Z) (from : nat) : Prop :=
  forall k, (from <= k < length route)%nat ->
    qget lds (nget route k) == route_load dat (skipn k route)
    /\ zget lvls (nget route k)
       = route_evaluate.get_load_bucket (qget lds (nget route k)) (load_bucket_size dat).

(** the node a vehicle comes from when it reaches position [k] *)
Definition prev_node (route : list nat) (k : nat) : nat :=
  match k with O => O | S j => S (nget route j) end.

(** I4 for a route that starts at [start_time] *)
Definition times_consistent (dat : ALNSData) (route : list nat)
  (lvls : list Z) (start_time : Q) (arr dep : list Q) : Prop :=
  forall k, (k < length route)%nat ->
    let c := nget route k in
    let prev_departure :=
      match k with O => start_time | S j => qget dep (nget route j) end in
    qget arr c
    == fmax (prev_departure
             + cget (time_cube dat) (zget lvls c) (prev_node route k) (S c))
            (qget (start_window dat) c)
    /\ qget dep c == qget arr c + qget (service_times dat) c.

(** I5: the arcs of a route that leaves node [from], with the return to
    the depot in bucket 0 *)
Fixpoint travel_time (dat : ALNSData) (lvls : list Z) (from : nat)
  (route : list nat) : Q :=
  match route with
  | [] => cget (time_cube dat) 0 from O
  | c :: rest =>
      cget (time_cube dat) (zget lvls c) from (S c)
      + travel_time dat lvls (S c) rest
  end.

(** I6 *)
Definition capa_error_of (dat : ALNSData) (route : list nat) : Q :=
  fmax 0 (route_load dat route - inject_Z (to_unsigned (vehicle_cap dat))).

(** I7 *)
Fixpoint lateness (dat : ALNSData) (arr : list Q) (route : list nat) : Q :=
  match route with
  | [] => 0
  | c :: rest =>
      fmax 0 (qget arr c - qget (end_window dat) c) + lateness dat arr rest
  end.

(** the departure time of a route: as late as the first window allows *)
Definition starting_time_of (dat : ALNSData) (lvls : list Z) (route : list nat)
  : Q :=
  match route with
  | [] => 0
  | c :: _ =>
      fmax 0 (qget (start_window dat) c
              - cget (time_cube dat) (zget lvls c) O (S c))
  end.

(** the caches of route [r] agree with its contents *)
Record route_consistent (dat : ALNSData) (cw fw : Q) (r : nat) (s : Solution)
  : Prop := {
  rc_loads :
    loads_consistent dat (rget (solution_representation s) r)
      (loads s) (load_levels s) 0;
  rc_times :
    times_consistent dat (rget (solution_representation s) r) (load_levels s)
      (starting_time_of dat (load_levels s) (rget (solution_representation s) r))
      (arrival_times s) (departure_times s);
  rc_driving :
    qget (route_driving_times s) r
    == travel_time dat (load_levels s) O (rget (solution_representation s) r);
  rc_capa :
    qget (route_capa_errors s) r
    == capa_error_of dat (rget (solution_representation s) r);
  rc_frame :
    qget (route_frame_errors s) r
    == lateness dat (arrival_times s) (rget (solution_representation s) r);
  rc_quality :
    qget (route_qualities s) r
    == qget (route_driving_times s) r
       + cw * qget (route_capa_errors s) r
       + fw * qget (route_frame_errors s) r
}.

(** what [evaluate_change] needs of the object it is called on *)
Record change_ready (dat : ALNSData) (r : nat) (p : Z) (s : Solution)
  : Prop := {
  cr_nodup : NoDup (rget (solution_representation s) r);
  cr_size : (Z.of_nat (length (rget (solution_representation s) r)) < 2 ^ 31)%Z;
  cr_pos : (-1 <= p < Z.of_nat (length (rget (solution_representation s) r)))%Z;
  cr_ids : forall c, In c (rget (solution_representation s) r) ->
             (c < length (loads s) /\ c < length (load_levels s)
              /\ c < length (arrival_times s)
              /\ c < length (departure_times s))%nat;
  cr_route : (r < length (route_driving_times s)
              /\ r < length (route_capa_errors s)
              /\ r < length (route_frame_errors s)
              /\ r < length (route_qualities s))%nat;
  cr_suffix :
    loads_consistent dat (rget (solution_representation s) r)
      (loads s) (load_levels s) (Z.to_nat (p + 1))
}.

(** the state of the loop of [route_evaluate.update_visit_times] after the customers
    [pre] of [route] *)
Record visit_inv (dat : ALNSData) (lvls : list Z) (route : list nat)
  (t0 : Q) (arr0 dep0 : list Q) (pre rest : list nat) (st : route_evaluate.visit_state)
  : Prop := {
  vi_prev : route_evaluate.vs_prev_node_id st = prev_node route (length pre);
  vi_time : route_evaluate.vs_current_time st
            = match length pre with
              | O => t0
              | S j => qget (route_evaluate.vs_departure_times st) (nget route j)
              end;
  vi_drive : route_evaluate.vs_route_driving_time st
             + travel_time dat lvls (route_evaluate.vs_prev_node_id st) rest
             == travel_time dat lvls O route;
  vi_times : forall k, (k < length pre)%nat ->
      let c := nget route k in
      let prev_departure :=
        match k with
        | O => t0
        | S j => qget (route_evaluate.vs_departure_times st) (nget route j)
        end in
      qget (route_evaluate.vs_arrival_times st) c
      == fmax (prev_departure
               + cget (time_cube dat) (zget lvls c) (prev_node route k) (S c))
              (qget (start_window dat) c)
      /\ qget (route_evaluate.vs_departure_times st) c
         == qget (route_evaluate.vs_arrival_times st) c + qget (service_times dat) c;
  vi_len : length (route_evaluate.vs_arrival_times st) = length arr0
           /\ length (route_evaluate.vs_departure_times st) = length dep0;
  vi_out : forall c, ~ In c pre ->
      qget (route_evaluate.vs_arrival_times st) c = qget arr0 c
      /\ qget (route_evaluate.vs_departure_times st) c = qget dep0 c
}.

End SolutionNotions.

(** *** The operators *)

Section OperatorNotions.
Import Sol Op.

(** the customer ids over all routes, as a list *)
Definition customers (s : Solution) : list nat :=
  concat (solution_representation s).

(** an insertion names a route of the solution *)
Definition names_route (routes : list (list nat)) (i : insertion) : Prop :=
  (Z.to_nat (ins_route i) < length routes)%nat.

(** computations that leave the solution alone *)
Definition keeps_sol {A : Type} (m : M OpState A) : Prop :=
  forall st a st', m st = Ok a st' -> sol st' = sol st.

(** the loops of step 1 keep the routes and remove nothing *)
Definition worst_inv (routes : list (list nat)) (ws : worst_state)
  (st : OpState) : Prop :=
  removed_customers_w ws = []
  /\ solution_representation (sol st) = routes.

(** the best block insertion is the initial one or names a route *)
Definition chain_names (routes : list (list nat)) (i : insertion) : Prop :=
  (0 <= ins_route i)%Z -> names_route routes i.

(** every entry of a table of insertions names one of [n] routes *)
Definition names_below (n : nat) (i : insertion) : Prop :=
  (Z.to_nat (ins_route i) < n)%nat.
Definition all_name (n : nat) (m : list (list insertion)) : Prop :=
  Forall (Forall (names_below n)) m.

(** the state of the regret scan: the k best insertions, the chosen
    insertion and the position of its customer *)
Definition regret_names (n : nat) (st : list insertion * insertion * nat)
  : Prop :=
  Forall (names_below n) (fst (fst st)) /\ names_below n (snd (fst st)).

(** the invariant of the two regret scans *)
Definition regret_inv (n : nat) (routes : list (list nat))
  (acc : list (list insertion) * (list insertion * insertion * nat))
  (s : Solution) : Prop :=
  all_name n (fst acc) /\ regret_names n (snd acc)
  /\ solution_representation s = routes.

End OperatorNotions.


(** ** Preprocessing of the data ([alns_data.cpp], [alns_data.h]) *)

Module Data.

(** the value at [std::max_element(v.begin(), v.end())]: the first largest
    element;
    the source dereferences the end iterator of an empty vector, the model
    reads the default. *)
Definition max_element (v : list Q) : Q :=
  match v with
  | [] => 0%Q
  | first :: rest =>
      fold_left (fun largest x => if Qltb largest x then x else largest)
                rest first
  end.

(** [int(x)] into a member of type [int]: the language leaves the
    conversion of a double outside the range of [int] undefined; the
    conversion instruction of x86 gives the smallest [int] there, and so
    does the model. *)
Definition int_of_double (x : Q) : Z :=
  let t := double_to_int x in
  if ((- 2 ^ 31 <=? t) && (t <? 2 ^ 31))%Z then t else (- 2 ^ 31)%Z.

(** [add_pseudo_capacity] as the constructors set it: [int(std::ceil(m))]
    for the largest demand [m] *)
Definition pseudo_capacity (demand : list Q) : Z :=
  int_of_double (inject_Z (Qceiling (max_element demand))).


End Data.

(** ** The load bucket in binary64 ([evaluate.cpp])

    Everywhere else a double is an exact rational number.  For
    [get_load_bucket] the rounding of the two operations decides the result
    near the bounds of the buckets, so the function is given on the doubles
    themselves as well. *)

Module B64.
Import PrimFloat FloatOps SpecFloat.
#[local] Set Warnings "-inexact-float".


(** [int(f)] for a finite double [f]: the fractional part is discarded.
    The conversion of a double that is not finite or lies outside the range
    of [int] is undefined; the model gives 0 and the whole part. *)
Definition to_int (f : float) : Z :=
  match Prim2SF f with
  | S754_finite sign m e =>
      let v := Z.shiftl (Zpos m) e in
      if sign then Z.opp v else v
  | _ => 0%Z
  end.


(** [get_load_bucket]: [int((customer_demand - 0.3) / load_bucket_size)],
    each operation rounded to the nearest double *)
Definition get_load_bucket (customer_demand load_bucket_size : float) : Z :=
  to_int ((customer_demand - 0.3) / load_bucket_size)%float.


End B64.

(** ** Orders and sums *)

Section Order.
Context {A : Type} (ltb : A -> A -> bool).

(** [b] is not below [a] in the order of [ltb] *)
Definition not_above (a b : A) : Prop := ltb b a = false.

End Order.

(** a vector filled position by position, and the sum of what was put in *)
Definition sum_so_far (n k : nat) (total : Q) (vec : list Q) : Prop :=
  length vec = n /\ total == Qsum (firstn k vec).

(** *** The search *)

Section SearchNotions.
Import Num Sol Op Driver.

(** a solution with one route per vehicle that visits every customer
    exactly once *)
Definition complete (dat : ALNSData) (s : Solution) : Prop :=
  length (solution_representation s) = nr_vehicles dat
  /\ Permutation (customers s) (seq 0 (nr_customer dat)).

(** the demand collected on a route *)
Definition route_demand (demands : list Q) (route : list nat) : Q :=
  Qsum (map (qget demands) route).

(** what the loop of [route_init_random] keeps: one load per route, equal
    to the demand of the route, and below the capacity on every route that
    has received a customer *)
Definition init_inv (nr_veh : nat) (demands : list Q) (max_capacity : Z)
  (solution_value : list (list nat)) (vehicle_loads : list Q) : Prop :=
  length solution_value = nr_veh
  /\ length vehicle_loads = nr_veh
  /\ forall r, (r < nr_veh)%nat ->
       qget vehicle_loads r == route_demand demands (rget solution_value r)
       /\ (rget solution_value r <> [] ->
           qget vehicle_loads r < inject_Z max_capacity).

(** the best solution is the one of the constructor or a feasible complete
    one; the running and the current solution are complete; the wheels have
    [nd] and [nr] functors *)
Definition search_inv (dat : ALNSData) (nd nr : nat) (a : ALNS) : Prop :=
  complete dat (running_solution a)
  /\ complete dat (current_solution a)
  /\ (solution a = Solution_default
      \/ (is_feasible (solution a) = true /\ complete dat (solution a)))
  /\ Wheel.nr_functors (destroy_wheel a) = nd
  /\ Wheel.nr_functors (insertion_wheel a) = nr.

End SearchNotions.

(** a configuration with the default operators, a [math.h] whose [exp],
    [log] and [pow] are constant, and two readings of the clock *)
Section Run.
Import Driver.
Local Open Scope string_scope.

Definition plain_config : Config :=
  {| max_time := 10; max_iterations := 100; init_temperature := 1 # 100;
     cooling_rate := 9999 # 10000; wheel_memory_length := 10;
     wheel_parameter := 35 # 100; functor_reward_best := 50;
     functor_reward_accept_better := 100; functor_reward_unique := 90;
     functor_reward_divers := 7; functor_penalty := - (80);
     functor_min_weight := 1; random_noise := 35 # 100;
     target_inf := 65 # 100; shakeup_log := 10;
     mean_removal_log := 335 # 100;
     operator_names_d := []; operator_names_r := [] |}.

(** the repair operators that take the next customer from the list of
    removed customers at an index inside the list.  [deep_greedy] and the
    regret operators keep the index of the last turn when no insertion
    costs less than [DBL_MAX], and the source reads the list there without
    a check. *)
Definition direct_repair_names : list String.string :=
  ["basic_greedy"; "random_greedy"; "beta_hybrid"].

Definition plain_math : MathLib :=
  {| m_pow := fun _ _ => 1; m_exp := fun _ => 1; m_log := fun _ => 1 |}.

Definition two_ticks : list Tick :=
  [ {| time_stamp := 1; clock_after := 2; normal_sample := 2 |};
    {| time_stamp := 3; clock_after := 4; normal_sample := 2 |} ].

End Run.

(** ** Instances as the VRPTW constructor builds them

    The constructor sets [load_bucket_size = vehicle_cap * 2],
    [vehicle_weight = 0] and
    [add_pseudo_capacity = int(ceil(max demand))]; the time cube it is given
    has one layer.  No demand below exceeds the capacity, so every load
    up to [vehicle_cap + add_pseudo_capacity] lies in bucket 0 and no run
    leaves the cube.  Travel times
    are 1 between different nodes, the windows are [[0, 1000]] and no
    service takes time. *)
Module Vrptw.

Definition data_of (nr_veh : nat) (cap : Z) (demands : list Q) : ALNSData :=
  let n := List.length demands in
  {| vehicle_weight := 0; vehicle_cap := cap;
     add_pseudo_capacity := Data.pseudo_capacity demands;
     load_bucket_size := inject_Z (cap * 2); nr_vehicles := nr_veh;
     nr_nodes := S n; nr_customer := n;
     demand := demands; service_times := repeat 0 n;
     start_window := repeat 0 n; end_window := repeat 1000 n;
     time_cube := Examples.unit_cube (S n);
     norm_distance_matrix := repeat (repeat 1 (S n)) (S n);
     norm_start_window_matrix := repeat (repeat 0 n) n;
     norm_end_window_matrix := repeat (repeat 0 n) n;
     norm_demand_matrix := repeat (repeat 0 n) n |}.

(** the operator members: both error weights 1, [pow] constantly 1 and a
    normal sample of 2 *)
Definition env_of (dat : ALNSData) (mean_rem : Q) : Op.OpEnv :=
  {| Op.data := dat; Op.capa_error_weight := 1; Op.frame_error_weight := 1;
     Op.mean_removal := mean_rem; Op.rnd_factor := 1;
     Op.pow := fun _ _ => 1; Op.normal_sample := 2;
     Op.node_pair_potential_matrix :=
       repeat (repeat 0 (nr_nodes dat)) (nr_nodes dat) |}.

(** five customers and two vehicles of capacity 15: [add_pseudo_capacity]
    is 6 and the bucket size 30 *)
Definition fifteen : ALNSData := data_of 2 15 [6; 5; 4; 6; 6].

(** customer 4 is out of the routes; loads 15 and 6, nothing above the
    capacity *)
Definition before_probe : Solution :=
  Sol.Solution_new fifteen [[0; 1; 2]; [3]]%nat 1 1.

(** the object of the guarded call of
    [evaluate_insertion_position(.., route 0, customer 4, position 0)] *)
Definition probe_in : Solution :=
  Op.assign_chromosome 4 0 (Op.insert_customer 0 0 4 before_probe).

(** the object of the call in the handler: the guarded call has raised and
    the handler has taken customer 4 out again *)
Definition handler_object : Solution :=
  Op.remove_customer 0 0
    (state_of (Sol.evaluate_change fifteen 0 0 1 1 probe_in)).

(** seven customers and two vehicles of capacity 10: [add_pseudo_capacity]
    is 10 and the bucket size 20; the routes carry 14 and 17 *)
Definition seven : ALNSData := data_of 2 10 [10; 4; 10; 2; 2; 2; 1].
Definition seven_start : Op.OpState :=
  Examples.state_of_routes seven [[0; 1]; [2; 3; 4; 5; 6]]%nat.

(** the five customers of [Examples.five] with capacity 100 *)
Definition hundred : ALNSData := data_of 2 100 [6; 5; 4; 6; 6].

End Vrptw.

(** ** Proof steps *)

Ltac unfold_monad :=
  unfold bind, try_catch, modify, get, put, ret, throw in *.

(** [step E a s1 E1]: the first statement of the monadic program in [E]
    returned [a] in state [s1] *)
Ltac step E a s1 E1 :=
  lazymatch type of E with
  | ?lhs = _ =>
      let lhs' := eval cbv beta in lhs in
      lazymatch lhs' with
      | bind ?m ?k ?s =>
          change lhs
            with (match m s with
                  | Ok x s' => k x s'
                  | Throw e s' => Throw e s'
                  end) in E;
          destruct (m s) as [a s1|? ?] eqn:E1; [|discriminate E];
          cbv beta in E
      end
  end.

(** [keeps H K lem]: from [H : m st = Ok a st'] and [lem : keeps_sol m],
    [K : sol st' = sol st] *)
Ltac keeps H K lem :=
  pose proof lem as K; unfold keeps_sol in K; specialize (K _ _ _ H).

(** the nested pairs of a loop state, one by one *)
Ltac split_pairs :=
  repeat match goal with
         | |- context [let '(_, _) := ?x in _] => destruct x
         end.

(** * Theorems *)

Section NumberFacts.

(** ** Facts about the numeric primitives *)

Lemma Qltb_lt (a b : Q) : Qltb a b = true <-> a < b.
Proof.
  unfold Qltb. rewrite negb_true_iff. split; intro H.
  - apply Qnot_le_lt. intro Hle. apply Qle_bool_iff in Hle. congruence.
  - destruct (Qle_bool b a) eqn:E; [|reflexivity].
    apply Qle_bool_iff in E. exfalso. exact (Qlt_not_le _ _ H E).
Qed.

Lemma Qltb_ge (a b : Q) : Qltb a b = false <-> b <= a.
Proof.
  unfold Qltb. rewrite negb_false_iff. apply Qle_bool_iff.
Qed.


Lemma double_to_int_nonpos (q : Q) : q <= 0 -> double_to_int q = Qceiling q.
Proof.
  intros H. unfold double_to_int, Qceiling, Qfloor. destruct q as [n d]. simpl.
  unfold Qle in H. simpl in H.
  rewrite <- (Z.opp_involutive n) at 1. rewrite Z.quot_opp_l by lia.
  f_equal. apply Z.quot_div_nonneg; lia.
Qed.







Section Binary64.
Import PrimFloat.
#[local] Set Warnings "-inexact-float".



End Binary64.


(** ** Facts about vectors *)

Section VectorFacts.
Context {A : Type}.
Local Open Scope nat_scope.
Implicit Types (v : list A) (x d : A).

Lemma length_vset v i x : length (vset v i x) = length v.
Proof.
  revert i; induction v as [|h t IH]; intros [|i]; simpl; auto.
Qed.

Lemma nth_vset_eq v i x d : i < length v -> nth i (vset v i x) d = x.
Proof.
  revert i; induction v as [|h t IH]; intros [|i] H; simpl in *;
    try lia; auto.
  apply IH; lia.
Qed.

Lemma nth_vset_neq v i j x d : i <> j -> nth j (vset v i x) d = nth j v d.
Proof.
  revert i j; induction v as [|h t IH]; intros [|i] [|j] H; simpl;
    auto; try congruence.
Qed.

Lemma vset_out v i x : length v <= i -> vset v i x = v.
Proof.
  revert i; induction v as [|h t IH]; intros [|i] H; simpl in *;
    auto; try lia.
  f_equal. apply IH. lia.
Qed.

Lemma NoDup_app_disjoint (l1 l2 : list A) (a : A) :
  NoDup (l1 ++ l2) -> In a l1 -> In a l2 -> False.
Proof.
  induction l1 as [|h t IH]; simpl; intros Hnd H1 H2; [contradiction|].
  inversion Hnd as [|? ? Hh Ht]; subst. destruct H1 as [->|H1].
  - apply Hh. apply in_or_app. right. exact H2.
  - apply IH; assumption.
Qed.
End VectorFacts.

Lemma qget_vset_eq (v : list Q) (i : nat) (x : Q) :
  (i < length v)%nat -> qget (vset v i x) i = x.
Proof. apply nth_vset_eq. Qed.

Lemma qget_vset_neq (v : list Q) (i j : nat) (x : Q) :
  i <> j -> qget (vset v i x) j = qget v j.
Proof. apply nth_vset_neq. Qed.

Lemma zget_vset_eq (v : list Z) (i : nat) (x : Z) :
  (i < length v)%nat -> zget (vset v i x) i = x.
Proof. apply nth_vset_eq. Qed.

Lemma zget_vset_neq (v : list Z) (i j : nat) (x : Z) :
  i <> j -> zget (vset v i x) j = zget v j.
Proof. apply nth_vset_neq. Qed.

(** ** Sums of doubles *)

Lemma fold_Qplus_shift (l : list Q) (a : Q) :
  fold_left Qplus l a == a + Qsum l.
Proof.
  unfold Qsum. revert a. induction l as [|x l IH]; intro a; simpl.
  - ring.
  - rewrite IH, (IH (0 + x)). ring.
Qed.

Lemma Qsum_cons (x : Q) (l : list Q) : Qsum (x :: l) == x + Qsum l.
Proof. unfold Qsum at 1. simpl. rewrite fold_Qplus_shift. ring. Qed.

Lemma Qsum_lower (m : Q) (l : list Q) :
  Forall (fun x => m <= x) l -> inject_Z (Z.of_nat (length l)) * m <= Qsum l.
Proof.
  induction 1 as [|x l Hx Hl IH].
  - unfold Qsum; cbn [length fold_left]. change (inject_Z (Z.of_nat 0)) with 0. lra.
  - rewrite Qsum_cons. cbn [length]. rewrite Nat2Z.inj_succ.
    unfold Z.succ. rewrite inject_Z_plus.
    change (inject_Z 1) with 1. 
    revert IH. generalize (inject_Z (Z.of_nat (length l))). intros c IH.
    assert (E : (c + 1) * m == c * m + m) by ring. rewrite E. lra.
Qed.

Lemma Qsum_pos (m : Q) (l : list Q) :
  0 < m -> l <> [] -> Forall (fun x => m <= x) l -> 0 < Qsum l.
Proof.
  intros Hm Hne Hall. destruct l as [|x l]; [congruence|].
  rewrite Qsum_cons. inversion Hall as [|? ? Hx Hl]; subst.
  pose proof (Qsum_lower Hl) as H.
  assert (0 <= inject_Z (Z.of_nat (length l)) * m).
  { apply Qmult_le_0_compat; [|lra].
    change 0 with (inject_Z 0). rewrite <- Zle_Qle. lia. }
  lra.
Qed.

(** ** The generator *)

Lemma KISS_range (k : tools.kiss) :
  (0 <= fst (tools.KISS k) < 2 ^ 32)%Z.
Proof. unfold tools.KISS, tools.u32. simpl. apply Z.mod_pos_bound. lia. Qed.

Lemma UNI_range (k : tools.kiss) : 0 <= fst (tools.UNI k) /\ fst (tools.UNI k) < 1.
Proof.
  unfold tools.UNI. pose proof (KISS_range k) as H.
  destruct (tools.KISS k) as [v k']. simpl in *.
  assert (H0 : inject_Z 0 <= inject_Z v) by (rewrite <- Zle_Qle; lia).
  assert (H1 : inject_Z v <= inject_Z 4294967295) by (rewrite <- Zle_Qle; lia).
  change (inject_Z 0) with 0 in H0.
  change (inject_Z 4294967295) with (4294967295 # 1) in H1.
  revert H0 H1. generalize (inject_Z v). intros q H0 H1. split; lra.
Qed.

End NumberFacts.

(** ** The roulette wheel *)

Section WheelFacts.
Import Wheel.

Lemma select_functor_some (rnd : Q) (ws : list Q) :
  forall (n fid : nat) (cw : Q),
    (0 < n)%nat ->
    (fid + n <= length ws)%nat ->
    rnd <= cw + Qsum (firstn n (skipn fid ws)) ->
    exists id, select_functor rnd ws n fid cw = Some id
               /\ (fid <= id < fid + n)%nat.
Proof.
  induction n as [|n IH]; intros fid cw Hn Hlen Hr; [lia|].
  simpl. destruct (Qle_bool rnd (cw + qget ws fid)) eqn:E.
  - exists fid. split; [reflexivity|lia].
  - assert (Hlt : cw + qget ws fid < rnd).
    { apply Qnot_le_lt. intro Hle. apply Qle_bool_iff in Hle. congruence. }
    assert (Hsk : skipn fid ws = qget ws fid :: skipn (S fid) ws).
    { unfold qget. clear -Hlen. revert fid Hlen.
      induction ws as [|w ws IHw]; intros [|fid] Hlen; simpl in *; try lia; auto.
      apply IHw. lia. }
    rewrite Hsk in Hr. cbn [firstn] in Hr. rewrite Qsum_cons in Hr.
    destruct n as [|n].
    + exfalso. simpl in Hr. unfold Qsum in Hr. simpl in Hr. lra.
    + destruct (IH (S fid) (cw + qget ws fid)) as [id [Hid Hrange]];
        [lia|lia|lra|].
      exists id. split; [exact Hid|lia].
Qed.


Lemma updated_weight_min (w : RouletteWheel) (i : nat) :
  min_weight w <= updated_weight w i.
Proof.
  unfold updated_weight, fmax.
  destruct (0 <? zget (nr_uses w) i)%Z; [|lra].
  match goal with |- context [Qltb ?a ?b] => destruct (Qltb a b) eqn:E end.
  - lra.
  - apply Qltb_ge in E. exact E.
Qed.

Lemma update_weight_fields (i : nat) (w : RouletteWheel) :
  wheel_parameter (update_weight i w) = wheel_parameter w
  /\ min_weight (update_weight i w) = min_weight w
  /\ nr_functors (update_weight i w) = nr_functors w
  /\ last_functor_id (update_weight i w) = last_functor_id w
  /\ memory_length (update_weight i w) = memory_length w
  /\ length (weights (update_weight i w)) = length (weights w)
  /\ length (scores (update_weight i w)) = length (scores w)
  /\ length (nr_uses (update_weight i w)) = length (nr_uses w).
Proof.
  unfold update_weight; simpl. repeat split; try apply length_vset.
  destruct (0 <? zget (nr_uses w) i)%Z;
    [match goal with |- context [Qltb ?a ?b] => destruct (Qltb a b) end|];
    apply length_vset.
Qed.

Lemma update_weight_at (i : nat) (w : RouletteWheel) :
  (i < length (weights w))%nat -> (i < length (scores w))%nat ->
  (i < length (nr_uses w))%nat ->
  qget (weights (update_weight i w)) i = updated_weight w i
  /\ qget (scores (update_weight i w)) i = 0
  /\ zget (nr_uses (update_weight i w)) i = 0%Z.
Proof.
  intros Hw Hs Hu. unfold update_weight, updated_weight, fmax, qget, zget; simpl.
  repeat split; try (apply nth_vset_eq; assumption).
  destruct (0 <? nth i (nr_uses w) 0)%Z;
    [match goal with |- context [Qltb ?a ?b] => destruct (Qltb a b) end|];
    apply nth_vset_eq; assumption.
Qed.

Lemma update_weight_other (i j : nat) (w : RouletteWheel) :
  i <> j ->
  qget (weights (update_weight i w)) j = qget (weights w) j
  /\ qget (scores (update_weight i w)) j = qget (scores w) j
  /\ zget (nr_uses (update_weight i w)) j = zget (nr_uses w) j.
Proof.
  intros Hij. unfold update_weight, qget, zget; simpl.
  repeat split; try (apply nth_vset_neq; assumption).
  destruct (0 <? nth i (nr_uses w) 0)%Z;
    [match goal with |- context [Qltb ?a ?b] => destruct (Qltb a b) end|];
    apply nth_vset_neq; assumption.
Qed.

Lemma updated_weight_ext (w1 w2 : RouletteWheel) (i : nat) :
  wheel_parameter w1 = wheel_parameter w2 -> min_weight w1 = min_weight w2 ->
  qget (weights w1) i = qget (weights w2) i ->
  qget (scores w1) i = qget (scores w2) i ->
  zget (nr_uses w1) i = zget (nr_uses w2) i ->
  updated_weight w1 i = updated_weight w2 i.
Proof. unfold updated_weight. intros -> -> -> -> ->. reflexivity. Qed.

(** the loop of [update_weights] over the functor ids [l] *)
Lemma update_weights_loop (l : list nat) :
  forall w : RouletteWheel,
    NoDup l ->
    (forall i, In i l -> i < length (weights w) /\ i < length (scores w)
                         /\ i < length (nr_uses w))%nat ->
    let w' := fold_left (fun w i => update_weight i w) l w in
    (wheel_parameter w' = wheel_parameter w
     /\ min_weight w' = min_weight w
     /\ nr_functors w' = nr_functors w
     /\ last_functor_id w' = last_functor_id w
     /\ length (weights w') = length (weights w)
     /\ length (scores w') = length (scores w)
     /\ length (nr_uses w') = length (nr_uses w))
    /\ (forall i, In i l ->
          qget (weights w') i = updated_weight w i
          /\ qget (scores w') i = 0 /\ zget (nr_uses w') i = 0%Z)
    /\ (forall i, ~ In i l ->
          qget (weights w') i = qget (weights w) i
          /\ qget (scores w') i = qget (scores w) i
          /\ zget (nr_uses w') i = zget (nr_uses w) i).
Proof.
  induction l as [|a l IH]; intros w Hnd Hin; cbn zeta.
  - simpl. repeat split; intros; try reflexivity; contradiction.
  - cbn [fold_left]. inversion Hnd as [|? ? Hna Hnd']; subst.
    destruct (update_weight_fields a w) as (F1 & F2 & F3 & F4 & F5 & F6 & F7 & F8).
    specialize (IH (update_weight a w) Hnd').
    destruct IH as [(G1 & G2 & G3 & G4 & G6 & G7 & G8) [Hin' Hout']].
    { intros i Hi. rewrite F6, F7, F8. apply Hin. right; exact Hi. }
    destruct (Hin a (or_introl eq_refl)) as (La & Lb & Lc).
    split; [|split].
    + repeat split; congruence.
    + intros i [->|Hi].
      * destruct (Hout' i Hna) as (O1 & O2 & O3).
        destruct (update_weight_at w La Lb Lc) as (A1 & A2 & A3).
        repeat split; congruence.
      * assert (a <> i) by (intro; subst; contradiction).
        destruct (Hin' i Hi) as (I1 & I2 & I3).
        destruct (@update_weight_other a i w H) as (O1 & O2 & O3).
        repeat split; try assumption.
        rewrite I1. apply updated_weight_ext; assumption.
    + intros i Hi. assert (a <> i) by (intro; subst; apply Hi; left; reflexivity).
      assert (~ In i l) by (intro; apply Hi; right; assumption).
      destruct (Hout' i H0) as (O1 & O2 & O3).
      destruct (@update_weight_other a i w H) as (P1 & P2 & P3).
      repeat split; congruence.
Qed.

Lemma Forall_nth_Q (P : Q -> Prop) (l : list Q) :
  (forall i, (i < length l)%nat -> P (qget l i)) -> Forall P l.
Proof.
  intros H. apply Forall_forall. intros x Hx.
  destruct (In_nth l x 0 Hx) as [i [Hi Hn]]. rewrite <- Hn. apply H; exact Hi.
Qed.

(** C8, the counterexample: nothing in the source keeps [min_weight] above
    zero.  On a wheel of two functors with [min_weight = 0], updated before
    any functor was used, both weights become [min_weight]: every weight
    and their sum are 0. *)
Lemma update_weights_sum_zero :
  let w := RouletteWheel_new 2 (1 # 10) 40 0 in
  wheel_wf w /\ weights (update_weights w) = [0; 0]
  /\ ~ 0 < Qsum (weights (update_weights w)).
Proof.
  cbn zeta. split; [|split].
  - repeat split.
  - vm_compute. reflexivity.
  - vm_compute. discriminate.
Qed.

(** C8, as the code has it: [update_weights] gives every functor that was
    used the weight [lambda * (score / uses) + (1 - lambda) * weight],
    raised to [min_weight] when below it, and every other functor
    [min_weight]; every score and use count is 0 afterwards; every weight
    is at least [min_weight]; and the sum of the weights is positive when
    [min_weight] is positive and there is a functor. *)
Theorem update_weights_spec (w : RouletteWheel) :
  wheel_wf w ->
  let w' := update_weights w in
  (forall i, (i < nr_functors w)%nat ->
     qget (weights w') i = updated_weight w i
     /\ qget (scores w') i = 0
     /\ zget (nr_uses w') i = 0%Z
     /\ min_weight w <= qget (weights w') i)
  /\ wheel_wf w' /\ min_weight w' = min_weight w
  /\ (0 < min_weight w -> (1 <= nr_functors w)%nat -> 0 < Qsum (weights w')).
Proof.
  intros (Hw & Hs & Hu). cbn zeta. unfold update_weights.
  destruct (@update_weights_loop (seq 0 (nr_functors w)) w) as
    [(G1 & G2 & G3 & G4 & G6 & G7 & G8) [Hin Hout]].
  { apply seq_NoDup. }
  { intros i Hi. apply in_seq in Hi. lia. }
  assert (Hall : forall i, (i < nr_functors w)%nat ->
            qget (weights (fold_left (fun w i => update_weight i w)
                             (seq 0 (nr_functors w)) w)) i = updated_weight w i
            /\ qget (scores (fold_left (fun w i => update_weight i w)
                             (seq 0 (nr_functors w)) w)) i = 0
            /\ zget (nr_uses (fold_left (fun w i => update_weight i w)
                             (seq 0 (nr_functors w)) w)) i = 0%Z
            /\ min_weight w <= qget (weights (fold_left (fun w i => update_weight i w)
                             (seq 0 (nr_functors w)) w)) i).
  { intros i Hi. destruct (Hin i) as (I1 & I2 & I3); [apply in_seq; lia|].
    repeat split; try assumption. rewrite I1. apply updated_weight_min. }
  split; [exact Hall|]. split; [|split].
  - unfold wheel_wf. rewrite G3, G6, G7, G8. auto.
  - exact G2.
  - intros Hm Hn. apply Qsum_pos with (m := min_weight w); [exact Hm| |].
    + intro E. apply (f_equal (@length Q)) in E. simpl in E. lia.
    + apply Forall_nth_Q. intros i Hi. apply Hall. lia.
Qed.

(** the statement above on a wheel of two functors with [min_weight = 1],
    after one use with score 3 *)
Lemma update_weights_spec_witness :
  let w := update_stats 3 (RouletteWheel_new 2 (1 # 10) 40 1) in
  let w' := update_weights w in
  (forall i, (i < nr_functors w)%nat ->
     qget (weights w') i = updated_weight w i
     /\ qget (scores w') i = 0
     /\ zget (nr_uses w') i = 0%Z
     /\ min_weight w <= qget (weights w') i)
  /\ wheel_wf w' /\ min_weight w' = min_weight w
  /\ 0 < Qsum (weights w').
Proof.
  cbn zeta.
  destruct (@update_weights_spec
              (update_stats 3 (RouletteWheel_new 2 (1 # 10) 40 1)))
    as (A & B & C & D); [repeat split|].
  split; [exact A|]. split; [exact B|]. split; [exact C|].
  apply D; [reflexivity|simpl; lia].
Defined.

(** C10: with as many weights as functors, at least one functor and every
    weight at least [min_weight > 0], the drawn value is at most the sum of
    the weights, and [get_random_functor_id] returns an id below
    [nr_functors] and records it as [last_functor_id]; it does not reach
    its final [throw]. *)
Theorem get_random_functor_id_selects (w : RouletteWheel) (k : tools.kiss) :
  length (weights w) = nr_functors w ->
  (1 <= nr_functors w)%nat ->
  0 < min_weight w ->
  Forall (fun x => min_weight w <= x) (weights w) ->
  fst (tools.UNI k) * Qsum (weights w) <= Qsum (weights w)
  /\ exists id w',
       get_random_functor_id (w, k) = Ok id (w', snd (tools.UNI k))
       /\ (id < nr_functors w)%nat
       /\ last_functor_id w' = id
       /\ weights w' = weights w /\ scores w' = scores w
       /\ nr_uses w' = nr_uses w /\ nr_functors w' = nr_functors w.
Proof.
  intros Hlen Hn Hm Hall.
  destruct (UNI_range k) as [Hu0 Hu1].
  assert (Hsum : 0 < Qsum (weights w)).
  { apply Qsum_pos with (m := min_weight w); auto.
    intro E. rewrite E in Hlen. simpl in Hlen. lia. }
  assert (Hrnd : fst (tools.UNI k) * Qsum (weights w) <= Qsum (weights w)).
  { assert (E : Qsum (weights w) == 1 * Qsum (weights w)) by ring.
    rewrite E at 2. apply Qmult_le_compat_r; lra. }
  split; [exact Hrnd|].
  unfold get_random_functor_id.
  destruct (tools.UNI k) as [u k'] eqn:EU. cbn [fst snd] in *.
  destruct (@select_functor_some (u * Qsum (weights w)) (weights w)
              (nr_functors w) 0 0) as [id [Hid Hr]].
  - lia.
  - lia.
  - cbn [skipn]. rewrite <- Hlen, firstn_all. lra.
  - rewrite Hid. eexists; eexists. split; [reflexivity|].
    cbn. repeat split; lia.
Qed.

(** the statement above on a new wheel of three functors with
    [min_weight = 1/4] and the generator in its initial state *)
Lemma get_random_functor_id_selects_witness :
  let w := RouletteWheel_new 3 (1 # 10) 60 (1 # 4) in
  fst (tools.UNI tools.kiss_init) * Qsum (weights w) <= Qsum (weights w)
  /\ exists id w',
       get_random_functor_id (w, tools.kiss_init)
       = Ok id (w', snd (tools.UNI tools.kiss_init))
       /\ (id < nr_functors w)%nat
       /\ last_functor_id w' = id
       /\ weights w' = weights w /\ scores w' = scores w
       /\ nr_uses w' = nr_uses w /\ nr_functors w' = nr_functors w.
Proof.
  apply (@get_random_functor_id_selects
           (RouletteWheel_new 3 (1 # 10) 60 (1 # 4)) tools.kiss_init).
  - reflexivity.
  - simpl; lia.
  - reflexivity.
  - repeat constructor; vm_compute; discriminate.
Defined.


End WheelFacts.

Section DriverFacts.
Import Driver.

(** ** The best solution along the main loop *)

Lemma best_step_refl (b : Solution) : best_step b b.
Proof. left; reflexivity. Qed.

Lemma best_step_trans (b1 b2 b3 : Solution) :
  best_step b1 b2 -> best_step b2 b3 -> best_step b1 b3.
Proof.
  intros [->|[F1 L1]] [->|[F2 L2]]; unfold best_step; auto.
  right. split; [assumption|]. eapply Qlt_trans; eassumption.
Qed.

Lemma accept_current_solution dat cfg lib l b a :
  solution (fst (accept_current dat cfg lib l b a)) = solution a.
Proof.
  unfold accept_current.
  destruct (Qltb _ _); [reflexivity|].
  destruct (tools.UNI (rng_alns a)) as [u k].
  destruct (Qltb u _); reflexivity.
Qed.

Lemma accept_best_solution dat cfg lib wi b a :
  let a' := fst (fst (accept_best dat cfg lib wi b a)) in
  (solution a' = solution a
   /\ (Qltb (driving_time (running_solution a)) (driving_time (solution a))
       && is_feasible (running_solution a) = false))
  \/ (solution a' = running_solution a
      /\ is_feasible (running_solution a) = true
      /\ driving_time (running_solution a) < driving_time (solution a)).
Proof.
  cbn zeta. unfold accept_best.
  destruct (Qltb (driving_time (running_solution a)) (driving_time (solution a))
            && is_feasible (running_solution a)) eqn:E.
  - right. apply andb_true_iff in E. destruct E as [E1 E2].
    apply Qltb_lt in E1.
    destruct (Qltb 0 (shakeup_log cfg)); cbn; auto.
  - left. destruct (Qltb 0 (shakeup_log cfg)); cbn; auto.
Qed.

Lemma update_weights_solution dat cfg a :
  solution (update_weights dat cfg a) = solution a.
Proof.
  unfold update_weights.
  destruct (Qltb _ _); [reflexivity|]. destruct (Qltb _ _); reflexivity.
Qed.

Lemma update_historic_matrices_solution a :
  solution (update_historic_matrices a) = solution a.
Proof.
  unfold update_historic_matrices.
  destruct (fold_left _ _ _); reflexivity.
Qed.

Lemma turn_best dat cfg lib dfs rfs t (al : ALNS * Locals) :
  best_step (solution (fst al))
            (solution (fst (state_of (turn dat cfg lib dfs rfs t al)))).
Proof.
  destruct al as [a l]. unfold turn.
  destruct (Wheel.get_random_functor_id (destroy_wheel a, rng_wheel a))
    as [d_id [dw k]|e [w k]]; [|apply best_step_refl].
  destruct (Wheel.get_random_functor_id (insertion_wheel a, k))
    as [r_id [iw k']|e [w k']]; [|apply best_step_refl].
  match goal with
  | |- context [match ?m ?s with Ok _ _ => _ | Throw _ _ => _ end] =>
      destruct (m s) as [u st|e st]
  end; [|apply best_step_refl].
  set (a1 := update_historic_matrices _).
  set (b0 := if count_visited _ _ then _ else _).
  destruct (accept_current dat cfg lib l b0 a1) as [a2 b2] eqn:E2.
  destruct (accept_best dat cfg lib (iteration_wi l) b2 a2) as [[a3 b3] wi3] eqn:E3.
  assert (H1 : solution a1 = solution a).
  { unfold a1. rewrite update_historic_matrices_solution. reflexivity. }
  assert (H2 : solution a2 = solution a).
  { pose proof (accept_current_solution dat cfg lib l b0 a1) as H.
    rewrite E2 in H. cbn in H. congruence. }
  assert (H3 : best_step (solution a) (solution a3)).
  { pose proof (accept_best_solution dat cfg lib (iteration_wi l) b2 a2) as H.
    rewrite E3 in H. cbn in H. destruct H as [[H _]|[H [F L]]].
    - left. congruence.
    - right. rewrite H, <- H2. split; assumption. }
  repeat (cbn; match goal with
               | |- context [if ?c then _ else _] => destruct c
               end);
    cbn; rewrite ?update_weights_solution; cbn; exact H3.
Qed.

(** C9: over any number of turns of the main loop of [ALNS::solve],
    whether they end normally or with an exception, the best solution
    either stays as it is or is replaced by a feasible solution with a
    strictly smaller driving time; so its driving time never increases, and
    a feasible best solution stays feasible. *)
Theorem best_solution_monotone dat cfg lib dfs rfs ticks (al : ALNS * Locals) :
  let b := solution (fst al) in
  let b' := solution (fst (state_of (main_loop dat cfg lib dfs rfs ticks al))) in
  (* replaced only by a feasible solution with a smaller driving time *)
  (b' = b \/ (is_feasible b' = true /\ driving_time b' < driving_time b))
  (* the driving time of the best solution never increases *)
  /\ driving_time b' <= driving_time b
  (* once feasible, feasible for the rest of the run *)
  /\ (is_feasible b = true -> is_feasible b' = true).
Proof.
  cbn zeta.
  assert (H : best_step (solution (fst al))
                (solution (fst (state_of (main_loop dat cfg lib dfs rfs ticks al))))).
  { revert al. induction ticks as [|t ticks IH]; intros al; cbn [main_loop].
    - destruct (_ && _); apply best_step_refl.
    - destruct (_ && _); [|apply best_step_refl].
      pose proof (turn_best dat cfg lib dfs rfs t al) as Ht.
      destruct (turn dat cfg lib dfs rfs t al) as [u al'|e al']; cbn in Ht.
      + eapply best_step_trans; [exact Ht|apply IH].
      + exact Ht. }
  split; [exact H|]. destruct H as [->|[F L]].
  - split; [apply Qle_refl|auto].
  - split; [apply Qlt_le_weak; exact L|auto].
Qed.


End DriverFacts.

Section SolutionFacts.
Import Sol.

(** ** Loads *)

Lemma skipn_nth_cons (route : list nat) (k : nat) :
  (k < length route)%nat -> skipn k route = nget route k :: skipn (S k) route.
Proof.
  unfold nget. revert k. induction route as [|c route IH]; intros [|k] H;
    simpl in *; try lia; auto.
  apply IH. lia.
Qed.

Lemma firstn_S_snoc (route : list nat) (k : nat) :
  (k < length route)%nat -> firstn (S k) route = firstn k route ++ [nget route k].
Proof.
  unfold nget. revert k. induction route as [|c route IH]; intros [|k] H;
    simpl in *; try lia; auto.
  f_equal. apply IH. lia.
Qed.

Lemma in_firstn_nth (route : list nat) (n k : nat) :
  (k < n)%nat -> (n <= length route)%nat -> In (nget route k) (firstn n route).
Proof.
  unfold nget. revert n k. induction route as [|c route IH]; intros [|n] [|k] Hk Hn;
    simpl in *; try lia; auto.
  right. apply IH; lia.
Qed.

Lemma load_levels_loop_spec (dat : ALNSData) (route : list nat) :
  forall (n : nat) (new_load : Q) (lds : list Q) (lvls : list Z),
    (n <= length route)%nat ->
    NoDup (firstn n route) ->
    (forall c, In c (firstn n route) ->
               (c < length lds /\ c < length lvls)%nat) ->
    new_load == route_load dat (skipn n route) ->
    let r := route_evaluate.load_levels_loop n route (demand dat) (load_bucket_size dat)
               new_load lds lvls in
    (forall k, (k < n)%nat ->
       qget (fst r) (nget route k) == route_load dat (skipn k route)
       /\ zget (snd r) (nget route k)
          = route_evaluate.get_load_bucket (qget (fst r) (nget route k)) (load_bucket_size dat))
    /\ (forall c, ~ In c (firstn n route) ->
          qget (fst r) c = qget lds c /\ zget (snd r) c = zget lvls c)
    /\ length (fst r) = length lds /\ length (snd r) = length lvls.
Proof.
  induction n as [|n IH]; intros new_load lds lvls Hn Hnd Hin Hload; cbn zeta.
  - simpl; repeat split; auto; intros; lia.
  - cbn [route_evaluate.load_levels_loop].
    set (c := nget route n).
    set (nl := new_load + qget (demand dat) c).
    assert (Hlt : (n < length route)%nat) by lia.
    rewrite (firstn_S_snoc route Hlt) in Hnd, Hin. fold c in Hnd, Hin.
    apply NoDup_remove in Hnd. rewrite app_nil_r in Hnd. destruct Hnd as [Hnd Hc].
    assert (Hnl : nl == route_load dat (skipn n route)).
    { rewrite (skipn_nth_cons route Hlt). fold c. cbn [route_load]. unfold nl.
      rewrite Hload. ring. }
    destruct (Hin c) as [Hc1 Hc2]; [apply in_or_app; right; left; reflexivity|].
    specialize (IH nl (vset lds c nl)
                   (vset lvls c (route_evaluate.get_load_bucket nl (load_bucket_size dat)))).
    destruct IH as (IH1 & IH2 & IH3 & IH4); [lia|exact Hnd| |exact Hnl|].
    { intros c' Hc'. rewrite !length_vset. apply Hin. apply in_or_app; left; exact Hc'. }
    cbn zeta in *. rewrite length_vset in IH3. rewrite length_vset in IH4.
    split; [|split; [|split; assumption]].
    + intros k Hk. destruct (Nat.eq_dec k n) as [->|Hne].
      * fold c. destruct (IH2 c Hc) as [E1 E2]. rewrite E1, E2.
        unfold qget, zget. rewrite !nth_vset_eq by assumption.
        split; [exact Hnl|reflexivity].
      * apply IH1. lia.
    + intros c' Hc'. rewrite (firstn_S_snoc route Hlt) in Hc'. fold c in Hc'.
      assert (Hc'n : ~ In c' (firstn n route))
        by (intro; apply Hc'; apply in_or_app; left; assumption).
      assert (Hcc : c <> c')
        by (intro; subst c'; apply Hc'; apply in_or_app; right; left; reflexivity).
      destruct (IH2 c' Hc'n) as [E1 E2]. rewrite E1, E2.
      unfold qget, zget. rewrite !nth_vset_neq by assumption. auto.
Qed.

Lemma to_unsigned_small (x : Z) : (0 <= x < 2 ^ 32)%Z -> to_unsigned x = x.
Proof. intros H. unfold to_unsigned. apply Z.mod_small. exact H. Qed.

Lemma to_int_small (x : Z) : (0 <= x < 2 ^ 31)%Z -> to_int x = x.
Proof.
  intros H. unfold to_int. cbn zeta. rewrite Z.mod_small by lia.
  destruct (x <? 2 ^ 31)%Z eqn:E; [reflexivity|]. apply Z.ltb_ge in E. lia.
Qed.

Lemma update_load_levels_spec (dat : ALNSData) (route : list nat) (p : Z)
  (lds : list Q) (lvls : list Z) :
  NoDup route ->
  (Z.of_nat (length route) < 2 ^ 31)%Z ->
  (-1 <= p < Z.of_nat (length route))%Z ->
  (forall c, In c route -> (c < length lds /\ c < length lvls)%nat) ->
  loads_consistent dat route lds lvls (Z.to_nat (p + 1)) ->
  let r := route_evaluate.update_load_levels lds lvls route p (demand dat)
             (load_bucket_size dat) in
  loads_consistent dat route (fst r) (snd r) 0
  /\ (forall c, ~ In c route ->
        qget (fst r) c = qget lds c /\ zget (snd r) c = zget lvls c)
  /\ length (fst r) = length lds /\ length (snd r) = length lvls.
Proof.
  intros Hnd Hsz Hp Hin Hsuf. cbn zeta. unfold route_evaluate.update_load_levels.
  destruct (0 <? Z.of_nat (length route))%Z eqn:Hne.
  2:{ apply Z.ltb_ge in Hne. cbn [fst snd].
      split; [intros k' Hk'; lia|repeat split; auto]. }
  apply Z.ltb_lt in Hne.
  destruct (Z.eq_dec p (-1)) as [->|Hp1].
  { (* a change at the head: no load is recomputed *)
    change (Z.to_nat (to_int (to_unsigned (-1)) + 1)) with O.
    cbn [route_evaluate.load_levels_loop fst snd].
    split; [intros k' Hk'; apply Hsuf; simpl; lia|repeat split; auto]. }
  rewrite to_unsigned_small by lia. rewrite to_int_small by lia.
  set (n := Z.to_nat (p + 1)) in *.
  assert (Hn : (n <= length route)%nat) by (unfold n; lia).
  set (nl0 := if (p <? Z.of_nat (length route) - 1)%Z
             then qget lds (nget route n) else 0).
  assert (Hnl : nl0 == route_load dat (skipn n route)).
  { unfold nl0. destruct (p <? Z.of_nat (length route) - 1)%Z eqn:E.
    - apply Z.ltb_lt in E.
      destruct (Hsuf n) as [E1 _]; [unfold n; lia|]. exact E1.
    - apply Z.ltb_ge in E. assert (Hnn : n = length route) by (unfold n; lia).
      rewrite Hnn, skipn_all. reflexivity. }
  destruct (@load_levels_loop_spec dat route n nl0 lds lvls Hn) as (L1 & L2 & L3 & L4);
    [| |exact Hnl|].
  { rewrite <- (firstn_skipn n route) in Hnd. apply NoDup_app_remove_r in Hnd.
    exact Hnd. }
  { intros c Hc. apply Hin. rewrite <- (firstn_skipn n route).
    apply in_or_app; left; exact Hc. }
  cbn zeta in *.
  split; [|split; [|split; assumption]].
  - intros k Hk. destruct (Nat.lt_ge_cases k n) as [Hlt|Hge].
    + apply L1. exact Hlt.
    + assert (Hout : ~ In (nget route k) (firstn n route)).
      { intro Hc. rewrite <- (firstn_skipn n route) in Hnd.
        apply (@NoDup_app_disjoint _ _ _ _ Hnd Hc).
        unfold nget. rewrite <- (firstn_skipn n route) at 1.
        rewrite app_nth2; rewrite length_firstn, Nat.min_l by lia; [|lia].
        apply nth_In. rewrite length_skipn. lia. }
      destruct (L2 _ Hout) as [E1 E2]. rewrite E1, E2. apply Hsuf. lia.
  - intros c Hc. apply L2. intro Hc'. apply Hc.
    rewrite <- (firstn_skipn n route). apply in_or_app; left; exact Hc'.
Qed.


(** ** Visit times *)

Lemma nget_app_r (pre rest : list nat) (k : nat) :
  nget (pre ++ rest) (length pre + k) = nget rest k.
Proof.
  unfold nget. rewrite app_nth2 by lia. f_equal. lia.
Qed.

Lemma nget_app_l (pre rest : list nat) (k : nat) :
  (k < length pre)%nat -> nget (pre ++ rest) k = nget pre k.
Proof. intros H. unfold nget. apply app_nth1. exact H. Qed.

Lemma nget_in (l : list nat) (k : nat) :
  (k < length l)%nat -> In (nget l k) l.
Proof. intros H. unfold nget. apply nth_In. exact H. Qed.

Lemma visit_fold_inv (dat : ALNSData) (lvls : list Z) (route : list nat)
  (t0 : Q) (arr0 dep0 : list Q) :
  NoDup route ->
  (forall c, In c route -> (c < length arr0 /\ c < length dep0)%nat) ->
  forall (rest pre : list nat) (st : route_evaluate.visit_state),
    route = pre ++ rest ->
    visit_inv dat lvls route t0 arr0 dep0 pre rest st ->
    visit_inv dat lvls route t0 arr0 dep0 route []
      (fold_left (route_evaluate.visit_step lvls (start_window dat) (time_cube dat)
                    (service_times dat)) rest st).
Proof.
  intros Hnd Hin. induction rest as [|c rest IH]; intros pre st Hroute Hinv.
  - rewrite app_nil_r in Hroute. subst pre. exact Hinv.
  - cbn [fold_left]. apply (IH (pre ++ [c])).
    + rewrite <- app_assoc. exact Hroute.
    + destruct Hinv as [Hprev Htime Hdrive Htimes [Hl1 Hl2] Hout].
      assert (Hk : nget route (length pre) = c).
      { rewrite Hroute. rewrite <- (Nat.add_0_r (length pre)).
        rewrite nget_app_r. reflexivity. }
      assert (Hcin : In c route) by (rewrite Hroute; apply in_or_app; right; left; reflexivity).
      assert (Hcpre : ~ In c pre).
      { intro Hc. rewrite Hroute in Hnd.
        apply (@NoDup_app_disjoint _ _ _ c Hnd Hc). left; reflexivity. }
      destruct (Hin c Hcin) as [Hc1 Hc2].
      assert (Hpre_ne : forall j, (j < length pre)%nat -> nget route j <> c).
      { intros j Hj E. apply Hcpre. rewrite <- E. rewrite Hroute.
        rewrite nget_app_l by exact Hj. apply nget_in. exact Hj. }
      set (ctoc := cget (time_cube dat) (zget lvls c) (route_evaluate.vs_prev_node_id st) (S c)).
      set (ct1 := fmax (route_evaluate.vs_current_time st + ctoc) (qget (start_window dat) c)).
      constructor; unfold route_evaluate.visit_step; cbn [route_evaluate.vs_prev_node_id route_evaluate.vs_current_time
        route_evaluate.vs_route_driving_time route_evaluate.vs_arrival_times route_evaluate.vs_departure_times];
        fold ctoc; fold ct1; rewrite ?length_app; cbn [length];
        rewrite ?Nat.add_1_r.
      * cbn [prev_node]. rewrite Hk. reflexivity.
      * rewrite Hk. rewrite qget_vset_eq by lia. reflexivity.
      * rewrite <- Hdrive. cbn [travel_time]. fold ctoc. ring.
      * intros k Hk'. cbn zeta.
        destruct (Nat.eq_dec k (length pre)) as [->|Hne].
        -- rewrite Hk. rewrite !qget_vset_eq by lia. split; [|reflexivity].
           unfold ct1, ctoc. rewrite Hprev, Htime.
           destruct (length pre) as [|j] eqn:El; [reflexivity|].
           rewrite qget_vset_neq; [reflexivity|].
           intro E. apply (Hpre_ne j); [lia|]. symmetry; exact E.
        -- assert (Hlt : (k < length pre)%nat) by lia.
           destruct (Htimes k Hlt) as [T1 T2]. cbn zeta in T1, T2.
           assert (Hck : c <> nget route k)
             by (intro E; apply (Hpre_ne k Hlt); symmetry; exact E).
           rewrite !(qget_vset_neq _ _ Hck).
           split; [|exact T2].
           destruct k as [|j]; [exact T1|].
           rewrite qget_vset_neq; [exact T1|].
           intro E. apply (Hpre_ne j); [lia|]. symmetry; exact E.
      * rewrite !length_vset. auto.
      * intros c' Hc'.
        assert (Hc'pre : ~ In c' pre) by (intro; apply Hc'; apply in_or_app; left; assumption).
        assert (Hcc : c <> c') by (intro; subst; apply Hc'; apply in_or_app; right; left; reflexivity).
        destruct (Hout c' Hc'pre) as [O1 O2].
        rewrite !(qget_vset_neq _ _ Hcc). auto.
Qed.

Lemma update_visit_times_spec (dat : ALNSData) (lvls : list Z) (route : list nat)
  (t0 : Q) (arr0 dep0 : list Q) :
  NoDup route ->
  (forall c, In c route -> (c < length arr0 /\ c < length dep0)%nat) ->
  let r := route_evaluate.update_visit_times arr0 dep0 t0 route lvls (start_window dat)
             (time_cube dat) (service_times dat) in
  fst (fst r) == travel_time dat lvls O route
  /\ times_consistent dat route lvls t0 (snd (fst r)) (snd r)
  /\ length (snd (fst r)) = length arr0 /\ length (snd r) = length dep0
  /\ (forall c, ~ In c route ->
        qget (snd (fst r)) c = qget arr0 c /\ qget (snd r) c = qget dep0 c).
Proof.
  intros Hnd Hin. cbn zeta. unfold route_evaluate.update_visit_times.
  match goal with
  | |- context [fold_left ?f route ?st0] =>
      pose proof (@visit_fold_inv dat lvls route t0 arr0 dep0 Hnd Hin route [] st0
                    eq_refl) as H
  end.
  destruct H as [Hprev Htime Hdrive Htimes [Hl1 Hl2] Hout].
  { constructor; cbn; auto; try reflexivity; try (intros; lia). ring. }
  cbn [fst snd]. cbn [travel_time] in Hdrive.
  split; [exact Hdrive|]. split; [exact Htimes|]. auto.
Qed.

(** ** Errors *)

Lemma Qltb_comp (a b c d : Q) : a == b -> c == d -> Qltb a c = Qltb b d.
Proof. intros E1 E2. unfold Qltb. rewrite E1, E2. reflexivity. Qed.

Lemma fmax_comp (a b c d : Q) : a == b -> c == d -> fmax a c == fmax b d.
Proof.
  intros E1 E2. unfold fmax. rewrite (Qltb_comp E1 E2).
  destruct (Qltb b d); assumption.
Qed.

Lemma get_frame_error_fold (dat : ALNSData) (arr : list Q) (route : list nat) :
  forall a : Q,
    fold_left (fun frame_error customer_id =>
                 let late_diff := qget arr customer_id
                                  - qget (end_window dat) customer_id in
                 if Qltb 0 late_diff then frame_error + late_diff
                 else frame_error) route a
    == a + lateness dat arr route.
Proof.
  induction route as [|c route IH]; intros a; cbn [fold_left lateness].
  - ring.
  - rewrite IH. unfold fmax. cbn zeta.
    destruct (Qltb 0 (qget arr c - qget (end_window dat) c)); ring.
Qed.

Lemma get_frame_error_spec (dat : ALNSData) (arr : list Q) (route : list nat) :
  route_evaluate.get_frame_error route (end_window dat) arr == lateness dat arr route.
Proof. unfold route_evaluate.get_frame_error. rewrite get_frame_error_fold. ring. Qed.

Lemma to_unsigned_nonneg (x : Z) : (0 <= to_unsigned x)%Z.
Proof. unfold to_unsigned. apply Z.mod_pos_bound. lia. Qed.

Lemma get_capa_error_spec (dat : ALNSData) (route : list nat)
  (lds : list Q) (lvls : list Z) :
  loads_consistent dat route lds lvls 0 ->
  route_evaluate.get_capa_error route (vehicle_cap dat) lds == capa_error_of dat route.
Proof.
  intros H. unfold route_evaluate.get_capa_error, capa_error_of, fmax.
  destruct route as [|c route].
  - cbn [route_load].
    assert (Hc : 0 <= inject_Z (to_unsigned (vehicle_cap dat))).
    { change 0 with (inject_Z 0). rewrite <- Zle_Qle. apply to_unsigned_nonneg. }
    destruct (Qltb 0 (0 - inject_Z (to_unsigned (vehicle_cap dat)))) eqn:E;
      [|reflexivity].
    apply Qltb_lt in E. lra.
  - destruct (H O) as [E _]; [simpl; lia|]. cbn in E. cbn zeta.
    assert (E' : qget lds c - inject_Z (to_unsigned (vehicle_cap dat))
                 == route_load dat (c :: route)
                    - inject_Z (to_unsigned (vehicle_cap dat)))
      by (rewrite E; reflexivity).
    rewrite (Qltb_comp (Qeq_refl 0) E').
    destruct (Qltb 0 _); [exact E'|reflexivity].
Qed.


(** ** [evaluate_change] *)

(** the two ways [evaluate_change] ends, member by member *)
Lemma evaluate_change_cases (dat : ALNSData) (r : nat) (p : Z) (cw fw : Q)
  (s : Solution) :
  let route := rget (solution_representation s) r in
  let lu := route_evaluate.update_load_levels (loads s) (load_levels s) route p (demand dat)
              (load_bucket_size dat) in
  let e := route_evaluate.get_capa_error route (vehicle_cap dat) (fst lu) in
  let vt := route_evaluate.update_visit_times (arrival_times s) (departure_times s)
              (route_evaluate.get_starting_time route (snd lu) (start_window dat)
                 (time_cube dat))
              route (snd lu) (start_window dat) (time_cube dat)
              (service_times dat) in
  let rdts := vset (route_driving_times s) r (fst (fst vt)) in
  let fe := route_evaluate.get_frame_error route (end_window dat) (snd (fst vt)) in
  let rq := route_evaluate.get_quality (qget rdts r) e fe cw fw in
  if Qle_bool (inject_Z (add_pseudo_capacity dat)) e then
    exists s',
      evaluate_change dat r p cw fw s = Throw InfeasibilityException s'
      /\ loads s' = fst lu /\ load_levels s' = snd lu
      /\ capa_error s' = capa_error s - qget (route_capa_errors s) r + e
      /\ solution_representation s' = solution_representation s
      /\ route_chromosome s' = route_chromosome s
      /\ arrival_times s' = arrival_times s
      /\ departure_times s' = departure_times s
      /\ driving_time s' = driving_time s
      /\ frame_error s' = frame_error s
      /\ is_feasible s' = is_feasible s
      /\ solution_quality s' = solution_quality s
      /\ start_times s' = start_times s
      /\ route_driving_times s' = route_driving_times s
      /\ route_capa_errors s' = route_capa_errors s
      /\ route_frame_errors s' = route_frame_errors s
      /\ route_qualities s' = route_qualities s
  else
    exists s',
      evaluate_change dat r p cw fw s = Ok tt s'
      /\ loads s' = fst lu /\ load_levels s' = snd lu
      /\ capa_error s' = capa_error s - qget (route_capa_errors s) r + e
      /\ solution_representation s' = solution_representation s
      /\ route_chromosome s' = route_chromosome s
      /\ arrival_times s' = snd (fst vt)
      /\ departure_times s' = snd vt
      /\ driving_time s'
         = driving_time s - qget (route_driving_times s) r + qget rdts r
      /\ frame_error s' = frame_error s - qget (route_frame_errors s) r + fe
      /\ is_feasible s'
         = (if Qltb 0 (capa_error s') || Qltb 0 (frame_error s')
            then false else true)
      /\ solution_quality s'
         = solution_quality s - qget (route_qualities s) r + rq
      /\ start_times s' = start_times s
      /\ route_driving_times s' = rdts
      /\ route_capa_errors s' = vset (route_capa_errors s) r e
      /\ route_frame_errors s' = vset (route_frame_errors s) r fe
      /\ route_qualities s' = vset (route_qualities s) r rq.
Proof.
  cbn zeta. unfold evaluate_change.
  cbn [loads load_levels capa_error route_capa_errors solution_representation
       upd_capa_error upd_loads upd_load_levels].
  destruct (route_evaluate.update_load_levels (loads s) (load_levels s)
              (rget (solution_representation s) r) p (demand dat)
              (load_bucket_size dat)) as [L V] eqn:EL.
  cbn [fst snd loads load_levels capa_error route_capa_errors
       solution_representation upd_capa_error upd_loads upd_load_levels].
  destruct (Qle_bool (inject_Z (add_pseudo_capacity dat))
              (route_evaluate.get_capa_error (rget (solution_representation s) r)
                 (vehicle_cap dat) L)) eqn:EQ.
  - eexists. split; [reflexivity|]. cbn. repeat split; reflexivity.
  - cbn.
    destruct (route_evaluate.update_visit_times (arrival_times s) (departure_times s)
                (route_evaluate.get_starting_time (rget (solution_representation s) r) V
                   (start_window dat) (time_cube dat))
                (rget (solution_representation s) r) V (start_window dat)
                (time_cube dat) (service_times dat)) as [[rdt arr] dep] eqn:EV.
    eexists. split; [reflexivity|]. cbn. repeat split; reflexivity.
Qed.

Lemma Qle_bool_comp_r (a b c : Q) : b == c -> Qle_bool a b = Qle_bool a c.
Proof. intros E. rewrite E. reflexivity. Qed.

(** [evaluate_change] with the doubles taken as exact numbers: on an
    object that is ready for the call (the route has no
    repeated id, the position lies in it and the loads behind the position
    are those of the route), [evaluate_change] raises
    [InfeasibilityException] exactly when the recomputed capacity error of
    the route reaches [add_pseudo_capacity].  When it raises, the loads,
    the load levels and the aggregate capacity error are those of the new
    route, and the times, the route driving time, the frame error, the
    quality and their aggregates are the old ones.  When it returns, every
    cache of the route agrees with its contents, the aggregates have moved
    by the difference between the new value of the route and the value
    that was stored for it, and the other routes are untouched.  The
    aggregates agree with the routes afterwards only if they agreed with
    the stored values before. *)
Lemma evaluate_change_outcomes (dat : ALNSData) (cw fw : Q) (r : nat) (p : Z)
  (s : Solution) :
  change_ready dat r p s ->
  let route := rget (solution_representation s) r in
  let fresh := capa_error_of dat route in
  (* it raises exactly when the new capacity error reaches the cap *)
  ((exists s', evaluate_change dat r p cw fw s = Throw InfeasibilityException s')
   <-> inject_Z (add_pseudo_capacity dat) <= fresh)
  /\ (forall e s', evaluate_change dat r p cw fw s = Throw e s' ->
        e = InfeasibilityException
        (* updated *)
        /\ loads_consistent dat route (loads s') (load_levels s') 0
        /\ capa_error s'
           == capa_error s - qget (route_capa_errors s) r + fresh
        (* stale *)
        /\ arrival_times s' = arrival_times s
        /\ departure_times s' = departure_times s
        /\ route_driving_times s' = route_driving_times s
        /\ route_frame_errors s' = route_frame_errors s
        /\ route_qualities s' = route_qualities s
        /\ driving_time s' = driving_time s
        /\ frame_error s' = frame_error s
        /\ solution_quality s' = solution_quality s
        /\ solution_representation s' = solution_representation s)
  /\ (forall u s', evaluate_change dat r p cw fw s = Ok u s' ->
        solution_representation s' = solution_representation s
        /\ route_consistent dat cw fw r s'
        /\ capa_error s'
           == capa_error s - qget (route_capa_errors s) r
              + qget (route_capa_errors s') r
        /\ driving_time s'
           == driving_time s - qget (route_driving_times s) r
              + qget (route_driving_times s') r
        /\ frame_error s'
           == frame_error s - qget (route_frame_errors s) r
              + qget (route_frame_errors s') r
        /\ solution_quality s'
           == solution_quality s - qget (route_qualities s) r
              + qget (route_qualities s') r
        /\ (is_feasible s' = true
            <-> capa_error s' <= 0 /\ frame_error s' <= 0)
        /\ (forall r', r' <> r ->
              qget (route_driving_times s') r' = qget (route_driving_times s) r'
              /\ qget (route_capa_errors s') r' = qget (route_capa_errors s) r'
              /\ qget (route_frame_errors s') r' = qget (route_frame_errors s) r'
              /\ qget (route_qualities s') r' = qget (route_qualities s) r')).
Proof.
  intros [Hnd Hsz Hp Hids (Hr1 & Hr2 & Hr3 & Hr4) Hsuf]. cbn zeta.
  set (route := rget (solution_representation s) r) in *.
  destruct (@update_load_levels_spec dat route p (loads s) (load_levels s)
              Hnd Hsz Hp) as (HL & HLout & HLl1 & HLl2).
  { intros c Hc. destruct (Hids c Hc) as (? & ? & _). auto. }
  { exact Hsuf. }
  pose proof (get_capa_error_spec HL) as He.
  pose proof (evaluate_change_cases dat r p cw fw s) as Hcases.
  cbn zeta in Hcases. fold route in Hcases.
  set (lu := route_evaluate.update_load_levels (loads s) (load_levels s) route p
               (demand dat) (load_bucket_size dat)) in *.
  set (e := route_evaluate.get_capa_error route (vehicle_cap dat) (fst lu)) in *.
  rewrite (Qle_bool_comp_r _ He) in Hcases.
  destruct (Qle_bool (inject_Z (add_pseudo_capacity dat))
              (capa_error_of dat route)) eqn:EQ.
  - (* the exception *)
    apply Qle_bool_iff in EQ.
    destruct Hcases as (s1 & Hs1 & F).
    split; [split; [intros _; exact EQ|intros _; exists s1; exact Hs1]|].
    split.
    + intros e' s' Hs'. rewrite Hs1 in Hs'. inversion Hs'; subst e' s'.
      destruct F as (F1 & F2 & F3 & F4 & F5 & F6 & F7 & F8 & F9 & F10 & F11
                     & F12 & F13 & F14 & F15 & F16).
      split; [reflexivity|]. rewrite F1, F2, F3. split; [exact HL|].
      split; [rewrite He; reflexivity|].
      repeat split; assumption.
    + intros u s' Hs'. rewrite Hs1 in Hs'. discriminate.
  - (* the normal return *)
    assert (Hlt : ~ inject_Z (add_pseudo_capacity dat) <= capa_error_of dat route).
    { intro H. apply Qle_bool_iff in H. congruence. }
    destruct Hcases as (s1 & Hs1 & F).
    split; [split; [intros [s' Hs']; rewrite Hs1 in Hs'; discriminate
                   |intro H; contradiction]|].
    split; [intros e' s' Hs'; rewrite Hs1 in Hs'; discriminate|].
    intros u s' Hs'. rewrite Hs1 in Hs'. inversion Hs'; subst u s'. clear Hs'.
    destruct F as (F1 & F2 & F3 & F4 & F5 & F6 & F7 & F8 & F9 & F10 & F11
                   & F12 & F13 & F14 & F15 & F16).
    set (t0 := route_evaluate.get_starting_time route (snd lu) (start_window dat)
                 (time_cube dat)) in *.
    destruct (@update_visit_times_spec dat (snd lu) route t0 (arrival_times s)
                (departure_times s) Hnd) as (V1 & V2 & V3 & V4 & V5).
    { intros c Hc. destruct (Hids c Hc) as (_ & _ & ? & ?). auto. }
    cbn zeta in V1, V2, V3, V4, V5.
    set (vt := route_evaluate.update_visit_times (arrival_times s)
                 (departure_times s) t0 route (snd lu) (start_window dat)
                 (time_cube dat) (service_times dat)) in *.
    rewrite (qget_vset_eq _ _ Hr1) in F8, F11.
    split; [exact F4|]. split.
    { constructor; rewrite ?F4; fold route.
      - rewrite F1, F2. exact HL.
      - rewrite F2, F6, F7. exact V2.
      - rewrite F13, F2. rewrite qget_vset_eq by exact Hr1. exact V1.
      - rewrite F14. rewrite qget_vset_eq by exact Hr2. exact He.
      - rewrite F15, F6. rewrite qget_vset_eq by exact Hr3.
        apply get_frame_error_spec.
      - rewrite F16, F13, F14, F15.
        rewrite !qget_vset_eq by assumption.
        unfold route_evaluate.get_quality. ring. }
    split; [rewrite F3, F14, qget_vset_eq by exact Hr2; reflexivity|].
    split; [rewrite F8, F13, qget_vset_eq by exact Hr1; reflexivity|].
    split; [rewrite F9, F15, qget_vset_eq by exact Hr3; reflexivity|].
    split; [rewrite F11, F16, !qget_vset_eq by assumption; reflexivity|].
    split.
    { rewrite F10.
      destruct (Qltb 0 (capa_error s1)) eqn:E1;
        destruct (Qltb 0 (frame_error s1)) eqn:E2; cbn [orb];
        try apply Qltb_lt in E1; try apply Qltb_lt in E2;
        try apply Qltb_ge in E1; try apply Qltb_ge in E2;
        split; try discriminate; try (intros [? ?]; lra); auto. }
    intros r' Hr'. rewrite F13, F14, F15, F16.
    assert (Hrr : r <> r') by congruence.
    rewrite !(qget_vset_neq _ _ Hrr). auto.
Qed.


(** the statement above on the instance with capacity 10, for customer 4
    put at the end of the route [0 1 2]: the capacity error is 11 *)
Lemma evaluate_change_outcomes_witness :
  let dat := Examples.five 10 in
  let s := Examples.four_in in
  change_ready dat 0 3 s
  /\ ((exists s', evaluate_change dat 0 3 1 1 s = Throw InfeasibilityException s')
      <-> inject_Z (add_pseudo_capacity dat)
          <= capa_error_of dat (rget (solution_representation s) 0)).
Proof.
  cbn zeta.
  assert (R : change_ready (Examples.five 10) 0 3 Examples.four_in).
  { constructor.
    - vm_compute. repeat constructor; simpl; intuition discriminate.
    - vm_compute. reflexivity.
    - vm_compute. split; [discriminate|reflexivity].
    - intros c Hc. vm_compute in Hc. vm_compute.
      repeat (destruct Hc as [Hc|Hc]; [subst c; repeat split; lia|]).
      destruct Hc.
    - vm_compute. repeat split; lia.
    - intros k Hk. vm_compute in Hk. lia. }
  split; [exact R|].
  exact (proj1 (@evaluate_change_outcomes (Examples.five 10) 1 1 0 3
                  Examples.four_in R)).
Defined.

End SolutionFacts.

Section ToolFacts.
Import Num.


(** ** The generator and [rand_number] *)

(** X1: the value of [KISS] is a 32-bit word and [UNI] lies in [[0, 1)]: the
    largest value is [(2^32 - 1) * 2.328306e-10 < 1] *)
Theorem UNI_unit_interval (k : tools.kiss) :
  (0 <= fst (tools.KISS k) < 2 ^ 32)%Z
  /\ fst (tools.UNI k)
     == inject_Z (fst (tools.KISS k)) * (2328306 # 10000000000000000)
  /\ 0 <= fst (tools.UNI k) /\ fst (tools.UNI k) < 1
  /\ snd (tools.UNI k) = snd (tools.KISS k).
Proof.
  split; [apply KISS_range|].
  destruct (UNI_range k) as [H0 H1].
  split; [|split; [exact H0|split; [exact H1|]]];
    unfold tools.UNI; destruct (tools.KISS k); reflexivity.
Qed.

Lemma round_between (x : Q) (a b : Z) :
  inject_Z a <= x -> x <= inject_Z b -> (a <= round x <= b)%Z.
Proof.
  intros Ha Hb. unfold round. destruct (Qle_bool 0 x) eqn:E.
  - split.
    + assert (H : inject_Z a <= x + (1 # 2)).
      { eapply Qle_trans; [exact Ha|]. clear Ha Hb. lra. }
      apply Qfloor_resp_le in H. rewrite Qfloor_Z in H. exact H.
    + assert (H : x + (1 # 2) < inject_Z (b + 1)).
      { rewrite inject_Z_plus. change (inject_Z 1) with 1.
        clear Ha. revert Hb. generalize (inject_Z b). intros qb Hb. lra. }
      assert (Qfloor (x + (1 # 2)) < b + 1)%Z; [|lia].
      rewrite Zlt_Qlt. eapply Qle_lt_trans; [apply Qfloor_le|exact H].
  - split.
    + assert (H : inject_Z (a - 1) < x - (1 # 2)).
      { unfold Zminus. rewrite inject_Z_plus, inject_Z_opp.
        change (inject_Z 1) with 1. clear Hb. revert Ha. generalize (inject_Z a). intros qa Ha. lra. }
      assert (a - 1 < Qceiling (x - (1 # 2)))%Z; [|lia].
      rewrite Zlt_Qlt. eapply Qlt_le_trans; [exact H|apply Qle_ceiling].
    + assert (H : x - (1 # 2) <= inject_Z b).
      { eapply Qle_trans; [|exact Hb]. clear Ha Hb. lra. }
      apply Qceiling_resp_le in H. rewrite Qceiling_Z in H. exact H.
Qed.

Lemma to_int_le (z : Z) : (0 <= z)%Z -> (to_int z <= z)%Z.
Proof.
  intros H. unfold to_int.
  assert (Hm : (0 <= z mod 2 ^ 32 <= z)%Z).
  { split; [apply Z.mod_pos_bound; lia|apply Z.mod_le; lia]. }
  destruct (Z.ltb_spec (z mod 2 ^ 32) (2 ^ 31)); lia.
Qed.

(** whatever the difference wraps to, the result is not above [max] *)
Lemma rand_number_le (max min : Z) (k : tools.kiss) :
  (min <= max)%Z -> (fst (tools.rand_number max min k) <= max)%Z.
Proof.
  intros Hm. unfold tools.rand_number.
  destruct (UNI_range k) as [H0 H1].
  destruct (tools.UNI k) as [u k']. cbn [fst] in *.
  pose proof (@to_int_le (max - min) ltac:(lia)) as Hd.
  set (d := to_int (max - min)) in *.
  assert (Hx : u * inject_Z d + inject_Z min <= inject_Z max).
  { destruct (Z_lt_le_dec d 0) as [Hn|Hp].
    - assert (Hq : inject_Z d <= 0)
        by (change 0 with (inject_Z 0); rewrite <- Zle_Qle; lia).
      assert (Hu : u * inject_Z d <= 0).
      { rewrite Qmult_comm. apply Qle_trans with (0 * u); [|lra].
        apply Qmult_le_compat_r; assumption. }
      assert (Hmm : inject_Z min <= inject_Z max) by (rewrite <- Zle_Qle; lia).
      revert Hu Hmm. generalize (u * inject_Z d) (inject_Z min) (inject_Z max).
      intros a b c Hu Hmm. lra.
    - assert (Hq : 0 <= inject_Z d)
        by (change 0 with (inject_Z 0); rewrite <- Zle_Qle; lia).
      assert (Hu : u * inject_Z d <= 1 * inject_Z d)
        by (apply Qmult_le_compat_r; [lra|assumption]).
      assert (Hmm : inject_Z d + inject_Z min <= inject_Z max).
      { rewrite <- inject_Z_plus, <- Zle_Qle. lia. }
      revert Hu Hmm.
      generalize (u * inject_Z d) (inject_Z d) (inject_Z min) (inject_Z max).
      intros a b c e Hu Hmm. lra. }
  destruct (@round_between (u * inject_Z d + inject_Z min)
              (Qfloor (u * inject_Z d + inject_Z min)) max) as [_ H];
    [apply Qfloor_le|exact Hx|exact H].
Qed.

(** X2: for two [int]s [min <= max] whose difference is an [int] too,
    [rand_number(max, min)] lies between [min] and [max] *)
Theorem rand_number_between (max min : Z) (k : tools.kiss) :
  (- 2 ^ 31 <= min)%Z -> (min <= max)%Z -> (max < 2 ^ 31)%Z ->
  (max - min < 2 ^ 31)%Z ->
  (min <= fst (tools.rand_number max min k) <= max)%Z.
Proof.
  intros Hlo Hm Hhi Hd. split; [|apply rand_number_le; exact Hm].
  unfold tools.rand_number.
  destruct (UNI_range k) as [H0 H1].
  destruct (tools.UNI k) as [u k']. cbn [fst] in *.
  rewrite to_int_small by lia.
  assert (Hq : 0 <= inject_Z (max - min)).
  { change 0 with (inject_Z 0). rewrite <- Zle_Qle. lia. }
  assert (Hx : 0 <= u * inject_Z (max - min))
    by (apply Qmult_le_0_compat; assumption).
  destruct (@round_between (u * inject_Z (max - min) + inject_Z min) min
              (Qceiling (u * inject_Z (max - min) + inject_Z min))) as [H _];
    [|apply Qle_ceiling|exact H].
  revert Hx. generalize (u * inject_Z (max - min)) (inject_Z min).
  intros a b Hx. lra.
Qed.

(** X2 at a concrete input *)
Lemma rand_number_between_witness :
  (2 <= fst (tools.rand_number 7 2 tools.kiss_init) <= 7)%Z.
Proof. apply (@rand_number_between 7 2 tools.kiss_init); lia. Defined.

(** ** [sort_indices] *)

Section SortFacts.
Context {A : Type} (ltb : A -> A -> bool).

Lemma sort_insert_perm (x : A) (l : list A) :
  Permutation (tools.sort_insert ltb x l) (x :: l).
Proof.
  induction l as [|y t IH]; simpl; [reflexivity|].
  destruct (ltb y x); [|reflexivity].
  rewrite IH. apply perm_swap.
Qed.

Lemma sort_perm (l : list A) : Permutation (tools.sort ltb l) l.
Proof.
  induction l as [|x t IH]; simpl; [reflexivity|].
  unfold tools.sort in *. simpl. rewrite sort_insert_perm. auto.
Qed.

Hypothesis total : forall a b, ltb a b = false -> ltb b a = false -> not_above ltb b a.
Hypothesis trans : forall a b c, not_above ltb a b -> not_above ltb b c -> not_above ltb a c.
Hypothesis asym : forall a b, ltb a b = true -> ltb b a = false.

Lemma sort_insert_sorted (x : A) (l : list A) :
  StronglySorted (not_above ltb) l -> StronglySorted (not_above ltb) (tools.sort_insert ltb x l).
Proof.
  induction 1 as [|y t Ht IH Hy]; simpl.
  - constructor; constructor.
  - destruct (ltb y x) eqn:E.
    + constructor; [exact IH|].
      apply (Permutation_Forall (Permutation_sym (sort_insert_perm x t))).
      constructor; [|exact Hy]. unfold not_above. apply asym. exact E.
    + constructor; [constructor; assumption|].
      assert (Hxy : not_above ltb x y) by exact E.
      constructor; [exact Hxy|].
      eapply Forall_impl; [|exact Hy]. intros z Hz. eapply trans; eassumption.
Qed.

Lemma sort_sorted (l : list A) : StronglySorted (not_above ltb) (tools.sort ltb l).
Proof.
  induction l as [|x t IH]; simpl; [constructor|].
  unfold tools.sort in *. simpl. apply sort_insert_sorted. exact IH.
Qed.
End SortFacts.

Lemma tuple2_ltb_spec (a b : Q * nat) :
  tools.tuple2_ltb a b = true
  <-> fst a < fst b \/ (fst a == fst b /\ (snd a < snd b)%nat).
Proof.
  unfold tools.tuple2_ltb. rewrite orb_true_iff, andb_true_iff, negb_true_iff.
  rewrite Qltb_lt, Qltb_ge, Nat.ltb_lt. split.
  - intros [H|[H1 H2]]; [left; exact H|].
    destruct (Qlt_le_dec (fst a) (fst b)); [left; assumption|].
    right. split; [apply Qle_antisym; assumption|exact H2].
  - intros [H|[H1 H2]]; [left; exact H|]. right. split; [|exact H2].
    rewrite H1. apply Qle_refl.
Qed.

Lemma tuple2_not_above_spec (a b : Q * nat) :
  tools.tuple2_ltb b a = false
  <-> fst a < fst b \/ (fst a == fst b /\ (snd a <= snd b)%nat).
Proof.
  split.
  - intros H.
    destruct (Qlt_le_dec (fst a) (fst b)) as [L|L]; [left; exact L|].
    right.
    assert (E : fst a == fst b).
    { apply Qle_antisym; [|exact L].
      destruct (Qlt_le_dec (fst b) (fst a)) as [L'|L']; [|exact L'].
      assert (T : tools.tuple2_ltb b a = true)
        by (apply tuple2_ltb_spec; left; exact L').
      congruence. }
    split; [exact E|].
    destruct (Nat.le_gt_cases (snd a) (snd b)) as [N|N]; [exact N|].
    assert (T : tools.tuple2_ltb b a = true).
    { apply tuple2_ltb_spec. right. split; [symmetry; exact E|exact N]. }
    congruence.
  - intros H. destruct (tools.tuple2_ltb b a) eqn:T; [|reflexivity].
    apply tuple2_ltb_spec in T. destruct H as [H|[H1 H2]], T as [T|[T1 T2]];
      try lra; try lia.
Qed.

Lemma sorted_tuples_sorted (v : list Q) :
  StronglySorted (not_above tools.tuple2_ltb) (tools.sorted_tuples v).
Proof.
  unfold tools.sorted_tuples. apply sort_sorted.
  - intros a b c Hab Hbc. unfold not_above in *.
    apply tuple2_not_above_spec in Hab, Hbc. apply tuple2_not_above_spec.
    destruct Hab as [H|[H1 H2]], Hbc as [K|[K1 K2]].
    + left. eapply Qlt_trans; eassumption.
    + left. rewrite <- K1. exact H.
    + left. rewrite H1. exact K.
    + right. split; [rewrite H1; exact K1|lia].
  - intros a b H. apply tuple2_ltb_spec in H.
    apply tuple2_not_above_spec. destruct H as [H|[H1 H2]]; [left; exact H|].
    right. split; [exact H1|lia].
Qed.

Lemma combine_seq_values (v : list Q) (start : nat) :
  Forall (fun t : Q * nat =>
            (start <= snd t < start + length v)%nat
            /\ fst t = nth (snd t - start) v 0)
         (combine v (seq start (length v))).
Proof.
  revert start. induction v as [|x t IH]; intros start; simpl; constructor.
  - simpl. rewrite Nat.sub_diag. split; [lia|reflexivity].
  - eapply Forall_impl; [|apply (IH (S start))].
    intros [q i] [H1 H2]. simpl in *. split; [lia|].
    replace (i - start)%nat with (S (i - S start)) by lia. exact H2.
Qed.

Lemma map_snd_combine_seq (v : list Q) (start : nat) :
  map snd (combine v (seq start (length v))) = seq start (length v).
Proof.
  revert start. induction v as [|x t IH]; intros start; simpl; [reflexivity|].
  f_equal. apply IH.
Qed.

Lemma nth_map_snd (l : list (Q * nat)) (i : nat) :
  (i < length l)%nat -> nth i (map snd l) O = snd (nth i l (0, O)).
Proof.
  intros H. rewrite (nth_indep (map snd l) O (snd (0, O)))
    by (rewrite length_map; exact H).
  apply map_nth.
Qed.

Lemma sort_indices_facts (v : list Q) :
  Permutation (tools.sort_indices v) (seq 0 (length v))
  /\ forall i j, (i < j < length v)%nat ->
       let a := nth i (tools.sort_indices v) O in
       let b := nth j (tools.sort_indices v) O in
       qget v a < qget v b \/ (qget v a == qget v b /\ (a < b)%nat).
Proof.
  assert (P : Permutation (tools.sort_indices v) (seq 0 (length v))).
  { unfold tools.sort_indices, tools.sorted_tuples.
    rewrite (Permutation_map snd (sort_perm tools.tuple2_ltb _)).
    rewrite map_snd_combine_seq. reflexivity. }
  split; [exact P|]. intros i j Hij. cbn zeta.
  pose proof (sorted_tuples_sorted v) as S.
  assert (V : Forall (fun t : Q * nat => fst t = qget v (snd t))
                     (tools.sorted_tuples v)).
  { unfold tools.sorted_tuples.
    apply (Permutation_Forall
             (Permutation_sym (sort_perm tools.tuple2_ltb _))).
    eapply Forall_impl; [|apply (combine_seq_values v 0)].
    intros [q k] [_ H]. simpl in *. rewrite Nat.sub_0_r in H. exact H. }
  assert (L : length (tools.sorted_tuples v) = length v).
  { rewrite <- (length_map snd). fold (tools.sort_indices v).
    rewrite (Permutation_length P). apply length_seq. }
  assert (ND : NoDup (tools.sort_indices v)).
  { apply (Permutation_NoDup (Permutation_sym P)). apply seq_NoDup. }
  unfold tools.sort_indices in *.
  set (l := tools.sorted_tuples v) in *.
  assert (Hi : (i < length l)%nat) by lia.
  assert (Hj : (j < length l)%nat) by lia.
  rewrite (nth_map_snd l Hi), (nth_map_snd l Hj).
  set (ta := nth i l (0, O)). set (tb := nth j l (0, O)).
  assert (Hle : not_above tools.tuple2_ltb ta tb).
  { clear - S Hij Hi Hj. unfold ta, tb. clear ta tb. revert i j Hij Hi Hj.
    induction S as [|x t St IH Hx]; intros i j Hij Hi Hj; simpl in *; [lia|].
    destruct i as [|i], j as [|j]; try lia.
    - rewrite Forall_forall in Hx. apply Hx. apply nth_In. lia.
    - apply IH; lia. }
  rewrite Forall_forall in V.
  rewrite <- (V ta) by (apply nth_In; exact Hi).
  rewrite <- (V tb) by (apply nth_In; exact Hj).
  apply tuple2_not_above_spec in Hle.
  destruct Hle as [H|[H1 H2]]; [left; exact H|]. right. split; [exact H1|].
  assert (snd ta <> snd tb); [|lia].
  intro E. rewrite NoDup_nth in ND.
  specialize (ND i j). rewrite length_map in ND.
  assert (i = j); [|lia]. apply ND; try lia.
  rewrite (nth_map_snd l Hi), (nth_map_snd l Hj). exact E.
Qed.

(** X3: [sort_indices(v)] is a permutation of the indices of [v] that lists
    the values in ascending order, equal values by ascending index *)
Theorem sort_indices_sorted (v : list Q) :
  Permutation (tools.sort_indices v) (seq 0 (length v))
  /\ forall i j, (i < j < length v)%nat ->
       let a := nth i (tools.sort_indices v) O in
       let b := nth j (tools.sort_indices v) O in
       qget v a < qget v b \/ (qget v a == qget v b /\ (a < b)%nat).
Proof. exact (sort_indices_facts v). Qed.


(** ** Load buckets *)

Lemma double_to_int_Z (z : Z) : double_to_int (inject_Z z) = z.
Proof. unfold double_to_int. simpl. apply Z.quot_1_r. Qed.







(** X7: with a bucket size of at most 0.3 a load of 0 falls into a bucket
    below 0: [int((0 - 0.3) / s)] is at most -1, an index before the first
    layer of the time cube *)
Theorem load_bucket_negative (s : Q) :
  0 < s -> s <= (3 # 10) -> (route_evaluate.get_load_bucket 0 s <= -1)%Z.
Proof.
  intros Hs Hs3. unfold route_evaluate.get_load_bucket.
  assert (Hq : (0 - (3 # 10)) / s <= -1).
  { apply Qle_shift_div_r; [exact Hs|]. lra. }
  rewrite double_to_int_nonpos by lra.
  apply Qceiling_resp_le in Hq. exact Hq.
Qed.

(** X7 at a concrete input *)
Lemma load_bucket_negative_witness :
  (route_evaluate.get_load_bucket 0 (3 # 10) <= -1)%Z.
Proof. apply (@load_bucket_negative (3 # 10)); [reflexivity|discriminate]. Defined.

(** ** [add_pseudo_capacity] *)

Lemma max_element_fold_ge (rest : list Q) :
  forall first,
    first <= fold_left (fun largest x => if Qltb largest x then x else largest)
                       rest first
    /\ Forall (fun x => x <= fold_left
                          (fun largest x => if Qltb largest x then x else largest)
                          rest first) rest.
Proof.
  induction rest as [|y t IH]; intros first; simpl.
  - split; [apply Qle_refl|constructor].
  - destruct (Qltb first y) eqn:E.
    + apply Qltb_lt in E. destruct (IH y) as [H1 H2].
      split; [eapply Qle_trans; [apply Qlt_le_weak; exact E|exact H1]|].
      constructor; assumption.
    + apply Qltb_ge in E. destruct (IH first) as [H1 H2].
      split; [exact H1|]. constructor; [|exact H2].
      eapply Qle_trans; eassumption.
Qed.

Lemma max_element_fold_in (rest : list Q) :
  forall first,
    In (fold_left (fun largest x => if Qltb largest x then x else largest)
                  rest first) (first :: rest).
Proof.
  induction rest as [|y t IH]; intros first; simpl.
  - left; reflexivity.
  - destruct (Qltb first y).
    + right. apply IH.
    + destruct (IH first) as [H|H]; [left; exact H|right; right; exact H].
Qed.

(** X8: when no demand is above the largest [int], no customer demands more
    than [add_pseudo_capacity] *)
Theorem pseudo_capacity_bounds_demand (demand : list Q) :
  Forall (fun d => d <= inject_Z (2 ^ 31 - 1)) demand ->
  Forall (fun d => d <= inject_Z (Data.pseudo_capacity demand)) demand.
Proof.
  intros Hint. destruct demand as [|first rest]; [constructor|].
  destruct (max_element_fold_ge rest first) as [H1 H2].
  pose proof (max_element_fold_in rest first) as Hin.
  unfold Data.pseudo_capacity, Data.max_element.
  set (m := fold_left _ rest first) in *.
  assert (Hm : m <= inject_Z (2 ^ 31 - 1)).
  { rewrite Forall_forall in Hint. apply Hint. exact Hin. }
  assert (Hc : (Qceiling m <= 2 ^ 31 - 1)%Z).
  { apply Qceiling_resp_le in Hm. rewrite Qceiling_Z in Hm. exact Hm. }
  assert (Hge : m <= inject_Z (Data.int_of_double (inject_Z (Qceiling m)))).
  { unfold Data.int_of_double. rewrite double_to_int_Z. cbv zeta.
    destruct (Z.leb_spec (- 2 ^ 31) (Qceiling m)) as [Hl|Hl];
      destruct (Z.ltb_spec (Qceiling m) (2 ^ 31)) as [Hh|Hh]; cbn [andb];
      try (apply Qle_ceiling);
      (eapply Qle_trans; [apply Qle_ceiling|]; rewrite <- Zle_Qle; lia). }
  constructor.
  - eapply Qle_trans; [exact H1|exact Hge].
  - eapply Forall_impl; [|exact H2]. intros d Hd.
    eapply Qle_trans; [exact Hd|exact Hge].
Qed.

(** X8 at a concrete input *)
Lemma pseudo_capacity_bounds_demand_witness :
  Forall (fun d => d <= inject_Z (Data.pseudo_capacity [6; 5; 4; 6; 6]))
         [6; 5; 4; 6; 6].
Proof.
  apply (@pseudo_capacity_bounds_demand [6; 5; 4; 6; 6]).
  repeat constructor; discriminate.
Defined.

(** beyond the largest [int] the member is no bound: with a demand of
    [3e9] it is the smallest [int] *)
Lemma pseudo_capacity_beyond_int :
  Data.pseudo_capacity [3000000000; 1] = (- 2 ^ 31)%Z.
Proof. reflexivity. Qed.

(** ** [get_customer_pos] *)

Lemma find_pos_none (route : list nat) (c : nat) :
  forall start, route_evaluate.find_pos route c start = None <-> ~ In c route.
Proof.
  induction route as [|h t IH]; intros start; simpl.
  - split; auto.
  - destruct (Nat.eqb h c) eqn:E.
    + apply Nat.eqb_eq in E. split; [discriminate|]. intros H. exfalso. auto.
    + apply Nat.eqb_neq in E. rewrite IH. split; intros H.
      * intros [K|K]; auto.
      * intros K. apply H. right. exact K.
Qed.

Lemma find_pos_first (route : list nat) (c : nat) :
  forall start pos,
    route_evaluate.find_pos route c start = Some pos
    <-> (start <= pos < start + length route)%nat
        /\ nget route (pos - start) = c
        /\ forall q, (q < pos - start)%nat -> nget route q <> c.
Proof.
  induction route as [|h t IH]; intros start pos; simpl.
  - split; [discriminate|]. intros [H _]. lia.
  - destruct (Nat.eqb h c) eqn:E.
    + apply Nat.eqb_eq in E. split.
      * intros H. inversion H; subst. rewrite Nat.sub_diag. cbn.
        split; [lia|]. split; [reflexivity|]. intros q Hq. lia.
      * intros (H1 & H2 & H3).
        destruct (Nat.eq_dec pos start) as [->|N]; [reflexivity|].
        exfalso. apply (H3 O); [lia|]. exact E.
    + apply Nat.eqb_neq in E. rewrite IH. split.
      * intros (H1 & H2 & H3). split; [lia|].
        replace (pos - start)%nat with (S (pos - S start)) by lia.
        split; [exact H2|]. intros [|q] Hq; cbn; [exact E|].
        apply H3. lia.
      * intros (H1 & H2 & H3).
        assert (pos <> start).
        { intros ->. rewrite Nat.sub_diag in H2. cbn in H2. auto. }
        replace (pos - start)%nat with (S (pos - S start)) in * by lia.
        split; [lia|]. split; [exact H2|]. intros q Hq.
        apply (H3 (S q)). lia.
Qed.

(** X9: [get_customer_pos] returns the first position of the customer, and
    raises exactly when the customer is not in the route *)
Theorem get_customer_pos_spec (route : list nat) (c : nat) :
  (route_evaluate.get_customer_pos route c = None <-> ~ In c route)
  /\ forall pos,
       route_evaluate.get_customer_pos route c = Some pos
       <-> (pos < length route)%nat /\ nget route pos = c
           /\ forall q, (q < pos)%nat -> nget route q <> c.
Proof.
  unfold route_evaluate.get_customer_pos. split; [apply find_pos_none|].
  intros pos. rewrite find_pos_first. rewrite Nat.sub_0_r. simpl.
  split; intros (H1 & H2 & H3); repeat split; auto; lia.
Qed.

(** ** Chromosomes *)

Lemma update_route_chromosome_spec (route : list nat) (r : nat) :
  forall chrom,
    length (route_evaluate.update_route_chromosome chrom route r) = length chrom
    /\ (forall c, In c route -> (c < length chrom)%nat ->
          nget (route_evaluate.update_route_chromosome chrom route r) c = r)
    /\ (forall c, ~ In c route ->
          nget (route_evaluate.update_route_chromosome chrom route r) c
          = nget chrom c).
Proof.
  unfold route_evaluate.update_route_chromosome.
  induction route as [|h t IH]; intros chrom; simpl.
  - split; [reflexivity|]. split; [intros c []|reflexivity].
  - destruct (IH (vset chrom h r)) as (L & I & O).
    rewrite length_vset in L. split; [exact L|]. split.
    + intros c [->|Hc] Hl.
      * destruct (in_dec Nat.eq_dec c t) as [Hi|Hi].
        -- apply I; [exact Hi|rewrite length_vset; exact Hl].
        -- rewrite O by exact Hi. unfold nget. apply nth_vset_eq. exact Hl.
      * apply I; [exact Hc|rewrite length_vset; exact Hl].
    + intros c Hc. rewrite O by (intros K; apply Hc; right; exact K).
      unfold nget. apply nth_vset_neq. intros ->. apply Hc. left. reflexivity.
Qed.

End ToolFacts.

Section RankFacts.
Import Num.

(** ** [get_ranks] *)

Lemma sorted_tuples_facts (v : list Q) :
  let l := tools.sorted_tuples v in
  StronglySorted (fun a b : Q * nat => fst a <= fst b) l
  /\ NoDup (map snd l)
  /\ Forall (fun t : Q * nat => (snd t < length v)%nat
                                /\ fst t = qget v (snd t)) l
  /\ forall i, (i < length v)%nat -> In i (map snd l).
Proof.
  cbn zeta.
  assert (P : Permutation (map snd (tools.sorted_tuples v)) (seq 0 (length v))).
  { apply (proj1 (sort_indices_facts v)). }
  split; [|split; [|split]].
  - pose proof (sorted_tuples_sorted v) as S. clear P.
    induction S as [|x t St IH Hx]; constructor; [exact IH|].
    eapply Forall_impl; [|exact Hx]. intros b Hb. unfold not_above in Hb.
    apply tuple2_not_above_spec in Hb. destruct Hb as [H|[H _]]; lra.
  - apply (Permutation_NoDup (Permutation_sym P)). apply seq_NoDup.
  - unfold tools.sorted_tuples.
    apply (Permutation_Forall
             (Permutation_sym (sort_perm tools.tuple2_ltb _))).
    eapply Forall_impl; [|apply (combine_seq_values v 0)].
    intros [q k] [H1 H2]. simpl in *. rewrite Nat.sub_0_r in H2.
    split; [lia|exact H2].
  - intros i Hi. apply (Permutation_in _ (Permutation_sym P)).
    apply in_seq. lia.
Qed.

(** the state of the loop of [get_ranks] after the tuples [pre]: every
    rank handed out lies between 1 and [rank], the ranks order the tuples
    as their values do, and [rank] is the rank of the largest value
    [prev_value] *)
Lemma get_ranks_loop (n : nat) :
  forall (rest pre : list (Q * nat)) (ranks : list Z) (rank : Z) (prev : Q),
    StronglySorted (fun a b : Q * nat => fst a <= fst b) rest ->
    Forall (fun t => prev <= fst t) rest ->
    NoDup (map snd (pre ++ rest)) ->
    Forall (fun t : Q * nat => (snd t < n)%nat) (pre ++ rest) ->
    length ranks = n ->
    (1 <= rank <= Z.of_nat (length pre))%Z ->
    (forall t, In t pre ->
       fst t <= prev
       /\ (1 <= zget ranks (snd t) <= rank)%Z
       /\ (fst t < prev <-> (zget ranks (snd t) < rank)%Z)) ->
    (forall t1 t2, In t1 pre -> In t2 pre ->
       (fst t1 < fst t2 <-> (zget ranks (snd t1) < zget ranks (snd t2))%Z)) ->
    let ranks' :=
      fst (fst (fold_left
                  (fun (acc : list Z * Z * Q) (t : Q * nat) =>
                     let '(ranks, rank, prev_value) := acc in
                     let current_value := fst t in
                     if Qeq_bool prev_value current_value
                     then (vset ranks (snd t) rank, rank, current_value)
                     else (vset ranks (snd t) (rank + 1)%Z, (rank + 1)%Z,
                           current_value))
                  rest (ranks, rank, prev))) in
    length ranks' = n
    /\ (forall t, In t (pre ++ rest) ->
          (1 <= zget ranks' (snd t) <= Z.of_nat (length (pre ++ rest)))%Z)
    /\ (forall t1 t2, In t1 (pre ++ rest) -> In t2 (pre ++ rest) ->
          (fst t1 < fst t2 <-> (zget ranks' (snd t1) < zget ranks' (snd t2))%Z)).
Proof.
  induction rest as [|t rest IH];
    intros pre ranks rank prev Hs Hge Hnd Hlt HL Hr Hpre Hord; cbn zeta.
  - cbn [fold_left fst]. rewrite app_nil_r. split; [exact HL|]. split.
    + intros t Ht. destruct (Hpre t Ht) as (_ & H & _). lia.
    + exact Hord.
  - cbn [fold_left]. cbv zeta.
    apply StronglySorted_inv in Hs. destruct Hs as [Hs' Hfirst].
    pose proof (Forall_inv Hge) as Hpt. apply Forall_inv_tail in Hge.
    rename Hge into Hge'.
    assert (Hnew : ~ In (snd t) (map snd pre)).
    { rewrite map_app in Hnd. cbn [map] in Hnd.
      apply NoDup_remove_2 in Hnd. intros K. apply Hnd.
      apply in_or_app. left. exact K. }
    assert (Hidx : (snd t < n)%nat).
    { rewrite Forall_forall in Hlt. apply Hlt. apply in_or_app. right.
      left. reflexivity. }
    assert (Hkeep : forall (x : Z) (t1 : Q * nat), In t1 pre ->
              zget (vset ranks (snd t) x) (snd t1) = zget ranks (snd t1)).
    { intros x t1 H1. apply zget_vset_neq. intros K. apply Hnew.
      rewrite K. apply in_map. exact H1. }
    assert (Hset : forall x : Z, zget (vset ranks (snd t) x) (snd t) = x).
    { intros x. apply zget_vset_eq. lia. }
    replace (pre ++ t :: rest) with ((pre ++ [t]) ++ rest) in *
      by (rewrite <- app_assoc; reflexivity).
    destruct (Qeq_bool prev (fst t)) eqn:T.
    + apply Qeq_bool_iff in T.
      apply (IH (pre ++ [t]) (vset ranks (snd t) rank) rank (fst t));
        try assumption.
      * rewrite length_vset. exact HL.
      * rewrite length_app. cbn [length]. lia.
      * intros t1 H1. apply in_app_or in H1. destruct H1 as [H1|[<-|[]]].
        -- rewrite Hkeep by exact H1. destruct (Hpre t1 H1) as (A & B & C).
           split; [lra|]. split; [exact B|]. rewrite <- T. exact C.
        -- rewrite Hset. split; [lra|]. split; [lia|]. split; intros; [lra|lia].
      * intros t1 t2 H1 H2. apply in_app_or in H1, H2.
        destruct H1 as [H1|[<-|[]]], H2 as [H2|[<-|[]]].
        -- rewrite (Hkeep _ _ H1), (Hkeep _ _ H2). apply Hord; assumption.
        -- rewrite (Hkeep _ _ H1), Hset.
           destruct (Hpre t1 H1) as (A & B & C). rewrite <- T. exact C.
        -- rewrite (Hkeep _ _ H2), Hset.
           destruct (Hpre t2 H2) as (A & B & C). split; intros; [lra|lia].
        -- rewrite Hset. split; intros; [lra|lia].
    + assert (Hlt' : prev < fst t).
      { destruct (Qlt_le_dec prev (fst t)) as [L|L]; [exact L|].
        assert (E : prev == fst t) by (apply Qle_antisym; assumption).
        apply Qeq_bool_iff in E. congruence. }
      apply (IH (pre ++ [t]) (vset ranks (snd t) (rank + 1)%Z) (rank + 1)%Z
                (fst t)); try assumption.
      * rewrite length_vset. exact HL.
      * rewrite length_app. cbn [length]. lia.
      * intros t1 H1. apply in_app_or in H1. destruct H1 as [H1|[<-|[]]].
        -- rewrite Hkeep by exact H1. destruct (Hpre t1 H1) as (A & B & C).
           split; [lra|]. split; [lia|]. split; intros; [lia|lra].
        -- rewrite Hset. split; [lra|]. split; [lia|]. split; intros; [lra|lia].
      * intros t1 t2 H1 H2. apply in_app_or in H1, H2.
        destruct H1 as [H1|[<-|[]]], H2 as [H2|[<-|[]]].
        -- rewrite (Hkeep _ _ H1), (Hkeep _ _ H2). apply Hord; assumption.
        -- rewrite (Hkeep _ _ H1), Hset.
           destruct (Hpre t1 H1) as (A & B & C). split; intros; [lia|lra].
        -- rewrite (Hkeep _ _ H2), Hset.
           destruct (Hpre t2 H2) as (A & B & C). split; intros; [lra|lia].
        -- rewrite Hset. split; intros; [lra|lia].
Qed.

Lemma get_ranks_facts (v : list Q) :
  v <> [] ->
  let ranks := tools.get_ranks v in
  length ranks = length v
  /\ (forall i, (i < length v)%nat ->
        (1 <= zget ranks i <= Z.of_nat (length v))%Z)
  /\ (forall i j, (i < length v)%nat -> (j < length v)%nat ->
        (qget v i < qget v j <-> (zget ranks i < zget ranks j)%Z)).
Proof.
  intros Hne. cbn zeta.
  destruct (sorted_tuples_facts v) as (S & ND & V & All).
  cbn zeta in S, ND, V, All.
  assert (Ln : length (tools.sorted_tuples v) = length v).
  { pose proof (Permutation_length (proj1 (sort_indices_facts v))) as PL.
    unfold tools.sort_indices in PL. rewrite length_map, length_seq in PL.
    exact PL. }
  unfold tools.get_ranks.
  destruct (tools.sorted_tuples v) as [|[v0 i0] rest] eqn:E.
  { destruct v; [congruence|discriminate]. }
  apply StronglySorted_inv in S. destruct S as [S' Hfirst].
  assert (Hi0 : (i0 < length v)%nat).
  { apply Forall_inv in V. apply V. }
  match goal with
  | |- context [fold_left ?f rest ?init] =>
      pose proof (@get_ranks_loop (length v) rest [(v0, i0)]
                    (vset (repeat 0%Z (length v)) i0 1%Z) 1%Z v0) as H;
      destruct (fold_left f rest init) as [[ranks rk] pv] eqn:F
  end.
  cbv zeta in H. cbn [fst] in H.
  destruct H as (HL & HR & HO).
  - exact S'.
  - exact Hfirst.
  - exact ND.
  - eapply Forall_impl; [|exact V]. intros t [Ht _]. exact Ht.
  - rewrite length_vset. apply repeat_length.
  - cbn [length]. lia.
  - intros t [<-|[]]. cbn [fst snd].
    rewrite zget_vset_eq by (rewrite repeat_length; exact Hi0).
    split; [lra|]. split; [lia|]. split; intros; [lra|lia].
  - intros t1 t2 [<-|[]] [<-|[]]. cbn [fst snd]. split; intros; [lra|lia].
  - cbn [app] in HR, HO.
    assert (Hfind : forall i, (i < length v)%nat ->
              exists t, In t ((v0, i0) :: rest)
                        /\ snd t = i /\ fst t = qget v i).
    { intros i Hi. specialize (All i Hi). apply in_map_iff in All.
      destruct All as (t & Ht & Hin). exists t. split; [exact Hin|].
      split; [exact Ht|]. rewrite Forall_forall in V.
      destruct (V t Hin) as [_ Hv]. rewrite Hv, Ht. reflexivity. }
    split; [exact HL|]. split.
    + intros i Hi. destruct (Hfind i Hi) as (t & Hin & <- & _).
      specialize (HR t Hin). rewrite Ln in HR. exact HR.
    + intros i j Hi Hj.
      destruct (Hfind i Hi) as (t1 & H1 & <- & <-).
      destruct (Hfind j Hj) as (t2 & H2 & <- & <-).
      apply HO; assumption.
Qed.

(** X4: [get_ranks(v)] on a vector that is not empty: one rank between 1
    and the length per element, ordered as the values are; elements with
    equal values share their rank *)
Theorem get_ranks_order (v : list Q) :
  v <> [] ->
  let ranks := tools.get_ranks v in
  length ranks = length v
  /\ (forall i, (i < length v)%nat ->
        (1 <= zget ranks i <= Z.of_nat (length v))%Z)
  /\ (forall i j, (i < length v)%nat -> (j < length v)%nat ->
        (qget v i < qget v j <-> (zget ranks i < zget ranks j)%Z)
        /\ (qget v i == qget v j <-> zget ranks i = zget ranks j)).
Proof.
  intros Hne. destruct (get_ranks_facts Hne) as (L & R & O). cbn zeta in *.
  split; [exact L|]. split; [exact R|].
  intros i j Hi Hj. split; [apply O; assumption|].
  pose proof (O i j Hi Hj) as O1. pose proof (O j i Hj Hi) as O2.
  split.
  - intros E.
    destruct (Z.lt_trichotomy (zget (tools.get_ranks v) i)
                              (zget (tools.get_ranks v) j)) as [K|[K|K]];
      [apply O1 in K; lra|exact K|apply O2 in K; lra].
  - intros E.
    destruct (Qlt_le_dec (qget v i) (qget v j)) as [K|K];
      [apply O1 in K; lia|].
    destruct (Qlt_le_dec (qget v j) (qget v i)) as [K'|K'];
      [apply O2 in K'; lia|].
    apply Qle_antisym; assumption.
Qed.

(** X4 at a concrete input *)
Lemma get_ranks_order_witness :
  let v := [6; 5; 4; 6; 6] in
  let ranks := tools.get_ranks v in
  length ranks = length v
  /\ (forall i, (i < length v)%nat ->
        (1 <= zget ranks i <= Z.of_nat (length v))%Z)
  /\ (forall i j, (i < length v)%nat -> (j < length v)%nat ->
        (qget v i < qget v j <-> (zget ranks i < zget ranks j)%Z)
        /\ (qget v i == qget v j <-> zget ranks i = zget ranks j)).
Proof.
  apply (@get_ranks_order [6; 5; 4; 6; 6]). discriminate.
Defined.

End RankFacts.

Section EvaluationFacts.
Import Num Sol.


(** ** [evaluate_solution] *)

Lemma for_routes_inv {St : Type} (P : nat -> St -> Prop)
  (routes : list (list nat)) (body : nat -> list nat -> St -> St) (init : St) :
  P O init ->
  (forall k st, (k < length routes)%nat -> P k st ->
                P (S k) (body k (nth k routes []) st)) ->
  P (length routes) (for_routes routes body init).
Proof.
  unfold for_routes.
  assert (G : forall (l : list (list nat)) (n : nat) (st : St),
             (forall k st', (k < length l)%nat -> P (n + k)%nat st' ->
                            P (S (n + k)) (body (n + k)%nat (nth k l []) st')) ->
             P n st ->
             P (n + length l)%nat
               (snd (fold_left (fun acc route =>
                                  let '(route_id, st) := acc in
                                  (S route_id, body route_id route st))
                               l (n, st)))).
  { induction l as [|r l IH]; intros n st Hstep Hn; simpl.
    - rewrite Nat.add_0_r. exact Hn.
    - replace (n + S (length l))%nat with (S n + length l)%nat by lia.
      apply IH.
      + intros k st' Hk Hp.
        replace (S n + k)%nat with (n + S k)%nat in * by lia.
        apply (Hstep (S k) st'); [simpl; lia|exact Hp].
      + specialize (Hstep O st). rewrite Nat.add_0_r in Hstep.
        apply Hstep; [simpl; lia|exact Hn]. }
  intros H0 Hstep. apply (G routes O init); [|exact H0].
  intros k st' Hk Hp. apply Hstep; assumption.
Qed.

Lemma fold_seq_inv {St : Type} (P : nat -> St -> Prop) (n : nat)
  (body : St -> nat -> St) (init : St) :
  P O init ->
  (forall k st, (k < n)%nat -> P k st -> P (S k) (body st k)) ->
  P n (fold_left body (seq 0 n) init).
Proof.
  intros H0 Hstep. induction n as [|n IH].
  - exact H0.
  - rewrite seq_S, fold_left_app. simpl. apply Hstep; [lia|].
    apply IH. intros k st Hk. apply Hstep. lia.
Qed.

Lemma set_chromosomes_fold (routes : list (list nat)) :
  forall (k : nat) (chrom : list nat),
    NoDup (concat routes) ->
    (forall c, In c (concat routes) -> (c < length chrom)%nat) ->
    let res :=
      snd (fold_left
             (fun acc route =>
                let '(route_id, st) := acc in
                (S route_id,
                 route_evaluate.update_route_chromosome st route route_id))
             routes (k, chrom)) in
    length res = length chrom
    /\ (forall i c, In c (nth i routes []) -> nget res c = (k + i)%nat)
    /\ (forall c, ~ In c (concat routes) -> nget res c = nget chrom c).
Proof.
  induction routes as [|r routes IH]; intros k chrom Hnd Hin; cbn zeta.
  - simpl. split; [reflexivity|]. split; [|reflexivity].
    intros [|i] c H; destruct H.
  - cbn [fold_left]. cbn [concat] in Hnd, Hin.
    destruct (update_route_chromosome_spec r k chrom) as (L & I & O).
    destruct (IH (S k) (route_evaluate.update_route_chromosome chrom r k))
      as (L1 & I1 & O1).
    + apply NoDup_app_remove_l in Hnd. exact Hnd.
    + intros c Hc. rewrite L. apply Hin. apply in_or_app. right. exact Hc.
    + cbn zeta in L1, I1, O1. split; [congruence|]. split.
      * intros [|i] c Hc; cbn [nth] in Hc.
        -- rewrite O1.
           ++ rewrite Nat.add_0_r. apply I; [exact Hc|].
              apply Hin. apply in_or_app. left. exact Hc.
           ++ intros K. eapply NoDup_app_disjoint; eauto.
        -- rewrite (I1 i c Hc). lia.
      * intros c Hc. rewrite O1.
        -- apply O. intros K. apply Hc. apply in_or_app. left. exact K.
        -- intros K. apply Hc. apply in_or_app. right. exact K.
Qed.

(** X11: after [set_chromosomes] every customer of a route carries the id of
    the route; a customer in no route carries 0, the id of the first
    route *)
Theorem set_chromosomes_spec (dat : ALNSData) (s : Solution) :
  NoDup (concat (solution_representation s)) ->
  (forall c, In c (concat (solution_representation s)) ->
             (c < nr_customer dat)%nat) ->
  let chrom := route_chromosome (set_chromosomes dat s) in
  length chrom = nr_customer dat
  /\ (forall r c, In c (rget (solution_representation s) r) -> nget chrom c = r)
  /\ (forall c, ~ In c (concat (solution_representation s)) -> nget chrom c = O)
  /\ solution_representation (set_chromosomes dat s) = solution_representation s.
Proof.
  intros Hnd Hin. cbn zeta. unfold set_chromosomes, for_routes.
  cbn [route_chromosome solution_representation upd_route_chromosome].
  destruct (@set_chromosomes_fold (solution_representation s) O
              (repeat O (nr_customer dat)) Hnd) as (L & I & O).
  { intros c Hc. rewrite repeat_length. apply Hin. exact Hc. }
  cbn zeta in L, I, O. rewrite repeat_length in L.
  split; [exact L|]. split; [exact I|]. split; [|reflexivity].
  intros c Hc. rewrite (O c Hc). unfold nget.
  clear. revert c. induction (nr_customer dat) as [|n IH]; intros [|c]; simpl; auto.
Qed.

(** X11 at a concrete input *)
Lemma set_chromosomes_spec_witness :
  let dat := Examples.five 10 in
  let s := Op.sol (Examples.start 10) in
  let chrom := route_chromosome (set_chromosomes dat s) in
  length chrom = nr_customer dat
  /\ (forall r c, In c (rget (solution_representation s) r) -> nget chrom c = r)
  /\ (forall c, ~ In c (concat (solution_representation s)) -> nget chrom c = O)
  /\ solution_representation (set_chromosomes dat s) = solution_representation s.
Proof.
  apply (@set_chromosomes_spec (Examples.five 10) (Op.sol (Examples.start 10))).
  - vm_compute. repeat constructor; simpl; intuition discriminate.
  - intros c Hc. vm_compute in Hc. vm_compute.
    repeat (destruct Hc as [Hc|Hc]; [subst c; lia|]). destruct Hc.
Defined.

(** *** The aggregates *)

Lemma Qsum_snoc (l : list Q) (x : Q) : Qsum (l ++ [x]) == Qsum l + x.
Proof.
  unfold Qsum. rewrite fold_left_app. simpl. reflexivity.
Qed.

Lemma firstn_vset_snoc (vec : list Q) (k : nat) (v : Q) :
  (k < length vec)%nat -> firstn (S k) (vset vec k v) = firstn k vec ++ [v].
Proof.
  revert k. induction vec as [|h t IH]; intros [|k] H; simpl in *; try lia.
  - reflexivity.
  - f_equal. apply IH. lia.
Qed.

Lemma sum_so_far_init (n : nat) : sum_so_far n O 0 (repeat 0 n).
Proof. split; [apply repeat_length|reflexivity]. Qed.

Lemma sum_so_far_step (n k : nat) (total v : Q) (vec : list Q) :
  (k < n)%nat -> sum_so_far n k total vec ->
  sum_so_far n (S k) (total + v) (vset vec k v).
Proof.
  intros Hk [L E]. split; [rewrite length_vset; exact L|].
  rewrite firstn_vset_snoc by lia. rewrite Qsum_snoc, E. reflexivity.
Qed.

Lemma sum_so_far_end (n : nat) (total : Q) (vec : list Q) :
  sum_so_far n n total vec -> length vec = n /\ total == Qsum vec.
Proof.
  intros [L E]. split; [exact L|]. rewrite E, <- L, firstn_all. reflexivity.
Qed.

Lemma set_capa_error_sum (dat : ALNSData) (s : Solution) :
  (length (solution_representation s) <= nr_vehicles dat)%nat ->
  let s' := set_capa_error dat s in
  length (route_capa_errors s') = nr_vehicles dat
  /\ sum_so_far (nr_vehicles dat) (length (solution_representation s))
                (capa_error s') (route_capa_errors s').
Proof.
  intros HL. cbn zeta. unfold set_capa_error.
  pose proof (@for_routes_inv (Q * list Q)
                (fun k acc => sum_so_far (nr_vehicles dat) k (fst acc) (snd acc))
                (solution_representation s)
                (fun route_id route acc =>
                   ((fst acc
                     + route_evaluate.get_capa_error route (vehicle_cap dat)
                         (loads s))%Q,
                    vset (snd acc) route_id
                      (route_evaluate.get_capa_error route (vehicle_cap dat)
                         (loads s))))
                (0, repeat 0 (nr_vehicles dat))) as H.
  match type of H with
  | _ -> _ -> ?P (length _) ?x => destruct x as [ce rce] eqn:E
  end.
  cbn [fst snd] in H.
  cbn [route_capa_errors capa_error upd_route_capa_errors upd_capa_error].
  assert (K : sum_so_far (nr_vehicles dat) (length (solution_representation s))
                         ce rce).
  { apply H; [apply sum_so_far_init|].
    intros k [t v] Hk Hs. cbn [fst snd] in *. apply sum_so_far_step; [lia|exact Hs]. }
  split; [apply K|exact K].
Qed.

Lemma set_frame_error_sum (dat : ALNSData) (s : Solution) :
  let s' := set_frame_error dat s in
  length (route_frame_errors s') = length (solution_representation s)
  /\ frame_error s' == Qsum (route_frame_errors s').
Proof.
  cbn zeta. unfold set_frame_error.
  pose proof (@for_routes_inv (Q * list Q)
                (fun k acc =>
                   sum_so_far (length (solution_representation s)) k
                              (fst acc) (snd acc))
                (solution_representation s)
                (fun route_id route acc =>
                   ((fst acc
                     + route_evaluate.get_frame_error route (end_window dat)
                         (arrival_times s))%Q,
                    vset (snd acc) route_id
                      (route_evaluate.get_frame_error route (end_window dat)
                         (arrival_times s))))
                (0, repeat 0 (length (solution_representation s)))) as H.
  match type of H with
  | _ -> _ -> ?P (length _) ?x => destruct x as [fe rfe] eqn:E
  end.
  cbn [fst snd] in H.
  cbn [route_frame_errors frame_error upd_route_frame_errors upd_frame_error].
  apply sum_so_far_end. apply H; [apply sum_so_far_init|].
  intros k [t v] Hk Hs. cbn [fst snd] in *. apply sum_so_far_step; [lia|exact Hs].
Qed.

Lemma set_solution_time_sum (dat : ALNSData) (s : Solution) :
  let s' := set_solution_time dat s in
  length (route_driving_times s') = length (solution_representation s)
  /\ driving_time s' == Qsum (route_driving_times s').
Proof.
  cbn zeta. unfold set_solution_time.
  match goal with
  | |- context [for_routes ?routes ?body ?init] =>
      pose proof (@for_routes_inv _
                    (fun k (acc : Q * list Q * list Q * list Q * list Q) =>
                       let '(total, _, rdts, _, _) := acc in
                       sum_so_far (length (solution_representation s)) k
                                  total rdts)
                    routes body init) as H;
      destruct (for_routes routes body init) as [[[[tt st] rdts] arr] dep] eqn:E
  end.
  cbn [route_driving_times driving_time upd_departure_times upd_arrival_times
       upd_route_driving_times upd_driving_time upd_start_times].
  apply sum_so_far_end. apply H; [apply sum_so_far_init|].
  intros k [[[[t st0] v] a] d] Hk Hs.
  destruct (route_evaluate.update_visit_times a d _ _ _ _ _ _) as [[rdt a'] d'].
  destruct Hs as [L Es].
  unfold qget. rewrite nth_vset_eq by lia.
  apply sum_so_far_step; [exact Hk|split; assumption].
Qed.

Lemma set_quality_sum (dat : ALNSData) (cw fw : Q) (s : Solution) :
  let s' := set_quality dat cw fw s in
  length (route_qualities s') = nr_vehicles dat
  /\ solution_quality s' == Qsum (route_qualities s')
  /\ forall r, (r < nr_vehicles dat)%nat ->
       qget (route_qualities s') r
       = route_evaluate.get_quality (qget (route_driving_times s) r)
           (qget (route_capa_errors s) r) (qget (route_frame_errors s) r) cw fw.
Proof.
  cbn zeta. unfold set_quality.
  match goal with
  | |- context [fold_left ?body (seq 0 ?n) ?init] =>
      pose proof (@fold_seq_inv _
                    (fun k (acc : Q * list Q) =>
                       sum_so_far n k (fst acc) (snd acc)
                       /\ forall r, (r < k)%nat ->
                            qget (snd acc) r
                            = route_evaluate.get_quality
                                (qget (route_driving_times s) r)
                                (qget (route_capa_errors s) r)
                                (qget (route_frame_errors s) r) cw fw)
                    n body init) as H;
      destruct (fold_left body (seq 0 n) init) as [q rq] eqn:E
  end.
  cbn [route_qualities solution_quality upd_route_qualities
       upd_solution_quality].
  cbn [fst snd] in H. destruct H as [Hs Hr].
  - split; [apply sum_so_far_init|]. intros r Hr. lia.
  - intros k [t v] Hk [Hs Hr]. cbn [fst snd] in *. split.
    + apply sum_so_far_step; [exact Hk|exact Hs].
    + intros r Hlt. destruct Hs as [L _].
      destruct (Nat.eq_dec r k) as [->|N].
      * unfold qget at 1. rewrite nth_vset_eq by lia. reflexivity.
      * unfold qget at 1. rewrite nth_vset_neq by auto. apply Hr. lia.
  - apply sum_so_far_end in Hs. destruct Hs as [L Es].
    split; [exact L|]. split; [exact Es|exact Hr].
Qed.

Lemma Qsum_quality (cw fw : Q) :
  forall (q a b c : list Q),
    length a = length q -> length b = length q -> length c = length q ->
    (forall r, (r < length q)%nat ->
       qget q r = route_evaluate.get_quality (qget a r) (qget b r) (qget c r) cw fw) ->
    Qsum q == Qsum a + cw * Qsum b + fw * Qsum c.
Proof.
  induction q as [|x q IH]; intros [|xa a] [|xb b] [|xc c] La Lb Lc H;
    simpl in La, Lb, Lc; try discriminate.
  - unfold Qsum. simpl. ring.
  - rewrite !Qsum_cons.
    rewrite (IH a b c); try lia.
    + specialize (H O). cbn in H. rewrite H by lia.
      unfold route_evaluate.get_quality. ring.
    + intros r Hr. apply (H (S r)). simpl. lia.
Qed.


Lemma set_first_steps_routes (dat : ALNSData) (s : Solution) :
  solution_representation
    (set_solution_time dat (set_load_levels dat (set_chromosomes dat s)))
  = solution_representation s.
Proof.
  unfold set_solution_time, set_load_levels, set_chromosomes.
  split_pairs. reflexivity.
Qed.

Lemma set_capa_error_frame (dat : ALNSData) (s : Solution) :
  solution_representation (set_capa_error dat s) = solution_representation s
  /\ route_driving_times (set_capa_error dat s) = route_driving_times s
  /\ driving_time (set_capa_error dat s) = driving_time s.
Proof. unfold set_capa_error. split_pairs. repeat split. Qed.

Lemma set_frame_error_frame (dat : ALNSData) (s : Solution) :
  solution_representation (set_frame_error dat s) = solution_representation s
  /\ route_driving_times (set_frame_error dat s) = route_driving_times s
  /\ driving_time (set_frame_error dat s) = driving_time s
  /\ route_capa_errors (set_frame_error dat s) = route_capa_errors s
  /\ capa_error (set_frame_error dat s) = capa_error s.
Proof. unfold set_frame_error. split_pairs. repeat split. Qed.

Lemma set_quality_frame (dat : ALNSData) (cw fw : Q) (s : Solution) :
  solution_representation (set_quality dat cw fw s) = solution_representation s
  /\ route_driving_times (set_quality dat cw fw s) = route_driving_times s
  /\ driving_time (set_quality dat cw fw s) = driving_time s
  /\ route_capa_errors (set_quality dat cw fw s) = route_capa_errors s
  /\ capa_error (set_quality dat cw fw s) = capa_error s
  /\ route_frame_errors (set_quality dat cw fw s) = route_frame_errors s
  /\ frame_error (set_quality dat cw fw s) = frame_error s.
Proof. unfold set_quality. split_pairs. repeat split. Qed.

Lemma evaluate_solution_sums (dat : ALNSData) (cw fw : Q) (s : Solution) :
  length (solution_representation s) = nr_vehicles dat ->
  let s' := evaluate_solution dat cw fw s in
  solution_representation s' = solution_representation s
  /\ (length (route_driving_times s') = nr_vehicles dat
      /\ length (route_capa_errors s') = nr_vehicles dat
      /\ length (route_frame_errors s') = nr_vehicles dat
      /\ length (route_qualities s') = nr_vehicles dat)
  /\ driving_time s' == Qsum (route_driving_times s')
  /\ capa_error s' == Qsum (route_capa_errors s')
  /\ frame_error s' == Qsum (route_frame_errors s')
  /\ solution_quality s' == Qsum (route_qualities s')
  /\ solution_quality s'
     == driving_time s' + cw * capa_error s' + fw * frame_error s'
  /\ (is_feasible s' = true <-> capa_error s' <= 0 /\ frame_error s' <= 0).
Proof.
  intros HL. cbn zeta. unfold evaluate_solution.
  set (s3 := set_solution_time dat (set_load_levels dat (set_chromosomes dat s))).
  pose proof (set_first_steps_routes dat s) as R3. fold s3 in R3.
  destruct (set_solution_time_sum dat
              (set_load_levels dat (set_chromosomes dat s))) as [T1 T2].
  fold s3 in T1, T2.
  assert (R2 : solution_representation (set_load_levels dat (set_chromosomes dat s))
               = solution_representation s).
  { unfold set_load_levels, set_chromosomes. split_pairs. reflexivity. }
  rewrite R2 in T1.
  set (s4 := set_capa_error dat s3).
  destruct (set_capa_error_frame dat s3) as (C1 & C2 & C3). fold s4 in C1, C2, C3.
  destruct (@set_capa_error_sum dat s3) as [C4 C5]; [rewrite R3; lia|].
  fold s4 in C4, C5. rewrite R3, HL in C5. apply sum_so_far_end in C5.
  destruct C5 as [_ C5].
  set (s5 := set_frame_error dat s4).
  destruct (set_frame_error_frame dat s4) as (F1 & F2 & F3 & F4 & F5).
  fold s5 in F1, F2, F3, F4, F5.
  destruct (set_frame_error_sum dat s4) as [F6 F7]. fold s5 in F6, F7.
  set (s6 := set_quality dat cw fw s5).
  destruct (set_quality_frame dat cw fw s5) as (Q1 & Q2 & Q3 & Q4 & Q5 & Q6 & Q7).
  fold s6 in Q1, Q2, Q3, Q4, Q5, Q6, Q7.
  destruct (set_quality_sum dat cw fw s5) as (Q8 & Q9 & Q10).
  fold s6 in Q8, Q9, Q10.
  unfold set_is_feasible.
  cbn [solution_representation route_driving_times route_capa_errors
       route_frame_errors route_qualities driving_time capa_error frame_error
       solution_quality is_feasible upd_is_feasible].
  assert (Ld : length (route_driving_times s6) = nr_vehicles dat) by congruence.
  assert (Lc : length (route_capa_errors s6) = nr_vehicles dat) by congruence.
  assert (Lf : length (route_frame_errors s6) = nr_vehicles dat) by congruence.
  assert (Ed : driving_time s6 == Qsum (route_driving_times s6)).
  { rewrite Q3, Q2, F3, F2, C3, C2. exact T2. }
  assert (Ec : capa_error s6 == Qsum (route_capa_errors s6)).
  { rewrite Q5, Q4, F5, F4. exact C5. }
  assert (Ef : frame_error s6 == Qsum (route_frame_errors s6)).
  { rewrite Q7, Q6. exact F7. }
  split; [congruence|]. split; [auto|].
  split; [exact Ed|]. split; [exact Ec|]. split; [exact Ef|].
  split; [exact Q9|]. split.
  - rewrite Q9, Ed, Ec, Ef.
    apply Qsum_quality; try congruence.
    intros r Hr. rewrite Q8 in Hr. rewrite (Q10 r Hr), Q2, Q4, Q6. reflexivity.
  - destruct (Qltb 0 (capa_error s6)) eqn:E1; cbn [orb].
    + apply Qltb_lt in E1. split; [discriminate|]. intros [H _].
      exfalso. exact (Qlt_not_le _ _ E1 H).
    + apply Qltb_ge in E1. destruct (Qltb 0 (frame_error s6)) eqn:E2.
      * apply Qltb_lt in E2. split; [discriminate|]. intros [_ H].
        exfalso. exact (Qlt_not_le _ _ E2 H).
      * apply Qltb_ge in E2. split; auto.
Qed.

(** X12: after [evaluate_solution] on a solution with [nr_vehicles] routes every
    aggregate is the sum of the values of the routes, the quality is the
    driving time plus the weighted errors, and the solution is marked
    feasible exactly when both errors are at most 0 *)
Theorem evaluate_solution_aggregates (dat : ALNSData) (cw fw : Q) (s : Solution) :
  length (solution_representation s) = nr_vehicles dat ->
  let s' := evaluate_solution dat cw fw s in
  solution_representation s' = solution_representation s
  /\ (length (route_driving_times s') = nr_vehicles dat
      /\ length (route_capa_errors s') = nr_vehicles dat
      /\ length (route_frame_errors s') = nr_vehicles dat
      /\ length (route_qualities s') = nr_vehicles dat)
  /\ driving_time s' == Qsum (route_driving_times s')
  /\ capa_error s' == Qsum (route_capa_errors s')
  /\ frame_error s' == Qsum (route_frame_errors s')
  /\ solution_quality s' == Qsum (route_qualities s')
  /\ solution_quality s'
     == driving_time s' + cw * capa_error s' + fw * frame_error s'
  /\ (is_feasible s' = true <-> capa_error s' <= 0 /\ frame_error s' <= 0).
Proof. apply evaluate_solution_sums. Qed.

(** X12 at a concrete input *)
Lemma evaluate_solution_aggregates_witness :
  let dat := Examples.five 10 in
  let s := upd_solution_representation [[0; 1; 2]; [3; 4]]%nat Solution_default in
  let s' := evaluate_solution dat 1 1 s in
  solution_representation s' = solution_representation s
  /\ (length (route_driving_times s') = nr_vehicles dat
      /\ length (route_capa_errors s') = nr_vehicles dat
      /\ length (route_frame_errors s') = nr_vehicles dat
      /\ length (route_qualities s') = nr_vehicles dat)
  /\ driving_time s' == Qsum (route_driving_times s')
  /\ capa_error s' == Qsum (route_capa_errors s')
  /\ frame_error s' == Qsum (route_frame_errors s')
  /\ solution_quality s' == Qsum (route_qualities s')
  /\ solution_quality s'
     == driving_time s' + 1 * capa_error s' + 1 * frame_error s'
  /\ (is_feasible s' = true <-> capa_error s' <= 0 /\ frame_error s' <= 0).
Proof.
  apply (@evaluate_solution_aggregates (Examples.five 10) 1 1
           (upd_solution_representation [[0; 1; 2]; [3; 4]]%nat Solution_default)).
  reflexivity.
Defined.

End EvaluationFacts.

Section FreshFacts.
Import Num Sol.

(** ** A solution evaluated from scratch *)

Lemma concat_nth_in (routes : list (list nat)) (k c : nat) :
  In c (nth k routes []) -> In c (concat routes).
Proof.
  revert k. induction routes as [|r routes IH]; intros [|k] H; simpl in *;
    try contradiction; apply in_or_app; eauto.
Qed.

Lemma concat_nth_nodup (routes : list (list nat)) (k : nat) :
  NoDup (concat routes) -> NoDup (nth k routes []).
Proof.
  revert k. induction routes as [|r routes IH]; intros [|k] H; simpl in *;
    try constructor.
  - apply NoDup_app_remove_r in H. exact H.
  - apply IH. apply NoDup_app_remove_l in H. exact H.
Qed.

Lemma concat_nth_disjoint (routes : list (list nat)) (j k c : nat) :
  NoDup (concat routes) -> j <> k ->
  In c (nth j routes []) -> In c (nth k routes []) -> False.
Proof.
  revert j k. induction routes as [|r routes IH]; intros [|j] [|k] Hnd N Hj Hk;
    simpl in *; try contradiction; try lia.
  - eapply NoDup_app_disjoint; [exact Hnd|exact Hj|].
    eapply concat_nth_in; exact Hk.
  - eapply NoDup_app_disjoint; [exact Hnd|exact Hk|].
    eapply concat_nth_in; exact Hj.
  - apply (IH j k); auto. apply NoDup_app_remove_l in Hnd. exact Hnd.
Qed.

Lemma NoDup_bounded_length (l : list nat) (n : nat) :
  NoDup l -> (forall c, In c l -> (c < n)%nat) -> (length l <= n)%nat.
Proof.
  intros Hnd Hin.
  assert (H : (length l <= length (seq O n))%nat).
  { apply NoDup_incl_length; [exact Hnd|].
    intros c Hc. apply in_seq. specialize (Hin c Hc). lia. }
  rewrite length_seq in H. exact H.
Qed.

Lemma nget_In (l : list nat) (k : nat) : (k < length l)%nat -> In (nget l k) l.
Proof. intros H. unfold nget. apply nth_In. exact H. Qed.

Lemma get_starting_time_eq (dat : ALNSData) (lvls : list Z) (route : list nat) :
  route_evaluate.get_starting_time route lvls (start_window dat) (time_cube dat)
  = starting_time_of dat lvls route.
Proof. destruct route; reflexivity. Qed.

Section Routes.
Variable dat : ALNSData.
Variable s : Solution.
Hypothesis Hnd : NoDup (concat (solution_representation s)).
Hypothesis Hids : forall c, In c (concat (solution_representation s)) ->
                            (c < nr_customer dat)%nat.
Hypothesis Hint : (Z.of_nat (nr_customer dat) < 2 ^ 31)%Z.

Lemma route_ids (k c : nat) :
  In c (nth k (solution_representation s) []) -> (c < nr_customer dat)%nat.
Proof. intros H. apply Hids. eapply concat_nth_in. exact H. Qed.

Lemma route_short (k : nat) :
  (Z.of_nat (length (nth k (solution_representation s) [])) < 2 ^ 31)%Z.
Proof.
  assert (H : (length (nth k (solution_representation s) [])
               <= nr_customer dat)%nat).
  { apply NoDup_bounded_length; [apply concat_nth_nodup; exact Hnd|].
    intros c Hc. eapply route_ids. exact Hc. }
  lia.
Qed.

Lemma set_load_levels_spec :
  let s' := set_load_levels dat s in
  length (loads s') = nr_customer dat
  /\ length (load_levels s') = nr_customer dat
  /\ forall r, loads_consistent dat (rget (solution_representation s) r)
                 (loads s') (load_levels s') 0.
Proof.
  cbn zeta. unfold set_load_levels.
  match goal with
  | |- context [for_routes ?routes ?body ?init] =>
      pose proof (@for_routes_inv _
                    (fun k (acc : list Q * list Z) =>
                       length (fst acc) = nr_customer dat
                       /\ length (snd acc) = nr_customer dat
                       /\ forall j, (j < k)%nat ->
                            loads_consistent dat (nth j routes [])
                              (fst acc) (snd acc) 0)
                    routes body init) as H;
      destruct (for_routes routes body init) as [lds lvls] eqn:E
  end.
  cbn [loads load_levels upd_load_levels upd_loads].
  cbn [fst snd] in H. destruct H as (L1 & L2 & H).
  - rewrite !repeat_length. split; [reflexivity|]. split; [reflexivity|].
    intros j Hj. lia.
  - intros k [l0 v0] Hk (L1 & L2 & H). cbn [fst snd] in *.
    set (route := nth k (solution_representation s) []).
    destruct (@update_load_levels_spec dat route (Z.of_nat (length route) - 1)
                l0 v0) as (C & O & M1 & M2).
    + apply concat_nth_nodup. exact Hnd.
    + apply route_short.
    + lia.
    + intros c Hc. rewrite L1, L2. split; eapply route_ids; exact Hc.
    + intros i Hi. lia.
    + cbn zeta in C, O, M1, M2.
      split; [rewrite M1; exact L1|]. split; [rewrite M2; exact L2|].
      intros j Hj. destruct (Nat.eq_dec j k) as [->|N]; [exact C|].
      intros i Hi.
      assert (Hout : ~ In (nget (nth j (solution_representation s) []) i) route).
      { intros K. eapply (@concat_nth_disjoint (solution_representation s) j k);
          [exact Hnd|exact N| |exact K].
        apply nget_In. lia. }
      destruct (O _ Hout) as [E1 E2]. rewrite E1, E2.
      apply H; [lia|exact Hi].
  - split; [exact L1|]. split; [exact L2|].
    intros r i Hi. unfold rget in *.
    destruct (Nat.lt_ge_cases r (length (solution_representation s)))
      as [Hr|Hr].
    + apply H; assumption.
    + rewrite nth_overflow in Hi by lia. simpl in Hi. lia.
Qed.

Lemma set_solution_time_spec :
  let s' := set_solution_time dat s in
  forall r, (r < length (solution_representation s))%nat ->
    let route := rget (solution_representation s) r in
    times_consistent dat route (load_levels s)
      (starting_time_of dat (load_levels s) route)
      (arrival_times s') (departure_times s')
    /\ qget (route_driving_times s') r == travel_time dat (load_levels s) O route.
Proof.
  cbn zeta. unfold set_solution_time.
  match goal with
  | |- context [for_routes ?routes ?body ?init] =>
      pose proof (@for_routes_inv _
                    (fun k (acc : Q * list Q * list Q * list Q * list Q) =>
                       let '(_, sts, rdts, arr, dep) := acc in
                       length rdts = length routes
                       /\ length arr = nr_customer dat
                       /\ length dep = nr_customer dat
                       /\ forall j, (j < k)%nat ->
                            times_consistent dat (nth j routes [])
                              (load_levels s)
                              (starting_time_of dat (load_levels s)
                                 (nth j routes []))
                              arr dep
                            /\ qget rdts j
                               == travel_time dat (load_levels s) O
                                    (nth j routes []))
                    routes body init) as H;
      destruct (for_routes routes body init) as [[[[tt st] rdts] arr] dep] eqn:E
  end.
  cbn [route_driving_times arrival_times departure_times upd_departure_times
       upd_arrival_times upd_route_driving_times upd_driving_time
       upd_start_times].
  destruct H as (L1 & L2 & L3 & H).
  - rewrite !repeat_length. split; [reflexivity|]. split; [reflexivity|].
    split; [reflexivity|]. intros j Hj. lia.
  - intros k [[[[t st0] v] a] d] Hk (L1 & L2 & L3 & H).
    set (route := nth k (solution_representation s) []).
    rewrite get_starting_time_eq.
    destruct (@update_visit_times_spec dat (load_levels s) route
                (starting_time_of dat (load_levels s) route) a d)
      as (D & T & M1 & M2 & O).
    + apply concat_nth_nodup. exact Hnd.
    + intros c Hc. rewrite L2, L3. split; eapply route_ids; exact Hc.
    + cbn zeta in D, T, M1, M2, O.
      destruct (route_evaluate.update_visit_times a d _ _ _ _ _ _)
        as [[rdt a'] d'].
      cbn [fst snd] in D, T, M1, M2, O.
      split; [rewrite length_vset; exact L1|].
      split; [rewrite M1; exact L2|]. split; [rewrite M2; exact L3|].
      intros j Hj. destruct (Nat.eq_dec j k) as [->|N].
      * split; [exact T|]. unfold qget. rewrite nth_vset_eq by lia. exact D.
      * destruct (H j ltac:(lia)) as [T0 D0]. split.
        -- intros i Hi.
           assert (Hout : forall i', (i' < length (nth j (solution_representation s) []))%nat ->
                     ~ In (nget (nth j (solution_representation s) []) i') route).
           { intros i' Hi' K.
             eapply (@concat_nth_disjoint (solution_representation s) j k);
               [exact Hnd|exact N| |exact K].
             apply nget_In. exact Hi'. }
           specialize (T0 i Hi). cbn zeta in T0. cbn zeta.
           destruct (O _ (Hout i Hi)) as [E1 E2]. rewrite E1, E2.
           destruct i as [|i'].
           ++ exact T0.
           ++ destruct (O _ (Hout i' ltac:(lia))) as [_ E3]. rewrite E3.
              exact T0.
        -- unfold qget. rewrite nth_vset_neq by auto. exact D0.
  - intros r Hr. unfold rget. apply H. exact Hr.
Qed.

Lemma set_capa_error_entries :
  forall r, (r < length (solution_representation s))%nat ->
    (r < nr_vehicles dat)%nat ->
    qget (route_capa_errors (set_capa_error dat s)) r
    = route_evaluate.get_capa_error (rget (solution_representation s) r)
        (vehicle_cap dat) (loads s).
Proof.
  unfold set_capa_error.
  match goal with
  | |- context [for_routes ?routes ?body ?init] =>
      pose proof (@for_routes_inv _
                    (fun k (acc : Q * list Q) =>
                       length (snd acc) = nr_vehicles dat
                       /\ forall j, (j < k)%nat -> (j < nr_vehicles dat)%nat ->
                            qget (snd acc) j
                            = route_evaluate.get_capa_error (nth j routes [])
                                (vehicle_cap dat) (loads s))
                    routes body init) as H;
      destruct (for_routes routes body init) as [ce rce] eqn:E
  end.
  cbn [route_capa_errors upd_route_capa_errors upd_capa_error].
  cbn [fst snd] in H. destruct H as (L & H).
  - rewrite repeat_length. split; [reflexivity|]. intros j Hj. lia.
  - intros k [t v] Hk (L & H). cbn [fst snd] in *.
    split; [rewrite length_vset; exact L|].
    intros j Hj Hv. destruct (Nat.eq_dec j k) as [->|N].
    + unfold qget. rewrite nth_vset_eq by lia. reflexivity.
    + unfold qget at 1. rewrite nth_vset_neq by auto. apply H; lia.
  - intros r Hr Hv. unfold rget. apply H; assumption.
Qed.

Lemma set_frame_error_entries :
  forall r, (r < length (solution_representation s))%nat ->
    qget (route_frame_errors (set_frame_error dat s)) r
    = route_evaluate.get_frame_error (rget (solution_representation s) r)
        (end_window dat) (arrival_times s).
Proof.
  unfold set_frame_error.
  match goal with
  | |- context [for_routes ?routes ?body ?init] =>
      pose proof (@for_routes_inv _
                    (fun k (acc : Q * list Q) =>
                       length (snd acc) = length routes
                       /\ forall j, (j < k)%nat ->
                            qget (snd acc) j
                            = route_evaluate.get_frame_error (nth j routes [])
                                (end_window dat) (arrival_times s))
                    routes body init) as H;
      destruct (for_routes routes body init) as [fe rfe] eqn:E
  end.
  cbn [route_frame_errors upd_route_frame_errors upd_frame_error].
  cbn [fst snd] in H. destruct H as (L & H).
  - rewrite repeat_length. split; [reflexivity|]. intros j Hj. lia.
  - intros k [t v] Hk (L & H). cbn [fst snd] in *.
    split; [rewrite length_vset; exact L|].
    intros j Hj. destruct (Nat.eq_dec j k) as [->|N].
    + unfold qget. rewrite nth_vset_eq by lia. reflexivity.
    + unfold qget at 1. rewrite nth_vset_neq by auto. apply H; lia.
  - intros r Hr. unfold rget. apply H; assumption.
Qed.

End Routes.

Lemma set_chromosomes_others (dat : ALNSData) (s : Solution) :
  solution_representation (set_chromosomes dat s) = solution_representation s.
Proof. reflexivity. Qed.

Lemma set_load_levels_others (dat : ALNSData) (s : Solution) :
  solution_representation (set_load_levels dat s) = solution_representation s.
Proof. unfold set_load_levels. split_pairs. reflexivity. Qed.

Lemma set_solution_time_others (dat : ALNSData) (s : Solution) :
  solution_representation (set_solution_time dat s) = solution_representation s
  /\ loads (set_solution_time dat s) = loads s
  /\ load_levels (set_solution_time dat s) = load_levels s.
Proof. unfold set_solution_time. split_pairs. repeat split. Qed.

Lemma set_capa_error_others (dat : ALNSData) (s : Solution) :
  solution_representation (set_capa_error dat s) = solution_representation s
  /\ loads (set_capa_error dat s) = loads s
  /\ load_levels (set_capa_error dat s) = load_levels s
  /\ arrival_times (set_capa_error dat s) = arrival_times s
  /\ departure_times (set_capa_error dat s) = departure_times s
  /\ route_driving_times (set_capa_error dat s) = route_driving_times s.
Proof. unfold set_capa_error. split_pairs. repeat split. Qed.

Lemma set_frame_error_others (dat : ALNSData) (s : Solution) :
  solution_representation (set_frame_error dat s) = solution_representation s
  /\ loads (set_frame_error dat s) = loads s
  /\ load_levels (set_frame_error dat s) = load_levels s
  /\ arrival_times (set_frame_error dat s) = arrival_times s
  /\ departure_times (set_frame_error dat s) = departure_times s
  /\ route_driving_times (set_frame_error dat s) = route_driving_times s
  /\ route_capa_errors (set_frame_error dat s) = route_capa_errors s.
Proof. unfold set_frame_error. split_pairs. repeat split. Qed.

Lemma set_quality_others (dat : ALNSData) (cw fw : Q) (s : Solution) :
  solution_representation (set_quality dat cw fw s) = solution_representation s
  /\ loads (set_quality dat cw fw s) = loads s
  /\ load_levels (set_quality dat cw fw s) = load_levels s
  /\ arrival_times (set_quality dat cw fw s) = arrival_times s
  /\ departure_times (set_quality dat cw fw s) = departure_times s
  /\ route_driving_times (set_quality dat cw fw s) = route_driving_times s
  /\ route_capa_errors (set_quality dat cw fw s) = route_capa_errors s
  /\ route_frame_errors (set_quality dat cw fw s) = route_frame_errors s.
Proof. unfold set_quality. split_pairs. repeat split. Qed.

Lemma evaluate_solution_fresh (dat : ALNSData) (cw fw : Q) (s : Solution) :
  length (solution_representation s) = nr_vehicles dat ->
  NoDup (concat (solution_representation s)) ->
  (forall c, In c (concat (solution_representation s)) ->
             (c < nr_customer dat)%nat) ->
  (Z.of_nat (nr_customer dat) < 2 ^ 31)%Z ->
  forall r, (r < nr_vehicles dat)%nat ->
    route_consistent dat cw fw r (evaluate_solution dat cw fw s).
Proof.
  intros HL Hnd Hids Hint r Hr. unfold evaluate_solution.
  set (s1 := set_chromosomes dat s).
  set (s2 := set_load_levels dat s1).
  set (s3 := set_solution_time dat s2).
  set (s4 := set_capa_error dat s3).
  set (s5 := set_frame_error dat s4).
  set (s6 := set_quality dat cw fw s5).
  assert (R1 : solution_representation s1 = solution_representation s)
    by reflexivity.
  assert (R2 : solution_representation s2 = solution_representation s).
  { unfold s2. rewrite set_load_levels_others. exact R1. }
  destruct (set_solution_time_others dat s2) as (R3 & A3 & B3).
  fold s3 in R3, A3, B3. rewrite R2 in R3.
  destruct (set_capa_error_others dat s3) as (R4 & A4 & B4 & C4 & D4 & E4).
  fold s4 in R4, A4, B4, C4, D4, E4. rewrite R3 in R4.
  destruct (set_frame_error_others dat s4) as (R5 & A5 & B5 & C5 & D5 & E5 & F5).
  fold s5 in R5, A5, B5, C5, D5, E5, F5. rewrite R4 in R5.
  destruct (set_quality_others dat cw fw s5)
    as (R6 & A6 & B6 & C6 & D6 & E6 & F6 & G6).
  fold s6 in R6, A6, B6, C6, D6, E6, F6, G6. rewrite R5 in R6.
  (* loads *)
  destruct (@set_load_levels_spec dat s1) as (LL1 & LL2 & HL2);
    [rewrite R1; exact Hnd|rewrite R1; exact Hids|exact Hint|].
  cbn zeta in LL1, LL2, HL2. fold s2 in LL1, LL2, HL2. rewrite R1 in HL2.
  (* times *)
  assert (HT := @set_solution_time_spec dat s2).
  rewrite R2 in HT. specialize (HT Hnd Hids r ltac:(lia)).
  cbn zeta in HT. fold s3 in HT. destruct HT as [HT HD].
  (* errors *)
  assert (HC := @set_capa_error_entries dat s3 r).
  rewrite R3 in HC. specialize (HC ltac:(lia) Hr). fold s4 in HC.
  assert (HF := @set_frame_error_entries dat s4 r).
  rewrite R4 in HF. specialize (HF ltac:(lia)). fold s5 in HF.
  destruct (@set_quality_sum dat cw fw s5) as (_ & _ & HQ).
  specialize (HQ r Hr). fold s6 in HQ.
  constructor;
    cbn [solution_representation loads load_levels arrival_times
         departure_times route_driving_times route_capa_errors
         route_frame_errors route_qualities set_is_feasible upd_is_feasible];
    rewrite ?R6, ?A6, ?B6, ?C6, ?D6, ?E6, ?F6, ?G6,
      ?A5, ?B5, ?C5, ?D5, ?E5, ?F5, ?A4, ?B4, ?C4, ?D4, ?E4, ?A3, ?B3.
  - apply HL2.
  - exact HT.
  - exact HD.
  - rewrite HC, A3. apply get_capa_error_spec with (lvls := load_levels s2).
    apply HL2.
  - rewrite HF, C4. apply get_frame_error_spec.
  - rewrite HQ. unfold route_evaluate.get_quality.
    rewrite E5, E4, F5. ring.
Qed.

End FreshFacts.

Section FeasibleFacts.
Import Num Sol.

Lemma Qsum_nonneg (l : list Q) : Forall (fun x => 0 <= x) l -> 0 <= Qsum l.
Proof.
  induction 1 as [|x l Hx Hl IH].
  - unfold Qsum. simpl. lra.
  - rewrite Qsum_cons. lra.
Qed.

Lemma Qsum_none (l : list Q) :
  Forall (fun x => 0 <= x) l ->
  (Qsum l <= 0 <-> Forall (fun x => x <= 0) l).
Proof.
  induction 1 as [|x l Hx Hl IH].
  - split; [constructor|]. intros _. unfold Qsum. simpl. lra.
  - rewrite Qsum_cons. pose proof (Qsum_nonneg Hl) as Hs. split.
    + intros H. constructor; [lra|]. apply IH. lra.
    + intros H. inversion H as [|? ? H1 H2]; subst. apply IH in H2. lra.
Qed.

Lemma fmax_0_none (x : Q) : fmax 0 x <= 0 <-> x <= 0.
Proof.
  unfold fmax. destruct (Qltb 0 x) eqn:E.
  - apply Qltb_lt in E. split; intros; lra.
  - apply Qltb_ge in E. split; intros; lra.
Qed.

Lemma fmax_0_nonneg (x : Q) : 0 <= fmax 0 x.
Proof.
  unfold fmax. destruct (Qltb 0 x) eqn:E.
  - apply Qltb_lt in E. lra.
  - lra.
Qed.

Lemma lateness_nonneg (dat : ALNSData) (arr : list Q) (route : list nat) :
  0 <= lateness dat arr route.
Proof.
  induction route as [|c route IH]; cbn [lateness]; [lra|].
  pose proof (fmax_0_nonneg (qget arr c - qget (end_window dat) c)). lra.
Qed.

Lemma lateness_none (dat : ALNSData) (arr : list Q) (route : list nat) :
  lateness dat arr route <= 0
  <-> forall c, In c route -> qget arr c <= qget (end_window dat) c.
Proof.
  induction route as [|c route IH]; cbn [lateness].
  - split; [intros _ c []|intros _; lra].
  - pose proof (fmax_0_nonneg (qget arr c - qget (end_window dat) c)) as H1.
    pose proof (lateness_nonneg dat arr route) as H2.
    split.
    + intros H x [<-|Hx].
      * assert (K : fmax 0 (qget arr c - qget (end_window dat) c) <= 0) by lra.
        apply (proj1 (fmax_0_none _)) in K. lra.
      * apply IH; [lra|exact Hx].
    + intros H.
      assert (K1 : fmax 0 (qget arr c - qget (end_window dat) c) <= 0).
      { apply fmax_0_none. specialize (H c (or_introl eq_refl)). lra. }
      assert (K2 : lateness dat arr route <= 0).
      { apply IH. intros x Hx. apply H. right. exact Hx. }
      lra.
Qed.

Lemma Forall_qget (P : Q -> Prop) (l : list Q) :
  Forall P l <-> forall i, (i < length l)%nat -> P (qget l i).
Proof.
  split.
  - intros H i Hi. rewrite Forall_forall in H. apply H. unfold qget.
    apply nth_In. exact Hi.
  - apply Forall_nth_Q.
Qed.

Lemma in_concat_rget (routes : list (list nat)) (c : nat) :
  In c (concat routes)
  <-> exists r, (r < length routes)%nat /\ In c (rget routes r).
Proof.
  unfold rget. split.
  - intros H. apply in_concat in H. destruct H as (route & Hr & Hc).
    destruct (In_nth routes route [] Hr) as (r & Hlt & E).
    exists r. split; [exact Hlt|]. rewrite E. exact Hc.
  - intros (r & _ & H). eapply concat_nth_in. exact H.
Qed.

Lemma evaluate_solution_feasible_facts (dat : ALNSData) (cw fw : Q)
  (s : Solution) :
  length (solution_representation s) = nr_vehicles dat ->
  NoDup (concat (solution_representation s)) ->
  (forall c, In c (concat (solution_representation s)) ->
             (c < nr_customer dat)%nat) ->
  (Z.of_nat (nr_customer dat) < 2 ^ 31)%Z ->
  let s' := evaluate_solution dat cw fw s in
  (capa_error s' <= 0
   <-> forall r, (r < nr_vehicles dat)%nat ->
         capa_error_of dat (rget (solution_representation s) r) <= 0)
  /\ (frame_error s' <= 0
      <-> forall c, In c (concat (solution_representation s)) ->
            qget (arrival_times s') c <= qget (end_window dat) c).
Proof.
  intros HL Hnd Hids Hint. cbn zeta.
  destruct (@evaluate_solution_sums dat cw fw s HL)
    as (R & (_ & Lc & Lf & _) & _ & Ec & Ef & _).
  cbn zeta in R, Lc, Lf, Ec, Ef.
  pose proof (@evaluate_solution_fresh dat cw fw s HL Hnd Hids Hint) as HC.
  set (s' := evaluate_solution dat cw fw s) in *.
  assert (Hce : forall r, (r < nr_vehicles dat)%nat ->
            qget (route_capa_errors s') r
            == capa_error_of dat (rget (solution_representation s) r)).
  { intros r Hr. destruct (HC r Hr) as [_ _ _ H _ _]. rewrite R in H. exact H. }
  assert (Hfe : forall r, (r < nr_vehicles dat)%nat ->
            qget (route_frame_errors s') r
            == lateness dat (arrival_times s')
                 (rget (solution_representation s) r)).
  { intros r Hr. destruct (HC r Hr) as [_ _ _ _ H _]. rewrite R in H. exact H. }
  split.
  - rewrite Ec, Qsum_none.
    + rewrite Forall_qget, Lc. split; intros H r Hr.
      * rewrite <- Hce by exact Hr. apply H. exact Hr.
      * rewrite Hce by exact Hr. apply H. exact Hr.
    + apply Forall_qget. rewrite Lc. intros r Hr. rewrite Hce by exact Hr.
      apply fmax_0_nonneg.
  - rewrite Ef, Qsum_none.
    + rewrite Forall_qget, Lf. split.
      * intros H c Hc. apply in_concat_rget in Hc. destruct Hc as (r & Hr & Hc).
        rewrite HL in Hr. specialize (H r Hr). rewrite Hfe in H by exact Hr.
        rewrite lateness_none in H. apply H. exact Hc.
      * intros H r Hr. rewrite Hfe by exact Hr. apply lateness_none.
        intros c Hc. apply H. apply in_concat_rget. exists r.
        split; [lia|exact Hc].
    + apply Forall_qget. rewrite Lf. intros r Hr. rewrite Hfe by exact Hr.
      apply lateness_nonneg.
Qed.

(** X13: a solution evaluated from scratch, with [nr_vehicles] routes on
    which no customer occurs twice: the caches of every route agree with
    its contents (loads are the demand from the position to the end of the
    route, levels are their buckets, arrival and departure times follow the
    time cube and the windows, and the driving time, the errors and the
    quality of the route are those of its contents) *)
Theorem evaluate_solution_consistent (dat : ALNSData) (cw fw : Q)
  (s : Solution) (r : nat) :
  length (solution_representation s) = nr_vehicles dat ->
  NoDup (concat (solution_representation s)) ->
  (forall c, In c (concat (solution_representation s)) ->
             (c < nr_customer dat)%nat) ->
  (Z.of_nat (nr_customer dat) < 2 ^ 31)%Z ->
  (r < nr_vehicles dat)%nat ->
  route_consistent dat cw fw r (evaluate_solution dat cw fw s).
Proof. intros HL Hnd Hids Hint Hr. apply evaluate_solution_fresh; assumption. Qed.

(** X13 at a concrete input *)
Lemma evaluate_solution_consistent_witness :
  route_consistent (Examples.five 10) 1 1 1
    (evaluate_solution (Examples.five 10) 1 1
       (upd_solution_representation [[0; 1; 2]; [3; 4]]%nat Solution_default)).
Proof.
  apply (@evaluate_solution_consistent (Examples.five 10) 1 1
           (upd_solution_representation [[0; 1; 2]; [3; 4]]%nat Solution_default)
           1%nat).
  - reflexivity.
  - cbn. repeat constructor; simpl; intuition discriminate.
  - intros c Hc. cbn in Hc. cbn.
    repeat (destruct Hc as [Hc|Hc]; [subst c; lia|]). destruct Hc.
  - cbn. lia.
  - cbn. lia.
Defined.

(** X14: a solution evaluated from scratch is marked feasible exactly when the
    demand of no route exceeds the vehicle capacity and no customer is
    reached after the end of its window *)
Theorem is_feasible_meaning (dat : ALNSData) (cw fw : Q) (s : Solution) :
  length (solution_representation s) = nr_vehicles dat ->
  NoDup (concat (solution_representation s)) ->
  (forall c, In c (concat (solution_representation s)) ->
             (c < nr_customer dat)%nat) ->
  (Z.of_nat (nr_customer dat) < 2 ^ 31)%Z ->
  (0 <= vehicle_cap dat < 2 ^ 32)%Z ->
  let s' := evaluate_solution dat cw fw s in
  is_feasible s' = true
  <-> (forall r, (r < nr_vehicles dat)%nat ->
         route_load dat (rget (solution_representation s) r)
         <= inject_Z (vehicle_cap dat))
      /\ (forall c, In c (concat (solution_representation s)) ->
            qget (arrival_times s') c <= qget (end_window dat) c).
Proof.
  intros HL Hnd Hids Hint Hcap. cbn zeta.
  destruct (@evaluate_solution_sums dat cw fw s HL)
    as (_ & _ & _ & _ & _ & _ & _ & F).
  destruct (@evaluate_solution_feasible_facts dat cw fw s HL Hnd Hids Hint)
    as [C T].
  cbn zeta in F, C, T. rewrite F, C, T.
  assert (E : forall route,
             capa_error_of dat route <= 0
             <-> route_load dat route <= inject_Z (vehicle_cap dat)).
  { intros route. unfold capa_error_of. rewrite fmax_0_none.
    rewrite to_unsigned_small by exact Hcap.
    generalize (route_load dat route) (inject_Z (vehicle_cap dat)).
    intros x y. split; intros; lra. }
  split; intros [H1 H2]; (split; [|exact H2]); intros r Hr; apply E;
    apply H1; exact Hr.
Qed.

(** X14 at a concrete input *)
Lemma is_feasible_meaning_witness :
  let dat := Examples.five 10 in
  let s := upd_solution_representation [[0; 1; 2]; [3; 4]]%nat Solution_default in
  let s' := evaluate_solution dat 1 1 s in
  is_feasible s' = true
  <-> (forall r, (r < nr_vehicles dat)%nat ->
         route_load dat (rget (solution_representation s) r)
         <= inject_Z (vehicle_cap dat))
      /\ (forall c, In c (concat (solution_representation s)) ->
            qget (arrival_times s') c <= qget (end_window dat) c).
Proof.
  apply (@is_feasible_meaning (Examples.five 10) 1 1
           (upd_solution_representation [[0; 1; 2]; [3; 4]]%nat Solution_default)).
  - reflexivity.
  - cbn. repeat constructor; simpl; intuition discriminate.
  - intros c Hc. cbn in Hc. cbn.
    repeat (destruct Hc as [Hc|Hc]; [subst c; lia|]). destruct Hc.
  - cbn. lia.
  - cbn. lia.
Defined.

End FeasibleFacts.

Section WheelDraws.
Import Num Wheel.


(** ** The wheel: selection *)

Lemma nth_repeat_same {A : Type} (x : A) (n i : nat) : nth i (repeat x n) x = x.
Proof.
  revert i. induction n as [|n IH]; intros [|i]; simpl; auto.
Qed.

Lemma firstn_S_nth_Q (l : list Q) (k : nat) :
  (k < length l)%nat -> firstn (S k) l = firstn k l ++ [qget l k].
Proof.
  unfold qget. revert k. induction l as [|h t IH]; intros [|k] H; simpl in *;
    try lia; auto.
  f_equal. apply IH. lia.
Qed.

Lemma select_functor_first_fit (rnd : Q) (ws : list Q) :
  forall (n fid : nat) (cw : Q) (id : nat),
    cw == Qsum (firstn fid ws) ->
    (fid + n <= length ws)%nat ->
    select_functor rnd ws n fid cw = Some id ->
    (fid <= id < fid + n)%nat
    /\ rnd <= Qsum (firstn (S id) ws)
    /\ forall j, (fid <= j < id)%nat -> Qsum (firstn (S j) ws) < rnd.
Proof.
  induction n as [|n IH]; intros fid cw id Hcw Hlen E; [discriminate|].
  cbn [select_functor] in E.
  assert (Hnext : cw + qget ws fid == Qsum (firstn (S fid) ws)).
  { rewrite firstn_S_nth_Q by lia. rewrite Qsum_snoc, Hcw. reflexivity. }
  destruct (Qle_bool rnd (cw + qget ws fid)) eqn:T.
  - inversion E; subst id. apply Qle_bool_iff in T. split; [lia|]. split.
    + rewrite <- Hnext. exact T.
    + intros j Hj. lia.
  - assert (Hlt : Qsum (firstn (S fid) ws) < rnd).
    { rewrite <- Hnext. apply Qnot_le_lt. intro Hle.
      apply Qle_bool_iff in Hle. congruence. }
    destruct (IH (S fid) (cw + qget ws fid) id Hnext) as (H1 & H2 & H3);
      [lia|exact E|].
    split; [lia|]. split; [exact H2|].
    intros j Hj. destruct (Nat.eq_dec j fid) as [->|N]; [exact Hlt|].
    apply H3. lia.
Qed.

(** X24: the draw returns the first functor at which the running sum of the
    weights reaches the drawn value [UNI * sum], and records it *)
Theorem get_random_functor_id_first_fit (w w' : RouletteWheel)
  (k k' : tools.kiss) (id : nat) :
  length (weights w) = nr_functors w ->
  get_random_functor_id (w, k) = Ok id (w', k') ->
  let rnd := fst (tools.UNI k) * Qsum (weights w) in
  (id < nr_functors w)%nat
  /\ rnd <= Qsum (firstn (S id) (weights w))
  /\ (forall j, (j < id)%nat -> Qsum (firstn (S j) (weights w)) < rnd)
  /\ last_functor_id w' = id /\ weights w' = weights w
  /\ k' = snd (tools.UNI k).
Proof.
  intros HL E. cbn zeta. unfold get_random_functor_id in E.
  destruct (tools.UNI k) as [u k1]. cbn [fst snd].
  destruct (select_functor (u * Qsum (weights w)) (weights w) (nr_functors w) 0 0)
    as [fid|] eqn:S; [|discriminate].
  inversion E; subst. cbn [last_functor_id weights].
  destruct (@select_functor_first_fit (u * Qsum (weights w)) (weights w)
              (nr_functors w) 0 0 id) as (H1 & H2 & H3).
  - reflexivity.
  - lia.
  - exact S.
  - split; [lia|]. split; [exact H2|]. split; [|auto].
    intros j Hj. apply H3. lia.
Qed.

(** X24 at a concrete input *)
Lemma get_random_functor_id_first_fit_witness :
  let w := RouletteWheel_new 3 (1 # 10) 60 (1 # 4) in
  let out := get_random_functor_id (w, tools.kiss_init) in
  let id := Examples.value_of O out in
  let rnd := fst (tools.UNI tools.kiss_init) * Qsum (weights w) in
  (id < nr_functors w)%nat
  /\ rnd <= Qsum (firstn (S id) (weights w))
  /\ (forall j, (j < id)%nat -> Qsum (firstn (S j) (weights w)) < rnd)
  /\ last_functor_id (fst (state_of out)) = id
  /\ weights (fst (state_of out)) = weights w
  /\ snd (state_of out) = snd (tools.UNI tools.kiss_init).
Proof.
  cbn zeta.
  apply (@get_random_functor_id_first_fit
           (RouletteWheel_new 3 (1 # 10) 60 (1 # 4))
           (fst (state_of (get_random_functor_id
                             (RouletteWheel_new 3 (1 # 10) 60 (1 # 4),
                              tools.kiss_init))))
           tools.kiss_init).
  - reflexivity.
  - vm_compute. reflexivity.
Defined.

End WheelDraws.

(** From here on [evaluate_change] is used through
    [evaluate_change_cases] and [evaluate_change_routes], and the generator
    through [UNI_range]. *)
Strategy opaque [Sol.evaluate_change tools.UNI].

Section OperatorFacts.
Import Sol Op.

(** ** Insertion probing *)

Section ListEdits.
Context {A : Type}.
Local Open Scope nat_scope.

Lemma remove_insert_at (l : list A) (p : nat) (x : A) :
  p <= length l -> remove_at (insert_at l p x) p = l.
Proof.
  revert l; induction p as [|p IH]; intros [|h t] H; simpl in *;
    try lia; auto.
  f_equal. apply IH. lia.
Qed.

Lemma insert_remove_at (l : list A) (p : nat) (d : A) :
  p < length l -> insert_at (remove_at l p) p (nth p l d) = l.
Proof.
  revert p; induction l as [|h t IH]; intros [|p] H; simpl in *;
    try lia; auto.
  f_equal. apply IH. lia.
Qed.

Lemma vset_vset (v : list A) (i : nat) (x y : A) :
  vset (vset v i x) i y = vset v i y.
Proof.
  revert i; induction v as [|h t IH]; intros [|i]; simpl; auto.
  f_equal. apply IH.
Qed.

Lemma vset_same (v : list A) (i : nat) (d : A) : vset v i (nth i v d) = v.
Proof.
  revert i; induction v as [|h t IH]; intros [|i]; simpl; auto.
  f_equal. apply IH.
Qed.

Lemma insert_at_perm (l : list A) (p : nat) (x : A) :
  Permutation (insert_at l p x) (x :: l).
Proof.
  revert l; induction p as [|p IH]; intros [|h t]; simpl; auto.
  rewrite IH. apply perm_swap.
Qed.
End ListEdits.

Lemma rget_vset_eq (routes : list (list nat)) (r : nat) (x : list nat) :
  (r < length routes)%nat -> rget (vset routes r x) r = x.
Proof. apply nth_vset_eq. Qed.

Lemma rget_vset_neq (routes : list (list nat)) (r r' : nat) (x : list nat) :
  r <> r' -> rget (vset routes r x) r' = rget routes r'.
Proof. apply nth_vset_neq. Qed.

Lemma rget_out (routes : list (list nat)) (r : nat) :
  (length routes <= r)%nat -> rget routes r = [].
Proof. intros H. unfold rget. apply nth_overflow. exact H. Qed.

(** [evaluate_change] never touches the routes and throws nothing but
    [InfeasibilityException] *)
Lemma evaluate_change_routes (dat : ALNSData) (r : nat) (p : Z) (cw fw : Q)
  (s : Solution) :
  solution_representation (state_of (evaluate_change dat r p cw fw s))
  = solution_representation s
  /\ (forall e s', evaluate_change dat r p cw fw s = Throw e s' ->
                   e = InfeasibilityException).
Proof.
  pose proof (evaluate_change_cases dat r p cw fw s) as H. cbn zeta in H.
  match type of H with
  | if ?c then _ else _ => destruct c
  end; destruct H as (s1 & Hs1 & _ & _ & _ & F4 & _); rewrite Hs1; cbn [state_of];
    (split; [exact F4|]); intros e s' E; inversion E; reflexivity.
Qed.

Lemma probe_undo_routes (r p c : nat) (s : Solution) :
  (p <= length (rget (solution_representation s) r))%nat ->
  solution_representation
    (remove_customer r p (assign_chromosome c r (insert_customer r p c s)))
  = solution_representation s.
Proof.
  intros Hp. unfold remove_customer, assign_chromosome, insert_customer.
  cbn [solution_representation upd_solution_representation upd_route_chromosome].
  destruct (Nat.lt_ge_cases r (length (solution_representation s))) as [Hr|Hr].
  - rewrite rget_vset_eq by exact Hr. rewrite vset_vset.
    rewrite remove_insert_at by exact Hp. apply vset_same.
  - rewrite vset_out by (rewrite length_vset; exact Hr).
    apply vset_out. exact Hr.
Qed.

Section Probing.
Variable dat : ALNSData.
Variables cw fw : Q.

(** first part of C2: what a probe returns, and that it restores the route in
    every outcome *)
Lemma eip_spec (r c p : nat) (s : Solution) :
  (p <= length (rget (solution_representation s) r))%nat ->
  let probe := assign_chromosome c r (insert_customer r p c s) in
  solution_representation
    (state_of (evaluate_insertion_position dat cw fw r c p s))
  = solution_representation s
  /\ (forall q s', evaluate_insertion_position dat cw fw r c p s = Ok q s' ->
        exists s2, evaluate_change dat r (Z.of_nat p) cw fw probe = Ok tt s2
                   /\ q = solution_quality s2)
  /\ (forall e s', evaluate_insertion_position dat cw fw r c p s = Throw e s' ->
        e = InfeasibilityException).
Proof.
  intros Hp. cbn zeta.
  unfold evaluate_insertion_position. unfold_monad.
  set (s1 := assign_chromosome c r (insert_customer r p c s)).
  destruct (evaluate_change_routes dat r (Z.of_nat p) cw fw s1) as [R1 T1].
  destruct (evaluate_change dat r (Z.of_nat p) cw fw s1) as [[] s2|e s2] eqn:E1;
    cbn [state_of] in R1.
  - set (s3 := remove_customer r p s2).
    assert (R3 : solution_representation s3 = solution_representation s).
    { unfold s3. unfold remove_customer.
      cbn [solution_representation upd_solution_representation]. rewrite R1.
      apply (probe_undo_routes r c s Hp). }
    destruct (evaluate_change_routes dat r (Z.of_nat p - 1) cw fw s3) as [R4 T4].
    destruct (evaluate_change dat r (Z.of_nat p - 1) cw fw s3) as [[] s4|e s4];
      cbn [state_of] in *.
    + split; [congruence|]. split.
      * intros q s' E. inversion E; subst. exists s2. auto.
      * intros e s' E. discriminate.
    + split; [congruence|]. split.
      * intros q s' E. discriminate.
      * intros e' s' E. inversion E; subst. eapply T4. reflexivity.
  - rewrite (T1 e s2 eq_refl).
    set (s3 := remove_customer r p s2).
    assert (R3 : solution_representation s3 = solution_representation s).
    { unfold s3. unfold remove_customer.
      cbn [solution_representation upd_solution_representation]. rewrite R1.
      apply (probe_undo_routes r c s Hp). }
    destruct (evaluate_change_routes dat r (Z.of_nat p - 1) cw fw s3) as [R4 T4].
    destruct (evaluate_change dat r (Z.of_nat p - 1) cw fw s3) as [[] s4|e4 s4];
      cbn [state_of] in *.
    + split; [congruence|]. split.
      * intros q s' E. discriminate.
      * intros e' s' E. inversion E; reflexivity.
    + split; [congruence|]. split.
      * intros q s' E. discriminate.
      * intros e' s' E. inversion E; subst. eapply T4. reflexivity.
Qed.

(** second part of C2: the first position that raises ends the loop over the
    positions of the route *)
Lemma probe_positions_break (rid c pos : nat) (rest : list nat)
  (acc : Q * insertion) (s : Solution) (e : exn) (s' : Solution) :
  (pos <= length (rget (solution_representation s) rid))%nat ->
  evaluate_insertion_position dat cw fw rid c pos s = Throw e s' ->
  probe_positions dat cw fw rid c (pos :: rest) acc s = Ok acc s'.
Proof.
  intros Hp E. destruct (@eip_spec rid c pos s Hp) as (_ & _ & T).
  pose proof (T e s' E) as ->. cbn [probe_positions]. rewrite E. reflexivity.
Qed.

Lemma probe_positions_total (rid c : nat) (positions : list nat) :
  forall (acc : Q * insertion) (s : Solution),
    Forall (fun pos => pos <= length (rget (solution_representation s) rid))%nat
           positions ->
    exists acc' s',
      probe_positions dat cw fw rid c positions acc s = Ok acc' s'
      /\ solution_representation s' = solution_representation s.
Proof.
  induction positions as [|pos rest IH]; intros acc s Hall.
  - exists acc, s. split; reflexivity.
  - inversion Hall as [|? ? Hpos Hrest]; subst.
    destruct (@eip_spec rid c pos s Hpos) as (R & _ & T). cbn zeta in *.
    cbn [probe_positions].
    destruct (evaluate_insertion_position dat cw fw rid c pos s)
      as [q s1|e s1] eqn:E; cbn [state_of] in R.
    + match goal with
      | |- context [probe_positions _ _ _ _ _ rest ?a s1] =>
          destruct (IH a s1) as (acc' & s' & E' & R')
      end.
      { rewrite R. exact Hrest. }
      exists acc', s'. split; [exact E'|congruence].
    + rewrite (T e s1 eq_refl). exists acc, s1. split; [reflexivity|exact R].
Qed.

Lemma seq_le_all (n : nat) :
  Forall (fun pos => pos <= n)%nat (seq 0 (S n)).
Proof. apply Forall_forall. intros x Hx. apply in_seq in Hx. lia. Qed.

Lemma probe_routes_total (c : nat) (rids : list nat) :
  forall (acc : Q * insertion) (s : Solution),
    exists acc' s',
      probe_routes dat cw fw c rids acc s = Ok acc' s'
      /\ solution_representation s' = solution_representation s.
Proof.
  induction rids as [|rid rest IH]; intros acc s.
  - exists acc, s. split; reflexivity.
  - cbn [probe_routes]. unfold_monad.
    destruct (@probe_positions_total rid c
                (seq 0 (S (length (rget (solution_representation s) rid))))
                acc s (seq_le_all _)) as (acc1 & s1 & E1 & R1).
    rewrite E1.
    destruct (IH acc1 s1) as (acc' & s' & E' & R').
    exists acc', s'. split; [exact E'|congruence].
Qed.

(** the probing never lets the exception out *)
Lemma get_best_insertion_total (c : nat) (route_id : Z) (s : Solution) :
  exists i s',
    get_best_insertion dat cw fw c route_id s = Ok i s'
    /\ solution_representation s' = solution_representation s.
Proof.
  unfold get_best_insertion. unfold_monad.
  match goal with
  | |- context [probe_routes _ _ _ _ ?rids ?a s] =>
      destruct (@probe_routes_total c rids a s) as (acc' & s' & E' & R')
  end.
  rewrite E'. exists (snd acc'), s'. split; [reflexivity|exact R'].
Qed.
End Probing.


(** ** The customers of a solution (P1) *)

Lemma foldM_inv {S A B : Type} (I : B -> S -> Prop) (body : B -> A -> M S B)
  (l : list A) :
  (forall b a s b' s', In a l -> I b s -> body b a s = Ok b' s' -> I b' s') ->
  forall b s b' s', I b s -> foldM body l b s = Ok b' s' -> I b' s'.
Proof.
  induction l as [|a l IH]; intros Hbody b s b' s' Hi E; cbn [foldM] in E.
  - unfold ret in E. inversion E; subst. exact Hi.
  - unfold bind in E. destruct (body b a s) as [b1 s1|e s1] eqn:E1; [|discriminate].
    eapply IH; [|eapply Hbody; [left; reflexivity|exact Hi|exact E1]|exact E].
    intros; eapply Hbody; eauto. right; assumption.
Qed.

Lemma bind_ok {S A B : Type} (m : M S A) (k : A -> M S B) (s s' : S) (b : B) :
  bind m k s = Ok b s' -> exists a s1, m s = Ok a s1 /\ k a s1 = Ok b s'.
Proof.
  unfold bind. destruct (m s) as [a s1|e s1]; [|discriminate].
  intros E. exists a, s1. auto.
Qed.

Lemma concat_vset_perm (routes : list (list nat)) (r : nat) (x : list nat)
  (c : nat) :
  (r < length routes)%nat ->
  Permutation x (c :: rget routes r) ->
  Permutation (concat (vset routes r x)) (c :: concat routes).
Proof.
  revert r. induction routes as [|h t IH]; intros [|r] Hr Hx; simpl in *; try lia.
  - unfold rget in Hx. simpl in Hx. rewrite Hx. reflexivity.
  - unfold rget in *. simpl in Hx. rewrite IH by (try lia; exact Hx).
    symmetry. apply Permutation_middle.
Qed.

Lemma concat_vset_remove (routes : list (list nat)) (r : nat) (x : list nat)
  (c : nat) :
  (r < length routes)%nat ->
  Permutation (rget routes r) (c :: x) ->
  Permutation (concat routes) (c :: concat (vset routes r x)).
Proof.
  revert r. induction routes as [|h t IH]; intros [|r] Hr Hx; simpl in *; try lia.
  - unfold rget in Hx. simpl in Hx. rewrite Hx. reflexivity.
  - unfold rget in *. simpl in Hx. rewrite (IH r) by (try lia; exact Hx).
    symmetry. apply Permutation_middle.
Qed.

Section Repair.
Variable dat : ALNSData.
Variables cw fw : Q.

Lemma commit_insertion_perm (c : nat) (i : insertion) (s s' : Solution) (u : unit) :
  names_route (solution_representation s) i ->
  commit_insertion dat cw fw c i s = Ok u s' ->
  Permutation (customers s') (c :: customers s)
  /\ length (solution_representation s') = length (solution_representation s).
Proof.
  intros Hv E. unfold commit_insertion in E. unfold_monad.
  set (s1 := assign_chromosome c (Z.to_nat (ins_route i))
               (insert_customer (Z.to_nat (ins_route i))
                  (Z.to_nat (ins_pos i)) c s)) in *.
  destruct (evaluate_change_routes dat (Z.to_nat (ins_route i)) (ins_pos i)
              cw fw s1) as [R _].
  rewrite E in R. cbn [state_of] in R. unfold customers. rewrite R.
  unfold s1, assign_chromosome, insert_customer.
  cbn [solution_representation upd_solution_representation upd_route_chromosome].
  split; [|apply length_vset].
  apply concat_vset_perm; [exact Hv|apply insert_at_perm].
Qed.

(** the result of the probing names a route *)
Lemma probe_positions_names (rid c : nat) (positions : list nat) :
  forall (acc acc' : Q * insertion) (s s' : Solution),
    (rid < length (solution_representation s))%nat ->
    Forall (fun pos => pos <= length (rget (solution_representation s) rid))%nat
           positions ->
    names_route (solution_representation s) (snd acc) ->
    probe_positions dat cw fw rid c positions acc s = Ok acc' s' ->
    names_route (solution_representation s) (snd acc')
    /\ solution_representation s' = solution_representation s.
Proof.
  induction positions as [|pos rest IH]; intros acc acc' s s' Hr Hall Hacc E.
  - cbn in E. unfold ret in E. inversion E; subst. auto.
  - inversion Hall as [|? ? Hpos Hrest]; subst.
    destruct (@eip_spec dat cw fw rid c pos s Hpos) as (R & _ & T).
    cbn [probe_positions] in E.
    destruct (evaluate_insertion_position dat cw fw rid c pos s)
      as [q s1|e s1] eqn:E1; cbn [state_of] in R.
    + assert (Hr1 : (rid < length (solution_representation s1))%nat)
        by (rewrite R; exact Hr).
      assert (Hrest1 :
        Forall (fun pos => pos <= length (rget (solution_representation s1) rid))%nat
               rest) by (rewrite R; exact Hrest).
      eapply IH in E; [|exact Hr1|exact Hrest1|].
      * rewrite R in E. exact E.
      * rewrite R. destruct (Qltb _ _); cbn [snd]; [|exact Hacc].
        unfold names_route, ins_route. cbn [fst snd]. rewrite Nat2Z.id. exact Hr.
    + rewrite (T e s1 eq_refl) in E. inversion E; subst. auto.
Qed.

Lemma probe_routes_names (c : nat) (rids : list nat) :
  forall (acc acc' : Q * insertion) (s s' : Solution),
    Forall (fun rid => rid < length (solution_representation s))%nat rids ->
    names_route (solution_representation s) (snd acc) ->
    probe_routes dat cw fw c rids acc s = Ok acc' s' ->
    names_route (solution_representation s) (snd acc')
    /\ solution_representation s' = solution_representation s.
Proof.
  induction rids as [|rid rest IH]; intros acc acc' s s' Hall Hacc E.
  - cbn in E. unfold ret in E. inversion E; subst. auto.
  - inversion Hall as [|? ? Hrid Hrest]; subst.
    cbn [probe_routes] in E. unfold_monad.
    destruct (probe_positions dat cw fw rid c
                (seq 0 (S (length (rget (solution_representation s) rid))))
                acc s) as [acc1 s1|e s1] eqn:E1; [|discriminate].
    destruct (@probe_positions_names rid c _ acc acc1 s s1 Hrid
                (seq_le_all _) Hacc E1) as [N1 R1].
    destruct (IH acc1 acc' s1 s') as [N R]; try assumption.
    { rewrite R1. exact Hrest. }
    { rewrite R1. exact N1. }
    rewrite R1 in N, R. auto.
Qed.

Lemma get_best_insertion_names (c : nat) (route_id : Z) (s s' : Solution)
  (i : insertion) :
  solution_representation s <> [] ->
  ((route_id < 0)%Z
   \/ (Z.to_nat route_id < length (solution_representation s))%nat) ->
  get_best_insertion dat cw fw c route_id s = Ok i s' ->
  names_route (solution_representation s) i
  /\ solution_representation s' = solution_representation s.
Proof.
  intros Hne Hrid E. unfold get_best_insertion in E. unfold_monad.
  match type of E with
  | context [probe_routes _ _ _ _ ?rids ?a s] =>
      destruct (probe_routes dat cw fw c rids a s) as [acc1 s1|e s1] eqn:E1;
        [|discriminate];
      destruct (@probe_routes_names c rids a acc1 s s1) as [N R]
  end.
  - destruct (0 <=? route_id)%Z eqn:E0.
    + constructor; [|constructor]. apply Z.leb_le in E0.
      destruct Hrid as [H|H]; [lia|exact H].
    + apply Forall_forall. intros x Hx. apply in_seq in Hx. lia.
  - unfold names_route, ins_route. cbn.
    destruct (solution_representation s); [congruence|simpl; lia].
  - exact E1.
  - inversion E; subst. auto.
Qed.

Lemma BasicGreedy_perm (removed : list nat) :
  forall (s s' : Solution) (u : unit),
    solution_representation s <> [] ->
    BasicGreedyInsertionOperator dat cw fw removed s = Ok u s' ->
    Permutation (customers s') (removed ++ customers s)
    /\ length (solution_representation s') = length (solution_representation s).
Proof.
  induction removed as [|c rest IH]; intros s s' u Hne E.
  - cbn in E. unfold ret in E. inversion E; subst. auto.
  - cbn [BasicGreedyInsertionOperator] in E. unfold bind in E.
    destruct (get_best_insertion dat cw fw c (-1) s) as [i s1|e s1] eqn:E1;
      [|discriminate].
    destruct (@get_best_insertion_names c (-1)%Z s s1 i Hne
                ltac:(left; lia) E1) as [N R].
    destruct (commit_insertion dat cw fw c i s1) as [u2 s2|e s2] eqn:E2;
      [|discriminate].
    destruct (@commit_insertion_perm c i s1 s2 u2
                ltac:(rewrite R; exact N) E2) as [P2 L2].
    destruct (IH s2 s' u) as [P L]; [|exact E|].
    { intro H0. rewrite H0 in L2. rewrite R in L2.
      destruct (solution_representation s); [congruence|discriminate]. }
    split; [|congruence].
    rewrite P, P2. unfold customers. rewrite R.
    cbn [app]. symmetry. apply Permutation_middle.
Qed.
End Repair.


(** ** Destroy operators *)

Lemma for_routes_fst {St : Type} (routes : list (list nat))
  (body : nat -> list nat -> St -> St) (init : St) (n : nat) :
  fst (fold_left (fun acc route =>
                    let '(route_id, st) := acc in
                    (S route_id, body route_id route st))
                 routes (n, init)) = (n + length routes)%nat.
Proof.
  revert n init. induction routes as [|r routes IH]; intros n init; simpl.
  - lia.
  - rewrite IH. lia.
Qed.

Lemma evaluate_solution_routes (dat : ALNSData) (cw fw : Q) (s : Solution) :
  solution_representation (evaluate_solution dat cw fw s)
  = solution_representation s.
Proof.
  unfold evaluate_solution, set_is_feasible, set_quality, set_frame_error,
    set_capa_error, set_solution_time, set_load_levels, set_chromosomes.
  repeat match goal with
         | |- context [let '(_, _) := ?x in _] => destruct x
         end.
  reflexivity.
Qed.

Lemma on_sol_ok {A : Type} (m : M Solution A) (st st' : OpState) (a : A) :
  on_sol m st = Ok a st' ->
  m (sol st) = Ok a (sol st')
  /\ rng_operator st' = rng_operator st /\ rng_tools st' = rng_tools st.
Proof.
  unfold on_sol. destruct (m (sol st)) as [a1 s1|e s1]; intros E;
    inversion E; subst; cbn; auto.
Qed.

Lemma keeps_sol_uni : keeps_sol uni.
Proof.
  intros st a st' E. unfold uni in E.
  destruct (tools.UNI (rng_operator st)). inversion E; reflexivity.
Qed.

Lemma keeps_sol_rand_number (max min : Z) : keeps_sol (rand_number max min).
Proof.
  intros st a st' E. unfold rand_number in E.
  destruct (tools.rand_number max min (rng_tools st)). inversion E; reflexivity.
Qed.

Lemma keeps_sol_ret {A : Type} (a : A) : keeps_sol (ret a : M OpState A).
Proof. intros st a' st' E. unfold ret in E. inversion E; reflexivity. Qed.

Lemma keeps_sol_bind {A B : Type} (m : M OpState A) (k : A -> M OpState B) :
  keeps_sol m -> (forall a, keeps_sol (k a)) -> keeps_sol (bind m k).
Proof.
  intros Hm Hk st b st' E. unfold bind in E.
  destruct (m st) as [a s1|e s1] eqn:E1; [|discriminate].
  rewrite (Hk a s1 b st' E). eapply Hm. exact E1.
Qed.

Lemma keeps_sol_foldM {A B : Type} (body : B -> A -> M OpState B) (l : list A) :
  (forall b a, keeps_sol (body b a)) -> forall b, keeps_sol (foldM body l b).
Proof.
  intros Hb. induction l as [|a l IH]; intros b; cbn [foldM].
  - apply keeps_sol_ret.
  - apply keeps_sol_bind; [apply Hb|exact IH].
Qed.

Lemma keeps_sol_if {A : Type} (c : bool) (m1 m2 : M OpState A) :
  keeps_sol m1 -> keeps_sol m2 -> keeps_sol (if c then m1 else m2).
Proof. destruct c; auto. Qed.

(** *** Random removal *)

Lemma random_destroy_route_spec (env : OpEnv) (route : list nat) :
  forall (new_route removed : list nat) (st st' : OpState)
         (r : list nat * list nat),
    random_destroy_route env route new_route removed st = Ok r st' ->
    sol st' = sol st
    /\ exists kept taken,
         fst r = new_route ++ kept /\ snd r = removed ++ taken
         /\ Permutation (kept ++ taken) route.
Proof.
  induction route as [|c route IH]; intros new_route removed st st' r E.
  - cbn in E. unfold ret in E. inversion E; subst. split; [reflexivity|].
    exists [], []. rewrite !app_nil_r. auto.
  - cbn [random_destroy_route] in E. unfold bind in E.
    destruct (rand_number (Z.of_nat (nr_customer (data env))) 0 st)
      as [rnd st1|e st1] eqn:E1; [|discriminate].
    keeps E1 K1 (@keeps_sol_rand_number (Z.of_nat (nr_customer (data env))) 0).
    destruct (Qltb (mean_removal env) (inject_Z rnd)).
    + destruct (IH _ _ _ _ _ E) as [K (kept & taken & F1 & F2 & P)].
      split; [congruence|]. exists (c :: kept), taken.
      rewrite F1, F2, <- app_assoc. cbn. repeat split; auto.
    + destruct (IH _ _ _ _ _ E) as [K (kept & taken & F1 & F2 & P)].
      split; [congruence|]. exists kept, (c :: taken).
      rewrite F1, F2, <- app_assoc. cbn. repeat split; auto.
      rewrite <- P. symmetry. apply Permutation_middle.
Qed.

Lemma destroy_blocks (route kept taken R T rm : list nat) :
  Permutation (kept ++ taken) route ->
  Permutation ((route ++ R) ++ T ++ rm) (R ++ (T ++ kept) ++ rm ++ taken).
Proof.
  intros P. rewrite <- P. rewrite <- !app_assoc.
  rewrite (Permutation_app_swap_app T kept (rm ++ taken)).
  rewrite (Permutation_app_swap_app R kept (T ++ rm ++ taken)).
  apply Permutation_app_head.
  rewrite (Permutation_app_swap_app taken R (T ++ rm)).
  apply Permutation_app_head.
  rewrite (app_assoc T rm taken). apply Permutation_app_comm.
Qed.

Lemma random_destroy_routes_spec (env : OpEnv) (routes : list (list nat)) :
  forall (tmp : list (list nat)) (removed : list nat) (st st' : OpState)
         (r : list (list nat) * list nat),
    random_destroy_routes env routes tmp removed st = Ok r st' ->
    sol st' = sol st
    /\ length (fst r) = (length tmp + length routes)%nat
    /\ Permutation (concat routes ++ concat tmp ++ removed)
                   (concat (fst r) ++ snd r).
Proof.
  induction routes as [|route routes IH]; intros tmp removed st st' r E.
  - cbn in E. unfold ret in E. inversion E; subst. cbn. split; [reflexivity|].
    split; [lia|reflexivity].
  - cbn [random_destroy_routes] in E. unfold bind in E.
    destruct (random_destroy_route env route [] removed st) as [r1 st1|e st1] eqn:E1;
      [|discriminate].
    pose proof E1 as E1'. apply random_destroy_route_spec in E1'.
    destruct E1' as [K1 (kept & taken & F1 & F2 & P1)].
    destruct (IH _ _ _ _ _ E) as [K (L & P)].
    split; [congruence|]. split.
    + rewrite L, length_app. cbn. lia.
    + rewrite <- P. rewrite F1, F2. cbn [app concat].
      rewrite concat_app. cbn [concat]. rewrite app_nil_r.
      apply destroy_blocks. exact P1.
Qed.

Lemma RandomDestroy_perm (env : OpEnv) (st st' : OpState) (removed : list nat) :
  RandomDestroyOperator env st = Ok removed st' ->
  Permutation (customers (sol st)) (removed ++ customers (sol st'))
  /\ length (solution_representation (sol st'))
     = length (solution_representation (sol st)).
Proof.
  intros E. unfold RandomDestroyOperator in E. unfold bind, get, ret in E.
  destruct (random_destroy_routes env (solution_representation (sol st)) [] [] st)
    as [r st1|e st1] eqn:E1; [|discriminate].
  pose proof E1 as E1'. apply random_destroy_routes_spec in E1'.
  destruct E1' as [K (L & P)].
  cbn in E. inversion E; subst. cbn [sol].
  unfold customers. rewrite !evaluate_solution_routes.
  cbn [solution_representation upd_solution_representation].
  cbn in P, L. rewrite app_nil_r in P.
  split; [|exact L]. rewrite P. apply Permutation_app_comm.
Qed.

(** *** Route removal *)

Lemma concat_vset_nil (routes : list (list nat)) (r : nat) :
  Permutation (concat routes) (rget routes r ++ concat (vset routes r [])).
Proof.
  revert r. induction routes as [|h t IH]; intros [|r]; unfold rget in *; simpl;
    auto.
  rewrite (IH r) at 1. rewrite !app_assoc.
  apply Permutation_app_tail. apply Permutation_app_comm.
Qed.

Lemma RandomRouteDestroy_perm (env : OpEnv) (st st' : OpState)
  (removed : list nat) :
  RandomRouteDestroyOperator env st = Ok removed st' ->
  Permutation (customers (sol st)) (removed ++ customers (sol st'))
  /\ length (solution_representation (sol st'))
     = length (solution_representation (sol st)).
Proof.
  intros E. unfold RandomRouteDestroyOperator in E. unfold bind, get, ret in E.
  destruct (rand_number (Z.of_nat (nr_vehicles (data env)) - 1) 0 st)
    as [r st1|e st1] eqn:E1; [|discriminate].
  keeps E1 K1 (@keeps_sol_rand_number (Z.of_nat (nr_vehicles (data env)) - 1) 0).
  cbn in E. inversion E; subst. cbn [sol].
  unfold customers. rewrite !evaluate_solution_routes.
  cbn [solution_representation upd_solution_representation].
  rewrite K1. split; [apply concat_vset_nil|apply length_vset].
Qed.

(** *** Removal through the chromosome *)

Lemma find_pos_some (route : list nat) (c : nat) :
  forall (start pos : nat),
    route_evaluate.find_pos route c start = Some pos ->
    (start <= pos < start + length route)%nat
    /\ nget route (pos - start) = c.
Proof.
  induction route as [|h t IH]; intros start pos E; cbn in E; [discriminate|].
  destruct (Nat.eqb h c) eqn:Eh.
  - inversion E; subst. apply Nat.eqb_eq in Eh. subst.
    rewrite Nat.sub_diag. cbn. split; [lia|reflexivity].
  - destruct (IH _ _ E) as [R N]. cbn [length]. split; [lia|].
    replace (pos - start)%nat with (S (pos - S start)) by lia. exact N.
Qed.

Lemma remove_at_perm (l : list nat) (p : nat) :
  (p < length l)%nat -> Permutation l (nget l p :: remove_at l p).
Proof.
  unfold nget. revert p. induction l as [|h t IH]; intros [|p] H; simpl in *;
    try lia; auto.
  rewrite (IH p) at 1 by lia. apply perm_swap.
Qed.

Lemma remove_customers_perm (removed : list nat) :
  forall (s s' : Solution) (u : unit),
    remove_customers removed s = Ok u s' ->
    Permutation (customers s) (removed ++ customers s')
    /\ length (solution_representation s') = length (solution_representation s).
Proof.
  induction removed as [|c rest IH]; intros s s' u E.
  - cbn in E. unfold ret in E. inversion E; subst. auto.
  - cbn [remove_customers] in E. unfold bind, get in E.
    set (rid := nget (route_chromosome s) c) in *.
    destruct (route_evaluate.get_customer_pos (rget (solution_representation s) rid) c)
      as [pos|] eqn:Ep; [|discriminate].
    unfold route_evaluate.get_customer_pos in Ep.
    pose proof Ep as Ep'. apply find_pos_some in Ep'.
    destruct Ep' as [Hpos Hc]. rewrite Nat.sub_0_r in Hc.
    unfold bind, modify in E.
    destruct (IH _ _ _ E) as [P L].
    unfold remove_customer in P, L.
    cbn [solution_representation upd_solution_representation] in P, L.
    assert (Hrid : (rid < length (solution_representation s))%nat).
    { destruct (Nat.lt_ge_cases rid (length (solution_representation s))); auto.
      rewrite rget_out in Hpos by assumption. simpl in Hpos. lia. }
    rewrite length_vset in L. split; [|exact L].
    unfold customers in *. cbn [app]. rewrite <- P.
    apply concat_vset_remove; [exact Hrid|].
    rewrite <- Hc. apply remove_at_perm. lia.
Qed.

Lemma remove_by_rank_perm (env : OpEnv) (skewed : list Q) (st st' : OpState)
  (removed : list nat) :
  remove_by_rank env skewed st = Ok removed st' ->
  Permutation (customers (sol st)) (removed ++ customers (sol st'))
  /\ length (solution_representation (sol st'))
     = length (solution_representation (sol st)).
Proof.
  intros E. unfold remove_by_rank in E. unfold bind, ret in E.
  match type of E with
  | context [on_sol (remove_customers ?l) st] =>
      destruct (on_sol (remove_customers l) st) as [u st1|e st1] eqn:E1;
        [|discriminate]
  end.
  apply on_sol_ok in E1. destruct E1 as (E1 & _ & _).
  apply remove_customers_perm in E1. destruct E1 as [P L].
  cbn in E. inversion E; subst. cbn [sol].
  unfold customers in *. rewrite !evaluate_solution_routes. auto.
Qed.

Lemma skew_ranks_keeps (env : OpEnv) (ranks : list Z) (n : nat) :
  keeps_sol (skew_ranks env ranks n).
Proof.
  unfold skew_ranks. apply keeps_sol_foldM. intros b a.
  apply keeps_sol_bind; [apply keeps_sol_uni|intro; apply keeps_sol_ret].
Qed.

Lemma BiggestDemand_perm (env : OpEnv) (st st' : OpState) (removed : list nat) :
  BiggestDemandDestroyOperator env st = Ok removed st' ->
  Permutation (customers (sol st)) (removed ++ customers (sol st'))
  /\ length (solution_representation (sol st'))
     = length (solution_representation (sol st)).
Proof.
  intros E. unfold BiggestDemandDestroyOperator in E. unfold bind in E.
  match type of E with
  | context [skew_ranks ?e ?r ?n st] =>
      destruct (skew_ranks e r n st) as [sk st1|e1 st1] eqn:E1; [|discriminate];
      keeps E1 K1 (@skew_ranks_keeps e r n)
  end.
  rewrite <- K1. exact (@remove_by_rank_perm env sk st1 st' removed E).
Qed.

Lemma WorstTravelTime_perm (env : OpEnv) (st st' : OpState) (removed : list nat) :
  WorstTravelTimeDestroyOperator env st = Ok removed st' ->
  Permutation (customers (sol st)) (removed ++ customers (sol st'))
  /\ length (solution_representation (sol st'))
     = length (solution_representation (sol st)).
Proof.
  intros E. unfold WorstTravelTimeDestroyOperator in E. unfold bind, get in E.
  match type of E with
  | context [skew_ranks ?e ?r ?n st] =>
      destruct (skew_ranks e r n st) as [sk st1|e1 st1] eqn:E1; [|discriminate];
      keeps E1 K1 (@skew_ranks_keeps e r n)
  end.
  rewrite <- K1. exact (@remove_by_rank_perm env sk st1 st' removed E).
Qed.

Lemma NodePair_perm (env : OpEnv) (st st' : OpState) (removed : list nat) :
  NodePairDestroyOperator env st = Ok removed st' ->
  Permutation (customers (sol st)) (removed ++ customers (sol st'))
  /\ length (solution_representation (sol st'))
     = length (solution_representation (sol st)).
Proof.
  intros E. unfold NodePairDestroyOperator in E. unfold bind, get in E.
  match type of E with
  | context [skew_ranks ?e ?r ?n st] =>
      destruct (skew_ranks e r n st) as [sk st1|e1 st1] eqn:E1; [|discriminate];
      keeps E1 K1 (@skew_ranks_keeps e r n)
  end.
  rewrite <- K1. exact (@remove_by_rank_perm env sk st1 st' removed E).
Qed.

(** *** Shaw removal *)

Lemma shaw_scan_keeps (env : OpEnv) (w : ShawWeights) (q : nat)
  (candidates : list nat) (pos : nat) :
  keeps_sol (shaw_scan env w q candidates pos).
Proof.
  unfold shaw_scan. apply keeps_sol_bind; [|intro; apply keeps_sol_ret].
  apply keeps_sol_foldM. intros [m p] a. cbv beta iota.
  intros st b st' E. unfold bind, get in E.
  destruct (uni st) as [u st1|e st1] eqn:E1; [|discriminate].
  keeps E1 K1 @keeps_sol_uni.
  destruct (Qltb _ _); unfold ret in E; inversion E; subst; exact K1.
Qed.

Lemma ShawDestroy_perm (w : ShawWeights) (env : OpEnv) (st st' : OpState)
  (removed : list nat) :
  ShawDestroyOperator w env st = Ok removed st' ->
  Permutation (customers (sol st)) (removed ++ customers (sol st'))
  /\ length (solution_representation (sol st'))
     = length (solution_representation (sol st)).
Proof.
  intros E. unfold ShawDestroyOperator in E.
  step E r st1 E1.
  keeps E1 K1 (@keeps_sol_rand_number (Z.of_nat (nr_customer (data env)) - 1) 0).
  step E acc st2 E2.
  assert (K2 : sol st2 = sol st1).
  { revert E2. apply keeps_sol_foldM. intros [[rm cand] pos] i.
    cbv beta iota.
    apply keeps_sol_bind;
      [exact (@keeps_sol_rand_number (Z.of_nat i - 1) 0)|intro r0].
    apply keeps_sol_bind;
      [exact (@shaw_scan_keeps env w _ cand pos)
      |intro p'; exact (@keeps_sol_ret _ _)]. }
  step E u st3 E3.
  apply on_sol_ok in E3. destruct E3 as (E3 & _ & _).
  apply remove_customers_perm in E3. destruct E3 as [P L].
  step E u4 st4 E4. unfold ret in E. inversion E; subst.
  apply on_sol_ok in E4. destruct E4 as (E4 & _ & _).
  unfold modify in E4. inversion E4 as [[E5 E6]]. clear E4.
  unfold customers in *. rewrite !evaluate_solution_routes.
  rewrite <- K1, <- K2. auto.
Qed.


(** *** Worst removal *)

Lemma erp_routes (dat : ALNSData) (cw fw : Q) (r pos : nat) (s s' : Solution)
  (q : Q) :
  (pos < length (rget (solution_representation s) r))%nat ->
  evaluate_removal_position dat cw fw r pos s = Ok q s' ->
  solution_representation s' = solution_representation s.
Proof.
  intros Hpos E. unfold evaluate_removal_position in E. unfold_monad.
  set (c := nget (rget (solution_representation s) r) pos) in *.
  set (s1 := remove_customer r pos s) in *.
  destruct (evaluate_change_routes dat r (Z.of_nat pos - 1) cw fw s1) as [R1 _].
  destruct (evaluate_change dat r (Z.of_nat pos - 1) cw fw s1) as [u s2|e s2];
    [|discriminate]. cbn [state_of] in R1.
  set (s3 := assign_chromosome c r (insert_customer r pos c s2)) in *.
  destruct (evaluate_change_routes dat r (Z.of_nat pos) cw fw s3) as [R3 _].
  destruct (evaluate_change dat r (Z.of_nat pos) cw fw s3) as [u3 s4|e s4];
    [|discriminate]. cbn [state_of] in R3.
  inversion E; subst s'. rewrite R3.
  unfold s3, assign_chromosome, insert_customer.
  cbn [solution_representation upd_solution_representation upd_route_chromosome].
  rewrite R1. unfold s1, remove_customer.
  cbn [solution_representation upd_solution_representation].
  assert (Hr : (r < length (solution_representation s))%nat).
  { destruct (Nat.lt_ge_cases r (length (solution_representation s))); auto.
    rewrite rget_out in Hpos by assumption. simpl in Hpos. lia. }
  rewrite rget_vset_eq by exact Hr. rewrite vset_vset.
  unfold c, nget. rewrite insert_remove_at by exact Hpos. apply vset_same.
Qed.

Lemma removal_gain_routes (env : OpEnv) (r pos : nat) (st st' : OpState) (g : Q) :
  (pos < length (rget (solution_representation (sol st)) r))%nat ->
  removal_gain env r pos st = Ok g st' ->
  solution_representation (sol st') = solution_representation (sol st).
Proof.
  intros Hpos E. unfold removal_gain in E.
  step E st0 st1 E0. unfold get in E0. inversion E0; subst st0 st1. clear E0.
  step E c st2 E2. apply on_sol_ok in E2. destruct E2 as (E2 & _ & _).
  apply erp_routes in E2; [|exact Hpos].
  step E u st3 E3. keeps E3 K3 @keeps_sol_uni.
  unfold ret in E. inversion E; subst. congruence.
Qed.

Lemma worst_init_route_inv (env : OpEnv) (cpos r : nat) (routes : list (list nat))
  (ws ws' : worst_state) (st st' : OpState) :
  worst_inv routes ws st ->
  worst_init_route env cpos r ws st = Ok ws' st' ->
  worst_inv routes ws' st'.
Proof.
  intros H E. unfold worst_init_route in E.
  step E st0 st1 E0. unfold get in E0. inversion E0 as [[E01 E02]].
  clear E0. subst st0. subst st1.
  step E acc st2 E2. unfold ret in E. inversion E as [[E3 E4]]. clear E.
  rewrite <- E4. clear E3 E4.
  revert E2.
  apply (@foldM_inv _ _ _
           (fun (acc : Q * worst_state) st => worst_inv routes (snd acc) st));
    [|exact H].
  destruct H as [_ H2].
  intros [m w0] pos s0 [m' w1] s1 Hin [I1 I2] Eb. cbn [snd] in *.
  apply in_seq in Hin.
  step Eb g s2 Eg.
  apply removal_gain_routes in Eg; [|rewrite I2, <- H2; lia].
  unfold worst_inv.
  destruct (Qltb m g); [destruct (Qltb _ g)|];
    unfold ret in Eb; inversion Eb as [[Eb1 Eb2 Eb3]];
    rewrite <- ?Eb3; cbn; split; congruence.
Qed.

Lemma worst_init_inv (env : OpEnv) (routes : list (list nat))
  (ws ws' : worst_state) (st st' : OpState) :
  worst_inv routes ws st ->
  worst_init env ws st = Ok ws' st' ->
  worst_inv routes ws' st'.
Proof.
  intros H E. unfold worst_init in E. revert E.
  apply (@foldM_inv _ _ _ (fun w st => worst_inv routes w st)); [|exact H].
  intros w0 cpos s0 w1 s1 _ I0 Eb. revert Eb.
  apply (@foldM_inv _ _ _ (fun w st => worst_inv routes w st)); [|exact I0].
  intros w2 r s2 w3 s3 _ I2 Er.
  eapply worst_init_route_inv; eassumption.
Qed.

Lemma worst_loop_idle (env : OpEnv) (fuel : nat) (k : Z) (ws : worst_state)
  (st : OpState) :
  removed_customers_w ws = [] ->
  worst_loop env fuel k ws st = Ok ws st.
Proof.
  intros H. destruct fuel; cbn [worst_loop]; rewrite H; cbn [length];
    (destruct (to_unsigned k <? Z.of_nat 0)%Z eqn:E; [|reflexivity]);
    apply Z.ltb_lt in E; pose proof (to_unsigned_nonneg k); simpl in E; lia.
Qed.

(** the operator returns no customer and leaves the routes as they are *)
Lemma WorstRemoval_returns_nothing (fuel : nat) (env : OpEnv)
  (st st' : OpState) (removed : list nat) :
  WorstRemovalDestroyOperator fuel env st = Ok removed st' ->
  removed = []
  /\ solution_representation (sol st') = solution_representation (sol st).
Proof.
  intros E. unfold WorstRemovalDestroyOperator in E.
  step E ws st1 E1.
  apply (@worst_init_inv env (solution_representation (sol st))) in E1;
    [|split; reflexivity].
  destruct E1 as [I1 I2].
  step E ws2 st2 E2.
  rewrite (@worst_loop_idle env fuel (clip_removals env) ws st1 I1) in E2.
  inversion E2; subst ws2 st2. clear E2.
  unfold ret in E. inversion E; subst. auto.
Qed.

Lemma WorstRemoval_perm (fuel : nat) (env : OpEnv) (st st' : OpState)
  (removed : list nat) :
  WorstRemovalDestroyOperator fuel env st = Ok removed st' ->
  Permutation (customers (sol st)) (removed ++ customers (sol st'))
  /\ length (solution_representation (sol st'))
     = length (solution_representation (sol st)).
Proof.
  intros E. apply WorstRemoval_returns_nothing in E. destruct E as [-> R].
  unfold customers. rewrite R. auto.
Qed.

(** *** Random greedy insertion *)

Lemma rand_number_range (m : Z) (k : tools.kiss) :
  (0 <= m)%Z -> (fst (tools.rand_number m 0 k) <= m)%Z.
Proof. intros Hm. apply rand_number_le. exact Hm. Qed.

Lemma random_greedy_loop_perm (env : OpEnv) (fuel : nat) :
  forall (removed : list nat) (st st' : OpState) (u : unit),
    fuel = length removed ->
    solution_representation (sol st) <> [] ->
    random_greedy_loop env fuel removed st = Ok u st' ->
    Permutation (customers (sol st')) (removed ++ customers (sol st))
    /\ length (solution_representation (sol st'))
       = length (solution_representation (sol st)).
Proof.
  induction fuel as [|fuel IH]; intros removed st st' u Hf Hne E.
  - destruct removed; [|discriminate]. cbn in E. unfold ret in E.
    inversion E; subst. auto.
  - destruct removed as [|c0 rest]; [discriminate|].
    cbn [random_greedy_loop] in E.
    set (removed := c0 :: rest) in *.
    step E r st1 E1.
    assert (Hr : (r <= Z.of_nat (length removed) - 1)%Z).
    { unfold rand_number in E1.
      pose proof (@rand_number_range (Z.of_nat (length removed) - 1) (rng_tools st)) as H.
      destruct (tools.rand_number (Z.of_nat (length removed) - 1) 0 (rng_tools st)).
      inversion E1; subst. apply H. unfold removed; cbn [length]; lia. }
    keeps E1 K1 (@keeps_sol_rand_number (Z.of_nat (length removed) - 1) 0).
    step E i st2 E2. apply on_sol_ok in E2. destruct E2 as (E2 & _ & _).
    apply get_best_insertion_names in E2;
      [|rewrite K1; exact Hne|left; lia]. destruct E2 as [N2 R2].
    step E u3 st3 E3. apply on_sol_ok in E3. destruct E3 as (E3 & _ & _).
    apply commit_insertion_perm in E3; [|rewrite R2; exact N2].
    destruct E3 as [P3 L3].
    apply IH in E.
    + destruct E as [P L]. split; [|congruence].
      etransitivity; [exact P|].
      etransitivity; [apply Permutation_app_head; exact P3|].
      unfold customers. rewrite R2, K1. symmetry.
      etransitivity;
        [apply Permutation_app_tail;
         apply (@remove_at_perm removed (Z.to_nat r)); lia|].
      cbn [app]. apply Permutation_middle.
    + assert (Hlen : forall (l : list nat) p, (p < length l)%nat ->
                     length (remove_at l p) = (length l - 1)%nat).
      { induction l as [|h t IHl]; intros [|p] Hp; simpl in *; try lia.
        rewrite IHl by lia. lia. }
      rewrite Hlen by lia. lia.
    + intro H0. rewrite H0 in L3. rewrite R2, K1 in L3.
      destruct (solution_representation (sol st)); [congruence|discriminate].
Qed.

Lemma RandomGreedy_perm (env : OpEnv) (removed : list nat) (st st' : OpState)
  (u : unit) :
  solution_representation (sol st) <> [] ->
  RandomGreedyInsertionOperator env removed st = Ok u st' ->
  Permutation (customers (sol st')) (removed ++ customers (sol st))
  /\ length (solution_representation (sol st'))
     = length (solution_representation (sol st)).
Proof.
  intros Hne E. unfold RandomGreedyInsertionOperator in E.
  eapply random_greedy_loop_perm; eauto.
Qed.


(** *** Block insertion *)

Lemma insert_at_mid (l1 l2 : list nat) (x : nat) :
  insert_at (l1 ++ l2) (length l1) x = l1 ++ x :: l2.
Proof.
  induction l1 as [|h t IH]; simpl.
  - destruct l2; reflexivity.
  - f_equal. exact IH.
Qed.

Lemma remove_at_mid (l1 l2 : list nat) (x : nat) :
  remove_at (l1 ++ x :: l2) (length l1) = l1 ++ l2.
Proof. induction l1 as [|h t IH]; simpl; [reflexivity|f_equal; exact IH]. Qed.

Lemma insert_chain_routes (r p : nat) (cs : list nat) :
  forall (a : nat) (s : Solution) (pre mid post : list nat),
    (r < length (solution_representation s))%nat ->
    rget (solution_representation s) r = pre ++ mid ++ post ->
    length pre = p -> length mid = a ->
    solution_representation (fst (insert_chain r p cs a s))
    = vset (solution_representation s) r (pre ++ (mid ++ cs) ++ post)
    /\ snd (insert_chain r p cs a s) = (a + length cs)%nat.
Proof.
  induction cs as [|c rest IH]; intros a s pre mid post Hr E Hp Ha;
    cbn [insert_chain].
  - cbn [fst snd length]. rewrite app_nil_r, <- E. split; [|lia].
    symmetry. apply vset_same.
  - set (s1 := assign_chromosome c r (insert_customer r (p + a) c s)).
    assert (R1 : solution_representation s1
                 = vset (solution_representation s) r
                        (pre ++ (mid ++ [c]) ++ post)).
    { unfold s1, assign_chromosome, insert_customer.
      cbn [solution_representation upd_solution_representation
           upd_route_chromosome].
      f_equal. rewrite E, app_assoc, <- Hp, <- Ha, <- length_app.
      rewrite insert_at_mid. rewrite <- !app_assoc. reflexivity. }
    destruct (IH (S a) s1 pre (mid ++ [c]) post) as [I1 I2].
    + rewrite R1, length_vset. exact Hr.
    + rewrite R1. apply rget_vset_eq. exact Hr.
    + exact Hp.
    + rewrite length_app. simpl. lia.
    + rewrite I1, I2, R1, vset_vset.
      replace ((mid ++ [c]) ++ rest) with (mid ++ c :: rest)
        by (rewrite <- app_assoc; reflexivity).
      cbn [length]. split; [reflexivity|lia].
Qed.

Lemma insert_chain_out (r p : nat) (cs : list nat) :
  forall (a : nat) (s : Solution),
    (length (solution_representation s) <= r)%nat ->
    solution_representation (fst (insert_chain r p cs a s))
    = solution_representation s.
Proof.
  induction cs as [|c rest IH]; intros a s Hr; cbn [insert_chain];
    [reflexivity|].
  rewrite IH;
    unfold assign_chromosome, insert_customer;
    cbn [solution_representation upd_solution_representation
         upd_route_chromosome]; rewrite ?length_vset; [|exact Hr].
  apply vset_out. exact Hr.
Qed.

Lemma remove_chain_routes (r p : nat) :
  forall (a : nat) (s : Solution) (pre mid post : list nat),
    (r < length (solution_representation s))%nat ->
    rget (solution_representation s) r = pre ++ mid ++ post ->
    length pre = p -> length mid = a ->
    solution_representation (remove_chain r p a s)
    = vset (solution_representation s) r (pre ++ post).
Proof.
  induction a as [|a IH]; intros s pre mid post Hr E Hp Ha; cbn [remove_chain].
  - destruct mid; [|discriminate]. cbn [app] in E. rewrite <- E.
    symmetry. apply vset_same.
  - destruct mid as [|x mid]; [discriminate|]. cbn [app] in E.
    set (s1 := remove_customer r p s).
    assert (R1 : solution_representation s1
                 = vset (solution_representation s) r (pre ++ mid ++ post)).
    { unfold s1, remove_customer.
      cbn [solution_representation upd_solution_representation].
      f_equal. rewrite E, <- Hp. apply remove_at_mid. }
    rewrite (IH s1 pre mid post).
    + rewrite R1. apply vset_vset.
    + rewrite R1, length_vset. exact Hr.
    + rewrite R1. apply rget_vset_eq. exact Hr.
    + exact Hp.
    + simpl in Ha. lia.
Qed.

Lemma remove_chain_out (r p : nat) :
  forall (a : nat) (s : Solution),
    (length (solution_representation s) <= r)%nat ->
    solution_representation (remove_chain r p a s) = solution_representation s.
Proof.
  induction a as [|a IH]; intros s Hr; cbn [remove_chain]; [reflexivity|].
  rewrite IH; unfold remove_customer;
    cbn [solution_representation upd_solution_representation];
    rewrite ?length_vset; [|exact Hr].
  apply vset_out. exact Hr.
Qed.

(** taking the block out again gives the routes back; the evaluation in
    between may have changed any other member *)
Lemma chain_undo_routes (r p : nat) (cs : list nat) (s s2 : Solution) :
  (p <= length (rget (solution_representation s) r))%nat ->
  solution_representation s2
  = solution_representation (fst (insert_chain r p cs 0 s)) ->
  solution_representation
    (remove_chain r p (snd (insert_chain r p cs 0 s)) s2)
  = solution_representation s.
Proof.
  intros Hp E2.
  destruct (Nat.lt_ge_cases r (length (solution_representation s))) as [Hr|Hr].
  - destruct (@insert_chain_routes r p cs 0 s
                (firstn p (rget (solution_representation s) r)) []
                (skipn p (rget (solution_representation s) r)) Hr)
      as [I1 I2].
    + cbn [app]. symmetry. apply firstn_skipn.
    + apply firstn_length_le. exact Hp.
    + reflexivity.
    + cbn [app] in I1. rewrite I1 in E2. rewrite I2. cbn [Nat.add].
      rewrite (@remove_chain_routes r p (length cs) s2
                 (firstn p (rget (solution_representation s) r)) cs
                 (skipn p (rget (solution_representation s) r))).
      * rewrite E2, vset_vset, firstn_skipn. apply vset_same.
      * rewrite E2, length_vset. exact Hr.
      * rewrite E2. apply rget_vset_eq. exact Hr.
      * apply firstn_length_le. exact Hp.
      * reflexivity.
  - rewrite insert_chain_out in E2 by exact Hr.
    rewrite remove_chain_out by (rewrite E2; exact Hr). exact E2.
Qed.

Lemma insert_chain_perm (r p : nat) (cs : list nat) :
  forall (a : nat) (s : Solution),
    (r < length (solution_representation s))%nat ->
    exists route',
      solution_representation (fst (insert_chain r p cs a s))
      = vset (solution_representation s) r route'
      /\ Permutation route' (cs ++ rget (solution_representation s) r).
Proof.
  induction cs as [|c rest IH]; intros a s Hr; cbn [insert_chain].
  - exists (rget (solution_representation s) r). cbn [fst app]. split; auto.
    symmetry. apply vset_same.
  - set (s1 := assign_chromosome c r (insert_customer r (p + a) c s)).
    assert (R1 : solution_representation s1
                 = vset (solution_representation s) r
                     (insert_at (rget (solution_representation s) r) (p + a) c))
      by reflexivity.
    destruct (IH (S a) s1) as (route' & I1 & I2).
    + rewrite R1, length_vset. exact Hr.
    + exists route'. rewrite I1, R1, vset_vset. split; [reflexivity|].
      rewrite I2, R1, rget_vset_eq by exact Hr.
      rewrite insert_at_perm. cbn [app]. symmetry. apply Permutation_middle.
Qed.

Lemma concat_vset_block (routes : list (list nat)) (r : nat) (x cs : list nat) :
  (r < length routes)%nat ->
  Permutation x (cs ++ rget routes r) ->
  Permutation (concat (vset routes r x)) (cs ++ concat routes).
Proof.
  revert r. induction routes as [|h t IH]; intros [|r] Hr P; simpl in *;
    try lia.
  - unfold rget in P. simpl in P. rewrite P. rewrite app_assoc. reflexivity.
  - rewrite (IH r) by (try lia; exact P).
    rewrite !app_assoc. apply Permutation_app_tail. apply Permutation_app_comm.
Qed.

Section Chain.
Variable dat : ALNSData.
Variables cw fw : Q.

(** a probe of a block restores the routes in every outcome *)
Lemma eic_routes (r : nat) (cs : list nat) (p : nat) (s : Solution) :
  (p <= length (rget (solution_representation s) r))%nat ->
  solution_representation
    (state_of (evaluate_insertion_chain dat cw fw r cs p s))
  = solution_representation s
  /\ (forall e s', evaluate_insertion_chain dat cw fw r cs p s = Throw e s' ->
                   e = InfeasibilityException).
Proof.
  intros Hp. unfold evaluate_insertion_chain.
  pose proof (@chain_undo_routes r p cs s) as U.
  destruct (insert_chain r p cs 0 s) as [s1 a]. cbn [fst snd] in U.
  unfold_monad.
  destruct (evaluate_change_routes dat r (Z.of_nat p + Z.of_nat a - 1) cw fw s1)
    as [R1 T1].
  destruct (evaluate_change dat r (Z.of_nat p + Z.of_nat a - 1) cw fw s1)
    as [[] s2|e s2] eqn:E1; cbn [state_of] in R1.
  - specialize (U s2 Hp R1).
    destruct (evaluate_change_routes dat r (Z.of_nat p - 1) cw fw
                (remove_chain r p a s2)) as [R4 T4].
    destruct (evaluate_change dat r (Z.of_nat p - 1) cw fw
                (remove_chain r p a s2)) as [[] s4|e s4];
      cbn [state_of] in *.
    + split; [congruence|]. intros e s' E. discriminate.
    + split; [congruence|]. intros e' s' E. inversion E; subst.
      eapply T4. reflexivity.
  - rewrite (T1 e s2 eq_refl). specialize (U s2 Hp R1).
    destruct (evaluate_change_routes dat r (Z.of_nat p - 1) cw fw
                (remove_chain r p a s2)) as [R4 T4].
    destruct (evaluate_change dat r (Z.of_nat p - 1) cw fw
                (remove_chain r p a s2)) as [[] s4|e4 s4];
      cbn [state_of] in *.
    + split; [congruence|]. intros e' s' E. inversion E; reflexivity.
    + split; [congruence|]. intros e' s' E. inversion E; subst.
      eapply T4. reflexivity.
Qed.

Lemma chain_positions_names (rid : nat) (cs : list nat) (positions : list nat) :
  forall (best best' : insertion) (s s' : Solution),
    (rid < length (solution_representation s))%nat ->
    Forall (fun pos => pos <= length (rget (solution_representation s) rid))%nat
           positions ->
    chain_names (solution_representation s) best ->
    chain_positions dat cw fw rid cs positions best s = Ok best' s' ->
    chain_names (solution_representation s) best'
    /\ solution_representation s' = solution_representation s.
Proof.
  induction positions as [|pos rest IH]; intros best best' s s' Hr Hall Hb E.
  - cbn in E. unfold ret in E. inversion E; subst. auto.
  - inversion Hall as [|? ? Hpos Hrest]; subst.
    destruct (@eic_routes rid cs pos s Hpos) as (R & T).
    cbn [chain_positions] in E.
    destruct (evaluate_insertion_chain dat cw fw rid cs pos s)
      as [q s1|e s1] eqn:E1; cbn [state_of] in R.
    + assert (Hr1 : (rid < length (solution_representation s1))%nat)
        by (rewrite R; exact Hr).
      assert (Hrest1 :
        Forall (fun pos => pos <= length (rget (solution_representation s1) rid))%nat
               rest) by (rewrite R; exact Hrest).
      eapply IH in E; [|exact Hr1|exact Hrest1|].
      * rewrite R in E. exact E.
      * rewrite R. destruct (Qltb _ _); [|exact Hb].
        intros _. unfold names_route, ins_route. cbn [fst snd].
        rewrite Nat2Z.id. exact Hr.
    + rewrite (T e s1 eq_refl) in E. inversion E; subst. auto.
Qed.

Lemma chain_routes_names (cs : list nat) (s s' : Solution)
  (best best' : insertion) :
  chain_names (solution_representation s) best ->
  chain_routes dat cw fw cs (seq 0 (length (solution_representation s))) best s
  = Ok best' s' ->
  chain_names (solution_representation s) best'
  /\ solution_representation s' = solution_representation s.
Proof.
  intros Hb E. unfold chain_routes in E. revert E.
  apply (@foldM_inv _ _ _
           (fun b s1 => chain_names (solution_representation s) b
                        /\ solution_representation s1
                           = solution_representation s)); [|auto].
  intros b rid s1 b' s2 Hin [I1 I2] Eb. apply in_seq in Hin.
  step Eb s0 s3 E0. unfold get in E0. inversion E0 as [[E01 E02]]. clear E0.
  subst s0. subst s3.
  apply chain_positions_names in Eb.
  - rewrite I2 in Eb. exact Eb.
  - rewrite I2. lia.
  - apply seq_le_all.
  - rewrite I2. exact I1.
Qed.

Lemma commit_chain_perm (cs : list nat) (best : insertion) (s s' : Solution)
  (u : unit) :
  names_route (solution_representation s) best ->
  commit_chain dat cw fw cs best s = Ok u s' ->
  Permutation (customers s') (cs ++ customers s)
  /\ length (solution_representation s') = length (solution_representation s).
Proof.
  intros Hn E. unfold commit_chain in E. unfold names_route in Hn.
  step E s0 s1 E0. unfold get in E0. inversion E0 as [[E01 E02]]. clear E0.
  subst s0. subst s1.
  destruct (@insert_chain_perm (Z.to_nat (ins_route best))
              (Z.to_nat (ins_pos best)) cs 0 s Hn) as (route' & I1 & I2).
  destruct (insert_chain (Z.to_nat (ins_route best))
              (Z.to_nat (ins_pos best)) cs 0 s) as [s1 a].
  cbn [fst] in I1.
  step E u1 s2 E1. unfold put in E1. inversion E1 as [[E11 E12]]. clear E1.
  subst s2.
  match type of E with
  | evaluate_change ?d ?r ?p ?c ?f ?x = _ =>
      destruct (evaluate_change_routes d r p c f x) as [R _]
  end.
  rewrite E in R. cbn [state_of] in R.
  unfold customers. rewrite R, I1, length_vset. split; [|reflexivity].
  apply concat_vset_block; assumption.
Qed.
End Chain.

Lemma BetaHybrid_perm (beta : Z) (env : OpEnv) (removed : list nat)
  (st st' : OpState) (u : unit) :
  (0 <= beta < 2 ^ 32)%Z ->
  solution_representation (sol st) <> [] ->
  BetaHybridInsertionOperator beta env removed st = Ok u st' ->
  Permutation (customers (sol st')) (removed ++ customers (sol st))
  /\ length (solution_representation (sol st'))
     = length (solution_representation (sol st)).
Proof.
  intros Hbeta Hne E. unfold BetaHybridInsertionOperator in E.
  rewrite (to_unsigned_small Hbeta) in E.
  step E r st1 E1. destruct r as [best removed'].
  destruct ((Z.of_nat (length removed) <=? beta)%Z
            && (0 <? Z.of_nat (length removed))%Z) eqn:Hc.
  - apply andb_true_iff in Hc. destruct Hc as [Hc1 _].
    apply Z.leb_le in Hc1.
    step E1 c st2 E2.
    keeps E2 K2 (@keeps_sol_rand_number 1 0).
    set (cs := if (c =? 0)%Z then rev removed else removed) in *.
    assert (Pcs : Permutation cs removed).
    { unfold cs. destruct (c =? 0)%Z; [symmetry; apply Permutation_rev|reflexivity]. }
    step E1 st0 st3 E3. unfold get in E3. inversion E3 as [[E31 E32]]. clear E3.
    subst st0. subst st3.
    step E1 b st4 E4. apply on_sol_ok in E4. destruct E4 as (E4 & _ & _).
    apply chain_routes_names in E4;
      [|intros H; unfold ins_route in H; cbn in H; lia].
    destruct E4 as [N4 R4].
    step E1 u5 st5 E5. unfold ret in E1. inversion E1 as [[E11 E12 E13]].
    clear E1. subst b. subst removed'. subst st5.
    assert (Hlen : length cs = length removed) by (apply Permutation_length; exact Pcs).
    destruct (0 <=? ins_route best)%Z eqn:Hb.
    + apply Z.leb_le in Hb.
      apply on_sol_ok in E5. destruct E5 as (E5 & _ & _).
      apply commit_chain_perm in E5; [|rewrite R4; apply N4; exact Hb].
      destruct E5 as [P5 L5].
      assert (Hf : (ins_route best <? 0)%Z || (beta <? Z.of_nat (length cs))%Z
                   = false).
      { apply orb_false_iff. split; [apply Z.ltb_ge; exact Hb|].
        apply Z.ltb_ge. rewrite Hlen. exact Hc1. }
      rewrite Hf in E. unfold ret in E. inversion E; subst.
      split; [|congruence].
      rewrite P5. unfold customers. rewrite R4, K2.
      apply Permutation_app_tail. exact Pcs.
    + apply Z.leb_gt in Hb.
      unfold ret in E5. inversion E5 as [[E51 E52]]. clear E5. subst st1.
      assert (Hf : (ins_route best <? 0)%Z || (beta <? Z.of_nat (length cs))%Z
                   = true).
      { apply orb_true_iff. left. apply Z.ltb_lt. exact Hb. }
      rewrite Hf in E.
      apply random_greedy_loop_perm in E; [|reflexivity|congruence].
      destruct E as [P L]. split; [|congruence].
      rewrite P. unfold customers. rewrite R4, K2.
      apply Permutation_app_tail. exact Pcs.
  - unfold ret in E1. inversion E1 as [[E11 E12 E13]]. clear E1.
    subst best. subst removed'. subst st1.
    cbn [ins_route fst snd] in E.
    change ((-1 <? 0)%Z) with true in E. cbn [orb] in E.
    apply random_greedy_loop_perm in E; [exact E|reflexivity|exact Hne].
Qed.


(** *** Deep greedy and k-regret insertion *)

Section ForallEdits.
Context {A : Type} (P : A -> Prop).

Lemma Forall_vset (v : list A) (i : nat) (x : A) :
  Forall P v -> P x -> Forall P (vset v i x).
Proof.
  intros H Hx. revert i. induction H as [|h t Hh Ht IH]; intros [|i]; simpl;
    auto.
Qed.

Lemma Forall_nth_default (l : list A) (i : nat) (d : A) :
  Forall P l -> P d -> P (nth i l d).
Proof.
  intros H Hd. revert i. induction H as [|h t Hh Ht IH]; intros [|i]; simpl;
    auto.
Qed.

Lemma Forall_remove_at (l : list A) (p : nat) :
  Forall P l -> Forall P (remove_at l p).
Proof.
  intros H. revert p. induction H as [|h t Hh Ht IH]; intros [|p]; simpl;
    auto.
Qed.

Lemma Forall_take (l : list A) (n : nat) : Forall P l -> Forall P (firstn n l).
Proof.
  intros H. revert n. induction H as [|h t Hh Ht IH]; intros [|n]; simpl; auto.
Qed.

Lemma Forall_drop (l : list A) (n : nat) : Forall P l -> Forall P (skipn n l).
Proof.
  intros H. revert n. induction H as [|h t Hh Ht IH]; intros [|n]; simpl; auto.
Qed.

Lemma Forall_repeat (x : A) (n : nat) : P x -> Forall P (repeat x n).
Proof. intros H. induction n; simpl; auto. Qed.

Lemma Forall_sort (ltb : A -> A -> bool) (l : list A) :
  Forall P l -> Forall P (tools.sort ltb l).
Proof.
  intros H. induction H as [|h t Hh Ht IH]; simpl; auto.
  unfold tools.sort in *. simpl.
  induction IH as [|y t' Hy Ht' IH']; simpl; auto.
  destruct (ltb y h); auto.
Qed.

Lemma fold_left_inv {B : Type} (I : B -> Prop) (f : B -> A -> B) (l : list A) :
  (forall b a, I b -> I (f b a)) -> forall b, I b -> I (fold_left f l b).
Proof. intros H. induction l as [|a l IH]; simpl; auto. Qed.
End ForallEdits.

Lemma length_remove_at (l : list nat) (p : nat) :
  (p < length l)%nat -> length (remove_at l p) = (length l - 1)%nat.
Proof.
  revert p. induction l as [|h t IH]; intros [|p] Hp; simpl in *; try lia.
  rewrite IH by lia. lia.
Qed.

Lemma all_name_mset (n : nat) (m : list (list insertion)) (i j : nat)
  (x : insertion) :
  all_name n m -> names_below n x -> all_name n (mset m i j x).
Proof.
  intros H Hx. unfold mset. apply Forall_vset; [exact H|].
  apply Forall_vset; [|exact Hx].
  apply Forall_nth_default; [exact H|constructor].
Qed.

Lemma iget_names (n : nat) (m : list (list insertion)) (i j : nat) :
  (0 < n)%nat -> all_name n m -> names_below n (iget m i j).
Proof.
  intros Hn H. unfold iget. apply Forall_nth_default.
  - apply Forall_nth_default; [exact H|constructor].
  - unfold names_below. cbn. exact Hn.
Qed.

Lemma deep_next_names (n nr_veh nr_removed : nat)
  (m : list (list insertion)) (best_pos : nat) :
  (0 < n)%nat -> all_name n m ->
  names_below n (fst (deep_next nr_veh nr_removed m best_pos)).
Proof.
  intros Hn H. unfold deep_next.
  apply (fold_left_inv (fun acc : insertion * nat => names_below n (fst acc))).
  - intros b a Hb.
    apply (fold_left_inv (fun acc : insertion * nat => names_below n (fst acc)));
      [|exact Hb].
    intros b' a' Hb'. destruct (Qltb _ _); [|exact Hb'].
    cbn [fst]. apply iget_names; assumption.
  - unfold names_below. cbn. exact Hn.
Qed.

Lemma partial_sort_copy_names (n : nat) (src dst : list insertion) :
  Forall (names_below n) src -> Forall (names_below n) dst ->
  Forall (names_below n) (partial_sort_copy src dst).
Proof.
  intros Hs Hd. unfold partial_sort_copy. apply Forall_app. split.
  - apply Forall_take. apply Forall_sort. exact Hs.
  - apply Forall_drop. exact Hd.
Qed.

Lemma regret_update_names (n k : nat) (src : list insertion) (pos : nat)
  (st : list insertion * insertion * nat) :
  (0 < n)%nat -> Forall (names_below n) src -> regret_names n st ->
  regret_names n (regret_update k src pos st).
Proof.
  intros Hn Hs [H1 H2]. destruct st as [[kb b] bp]. cbn [fst snd] in *.
  unfold regret_update.
  pose proof (partial_sort_copy_names Hs H1) as Hk.
  destruct (Qltb _ _); split; cbn [fst snd]; auto.
  unfold names_below, ins_route. cbn [fst snd].
  apply (@Forall_nth_default _ (names_below n) _ 0%nat insertion0 Hk).
  unfold names_below. cbn. exact Hn.
Qed.

Section DeepRegret.
Variable dat : ALNSData.
Variables cw fw : Q.

Lemma gbi_names (c rid : nat) (s s' : Solution) (i : insertion) :
  (rid < length (solution_representation s))%nat ->
  get_best_insertion dat cw fw c (Z.of_nat rid) s = Ok i s' ->
  names_below (length (solution_representation s)) i
  /\ solution_representation s' = solution_representation s.
Proof.
  intros Hr E. apply get_best_insertion_names in E.
  - exact E.
  - intro H0. rewrite H0 in Hr. simpl in Hr. lia.
  - right. rewrite Nat2Z.id. exact Hr.
Qed.

Lemma deep_init_inv (removed : list nat) (s s' : Solution)
  (r : list (list insertion) * insertion * nat) :
  length (solution_representation s) = nr_vehicles dat ->
  (0 < nr_vehicles dat)%nat ->
  deep_init dat cw fw removed s = Ok r s' ->
  all_name (nr_vehicles dat) (fst (fst r))
  /\ names_below (nr_vehicles dat) (snd (fst r))
  /\ solution_representation s' = solution_representation s.
Proof.
  intros HL Hn E. unfold deep_init in E. revert E.
  set (I := fun (acc : list (list insertion) * insertion * nat) s1 =>
              all_name (nr_vehicles dat) (fst (fst acc))
              /\ names_below (nr_vehicles dat) (snd (fst acc))
              /\ solution_representation s1 = solution_representation s).
  apply (@foldM_inv _ _ _ I).
  - intros b cpos s1 b' s2 _ Ib Eb. revert Eb.
    apply (@foldM_inv _ _ _ I); [|exact Ib].
    intros [[bi b0] bp] rid s3 b3 s4 Hin (I1 & I2 & I3) Er.
    apply in_seq in Hin. cbn [fst snd] in *.
    step Er i s5 E5. apply gbi_names in E5; [|rewrite I3, HL; lia].
    destruct E5 as [N5 R5]. rewrite I3, HL in N5.
    unfold I.
    destruct (Qltb _ _); unfold ret in Er; inversion Er; subst; cbn [fst snd];
      (split; [apply all_name_mset; assumption|]); split; auto; congruence.
  - unfold I. cbn [fst snd]. split; [|split; [|reflexivity]].
    + apply Forall_repeat. apply Forall_repeat. unfold names_below. cbn.
      exact Hn.
    + unfold names_below. cbn. exact Hn.
Qed.

Lemma refresh_column_inv (removed : list nat) (changed : nat)
  (bi bi' : list (list insertion)) (s s' : Solution) :
  (changed < length (solution_representation s))%nat ->
  all_name (length (solution_representation s)) bi ->
  refresh_column dat cw fw removed changed bi s = Ok bi' s' ->
  all_name (length (solution_representation s)) bi'
  /\ solution_representation s' = solution_representation s.
Proof.
  intros Hc Hb E. unfold refresh_column in E. revert E.
  apply (@foldM_inv _ _ _
           (fun b s1 => all_name (length (solution_representation s)) b
                        /\ solution_representation s1
                           = solution_representation s)); [|auto].
  intros b cpos s1 b' s2 _ [I1 I2] Eb.
  step Eb i s3 E3. apply gbi_names in E3; [|rewrite I2; exact Hc].
  destruct E3 as [N3 R3]. rewrite I2 in N3.
  unfold ret in Eb. inversion Eb; subst.
  split; [apply all_name_mset; assumption|congruence].
Qed.

Lemma deep_loop_perm (fuel : nat) :
  forall (removed : list nat) (bi : list (list insertion)) (b : insertion)
         (bp : nat) (s s' : Solution) (u : unit),
    fuel = length removed ->
    (0 < length (solution_representation s))%nat ->
    all_name (length (solution_representation s)) bi ->
    names_below (length (solution_representation s)) b ->
    deep_loop dat cw fw fuel removed bi b bp s = Ok u s' ->
    Permutation (customers s') (removed ++ customers s)
    /\ length (solution_representation s')
       = length (solution_representation s).
Proof.
  induction fuel as [|fuel IH]; intros removed bi b bp s s' u Hf Hn Hbi Hb E.
  - destruct removed; [|discriminate]. cbn in E. unfold ret in E.
    inversion E; subst. auto.
  - cbn [deep_loop] in E.
    destruct (length removed <=? bp)%nat eqn:Hbp; [discriminate|].
    apply Nat.leb_gt in Hbp.
    step E u1 s1 E1. apply commit_insertion_perm in E1; [|exact Hb].
    destruct E1 as [P1 L1].
    step E bi1 s2 E2. apply refresh_column_inv in E2.
    + destruct E2 as [N2 R2].
      destruct (deep_next (nr_vehicles dat) (length (remove_at removed bp)) bi1 bp)
        as [b' bp'] eqn:Hd.
      apply IH in E.
      * destruct E as [P L]. rewrite R2 in L. split; [|congruence].
        etransitivity; [exact P|].
        etransitivity; [apply Permutation_app_head; unfold customers;
                        rewrite R2; exact P1|].
        symmetry.
        etransitivity;
          [apply Permutation_app_tail; apply (@remove_at_perm removed bp);
           exact Hbp|].
        cbn [app]. apply Permutation_middle.
      * rewrite length_remove_at by exact Hbp. lia.
      * rewrite R2, L1. exact Hn.
      * rewrite R2. exact N2.
      * rewrite R2.
        pose proof (@deep_next_names (length (solution_representation s1))
                      (nr_vehicles dat) (length (remove_at removed bp))
                      bi1 bp) as H.
        rewrite Hd in H. apply H; [rewrite L1; exact Hn|exact N2].
    + rewrite L1. exact Hb.
    + rewrite L1. apply Forall_remove_at. exact Hbi.
Qed.

Lemma DeepGreedy_perm (removed : list nat) (s s' : Solution) (u : unit) :
  length (solution_representation s) = nr_vehicles dat ->
  (0 < nr_vehicles dat)%nat ->
  DeepGreedyInsertionOperator dat cw fw removed s = Ok u s' ->
  Permutation (customers s') (removed ++ customers s)
  /\ length (solution_representation s')
     = length (solution_representation s).
Proof.
  intros HL Hn E. unfold DeepGreedyInsertionOperator in E.
  step E r s1 E1. apply deep_init_inv in E1; [|exact HL|exact Hn].
  destruct r as [[bi b] bp]. cbn [fst snd] in E1. destruct E1 as (I1 & I2 & I3).
  apply deep_loop_perm in E.
  - destruct E as [P L]. unfold customers in *. rewrite I3 in *. auto.
  - reflexivity.
  - rewrite I3, HL. exact Hn.
  - rewrite I3, HL. exact I1.
  - rewrite I3, HL. exact I2.
Qed.

Lemma regret_init_inv (k : nat) (removed : list nat) (s s' : Solution)
  (r : list (list insertion) * (list insertion * insertion * nat)) :
  length (solution_representation s) = nr_vehicles dat ->
  (0 < nr_vehicles dat)%nat ->
  regret_init dat cw fw k removed s = Ok r s' ->
  regret_inv (nr_vehicles dat) (solution_representation s) r s'.
Proof.
  intros HL Hn E. unfold regret_init in E. revert E.
  assert (H0 : names_below (nr_vehicles dat) insertion0)
    by (unfold names_below; cbn; exact Hn).
  apply (@foldM_inv _ _ _
           (regret_inv (nr_vehicles dat) (solution_representation s))).
  - intros [bi st] cpos s1 b' s2 _ (I1 & I2 & I3) Eb. cbn [fst snd] in *.
    step Eb bi1 s3 E3.
    assert (H3 : all_name (nr_vehicles dat) bi1
                 /\ solution_representation s3 = solution_representation s).
    { revert E3.
      apply (@foldM_inv _ _ _
               (fun b s1 => all_name (nr_vehicles dat) b
                            /\ solution_representation s1
                               = solution_representation s)); [|auto].
      intros b rid s4 b4 s5 Hin [J1 J2] Er. apply in_seq in Hin.
      step Er i s6 E6. apply gbi_names in E6; [|rewrite J2, HL; lia].
      destruct E6 as [N6 R6]. rewrite J2, HL in N6.
      unfold ret in Er. inversion Er; subst.
      split; [apply all_name_mset; assumption|congruence]. }
    destruct H3 as [N3 R3].
    unfold ret in Eb. inversion Eb; subst. unfold regret_inv. cbn [fst snd].
    split; [exact N3|]. split; [|exact R3].
    apply regret_update_names; [exact Hn| |exact I2].
    apply Forall_nth_default; [exact N3|constructor].
  - unfold regret_inv, regret_names. cbn [fst snd].
    split; [|split; [split|reflexivity]].
    + apply Forall_repeat. apply Forall_repeat. exact H0.
    + apply Forall_repeat. exact H0.
    + exact H0.
Qed.

Lemma regret_refresh_inv (k : nat) (removed : list nat) (changed : nat)
  (bi : list (list insertion)) (kb : list insertion) (bp : nat)
  (s s' : Solution)
  (r : list (list insertion) * (list insertion * insertion * nat)) :
  (changed < length (solution_representation s))%nat ->
  all_name (length (solution_representation s)) bi ->
  Forall (names_below (length (solution_representation s))) kb ->
  regret_refresh dat cw fw k removed changed bi kb bp s = Ok r s' ->
  regret_inv (length (solution_representation s)) (solution_representation s)
             r s'.
Proof.
  intros Hc Hbi Hkb E. unfold regret_refresh in E. revert E.
  assert (Hn : (0 < length (solution_representation s))%nat) by lia.
  apply (@foldM_inv _ _ _
           (regret_inv (length (solution_representation s))
                       (solution_representation s))).
  - intros [bi0 st] cpos s1 b' s2 _ (I1 & I2 & I3) Eb. cbn [fst snd] in *.
    step Eb i s3 E3. apply gbi_names in E3; [|rewrite I3; exact Hc].
    destruct E3 as [N3 R3]. rewrite I3 in N3.
    unfold ret in Eb. inversion Eb; subst. unfold regret_inv. cbn [fst snd].
    assert (Hm : all_name (length (solution_representation s))
                   (mset bi0 cpos changed i))
      by (apply all_name_mset; assumption).
    split; [exact Hm|]. split; [|congruence].
    apply regret_update_names; [exact Hn| |exact I2].
    apply Forall_nth_default; [exact Hm|constructor].
  - unfold regret_inv, regret_names. cbn [fst snd].
    split; [exact Hbi|]. split; [split; [exact Hkb|]|reflexivity].
    unfold names_below. cbn. exact Hn.
Qed.

Lemma regret_loop_perm (k fuel : nat) :
  forall (removed : list nat) (bi : list (list insertion))
         (kb : list insertion) (b : insertion) (bp : nat)
         (s s' : Solution) (u : unit),
    fuel = length removed ->
    all_name (length (solution_representation s)) bi ->
    Forall (names_below (length (solution_representation s))) kb ->
    names_below (length (solution_representation s)) b ->
    regret_loop dat cw fw k fuel removed bi kb b bp s = Ok u s' ->
    Permutation (customers s') (removed ++ customers s)
    /\ length (solution_representation s')
       = length (solution_representation s).
Proof.
  induction fuel as [|fuel IH]; intros removed bi kb b bp s s' u Hf Hbi Hkb Hb E.
  - destruct removed; [|discriminate]. cbn in E. unfold ret in E.
    inversion E; subst. auto.
  - cbn [regret_loop] in E.
    destruct (length removed <=? bp)%nat eqn:Hbp; [discriminate|].
    apply Nat.leb_gt in Hbp.
    step E u1 s1 E1. apply commit_insertion_perm in E1; [|exact Hb].
    destruct E1 as [P1 L1].
    step E r s2 E2. apply regret_refresh_inv in E2.
    + destruct r as [bi1 [[kb1 b1] bp1]].
      destruct E2 as (N1 & [N2 N3] & R2). cbn [fst snd] in *.
      apply IH in E.
      * destruct E as [P L]. rewrite R2 in L. split; [|congruence].
        etransitivity; [exact P|].
        etransitivity; [apply Permutation_app_head; unfold customers;
                        rewrite R2; exact P1|].
        symmetry.
        etransitivity;
          [apply Permutation_app_tail; apply (@remove_at_perm removed bp);
           exact Hbp|].
        cbn [app]. apply Permutation_middle.
      * rewrite length_remove_at by exact Hbp. lia.
      * rewrite R2. exact N1.
      * rewrite R2. exact N2.
      * rewrite R2. exact N3.
    + rewrite L1. exact Hb.
    + rewrite L1. apply Forall_remove_at. exact Hbi.
    + rewrite L1. exact Hkb.
Qed.

Lemma KRegret_perm (k : nat) (removed : list nat) (s s' : Solution) (u : unit) :
  length (solution_representation s) = nr_vehicles dat ->
  (0 < nr_vehicles dat)%nat ->
  KRegretInsertionOperator k dat cw fw removed s = Ok u s' ->
  Permutation (customers s') (removed ++ customers s)
  /\ length (solution_representation s')
     = length (solution_representation s).
Proof.
  intros HL Hn E. unfold KRegretInsertionOperator in E.
  step E r s1 E1. apply regret_init_inv in E1; [|exact HL|exact Hn].
  destruct r as [bi [[kb b] bp]]. destruct E1 as (I1 & [I2 I3] & I4).
  cbn [fst snd] in *.
  apply regret_loop_perm in E.
  - destruct E as [P L]. unfold customers in *. rewrite I4 in *. auto.
  - reflexivity.
  - rewrite I4, HL. exact I1.
  - rewrite I4, HL. exact I2.
  - rewrite I4, HL. exact I3.
Qed.
End DeepRegret.


(** ** The operators by name *)

Lemma destroy_functor_perm (worst_fuel : nat) (name : String.string)
  (D : Driver.destroy_functor) :
  Driver.get_destroy_functor worst_fuel name = Some D ->
  forall (env : OpEnv) (st st' : OpState) (removed : list nat),
    D env st = Ok removed st' ->
    Permutation (customers (sol st)) (removed ++ customers (sol st'))
    /\ length (solution_representation (sol st'))
       = length (solution_representation (sol st)).
Proof.
  intros H. unfold Driver.get_destroy_functor in H.
  repeat match type of H with
         | context [if ?c then _ else _] => destruct c
         end;
    inversion H; subst D; intros env st st' removed E.
  - eapply RandomDestroy_perm; eassumption.
  - eapply RandomRouteDestroy_perm; eassumption.
  - eapply BiggestDemand_perm; eassumption.
  - eapply WorstTravelTime_perm; eassumption.
  - eapply WorstRemoval_perm; eassumption.
  - eapply NodePair_perm; eassumption.
  - eapply ShawDestroy_perm; eassumption.
  - eapply ShawDestroy_perm; eassumption.
  - eapply ShawDestroy_perm; eassumption.
  - eapply ShawDestroy_perm; eassumption.
Qed.

Lemma lift_repair_ok (f : ALNSData -> Q -> Q -> list nat -> M Solution unit)
  (env : OpEnv) (removed : list nat) (st st' : OpState) (u : unit) :
  Driver.lift_repair f env removed st = Ok u st' ->
  f (data env) (capa_error_weight env) (frame_error_weight env) removed (sol st)
  = Ok u (sol st').
Proof. intros E. unfold Driver.lift_repair in E. apply on_sol_ok in E. apply E. Qed.

Lemma repair_functor_perm (name : String.string) (Rp : Driver.repair_functor) :
  Driver.get_insertion_functor name = Some Rp ->
  forall (env : OpEnv) (st st' : OpState) (removed : list nat) (u : unit),
    length (solution_representation (sol st)) = nr_vehicles (data env) ->
    (0 < nr_vehicles (data env))%nat ->
    Rp env removed st = Ok u st' ->
    Permutation (customers (sol st')) (removed ++ customers (sol st))
    /\ length (solution_representation (sol st'))
       = length (solution_representation (sol st)).
Proof.
  intros H. unfold Driver.get_insertion_functor in H.
  assert (Hne : forall (env : OpEnv) (st : OpState),
             length (solution_representation (sol st)) = nr_vehicles (data env) ->
             (0 < nr_vehicles (data env))%nat ->
             solution_representation (sol st) <> []).
  { intros env st HL Hn E. rewrite E in HL. simpl in HL. lia. }
  repeat match type of H with
         | context [if ?c then _ else _] => destruct c
         end;
    inversion H; subst Rp; intros env st st' removed u HL Hn E.
  - apply lift_repair_ok in E. eapply BasicGreedy_perm; eauto.
  - eapply RandomGreedy_perm; eauto.
  - apply lift_repair_ok in E. eapply DeepGreedy_perm; eauto.
  - apply lift_repair_ok in E. eapply KRegret_perm; eauto.
  - apply lift_repair_ok in E. eapply KRegret_perm; eauto.
  - apply lift_repair_ok in E. eapply KRegret_perm; eauto.
  - eapply BetaHybrid_perm; eauto. lia.
Qed.

(** when a destroy operator and a repair operator, both chosen by name,
    both return, the customer ids of the routes are again a permutation of
    [0 .. nr_customer - 1]: the destroy operator takes out exactly the ids
    it returns, the repair operator puts every one of them back once.
    Nothing is said of a repair operator that raises, and for the deep
    greedy and the regret operators nothing of a run in which the source
    reads beyond the list of removed customers. *)
Lemma destroy_repair_permutation (worst_fuel : nat)
  (dname rname : String.string)
  (D : Driver.destroy_functor) (Rp : Driver.repair_functor)
  (env : OpEnv) (st st1 st2 : OpState) (removed : list nat) :
  Driver.get_destroy_functor worst_fuel dname = Some D ->
  Driver.get_insertion_functor rname = Some Rp ->
  length (solution_representation (sol st)) = nr_vehicles (data env) ->
  (0 < nr_vehicles (data env))%nat ->
  Permutation (customers (sol st)) (seq 0 (nr_customer (data env))) ->
  D env st = Ok removed st1 ->
  Rp env removed st1 = Ok tt st2 ->
  Permutation (customers (sol st)) (removed ++ customers (sol st1))
  /\ Permutation (customers (sol st2)) (removed ++ customers (sol st1))
  /\ Permutation (customers (sol st2)) (seq 0 (nr_customer (data env))).
Proof.
  intros HD HR HL Hn HP ED ER.
  destruct (@destroy_functor_perm worst_fuel dname D HD env st st1 removed ED)
    as [P1 L1].
  destruct (@repair_functor_perm rname Rp HR env st1 st2 removed tt)
    as [P2 L2]; try assumption.
  { rewrite L1. exact HL. }
  split; [exact P1|]. split; [exact P2|].
  rewrite P2, <- P1. exact HP.
Qed.

(** C3: a destroy operator followed by a repair operator that loses a
    customer.  On the instance with seven customers (demands 10, 4, 10, 2,
    2, 2, 1), capacity 10 and [add_pseudo_capacity = 10], the routes
    [0 1] and [2 3 4 5 6] hold every customer once.  [random_destroy] with
    [mean_removal = 3] returns [0 1 2 6] and leaves the routes [] and
    [3 4 5].  [basic_greedy] puts customer 0 into the empty route and
    customer 1 into the other one; both routes then carry 10, so customer 2
    with demand 10 is refused at every position (excess 10), the search
    returns its initial value (cost [DBL_MAX], route 0, position 0), the
    operator inserts there without a check and the re-evaluation raises.
    The exception leaves the operator, customer 6 is in no route, and the
    routes are no permutation of [0 .. 6]. *)
Theorem destroy_repair_loses_customer :
  let env := Vrptw.env_of Vrptw.seven 3 in
  let st := Vrptw.seven_start in
  Driver.get_destroy_functor 0 Examples.destroy_name
  = Some RandomDestroyOperator
  /\ Driver.get_insertion_functor Examples.repair_name
     = Some (Driver.lift_repair BasicGreedyInsertionOperator)
  /\ Permutation (customers (sol st)) (seq 0 7)
  /\ exists st1,
       RandomDestroyOperator env st = Ok [0; 1; 2; 6]%nat st1
       /\ solution_representation (sol st1) = [[]; [3; 4; 5]]%nat
       /\ (exists s2 s3,
             BasicGreedyInsertionOperator (data env) 1 1 [0; 1]%nat (sol st1)
             = Ok tt s2
             /\ solution_representation s2 = [[0]; [1; 3; 4; 5]]%nat
             /\ get_best_insertion (data env) 1 1 2 (-1) s2
                = Ok (DBL_MAX, 0%Z, 0%Z) s3)
       /\ exists st2,
            Driver.lift_repair BasicGreedyInsertionOperator env
              [0; 1; 2; 6]%nat st1
            = Throw InfeasibilityException st2
            /\ solution_representation (sol st2)
               = [[2; 0]; [1; 3; 4; 5]]%nat
            /\ ~ In 6%nat (customers (sol st2))
            /\ ~ Permutation (customers (sol st2)) (seq 0 7).
Proof.
  cbn zeta. split; [reflexivity|]. split; [reflexivity|].
  split; [vm_compute; apply Permutation_refl|].
  eexists. split; [vm_compute; reflexivity|].
  split; [vm_compute; reflexivity|]. split.
  { eexists. eexists. split; [vm_compute; reflexivity|].
    split; vm_compute; reflexivity. }
  eexists. split; [vm_compute; reflexivity|].
  split; [vm_compute; reflexivity|].
  assert (Hout : ~ In 6%nat [2; 0; 1; 3; 4; 5]%nat)
    by (simpl; intuition discriminate).
  split; [vm_compute; intuition discriminate|].
  intro P. vm_compute in P.
  apply Hout. eapply Permutation_in; [symmetry; exact P|].
  simpl. tauto.
Qed.

(** C2: on the instance with capacity 10, with customers 2 and 4 taken
    out of the routes [0 1 2] and [3 4], the search for the best place of
    customer 4 finds no feasible position and returns its initial value
    (cost [DBL_MAX], route 0, position 0); the basic greedy operator inserts
    there without a check and the [InfeasibilityException] of the
    re-evaluation leaves the operator. *)
Theorem BasicGreedy_exception_escapes :
  let dat := Examples.five 10 in
  (exists s1,
     get_best_insertion dat 1 1 2 (-1) Examples.two_out
     = Ok (1, 1%Z, 0%Z) s1
     /\ exists s2,
          commit_insertion dat 1 1 2 (1, 1%Z, 0%Z) s1 = Ok tt s2
          /\ solution_representation s2 = [[0; 1]; [2; 3]]%nat
          /\ exists s3,
               get_best_insertion dat 1 1 4 (-1) s2
               = Ok (DBL_MAX, 0%Z, 0%Z) s3)
  /\ exists s',
       BasicGreedyInsertionOperator dat 1 1 [2; 4]%nat Examples.two_out
       = Throw InfeasibilityException s'
       /\ solution_representation s' = [[4; 0; 1]; [2; 3]]%nat.
Proof.
  cbn zeta. split.
  - eexists. split; [vm_compute; reflexivity|].
    eexists. split; [vm_compute; reflexivity|].
    split; [vm_compute; reflexivity|].
    eexists. vm_compute. reflexivity.
  - eexists. split; vm_compute; reflexivity.
Qed.

(** C4: the loop of step 2 runs while [nr_removed_customers] is below the
    size of the (empty) list of removed customers, so it never runs: the
    operator returns no customer and leaves the routes as they are,
    whatever [k] was drawn.  On the instance [k = 2]. *)
Theorem WorstRemoval_removes_nothing :
  (let env := Examples.env_of (Examples.five 10) in
   clip_removals env = 2%Z
   /\ exists st',
        WorstRemovalDestroyOperator 5 env (Examples.start 10) = Ok [] st'
        /\ solution_representation (sol st') = [[0; 1; 2]; [3; 4]]%nat)
  /\ forall (fuel : nat) (env : OpEnv) (st : OpState),
       match WorstRemovalDestroyOperator fuel env st with
       | Ok removed st' =>
           removed = []
           /\ solution_representation (sol st')
              = solution_representation (sol st)
       | Throw _ _ => True
       end.
Proof.
  split.
  - cbn zeta. split; [reflexivity|].
    eexists. split; vm_compute; reflexivity.
  - intros fuel env st.
    destruct (WorstRemovalDestroyOperator fuel env st) as [removed st'|e st']
      eqn:E; [|exact I].
    eapply WorstRemoval_returns_nothing; eassumption.
Qed.

(** C5: the test of the source compares the route of the candidate with
    itself, so the vehicle weight is added for every candidate; for
    customers 0 and 3 of the instance, which lie in different routes, the
    score is 14 where the formula of the specification gives 9. *)
Theorem shaw_vehicle_term_always_added :
  (forall (dat : ALNSData) (w : ShawWeights) (s : Solution) (q cand : nat),
     shaw_relatedness dat w s q cand
     = (sw_distance_weight w
          * mget (norm_distance_matrix dat) (S q) (S cand)
        + sw_window_weight w * mget (norm_start_window_matrix dat) q cand
        + sw_window_weight w * mget (norm_end_window_matrix dat) q cand
        + sw_demand_weight w * mget (norm_demand_matrix dat) q cand
        + sw_vehicle_weight w)%Q)
  /\ (let dat := Examples.five 10 in
      let s := sol (Examples.start 10) in
      let w := {| sw_distance_weight := 9; sw_window_weight := 3;
                  sw_demand_weight := 2; sw_vehicle_weight := 5 |} in
      nget (route_chromosome s) 0 = 0%nat
      /\ nget (route_chromosome s) 3 = 1%nat
      /\ shaw_relatedness dat w s 0 3 == 14
      /\ shaw_relatedness_claimed dat w s 0 3 == 9).
Proof.
  split.
  - intros dat w s q cand. unfold shaw_relatedness.
    rewrite Nat.eqb_refl. reflexivity.
  - cbn zeta. repeat split; vm_compute; reflexivity.
Qed.

(** C6: [usage / new_iter] divides two [int]s.  With every arc of the
    route [1 0] used once and [iteration = 1] each quotient is 0, and the
    source returns [3 / 3 = 1] where the formula gives [(3 * 1/2) / 3]. *)
Theorem get_diversity_integer_division :
  let dat := Examples.two_customers in
  let s := Examples.second_routes in
  get_diversity dat s Examples.usage_after_two 1 == 1
  /\ diversity_claimed dat s Examples.usage_after_two 1 == 1 # 2
  /\ ~ get_diversity dat s Examples.usage_after_two 1
       == diversity_claimed dat s Examples.usage_after_two 1.
Proof.
  cbn zeta. split; [vm_compute; reflexivity|].
  split; [vm_compute; reflexivity|].
  vm_compute. discriminate.
Qed.



End OperatorFacts.

Section ProbeFacts.
Import Num Sol Op.


(** X10: a customer put into a route that does not hold it is found at the
    position it was put at *)
Theorem insert_then_get_customer_pos (route : list nat) (c pos : nat) :
  ~ In c route -> (pos <= length route)%nat ->
  route_evaluate.get_customer_pos (insert_at route pos c) c = Some pos
  /\ remove_at (insert_at route pos c) pos = route.
Proof.
  intros Hn Hp. split; [|apply remove_insert_at; exact Hp].
  unfold route_evaluate.get_customer_pos. apply find_pos_first.
  rewrite Nat.sub_0_r. cbn [Nat.add].
  assert (G : (pos < length (insert_at route pos c))%nat
              /\ nget (insert_at route pos c) pos = c
              /\ forall q, (q < pos)%nat -> nget (insert_at route pos c) q <> c);
    [|destruct G as (G1 & G2 & G3); split; [lia|split; assumption]].
  revert route Hn Hp. induction pos as [|pos IH]; intros route Hn Hp.
  - cbn. split; [lia|]. split; [reflexivity|]. intros q Hq. lia.
  - destruct route as [|h t]; [simpl in Hp; lia|].
    cbn [insert_at]. destruct (IH t) as (I1 & I2 & I3).
    + intros K. apply Hn. right. exact K.
    + simpl in Hp. lia.
    + cbn [length]. split; [lia|]. split; [exact I2|].
      intros [|q] Hq; cbn.
      * intros ->. apply Hn. left. reflexivity.
      * apply I3. lia.
Qed.

(** X10 at a concrete input *)
Lemma insert_then_get_customer_pos_witness :
  (route_evaluate.get_customer_pos (insert_at [4; 7; 1] 2 5) 5 = Some 2
   /\ remove_at (insert_at [4; 7; 1] 2 5) 2 = [4; 7; 1])%nat.
Proof.
  apply (@insert_then_get_customer_pos [4; 7; 1]%nat 5%nat 2%nat).
  - simpl. intuition discriminate.
  - simpl. lia.
Defined.


(** ** The aggregate capacity error after an infeasible probe *)

Lemma length_insert_at (l : list nat) (p c : nat) :
  length (insert_at l p c) = S (length l).
Proof.
  revert l. induction p as [|p IH]; intros [|h t]; simpl; auto.
Qed.

Lemma nth_insert_at_after (l : list nat) (p c k : nat) :
  (p <= k)%nat -> (p <= length l)%nat ->
  nth (S k) (insert_at l p c) O = nth k l O.
Proof.
  revert l k. induction p as [|p IH]; intros l k Hk Hp.
  - destruct l; reflexivity.
  - destruct l as [|h t]; [simpl in Hp; lia|].
    destruct k as [|k]; [lia|]. cbn [insert_at]. cbn [nth].
    apply IH; simpl in Hp; lia.
Qed.

Lemma skipn_insert_at_after (l : list nat) (p c k : nat) :
  (p <= k)%nat -> (p <= length l)%nat ->
  skipn (S k) (insert_at l p c) = skipn k l.
Proof.
  revert l k. induction p as [|p IH]; intros l k Hk Hp.
  - destruct l; reflexivity.
  - destruct l as [|h t]; [simpl in Hp; lia|].
    destruct k as [|k]; [lia|]. cbn [insert_at]. cbn [skipn].
    apply IH; simpl in Hp; lia.
Qed.

Lemma in_insert_at (l : list nat) (p c x : nat) :
  In x (insert_at l p c) <-> x = c \/ In x l.
Proof.
  split; intros H.
  - apply (Permutation_in x (insert_at_perm l p c)) in H.
    destruct H as [H|H]; auto.
  - apply (Permutation_in x (Permutation_sym (insert_at_perm l p c))).
    destruct H as [H|H]; [left; auto|right; exact H].
Qed.

Section Drift.
Variable dat : ALNSData.
Variables cw fw : Q.
Variables (r c p : nat) (s : Solution).

Local Abbreviation route := (rget (solution_representation s) r).
Local Abbreviation probe_route := (insert_at route p c).

Hypothesis Hr : (r < length (solution_representation s))%nat.
Hypothesis Hrce : (r < length (route_capa_errors s))%nat.
Hypothesis Hp : (p <= length route)%nat.
Hypothesis Hnd : NoDup (c :: route).
Hypothesis Hsize : (Z.of_nat (length route) + 1 < 2 ^ 31)%Z.
Hypothesis Hids : forall x, In x (c :: route) ->
  (x < length (loads s) /\ x < length (load_levels s))%nat.
Hypothesis Hloads :
  loads_consistent dat route (loads s) (load_levels s) 0.
Hypothesis Hcached :
  qget (route_capa_errors s) r == capa_error_of dat route.
Hypothesis Hover :
  inject_Z (add_pseudo_capacity dat) <= capa_error_of dat probe_route.
Hypothesis Hunder :
  capa_error_of dat route < inject_Z (add_pseudo_capacity dat).

Lemma probe_loads_ready :
  loads_consistent dat probe_route (loads s) (load_levels s)
                   (Z.to_nat (Z.of_nat p + 1)).
Proof.
  intros k Hk. unfold probe_route in *. rewrite length_insert_at in Hk.
  destruct k as [|k]; [lia|].
  unfold nget. rewrite nth_insert_at_after by lia.
  rewrite skipn_insert_at_after by lia.
  apply Hloads. fold route. lia.
Qed.

Lemma probe_nodup : NoDup probe_route.
Proof.
  apply (Permutation_NoDup (Permutation_sym (insert_at_perm route p c))).
  exact Hnd.
Qed.

Lemma restored_loads_ready (lds : list Q) (lvls : list Z) :
  loads_consistent dat probe_route lds lvls 0 ->
  loads_consistent dat route lds lvls (Z.to_nat (Z.of_nat p - 1 + 1)).
Proof.
  intros H k Hk.
  replace (Z.to_nat (Z.of_nat p - 1 + 1)) with p in Hk by lia.
  specialize (H (S k)). unfold probe_route in H.
  rewrite length_insert_at in H.
  unfold nget in *. rewrite nth_insert_at_after in H by lia.
  rewrite skipn_insert_at_after in H by lia.
  apply H. lia.
Qed.

Lemma probe_drifts :
  exists s',
    evaluate_insertion_position dat cw fw r c p s
    = Throw InfeasibilityException s'
    /\ solution_representation s' = solution_representation s
    /\ qget (route_capa_errors s') r == capa_error_of dat route
    /\ capa_error s'
       == capa_error s + (capa_error_of dat probe_route - capa_error_of dat route)
    /\ capa_error s < capa_error s'
    /\ (0 <= capa_error s -> is_feasible s' = false).
Proof.
  unfold evaluate_insertion_position. unfold_monad.
  set (sp := assign_chromosome c r (insert_customer r p c s)).
  assert (Rp : rget (solution_representation sp) r = probe_route).
  { unfold sp, assign_chromosome, insert_customer.
    cbn [solution_representation upd_solution_representation
         upd_route_chromosome].
    apply rget_vset_eq. exact Hr. }
  (* the probe *)
  pose proof (evaluate_change_cases dat r (Z.of_nat p) cw fw sp) as C1.
  cbn zeta in C1. rewrite Rp in C1.
  change (loads sp) with (loads s) in C1.
  change (load_levels sp) with (load_levels s) in C1.
  destruct (@update_load_levels_spec dat probe_route (Z.of_nat p)
              (loads s) (load_levels s)) as (L1 & O1 & N1 & N2).
  { exact probe_nodup. }
  { unfold probe_route. rewrite length_insert_at. lia. }
  { unfold probe_route. rewrite length_insert_at. lia. }
  { intros x Hx. apply Hids. unfold probe_route in Hx.
    apply in_insert_at in Hx. destruct Hx as [->|Hx]; [left; auto|right; auto]. }
  { exact probe_loads_ready. }
  cbn zeta in L1, O1, N1, N2.
  set (lu1 := route_evaluate.update_load_levels (loads s) (load_levels s)
                probe_route (Z.of_nat p) (demand dat) (load_bucket_size dat))
    in *.
  pose proof (get_capa_error_spec L1) as E1.
  set (e1 := route_evaluate.get_capa_error probe_route (vehicle_cap dat)
               (fst lu1)) in *.
  assert (T1 : Qle_bool (inject_Z (add_pseudo_capacity dat)) e1 = true).
  { apply Qle_bool_iff. rewrite E1. exact Hover. }
  rewrite T1 in C1.
  destruct C1 as (s1 & X1 & A1 & A2 & A3 & A4 & A5 & A6 & A7 & A8 & A9 & A10
                  & A11 & A12 & A13 & A14 & A15 & A16).
  rewrite X1.
  (* the handler *)
  set (s3 := remove_customer r p s1).
  assert (R3 : solution_representation s3 = solution_representation s).
  { unfold s3, remove_customer.
    cbn [solution_representation upd_solution_representation]. rewrite A4.
    apply (probe_undo_routes r c s Hp). }
  assert (Rr : rget (solution_representation s3) r = route)
    by (rewrite R3; reflexivity).
  pose proof (evaluate_change_cases dat r (Z.of_nat p - 1) cw fw s3) as C3.
  cbn zeta in C3. rewrite Rr in C3.
  change (loads s3) with (loads s1) in C3.
  change (load_levels s3) with (load_levels s1) in C3.
  change (capa_error s3) with (capa_error s1) in C3.
  change (route_capa_errors s3) with (route_capa_errors s1) in C3.
  rewrite A1, A2 in C3.
  destruct (@update_load_levels_spec dat route (Z.of_nat p - 1)
              (fst lu1) (snd lu1)) as (L3 & _).
  { inversion Hnd; assumption. }
  { lia. }
  { lia. }
  { intros x Hx. rewrite N1, N2. apply Hids. right. exact Hx. }
  { apply restored_loads_ready. exact L1. }
  cbn zeta in L3.
  set (lu3 := route_evaluate.update_load_levels (fst lu1) (snd lu1) route
                (Z.of_nat p - 1) (demand dat) (load_bucket_size dat)) in *.
  pose proof (get_capa_error_spec L3) as E3.
  set (e3 := route_evaluate.get_capa_error route (vehicle_cap dat) (fst lu3))
    in *.
  assert (T3 : Qle_bool (inject_Z (add_pseudo_capacity dat)) e3 = false).
  { destruct (Qle_bool (inject_Z (add_pseudo_capacity dat)) e3) eqn:T;
      [|reflexivity].
    apply Qle_bool_iff in T. rewrite E3 in T.
    exfalso. exact (Qlt_not_le _ _ Hunder T). }
  rewrite T3 in C3.
  destruct C3 as (s4 & X3 & B1 & B2 & B3 & B4 & B5 & B6 & B7 & B8 & B9 & B10
                  & B11 & B12 & B13 & B14 & B15 & B16).
  fold s3. rewrite X3.
  exists s4. split; [reflexivity|].
  assert (Ecap : capa_error s4
                 == capa_error s
                    + (capa_error_of dat probe_route - capa_error_of dat route)).
  { rewrite B3, A3, A14.
    change (capa_error sp) with (capa_error s).
    change (route_capa_errors sp) with (route_capa_errors s).
    rewrite Hcached, E1, E3. ring. }
  split; [congruence|]. split.
  { rewrite B14, A14.
    change (route_capa_errors sp) with (route_capa_errors s).
    rewrite qget_vset_eq by exact Hrce. exact E3. }
  split; [exact Ecap|].
  assert (Hlt : capa_error s < capa_error s4).
  { rewrite Ecap.
    assert (D : 0 < capa_error_of dat probe_route - capa_error_of dat route).
    { clear - Hover Hunder. revert Hover Hunder.
      generalize (inject_Z (add_pseudo_capacity dat))
                 (capa_error_of dat probe_route) (capa_error_of dat route).
      intros a b d H1 H2. lra. }
    revert D. generalize (capa_error_of dat probe_route - capa_error_of dat route).
    intros d D. lra. }
  split; [exact Hlt|].
  intros H0. rewrite B10.
  assert (Q0 : Qltb 0 (capa_error s4) = true).
  { apply Qltb_lt. eapply Qle_lt_trans; eassumption. }
  rewrite Q0. reflexivity.
Qed.
End Drift.

(** X16: a probe that is refused leaves the routes as they were but not the
    aggregate capacity error: it grows by the excess of the refused route,
    and a solution that was feasible is marked infeasible *)
Theorem infeasible_probe_drifts (dat : ALNSData) (cw fw : Q) (r c p : nat)
  (s : Solution) :
  let route := rget (solution_representation s) r in
  let probe_route := insert_at route p c in
  (r < length (solution_representation s))%nat ->
  (r < length (route_capa_errors s))%nat ->
  (p <= length route)%nat ->
  NoDup (c :: route) ->
  (Z.of_nat (length route) + 1 < 2 ^ 31)%Z ->
  (forall x, In x (c :: route) ->
     (x < length (loads s) /\ x < length (load_levels s))%nat) ->
  loads_consistent dat route (loads s) (load_levels s) 0 ->
  qget (route_capa_errors s) r == capa_error_of dat route ->
  inject_Z (add_pseudo_capacity dat) <= capa_error_of dat probe_route ->
  capa_error_of dat route < inject_Z (add_pseudo_capacity dat) ->
  exists s',
    evaluate_insertion_position dat cw fw r c p s
    = Throw InfeasibilityException s'
    /\ solution_representation s' = solution_representation s
    /\ qget (route_capa_errors s') r == capa_error_of dat route
    /\ capa_error s'
       == capa_error s + (capa_error_of dat probe_route - capa_error_of dat route)
    /\ capa_error s < capa_error s'
    /\ (0 <= capa_error s -> is_feasible s' = false).
Proof. cbn zeta. intros. apply probe_drifts; assumption. Qed.

(** X16 at a concrete input *)
Lemma infeasible_probe_drifts_witness :
  let dat := Examples.five 10 in
  let s := Solution_new dat [[0; 1; 2]; [3]]%nat 1 1 in
  exists s',
    evaluate_insertion_position dat 1 1 0 4 0 s
    = Throw InfeasibilityException s'
    /\ solution_representation s' = solution_representation s
    /\ qget (route_capa_errors s') 0 == capa_error_of dat [0; 1; 2]%nat
    /\ capa_error s'
       == capa_error s
          + (capa_error_of dat [4; 0; 1; 2]%nat - capa_error_of dat [0; 1; 2]%nat)
    /\ capa_error s < capa_error s'
    /\ (0 <= capa_error s -> is_feasible s' = false).
Proof.
  apply (@infeasible_probe_drifts (Examples.five 10) 1 1 0 4 0
           (Solution_new (Examples.five 10) [[0; 1; 2]; [3]]%nat 1 1)).
  - vm_compute. lia.
  - vm_compute. lia.
  - vm_compute. lia.
  - vm_compute. repeat constructor; simpl; intuition discriminate.
  - vm_compute. reflexivity.
  - intros x Hx. vm_compute in Hx. vm_compute.
    repeat (destruct Hx as [Hx|Hx]; [subst x; split; lia|]). destruct Hx.
  - intros k Hk. vm_compute in Hk.
    destruct k as [|[|[|k]]]; [| | |lia]; vm_compute; split; reflexivity.
  - vm_compute. reflexivity.
  - vm_compute. discriminate.
  - vm_compute. reflexivity.
Defined.

(** C1: the call that the handler of [evaluate_insertion_position] makes
    after a refused probe returns with an aggregate capacity error that no
    route has.  On the instance with capacity 15 and the routes [0 1 2] and
    [3] (loads 15 and 6, capacity error 0, feasible) customer 4 with demand
    6 is probed at the head of route 0.  [evaluate_change] raises, since the
    excess 6 reaches [add_pseudo_capacity = 6]; it has added the excess to
    [capa_error] by then, but [route_capa_errors[0]] is stored only at the
    end of the function and stays 0.  The handler takes the customer out
    and calls [evaluate_change(0, -1, ..)]; the object is ready for the
    call and the call returns: the routes are those of before the probe and
    no route is above the capacity, yet [capa_error] is 6 and
    [is_feasible] is false. *)
Theorem evaluate_change_keeps_refused_excess :
  let dat := Vrptw.fifteen in
  let s0 := Vrptw.before_probe in
  (capa_error s0 = 0 /\ is_feasible s0 = true
   /\ map (capa_error_of dat) (solution_representation s0) = [0; 0])
  /\ (exists s1,
        evaluate_change dat 0 0 1 1 Vrptw.probe_in
        = Throw InfeasibilityException s1
        /\ solution_representation s1 = [[4; 0; 1; 2]; [3]]%nat
        /\ capa_error s1 = 6 /\ route_capa_errors s1 = [0; 0])
  /\ change_ready dat 0 (-1) Vrptw.handler_object
  /\ exists s2,
       evaluate_change dat 0 (-1) 1 1 Vrptw.handler_object = Ok tt s2
       /\ evaluate_insertion_position dat 1 1 0 4 0 s0
          = Throw InfeasibilityException s2
       /\ solution_representation s2 = solution_representation s0
       /\ map (capa_error_of dat) (solution_representation s2) = [0; 0]
       /\ route_capa_errors s2 = [0; 0]
       /\ capa_error s2 = 6
       /\ is_feasible s2 = false.
Proof.
  cbn zeta. split; [repeat split; vm_compute; reflexivity|].
  split; [eexists; repeat split; vm_compute; reflexivity|].
  split.
  { constructor.
    - vm_compute. repeat constructor; simpl; intuition discriminate.
    - vm_compute. reflexivity.
    - vm_compute. split; [discriminate|reflexivity].
    - intros c Hc. vm_compute in Hc. vm_compute.
      repeat (destruct Hc as [Hc|Hc]; [subst c; repeat split; lia|]).
      destruct Hc.
    - vm_compute. repeat split; lia.
    - intros k Hk. vm_compute in Hk.
      destruct k as [|[|[|k]]]; [| | |lia]; vm_compute; split; reflexivity. }
  eexists. split; [vm_compute; reflexivity|].
  repeat split; vm_compute; reflexivity.
Qed.


(** ** Probes *)

Lemma evaluate_change_chromosome (dat : ALNSData) (r : nat) (p : Z) (cw fw : Q)
  (s : Solution) :
  route_chromosome (state_of (evaluate_change dat r p cw fw s))
  = route_chromosome s.
Proof.
  pose proof (evaluate_change_cases dat r p cw fw s) as H. cbn zeta in H.
  match type of H with
  | if ?c then _ else _ => destruct c
  end; destruct H as (s1 & Hs1 & _ & _ & _ & _ & F5 & _); rewrite Hs1;
    exact F5.
Qed.

(** X15: [evaluate_insertion_position] gives the quality of the solution with
    the customer in place and puts the routes back in every outcome; the
    only exception it lets out is [InfeasibilityException]; the
    chromosome of the customer stays at the probed route *)
Theorem probe_restores_routes (dat : ALNSData) (cw fw : Q) (r c p : nat)
  (s : Solution) :
  (p <= length (rget (solution_representation s) r))%nat ->
  let probe := assign_chromosome c r (insert_customer r p c s) in
  let out := evaluate_insertion_position dat cw fw r c p s in
  solution_representation (state_of out) = solution_representation s
  /\ route_chromosome (state_of out) = vset (route_chromosome s) c r
  /\ (forall q s', out = Ok q s' ->
        exists s2, evaluate_change dat r (Z.of_nat p) cw fw probe = Ok tt s2
                   /\ q = solution_quality s2)
  /\ (forall e s', out = Throw e s' -> e = InfeasibilityException).
Proof.
  intros Hp. cbn zeta.
  destruct (@eip_spec dat cw fw r c p s Hp) as (R & Q & T). cbn zeta in Q.
  split; [exact R|]. split; [|split; assumption].
  unfold evaluate_insertion_position. unfold_monad.
  set (s1 := assign_chromosome c r (insert_customer r p c s)).
  pose proof (evaluate_change_chromosome dat r (Z.of_nat p) cw fw s1) as C1.
  destruct (evaluate_change_routes dat r (Z.of_nat p) cw fw s1) as [_ T1].
  destruct (evaluate_change dat r (Z.of_nat p) cw fw s1) as [[] s2|e s2] eqn:E1;
    cbn [state_of] in C1.
  - pose proof (evaluate_change_chromosome dat r (Z.of_nat p - 1) cw fw
                  (remove_customer r p s2)) as C2.
    destruct (evaluate_change dat r (Z.of_nat p - 1) cw fw
                (remove_customer r p s2)) as [[] s3|e3 s3];
      cbn [state_of] in *; rewrite C2; exact C1.
  - rewrite (T1 e s2 eq_refl).
    pose proof (evaluate_change_chromosome dat r (Z.of_nat p - 1) cw fw
                  (remove_customer r p s2)) as C2.
    destruct (evaluate_change dat r (Z.of_nat p - 1) cw fw
                (remove_customer r p s2)) as [[] s3|e3 s3];
      cbn [state_of] in *; rewrite C2; exact C1.
Qed.

(** X15 at a concrete input *)
Lemma probe_restores_routes_witness :
  let dat := Examples.five 10 in
  let s := sol (Examples.start 10) in
  let probe := assign_chromosome 4 0 (insert_customer 0 3 4 s) in
  let out := evaluate_insertion_position dat 1 1 0 4 3 s in
  solution_representation (state_of out) = solution_representation s
  /\ route_chromosome (state_of out) = vset (route_chromosome s) 4 0%nat
  /\ (forall q s', out = Ok q s' ->
        exists s2, evaluate_change dat 0 (Z.of_nat 3) 1 1 probe = Ok tt s2
                   /\ q = solution_quality s2)
  /\ (forall e s', out = Throw e s' -> e = InfeasibilityException).
Proof.
  apply (@probe_restores_routes (Examples.five 10) 1 1 0 4 3
           (sol (Examples.start 10))).
  vm_compute. lia.
Defined.

(** X17: [get_best_insertion] never raises and leaves the routes as they are;
    on a solution with routes its answer names one of them *)
Theorem get_best_insertion_never_throws (dat : ALNSData) (cw fw : Q) (c : nat)
  (route_id : Z) (s : Solution) :
  exists i s',
    get_best_insertion dat cw fw c route_id s = Ok i s'
    /\ solution_representation s' = solution_representation s
    /\ (solution_representation s <> [] ->
        (route_id < 0)%Z
        \/ (Z.to_nat route_id < length (solution_representation s))%nat ->
        names_route (solution_representation s) i).
Proof.
  destruct (get_best_insertion_total dat cw fw c route_id s) as (i & s' & E & R).
  exists i, s'. split; [exact E|]. split; [exact R|].
  intros Hne Hrid.
  destruct (@get_best_insertion_names dat cw fw c route_id s s' i Hne Hrid E)
    as [N _].
  exact N.
Qed.

(** X18: [evaluate_removal_position] that returns has put the customer back *)
Theorem removal_probe_restores_routes (dat : ALNSData) (cw fw : Q) (r pos : nat)
  (s s' : Solution) (q : Q) :
  (pos < length (rget (solution_representation s) r))%nat ->
  evaluate_removal_position dat cw fw r pos s = Ok q s' ->
  solution_representation s' = solution_representation s
  /\ exists s1,
       evaluate_change dat r (Z.of_nat pos - 1) cw fw (remove_customer r pos s)
       = Ok tt s1
       /\ q = solution_quality s1.
Proof.
  intros Hpos E. split; [eapply erp_routes; eassumption|].
  unfold evaluate_removal_position in E. unfold_monad.
  destruct (evaluate_change dat r (Z.of_nat pos - 1) cw fw
              (remove_customer r pos s)) as [[] s1|e s1]; [|discriminate].
  exists s1. split; [reflexivity|].
  match type of E with
  | context [evaluate_change dat r (Z.of_nat pos) cw fw ?x] =>
      destruct (evaluate_change dat r (Z.of_nat pos) cw fw x) as [u s2|e s2];
        [|discriminate]
  end.
  inversion E; reflexivity.
Qed.

(** X18 at a concrete input *)
Lemma removal_probe_restores_routes_witness :
  let dat := Examples.five 10 in
  let s := sol (Examples.start 10) in
  let out := evaluate_removal_position dat 1 1 0 1 s in
  solution_representation (state_of out) = solution_representation s
  /\ exists s1,
       evaluate_change dat 0 (Z.of_nat 1 - 1) 1 1 (remove_customer 0 1 s)
       = Ok tt s1
       /\ Examples.value_of 0 out = solution_quality s1.
Proof.
  cbn zeta.
  apply (@removal_probe_restores_routes (Examples.five 10) 1 1 0 1
           (sol (Examples.start 10))).
  - vm_compute. lia.
  - vm_compute. reflexivity.
Defined.

(** X19: the probe of a block of customers puts the routes back in every
    outcome and lets out no exception but [InfeasibilityException] *)
Theorem chain_probe_restores_routes (dat : ALNSData) (cw fw : Q) (r : nat)
  (cs : list nat) (p : nat) (s : Solution) :
  (p <= length (rget (solution_representation s) r))%nat ->
  let out := evaluate_insertion_chain dat cw fw r cs p s in
  solution_representation (state_of out) = solution_representation s
  /\ (forall e s', out = Throw e s' -> e = InfeasibilityException).
Proof. intros Hp. cbn zeta. apply eic_routes. exact Hp. Qed.

(** X19 at a concrete input *)
Lemma chain_probe_restores_routes_witness :
  let dat := Examples.five 100 in
  let s := Examples.two_out in
  let out := evaluate_insertion_chain dat 1 1 1 [2; 4]%nat 1 s in
  solution_representation (state_of out) = solution_representation s
  /\ (forall e s', out = Throw e s' -> e = InfeasibilityException).
Proof.
  apply (@chain_probe_restores_routes (Examples.five 100) 1 1 1 [2; 4]%nat 1
           Examples.two_out).
  vm_compute. lia.
Defined.

(** ** Route removal *)

(** X20: [RandomRouteDestroyOperator] always returns: it empties one route and
    returns the customers of that route in their order *)
Theorem RandomRouteDestroy_empties_one_route (env : OpEnv) (st : OpState) :
  (1 <= nr_vehicles (data env))%nat ->
  exists r st',
    (r < nr_vehicles (data env))%nat
    /\ RandomRouteDestroyOperator env st
       = Ok (rget (solution_representation (sol st)) r) st'
    /\ solution_representation (sol st')
       = vset (solution_representation (sol st)) r [].
Proof.
  intros Hn. unfold RandomRouteDestroyOperator. unfold bind, get, ret.
  unfold rand_number.
  pose proof (@rand_number_range (Z.of_nat (nr_vehicles (data env)) - 1)
                (rng_tools st)) as H.
  destruct (tools.rand_number (Z.of_nat (nr_vehicles (data env)) - 1) 0
              (rng_tools st)) as [v k]. cbn [fst] in H.
  assert (Hv : (v <= Z.of_nat (nr_vehicles (data env)) - 1)%Z)
    by (apply H; lia).
  exists (Z.to_nat v). eexists. split; [lia|]. cbn.
  split; [reflexivity|]. cbn [sol].
  rewrite evaluate_solution_routes. reflexivity.
Qed.

(** X20 at a concrete input *)
Lemma RandomRouteDestroy_empties_one_route_witness :
  exists r st',
    (r < 2)%nat
    /\ RandomRouteDestroyOperator (Examples.env_of (Examples.five 10))
         (Examples.start 10)
       = Ok (rget [[0; 1; 2]; [3; 4]]%nat r) st'
    /\ solution_representation (sol st') = vset [[0; 1; 2]; [3; 4]]%nat r [].
Proof.
  apply (@RandomRouteDestroy_empties_one_route
           (Examples.env_of (Examples.five 10)) (Examples.start 10)).
  simpl. lia.
Defined.


(** ** Rank based removal *)

Lemma in_skipn_nth (l : list nat) (m x : nat) :
  In x (skipn m l) <-> exists j, (m <= j < length l)%nat /\ nth j l O = x.
Proof.
  revert m. induction l as [|h t IH]; intros m.
  - rewrite skipn_nil. split; [intros []|intros (j & Hj & _); simpl in Hj; lia].
  - destruct m as [|m].
    + cbn [skipn]. split.
      * intros H. destruct (In_nth _ _ O H) as (j & Hj & E).
        exists j. split; [lia|exact E].
      * intros (j & Hj & E). rewrite <- E. apply nth_In. lia.
    + cbn [skipn]. rewrite IH. split.
      * intros (j & Hj & E). exists (S j). simpl. split; [lia|exact E].
      * intros (j & Hj & E). destruct j as [|j]; [lia|].
        exists j. simpl in *. split; [lia|exact E].
Qed.

Lemma take_back_largest (skewed : list Q) (k : Z) :
  let removed := take_back k (tools.sort_indices skewed) in
  length removed = Nat.min (Z.to_nat k) (length skewed)
  /\ NoDup removed
  /\ (forall c, In c removed -> (c < length skewed)%nat)
  /\ (forall c d, In c removed -> (d < length skewed)%nat -> ~ In d removed ->
        qget skewed d <= qget skewed c).
Proof.
  cbn zeta. destruct (sort_indices_facts skewed) as [P S].
  set (l := tools.sort_indices skewed) in *.
  assert (L : length l = length skewed)
    by (rewrite (Permutation_length P); apply length_seq).
  assert (ND : NoDup l)
    by (apply (Permutation_NoDup (Permutation_sym P)); apply seq_NoDup).
  unfold take_back. rewrite L.
  set (m := (length skewed - Z.to_nat k)%nat).
  split; [rewrite length_skipn; lia|]. split.
  - rewrite <- (firstn_skipn m l) in ND. apply NoDup_app_remove_l in ND.
    exact ND.
  - split.
    + intros c Hc. apply in_skipn_nth in Hc. destruct Hc as (j & Hj & E).
      assert (Hin : In c l) by (rewrite <- E; apply nth_In; lia).
      apply (Permutation_in c P) in Hin. apply in_seq in Hin. lia.
    + intros c d Hc Hd Hnd.
      apply in_skipn_nth in Hc. destruct Hc as (jc & Hjc & Ec).
      assert (Hin : In d l).
      { apply (Permutation_in d (Permutation_sym P)). apply in_seq. lia. }
      destruct (In_nth _ _ O Hin) as (jd & Hjd & Ed).
      assert (Hlt : (jd < m)%nat).
      { destruct (Nat.lt_ge_cases jd m) as [H|H]; [exact H|].
        exfalso. apply Hnd. apply in_skipn_nth. exists jd. split; [lia|exact Ed]. }
      destruct (S jd jc) as [H|[H _]]; [lia| |]; cbn zeta in *;
        rewrite Ec, Ed in *.
      * apply Qlt_le_weak. exact H.
      * rewrite H. apply Qle_refl.
Qed.

(** X21: the rank based destroy operators take the customers with the largest
    skewed ranks: as many as were drawn, all different, and no customer
    left in the routes has a larger skewed rank than one that was taken *)
Theorem remove_by_rank_takes_largest (env : OpEnv) (skewed : list Q)
  (st st' : OpState) (removed : list nat) :
  remove_by_rank env skewed st = Ok removed st' ->
  length removed = Nat.min (Z.to_nat (clip_removals env)) (length skewed)
  /\ NoDup removed
  /\ (forall c, In c removed -> (c < length skewed)%nat)
  /\ (forall c d, In c removed -> (d < length skewed)%nat -> ~ In d removed ->
        qget skewed d <= qget skewed c)
  /\ Permutation (customers (sol st)) (removed ++ customers (sol st')).
Proof.
  intros E. pose proof E as E'. apply remove_by_rank_perm in E'.
  destruct E' as [P _].
  unfold remove_by_rank in E.
  step E u st1 E1. step E u2 st2 E2. unfold ret in E. inversion E; subst.
  destruct (take_back_largest skewed (clip_removals env)) as (A & B & C & D).
  cbn zeta in *. repeat split; assumption.
Qed.

(** X21 at a concrete input *)
Lemma remove_by_rank_takes_largest_witness :
  let env := Examples.env_of (Examples.five 10) in
  let skewed := [6; 5; 4; 6; 6] in
  let out := remove_by_rank env skewed (Examples.start 10) in
  let removed := Examples.value_of [] out in
  removed = [3; 4]%nat
  /\ length removed = Nat.min (Z.to_nat (clip_removals env)) (length skewed)
  /\ NoDup removed
  /\ (forall c, In c removed -> (c < length skewed)%nat)
  /\ (forall c d, In c removed -> (d < length skewed)%nat -> ~ In d removed ->
        qget skewed d <= qget skewed c)
  /\ Permutation (customers (sol (Examples.start 10)))
                 (removed ++ customers (sol (state_of out))).
Proof.
  cbn zeta. split; [vm_compute; reflexivity|].
  apply (@remove_by_rank_takes_largest (Examples.env_of (Examples.five 10))
           [6; 5; 4; 6; 6] (Examples.start 10)).
  vm_compute. reflexivity.
Defined.

(** ** Shaw removal *)

Lemma foldM_count {S A B : Type} (m : B -> nat) (body : B -> A -> M S B)
  (l : list A) :
  (forall b a s b' s', body b a s = Ok b' s' -> m b' = Datatypes.S (m b)) ->
  forall b s b' s', foldM body l b s = Ok b' s' -> m b' = (m b + length l)%nat.
Proof.
  intros Hbody. induction l as [|a l IH]; intros b s b' s' E; cbn [foldM] in E.
  - unfold ret in E. inversion E; subst. simpl. lia.
  - step E b1 s1 E1. apply Hbody in E1. apply IH in E. simpl. lia.
Qed.

(** X22: [ShawDestroyOperator] returns the drawn number of customers, but at
    least one: the first customer is taken before the loop that counts *)
Theorem ShawDestroy_count (w : ShawWeights) (env : OpEnv) (st st' : OpState)
  (removed : list nat) :
  ShawDestroyOperator w env st = Ok removed st' ->
  length removed = Z.to_nat (Z.max 1 (clip_removals env)).
Proof.
  intros E. unfold ShawDestroyOperator in E.
  step E r st1 E1. step E acc st2 E2.
  apply (@foldM_count _ _ _
           (fun acc : list nat * list nat * nat => length (fst (fst acc))))
    in E2.
  - step E u st3 E3. step E u4 st4 E4. unfold ret in E. inversion E; subst.
    rewrite E2. cbn [fst length]. rewrite length_seq.
    assert (0 <= clip_removals env)%Z by (unfold clip_removals; lia). lia.
  - intros [[rm cand] pos] i s [[rm' cand'] pos'] s' Eb. cbv beta iota in Eb.
    step Eb r0 s1 Er. step Eb p' s2 Ep. unfold ret in Eb. inversion Eb; subst.
    cbn [fst]. rewrite length_app. simpl. lia.
Qed.

(** X22 at a concrete input *)
Lemma ShawDestroy_count_witness :
  let env := Examples.env_of (Examples.five 100) in
  let w := {| sw_distance_weight := 9; sw_window_weight := 3;
              sw_demand_weight := 2; sw_vehicle_weight := 5 |} in
  let out := ShawDestroyOperator w env (Examples.start 100) in
  length (Examples.value_of [] out) = Z.to_nat (Z.max 1 (clip_removals env)).
Proof.
  cbn zeta.
  apply (@ShawDestroy_count
           {| sw_distance_weight := 9; sw_window_weight := 3;
              sw_demand_weight := 2; sw_vehicle_weight := 5 |}
           (Examples.env_of (Examples.five 100))
           (Examples.start 100)
           (state_of (ShawDestroyOperator
                        {| sw_distance_weight := 9; sw_window_weight := 3;
                           sw_demand_weight := 2; sw_vehicle_weight := 5 |}
                        (Examples.env_of (Examples.five 100))
                        (Examples.start 100)))).
  vm_compute. reflexivity.
Defined.

End ProbeFacts.

Section SearchFacts.
Import Num Sol Op Driver.

(** ** The initial solution *)

Lemma try_routes_some (rids : list nat) (node_id : nat) (demands : list Q)
  (max_capacity : Z) (sv sv' : list (list nat)) (vl vl' : list Q) :
  try_routes rids node_id demands max_capacity sv vl = Some (sv', vl') ->
  exists r, In r rids
            /\ qget vl r + qget demands node_id < inject_Z max_capacity
            /\ sv' = vset sv r (rget sv r ++ [node_id])
            /\ vl' = vset vl r (qget vl r + qget demands node_id).
Proof.
  induction rids as [|r rids IH]; intros E; cbn [try_routes] in E;
    [discriminate|].
  cbv zeta in E.
  destruct (Qltb (qget vl r + qget demands node_id) (inject_Z max_capacity))
    eqn:T.
  - inversion E; subst. exists r. apply Qltb_lt in T.
    split; [left; reflexivity|]. auto.
  - destruct (IH E) as (r' & Hin & H). exists r'. split; [right; exact Hin|exact H].
Qed.

Lemma route_demand_snoc (demands : list Q) (route : list nat) (c : nat) :
  route_demand demands (route ++ [c])
  == route_demand demands route + qget demands c.
Proof. unfold route_demand. rewrite map_app. cbn [map]. apply Qsum_snoc. Qed.

Lemma init_inv_step (nr_veh : nat) (demands : list Q) (max_capacity : Z)
  (sv : list (list nat)) (vl : list Q) (r node_id : nat) :
  init_inv nr_veh demands max_capacity sv vl ->
  (r < nr_veh)%nat ->
  qget vl r + qget demands node_id < inject_Z max_capacity ->
  init_inv nr_veh demands max_capacity
    (vset sv r (rget sv r ++ [node_id]))
    (vset vl r (qget vl r + qget demands node_id)).
Proof.
  intros (L1 & L2 & H) Hr Hlt. unfold init_inv.
  rewrite !length_vset. split; [exact L1|]. split; [exact L2|].
  intros r' Hr'. destruct (Nat.eq_dec r r') as [<-|N].
  - rewrite rget_vset_eq by lia. rewrite qget_vset_eq by lia.
    split.
    + rewrite route_demand_snoc. destruct (H r Hr) as [E _]. rewrite E.
      reflexivity.
    + intros _. exact Hlt.
  - rewrite rget_vset_neq by exact N. rewrite qget_vset_neq by exact N.
    apply H. exact Hr'.
Qed.

Lemma init_loop_spec (nr_veh : nat) (demands : list Q) (max_capacity : Z)
  (all : list nat) :
  (1 <= nr_veh)%nat ->
  forall (fuel : nat) (node_ids : list nat) (sv : list (list nat))
         (vl : list Q) (k k' : tools.kiss) (routes : list (list nat)),
    length node_ids = fuel ->
    init_inv nr_veh demands max_capacity sv vl ->
    Permutation (concat sv ++ node_ids) all ->
    init_loop fuel nr_veh demands max_capacity node_ids sv vl k = Ok routes k' ->
    Permutation (concat routes) all
    /\ exists vl', init_inv nr_veh demands max_capacity routes vl'.
Proof.
  intros Hveh. induction fuel as [|fuel IH];
    intros node_ids sv vl k k' routes Hlen Hinv Hperm E; cbn [init_loop] in E.
  - unfold ret in E. inversion E; subst.
    destruct node_ids; [|discriminate]. rewrite app_nil_r in Hperm.
    split; [exact Hperm|]. exists vl. exact Hinv.
  - pose proof (@rand_number_range (Z.of_nat (length node_ids) - 1) k) as R1.
    destruct (tools.rand_number (Z.of_nat (length node_ids) - 1) 0 k)
      as [p k1]. cbn [fst] in R1.
    pose proof (@rand_number_range (Z.of_nat nr_veh - 1) k1) as R2.
    destruct (tools.rand_number (Z.of_nat nr_veh - 1) 0 k1) as [q k2].
    cbn [fst] in R2.
    specialize (R1 ltac:(lia)). specialize (R2 ltac:(lia)).
    set (node_pos := Z.to_nat p) in *.
    set (node_id := nget node_ids node_pos) in *.
    set (start := Z.to_nat q) in *.
    assert (Hpos : (node_pos < length node_ids)%nat) by (unfold node_pos; lia).
    assert (Hstart : (start < nr_veh)%nat) by (unfold start; lia).
    assert (Hfound : forall sv1 vl1,
               (try_routes (seq start (nr_veh - start)) node_id demands
                  max_capacity sv vl = Some (sv1, vl1)
                \/ try_routes (seq 0 start) node_id demands max_capacity sv vl
                   = Some (sv1, vl1)) ->
               init_inv nr_veh demands max_capacity sv1 vl1
               /\ Permutation (concat sv1 ++ remove_at node_ids node_pos) all).
    { intros sv1 vl1 Hor.
      assert (Hex : exists r, (r < nr_veh)%nat
                 /\ qget vl r + qget demands node_id < inject_Z max_capacity
                 /\ sv1 = vset sv r (rget sv r ++ [node_id])
                 /\ vl1 = vset vl r (qget vl r + qget demands node_id)).
      { destruct Hor as [T|T]; apply try_routes_some in T;
          destruct T as (r & Hin & H); exists r; (split; [|exact H]);
          apply in_seq in Hin; lia. }
      destruct Hex as (r & Hr & Hlt & -> & ->).
      split; [apply init_inv_step; assumption|].
      destruct Hinv as (L1 & _).
      etransitivity; [|exact Hperm].
      etransitivity.
      { apply Permutation_app_tail.
        apply (@concat_vset_perm sv r (rget sv r ++ [node_id]) node_id);
          [lia|].
        rewrite Permutation_app_comm. reflexivity. }
      cbn [app]. etransitivity; [apply Permutation_middle|].
      apply Permutation_app_head. symmetry.
      apply remove_at_perm. exact Hpos. }
    destruct (try_routes (seq start (nr_veh - start)) node_id demands
                max_capacity sv vl) as [[sv1 vl1]|] eqn:T1.
    + destruct (Hfound sv1 vl1 (or_introl eq_refl)) as [Hi Hp].
      eapply IH; [|exact Hi|exact Hp|exact E].
      rewrite length_remove_at by exact Hpos. lia.
    + destruct (try_routes (seq 0 start) node_id demands max_capacity sv vl)
        as [[sv1 vl1]|] eqn:T2; [|discriminate].
      destruct (Hfound sv1 vl1 (or_intror eq_refl)) as [Hi Hp].
      eapply IH; [|exact Hi|exact Hp|exact E].
      rewrite length_remove_at by exact Hpos. lia.
Qed.

Lemma init_inv_start (nr_veh : nat) (demands : list Q) (max_capacity : Z) :
  init_inv nr_veh demands max_capacity (repeat [] nr_veh) (repeat 0 nr_veh).
Proof.
  unfold init_inv. rewrite !repeat_length. split; [reflexivity|].
  split; [reflexivity|]. intros r Hr.
  assert (E1 : rget (repeat [] nr_veh) r = []).
  { unfold rget. apply nth_repeat_same. }
  assert (E2 : qget (repeat 0 nr_veh) r = 0).
  { unfold qget. apply nth_repeat_same. }
  rewrite E1, E2. split; [reflexivity|]. intros N. contradiction.
Qed.

Lemma concat_repeat_nil (n : nat) : concat (repeat ([] : list nat) n) = [].
Proof. induction n as [|n IH]; simpl; auto. Qed.

Lemma route_init_random_facts (nr_veh nr_customers : nat) (demands : list Q)
  (max_capacity : Z) (k k' : tools.kiss) (routes : list (list nat)) :
  (1 <= nr_veh)%nat ->
  route_init_random nr_veh nr_customers demands max_capacity k = Ok routes k' ->
  length routes = nr_veh
  /\ Permutation (concat routes) (seq 0 nr_customers)
  /\ forall r, rget routes r <> [] ->
       route_demand demands (rget routes r) < inject_Z max_capacity.
Proof.
  intros Hveh E. unfold route_init_random, tools.range in E.
  destruct (@init_loop_spec nr_veh demands max_capacity (seq 0 nr_customers)
              Hveh nr_customers (seq 0 nr_customers) (repeat [] nr_veh)
              (repeat 0 nr_veh) k k' routes) as (P & vl & L1 & L2 & H).
  - apply length_seq.
  - apply init_inv_start.
  - rewrite concat_repeat_nil. reflexivity.
  - exact E.
  - split; [exact L1|]. split; [exact P|].
    intros r Hne.
    assert (Hr : (r < nr_veh)%nat).
    { destruct (Nat.lt_ge_cases r nr_veh) as [Hlt|Hge]; [exact Hlt|].
      exfalso. apply Hne. unfold rget. apply nth_overflow. lia. }
    destruct (H r Hr) as [Eq Hlt]. rewrite <- Eq. apply Hlt. exact Hne.
Qed.

(** X25: [route_init_random], when it returns, has put every customer on exactly
    one of the [nr_vehicles] routes, and the demand of every route that is
    used stays below [max_capacity] *)
Theorem route_init_random_spec (nr_veh nr_customers : nat) (demands : list Q)
  (max_capacity : Z) (k k' : tools.kiss) (routes : list (list nat)) :
  (1 <= nr_veh)%nat ->
  route_init_random nr_veh nr_customers demands max_capacity k = Ok routes k' ->
  length routes = nr_veh
  /\ Permutation (concat routes) (seq 0 nr_customers)
  /\ forall r, rget routes r <> [] ->
       route_demand demands (rget routes r) < inject_Z max_capacity.
Proof. apply route_init_random_facts. Qed.

(** X25 at a concrete input *)
Lemma route_init_random_spec_witness :
  let out := route_init_random 2 5 [1; 1; 1; 1; 1] 4 tools.kiss_init in
  let routes := Examples.value_of [] out in
  length routes = 2%nat
  /\ Permutation (concat routes) (seq 0 5)
  /\ forall r, rget routes r <> [] ->
       route_demand [1; 1; 1; 1; 1] (rget routes r) < inject_Z 4.
Proof.
  cbn zeta.
  apply (@route_init_random_spec 2 5 [1; 1; 1; 1; 1] 4 tools.kiss_init
           (state_of (route_init_random 2 5 [1; 1; 1; 1; 1] 4 tools.kiss_init))).
  - lia.
  - vm_compute. reflexivity.
Defined.

End SearchFacts.

Section LoopFacts.
Import Num Sol Op Driver.

(** ** The main loop *)

Lemma select_functor_below (rnd : Q) (ws : list Q) :
  forall (n fid : nat) (cw : Q) (id : nat),
    Wheel.select_functor rnd ws n fid cw = Some id -> (fid <= id < fid + n)%nat.
Proof.
  induction n as [|n IH]; intros fid cw id E; [discriminate|].
  cbn [Wheel.select_functor] in E. cbv zeta in E.
  destruct (Qle_bool rnd (cw + qget ws fid)).
  - inversion E; subst. lia.
  - apply IH in E. lia.
Qed.

Lemma get_random_functor_id_below (w w' : Wheel.RouletteWheel)
  (k k' : tools.kiss) (id : nat) :
  Wheel.get_random_functor_id (w, k) = Ok id (w', k') ->
  (id < Wheel.nr_functors w)%nat
  /\ Wheel.nr_functors w' = Wheel.nr_functors w.
Proof.
  unfold Wheel.get_random_functor_id.
  destruct (tools.UNI k) as [u k1].
  destruct (Wheel.select_functor _ _ _ _ _) as [fid|] eqn:S; [|discriminate].
  intros E. inversion E; subst. apply select_functor_below in S.
  split; [lia|reflexivity].
Qed.

Lemma wheel_fold_nr (l : list nat) (w : Wheel.RouletteWheel) :
  Wheel.nr_functors
    (fold_left (fun w functor_id => Wheel.update_weight functor_id w) l w)
  = Wheel.nr_functors w.
Proof.
  revert w. induction l as [|i l IH]; intros w; cbn [fold_left].
  - reflexivity.
  - rewrite IH. reflexivity.
Qed.

Lemma collect_facts {A : Type} (f : String.string -> option A)
  (names : list String.string) (xs : list A) :
  collect f names = Some xs ->
  length xs = length names
  /\ Forall (fun x => exists name, f name = Some x) xs.
Proof.
  revert xs. induction names as [|n names IH]; intros xs E; cbn [collect] in E.
  - inversion E; subst. split; [reflexivity|constructor].
  - destruct (f n) as [x|] eqn:F; [|discriminate].
    destruct (collect f names) as [ys|]; [|discriminate].
    inversion E; subst. destruct (IH ys eq_refl) as [L H].
    split; [simpl; lia|]. constructor; [exists n; exact F|exact H].
Qed.

Lemma update_historic_matrices_fields (a : ALNS) :
  running_solution (update_historic_matrices a) = running_solution a
  /\ current_solution (update_historic_matrices a) = current_solution a
  /\ solution (update_historic_matrices a) = solution a
  /\ destroy_wheel (update_historic_matrices a) = destroy_wheel a
  /\ insertion_wheel (update_historic_matrices a) = insertion_wheel a.
Proof.
  unfold update_historic_matrices.
  destruct (fold_left _ _ _); repeat split.
Qed.

Lemma accept_current_fields dat cfg lib l b a :
  let a' := fst (accept_current dat cfg lib l b a) in
  running_solution a' = running_solution a
  /\ (current_solution a' = current_solution a
      \/ current_solution a' = running_solution a)
  /\ solution a' = solution a
  /\ destroy_wheel a' = destroy_wheel a
  /\ insertion_wheel a' = insertion_wheel a.
Proof.
  cbn zeta. unfold accept_current.
  destruct (Qltb _ _); [cbn; auto 10|].
  destruct (tools.UNI (rng_alns a)) as [u k].
  destruct (Qltb u _); cbn; auto 10.
Qed.

Lemma accept_best_fields dat cfg lib wi b a :
  let a' := fst (fst (accept_best dat cfg lib wi b a)) in
  running_solution a' = running_solution a
  /\ current_solution a' = current_solution a
  /\ (solution a' = solution a
      \/ (solution a' = running_solution a
          /\ is_feasible (running_solution a) = true))
  /\ destroy_wheel a' = destroy_wheel a
  /\ insertion_wheel a' = insertion_wheel a.
Proof.
  cbn zeta. unfold accept_best.
  destruct (Qltb (driving_time (running_solution a)) (driving_time (solution a))
            && is_feasible (running_solution a)) eqn:E.
  - apply andb_true_iff in E. destruct E as [_ E].
    destruct (Qltb 0 (shakeup_log cfg)); cbn; auto 10.
  - destruct (Qltb 0 (shakeup_log cfg)); cbn; auto 10.
Qed.

Lemma set_quality_routes (dat : ALNSData) (cw fw : Q) (s : Solution) :
  solution_representation (set_quality dat cw fw s) = solution_representation s.
Proof. apply set_quality_frame. Qed.

Lemma update_weights_fields dat cfg a :
  solution_representation (running_solution (update_weights dat cfg a))
  = solution_representation (running_solution a)
  /\ solution_representation (current_solution (update_weights dat cfg a))
     = solution_representation (current_solution a)
  /\ destroy_wheel (update_weights dat cfg a) = destroy_wheel a
  /\ insertion_wheel (update_weights dat cfg a) = insertion_wheel a.
Proof.
  unfold update_weights.
  destruct (Qltb _ _); [|destruct (Qltb _ _)]; cbn;
    rewrite !set_quality_routes; auto.
Qed.

Lemma update_weights_running dat cfg a :
  solution_representation (running_solution (update_weights dat cfg a))
  = solution_representation (running_solution a).
Proof. apply update_weights_fields. Qed.

Lemma update_weights_current dat cfg a :
  solution_representation (current_solution (update_weights dat cfg a))
  = solution_representation (current_solution a).
Proof. apply update_weights_fields. Qed.

Lemma update_weights_destroy_wheel dat cfg a :
  destroy_wheel (update_weights dat cfg a) = destroy_wheel a.
Proof. apply update_weights_fields. Qed.

Lemma update_weights_insertion_wheel dat cfg a :
  insertion_wheel (update_weights dat cfg a) = insertion_wheel a.
Proof. apply update_weights_fields. Qed.

(** what a turn that ends normally has done *)
Lemma turn_effect dat cfg lib dfs rfs t (a : ALNS) (l : Locals) (u : unit)
  (al' : ALNS * Locals) :
  turn dat cfg lib dfs rfs t (a, l) = Ok u al' ->
  exists (d_id r_id : nat) (env : OpEnv) (st0 st1 st2 : OpState)
         (removed : list nat),
    (d_id < Wheel.nr_functors (destroy_wheel a))%nat
    /\ (r_id < Wheel.nr_functors (insertion_wheel a))%nat
    /\ data env = dat
    /\ sol st0 = running_solution a
    /\ nth d_id dfs no_destroy env st0 = Ok removed st1
    /\ nth r_id rfs no_repair env removed st1 = Ok tt st2
    /\ running_solution (fst al') = current_solution (fst al')
    /\ (solution_representation (current_solution (fst al'))
        = solution_representation (current_solution a)
        \/ solution_representation (current_solution (fst al'))
           = solution_representation (sol st2))
    /\ (solution (fst al') = solution a
        \/ (solution (fst al') = sol st2 /\ is_feasible (sol st2) = true))
    /\ Wheel.nr_functors (destroy_wheel (fst al'))
       = Wheel.nr_functors (destroy_wheel a)
    /\ Wheel.nr_functors (insertion_wheel (fst al'))
       = Wheel.nr_functors (insertion_wheel a).
Proof.
  intros E.
  assert (Ha : al' = state_of (turn dat cfg lib dfs rfs t (a, l)))
    by (rewrite E; reflexivity).
  rewrite Ha. clear Ha. unfold turn in *.
  destruct (Wheel.get_random_functor_id (destroy_wheel a, rng_wheel a))
    as [d_id [dw k]|e [w k]] eqn:G1; [|discriminate].
  destruct (Wheel.get_random_functor_id (insertion_wheel a, k))
    as [r_id [iw k']|e [w k']] eqn:G2; [|discriminate].
  apply get_random_functor_id_below in G1. destruct G1 as [D1 D2].
  apply get_random_functor_id_below in G2. destruct G2 as [R1 R2].
  match type of E with
  | context [match ?m ?s with Ok _ _ => _ | Throw _ _ => _ end] =>
      destruct (m s) as [u0 st2|e st2] eqn:EO
  end; [|discriminate].
  clear E. apply bind_ok in EO. destruct EO as (removed & st1 & ED & ER).
  destruct u0.
  exists d_id, r_id. eexists. eexists. exists st1, st2, removed.
  split; [exact D1|]. split; [exact R1|].
  split; [|split; [|split; [exact ED|split; [exact ER|]]]];
    [reflexivity|reflexivity|].
  clear ED ER.
  set (a0 := with_wheels dw iw k' a).
  set (a1 := update_historic_matrices (with_op_state st2 a0)).
  set (b0 := if count_visited _ _ then _ else _).
  destruct (accept_current dat cfg lib l b0 a1) as [a2 b2] eqn:E2.
  destruct (accept_best dat cfg lib (iteration_wi l) b2 a2) as [[a3 b3] wi3] eqn:E3.
  destruct (update_historic_matrices_fields (with_op_state st2 a0))
    as (U1 & U2 & U3 & U4 & U5).
  fold a1 in U1, U2, U3, U4, U5. cbn in U1, U2, U3, U4, U5.
  pose proof (accept_current_fields dat cfg lib l b0 a1) as H2.
  rewrite E2 in H2. cbn in H2. destruct H2 as (C1 & C2 & C3 & C4 & C5).
  pose proof (accept_best_fields dat cfg lib (iteration_wi l) b2 a2) as H3.
  rewrite E3 in H3. cbn in H3. destruct H3 as (B1 & B2 & B3 & B4 & B5).
  assert (Hcur : solution_representation (current_solution a3)
                 = solution_representation (current_solution a)
                 \/ solution_representation (current_solution a3)
                    = solution_representation (sol st2)).
  { rewrite B2. destruct C2 as [C2|C2]; rewrite C2.
    - left. rewrite U2. reflexivity.
    - right. rewrite U1. reflexivity. }
  assert (Hbest : solution a3 = solution a
                  \/ (solution a3 = sol st2 /\ is_feasible (sol st2) = true)).
  { destruct B3 as [B3|[B3 F]].
    - left. rewrite B3, C3, U3. reflexivity.
    - right. rewrite C1, U1 in B3, F. auto. }
  assert (Hdw : Wheel.nr_functors (destroy_wheel a3)
                = Wheel.nr_functors (destroy_wheel a)).
  { rewrite B4, C4, U4. exact D2. }
  assert (Hiw : Wheel.nr_functors (insertion_wheel a3)
                = Wheel.nr_functors (insertion_wheel a)).
  { rewrite B5, C5, U5. exact R2. }
  clearbody a1 b0. clear - Hcur Hbest Hdw Hiw.
  repeat (cbn; match goal with
               | |- context [if ?c then _ else _] => destruct c
               end);
    cbn;
    rewrite ?update_weights_solution, ?update_weights_current,
      ?update_weights_destroy_wheel, ?update_weights_insertion_wheel,
      ?wheel_fold_nr;
    cbn; auto.
Qed.

Lemma complete_routes (dat : ALNSData) (s s' : Solution) :
  solution_representation s' = solution_representation s ->
  complete dat s -> complete dat s'.
Proof. unfold complete, customers. intros ->. auto. Qed.

Lemma nth_known {A : Type} (P : A -> Prop) (l : list A) (i : nat) (d : A) :
  Forall P l -> (i < length l)%nat -> P (nth i l d).
Proof. intros H Hi. rewrite Forall_forall in H. apply H. apply nth_In. exact Hi. Qed.

Lemma turn_inv dat cfg lib worst_fuel dfs rfs t (a : ALNS) (l : Locals)
  (u : unit) (al' : ALNS * Locals) :
  Forall (fun D => exists name, get_destroy_functor worst_fuel name = Some D) dfs ->
  Forall (fun R => exists name, get_insertion_functor name = Some R) rfs ->
  (1 <= nr_vehicles dat)%nat ->
  search_inv dat (length dfs) (length rfs) a ->
  turn dat cfg lib dfs rfs t (a, l) = Ok u al' ->
  search_inv dat (length dfs) (length rfs) (fst al').
Proof.
  intros HD HR Hn (Irun & Icur & Ibest & Id & Ir) E.
  apply turn_effect in E.
  destruct E
    as (d_id & r_id & env & st0 & st1 & st2 & removed & D1 & R1 & Henv & Hst
        & ED & ER & Erun & Ecur & Ebest & Edw & Eiw).
  destruct (@nth_known _ _ dfs d_id no_destroy HD) as [dn KD]; [lia|].
  destruct (@nth_known _ _ rfs r_id no_repair HR) as [rn KR]; [lia|].
  destruct Irun as [Lrun Prun]. rewrite <- Hst in Lrun, Prun.
  destruct (@destroy_functor_perm worst_fuel dn _ KD env st0 st1 removed ED)
    as [P1 L1].
  destruct (@repair_functor_perm rn _ KR env st1 st2 removed tt) as [P2 L2].
  { rewrite L1, Henv. exact Lrun. }
  { rewrite Henv. lia. }
  { exact ER. }
  assert (Hnew : complete dat (sol st2)).
  { split.
    - rewrite L2, L1. exact Lrun.
    - rewrite P2, <- P1. exact Prun. }
  assert (Hcur : complete dat (current_solution (fst al'))).
  { destruct Ecur as [Ec|Ec].
    - eapply complete_routes; [exact Ec|exact Icur].
    - eapply complete_routes; [exact Ec|exact Hnew]. }
  unfold search_inv. rewrite Erun.
  split; [exact Hcur|]. split; [exact Hcur|].
  split; [|split; lia].
  destruct Ebest as [Eb|[Eb F]]; rewrite Eb.
  - exact Ibest.
  - right. split; [exact F|exact Hnew].
Qed.

Lemma main_loop_inv dat cfg lib worst_fuel dfs rfs (ticks : list Tick) :
  Forall (fun D => exists name, get_destroy_functor worst_fuel name = Some D) dfs ->
  Forall (fun R => exists name, get_insertion_functor name = Some R) rfs ->
  (1 <= nr_vehicles dat)%nat ->
  forall (al al' : ALNS * Locals) (u : unit),
    search_inv dat (length dfs) (length rfs) (fst al) ->
    main_loop dat cfg lib dfs rfs ticks al = Ok u al' ->
    search_inv dat (length dfs) (length rfs) (fst al').
Proof.
  intros HD HR Hn. induction ticks as [|t ticks IH]; intros al al' u I E;
    cbn [main_loop] in E.
  - destruct (_ && _); inversion E; subst; exact I.
  - destruct (_ && _); [|inversion E; subst; exact I].
    destruct (turn dat cfg lib dfs rfs t al) as [u1 al1|e al1] eqn:T;
      [|discriminate].
    eapply IH; [|exact E]. destruct al as [a l].
    eapply turn_inv; eauto.
Qed.

Lemma initialization_facts (dat : ALNSData) (a a' : ALNS) (u : unit) :
  (1 <= nr_vehicles dat)%nat ->
  initialization dat a = Ok u a' ->
  complete dat (running_solution a')
  /\ current_solution a' = running_solution a'
  /\ solution a' = solution a
  /\ destroy_wheel a' = destroy_wheel a
  /\ insertion_wheel a' = insertion_wheel a.
Proof.
  intros Hn E. unfold initialization in E.
  destruct (route_init_random _ _ _ _ _) as [routes k|e k] eqn:R;
    [|discriminate].
  inversion E; subst. cbn.
  apply route_init_random_facts in R; [|exact Hn].
  destruct R as (L & P & _).
  split; [|auto]. unfold complete, customers, Solution_new.
  rewrite evaluate_solution_routes. cbn. auto.
Qed.

(** X27: [ALNS::solve()] on a freshly constructed driver whose repair
    operators are among [basic_greedy], [random_greedy] and [beta_hybrid],
    when it returns: the result is either the default-constructed best solution (no turn
    has produced a feasible running solution with a driving time below
    [DBL_MAX]) or a feasible solution with one route per vehicle in which
    every customer occurs exactly once; the current solution left in the
    driver is complete as well *)
Theorem solve_returns_complete_solution dat cfg lib worst_fuel dfs rfs
  (clock0 clock1 : Z) (ticks : list Tick) (best : Solution) (its ms : Z)
  (a' : ALNS) :
  get_destroy_functors worst_fuel cfg = Some dfs ->
  get_insertion_functors cfg = Some rfs ->
  Forall (fun name => In name direct_repair_names) (operator_names_r cfg) ->
  (1 <= nr_vehicles dat)%nat ->
  solve dat cfg lib dfs rfs clock0 clock1 ticks (ALNS_new dat cfg lib)
  = Ok (best, its, ms) a' ->
  (best = Solution_default
   \/ (is_feasible best = true
       /\ length (solution_representation best) = nr_vehicles dat
       /\ Permutation (customers best) (seq 0 (nr_customer dat))))
  /\ complete dat (current_solution a').
Proof.
  intros HD HR _ Hn E.
  unfold get_destroy_functors in HD. apply collect_facts in HD.
  destruct HD as [LD HD].
  unfold get_insertion_functors in HR. apply collect_facts in HR.
  destruct HR as [LR HR].
  unfold solve in E.
  destruct (initialization dat (ALNS_new dat cfg lib)) as [u0 a0|e a0] eqn:I;
    [|discriminate].
  apply initialization_facts in I; [|exact Hn].
  destruct I as (I1 & I2 & I3 & I4 & I5).
  match type of E with
  | context [main_loop ?d ?c ?m ?x ?y ?tk ?s] =>
      destruct (main_loop d c m x y tk s) as [u1 [a1 l1]|e [a1 l1]] eqn:L
  end; [|discriminate].
  inversion E; subst.
  assert (H : search_inv dat (length dfs) (length rfs) (fst (a', l1))).
  { eapply main_loop_inv; [exact HD|exact HR|exact Hn| |exact L].
    cbn [fst]. unfold search_inv. rewrite I2, I3, I4, I5.
    split; [exact I1|]. split; [exact I1|].
    split; [left; reflexivity|]. cbn. rewrite LD, LR. auto. }
  destruct H as (_ & Hc & Hb & _). cbn [fst] in Hc, Hb.
  split; [|exact Hc].
  destruct Hb as [Hb|[F [Lb Pb]]]; [left; exact Hb|right; auto].
Qed.

(** X27 at a concrete input *)
Lemma solve_returns_complete_solution_witness :
  let dat := Vrptw.hundred in
  let out := solve dat plain_config plain_math
               [RandomDestroyOperator]
               [lift_repair BasicGreedyInsertionOperator] 0 0 two_ticks
               (ALNS_new dat plain_config plain_math) in
  let best := fst (fst (Examples.value_of (Solution_default, 0%Z, 0%Z) out)) in
  (best = Solution_default
   \/ (is_feasible best = true
       /\ length (solution_representation best) = nr_vehicles dat
       /\ Permutation (customers best) (seq 0 (nr_customer dat))))
  /\ complete dat (current_solution (state_of out)).
Proof.
  cbn zeta.
  apply (@solve_returns_complete_solution (Vrptw.hundred) plain_config
           plain_math 5 [RandomDestroyOperator]
           [lift_repair BasicGreedyInsertionOperator] 0 0 two_ticks
           _
           (snd (fst (Examples.value_of (Solution_default, 0%Z, 0%Z)
              (solve (Vrptw.hundred) plain_config plain_math
                 [RandomDestroyOperator]
                 [lift_repair BasicGreedyInsertionOperator] 0 0 two_ticks
                 (ALNS_new (Vrptw.hundred) plain_config plain_math)))))
           (snd (Examples.value_of (Solution_default, 0%Z, 0%Z)
              (solve (Vrptw.hundred) plain_config plain_math
                 [RandomDestroyOperator]
                 [lift_repair BasicGreedyInsertionOperator] 0 0 two_ticks
                 (ALNS_new (Vrptw.hundred) plain_config plain_math))))).
  - reflexivity.
  - reflexivity.
  - constructor.
  - simpl; lia.
  - vm_compute. reflexivity.
Defined.

End LoopFacts.

Section StartFacts.
Import Num Sol Op Driver.

(** ** When the initial solution exists *)

Lemma Qsum_app (l1 l2 : list Q) : Qsum (l1 ++ l2) == Qsum l1 + Qsum l2.
Proof.
  unfold Qsum at 1. rewrite fold_left_app, fold_Qplus_shift. reflexivity.
Qed.

Lemma Qsum_perm (l1 l2 : list Q) : Permutation l1 l2 -> Qsum l1 == Qsum l2.
Proof.
  induction 1 as [|x l1 l2 P IH|x y l|l1 l2 l3 P1 IH1 P2 IH2].
  - reflexivity.
  - rewrite !Qsum_cons, IH. reflexivity.
  - rewrite !Qsum_cons. ring.
  - rewrite IH1. exact IH2.
Qed.

Lemma route_demand_perm (demands : list Q) (l1 l2 : list nat) :
  Permutation l1 l2 -> route_demand demands l1 == route_demand demands l2.
Proof. intros P. unfold route_demand. apply Qsum_perm. apply Permutation_map. exact P. Qed.

Lemma route_demand_app (demands : list Q) (l1 l2 : list nat) :
  route_demand demands (l1 ++ l2)
  == route_demand demands l1 + route_demand demands l2.
Proof. unfold route_demand. rewrite map_app. apply Qsum_app. Qed.

Section Nonneg.
Variable demands : list Q.
Hypothesis Hpos : forall c, 0 <= qget demands c.

Lemma route_demand_nonneg (l : list nat) : 0 <= route_demand demands l.
Proof.
  unfold route_demand. apply Qsum_nonneg. apply Forall_forall.
  intros x Hx. apply in_map_iff in Hx. destruct Hx as (c & <- & _). apply Hpos.
Qed.

Lemma route_demand_member (l : list nat) (c : nat) :
  In c l -> qget demands c <= route_demand demands l.
Proof.
  intros H. apply in_split in H. destruct H as (l1 & l2 & ->).
  rewrite route_demand_app.
  change (c :: l2) with ([c] ++ l2). rewrite route_demand_app.
  pose proof (route_demand_nonneg l1). pose proof (route_demand_nonneg l2).
  unfold route_demand at 2. cbn [map]. rewrite Qsum_cons.
  unfold Qsum at 1. cbn [fold_left]. lra.
Qed.

Lemma route_demand_part (routes : list (list nat)) (r : nat) :
  route_demand demands (rget routes r) <= route_demand demands (concat routes).
Proof.
  unfold rget. revert r. induction routes as [|h t IH]; intros [|r];
    cbn [nth concat]; try rewrite route_demand_app.
  - apply Qle_refl.
  - apply Qle_refl.
  - pose proof (route_demand_nonneg (concat t)). lra.
  - specialize (IH r). pose proof (route_demand_nonneg h). lra.
Qed.

Lemma try_routes_first (r : nat) (rest : list nat) (node_id : nat)
  (max_capacity : Z) (sv : list (list nat)) (vl : list Q) :
  qget vl r + qget demands node_id < inject_Z max_capacity ->
  try_routes (r :: rest) node_id demands max_capacity sv vl
  = Some (vset sv r (rget sv r ++ [node_id]),
          vset vl r (qget vl r + qget demands node_id)).
Proof.
  intros H. cbn [try_routes]. cbv zeta. apply Qltb_lt in H. rewrite H.
  reflexivity.
Qed.

Lemma init_loop_returns (nr_veh : nat) (max_capacity : Z) (all : list nat) :
  (1 <= nr_veh)%nat ->
  route_demand demands all < inject_Z max_capacity ->
  forall (fuel : nat) (node_ids : list nat) (sv : list (list nat))
         (vl : list Q) (k : tools.kiss),
    length node_ids = fuel ->
    init_inv nr_veh demands max_capacity sv vl ->
    Permutation (concat sv ++ node_ids) all ->
    exists routes k',
      init_loop fuel nr_veh demands max_capacity node_ids sv vl k = Ok routes k'.
Proof.
  intros Hveh Hsum. induction fuel as [|fuel IH];
    intros node_ids sv vl k Hlen Hinv Hperm; cbn [init_loop].
  - eexists. eexists. reflexivity.
  - pose proof (@rand_number_range (Z.of_nat (length node_ids) - 1) k) as R1.
    destruct (tools.rand_number (Z.of_nat (length node_ids) - 1) 0 k)
      as [p k1]. cbn [fst] in R1.
    pose proof (@rand_number_range (Z.of_nat nr_veh - 1) k1) as R2.
    destruct (tools.rand_number (Z.of_nat nr_veh - 1) 0 k1) as [q k2].
    cbn [fst] in R2.
    specialize (R1 ltac:(lia)). specialize (R2 ltac:(lia)).
    set (node_pos := Z.to_nat p) in *.
    set (node_id := nget node_ids node_pos) in *.
    set (start := Z.to_nat q) in *.
    assert (Hpos' : (node_pos < length node_ids)%nat) by (unfold node_pos; lia).
    assert (Hstart : (start < nr_veh)%nat) by (unfold start; lia).
    assert (Hfit : qget vl start + qget demands node_id < inject_Z max_capacity).
    { destruct Hinv as (L1 & L2 & H). destruct (H start Hstart) as [E _].
      rewrite E. eapply Qle_lt_trans; [|exact Hsum].
      rewrite <- (route_demand_perm demands Hperm), route_demand_app.
      pose proof (route_demand_part sv start) as P1.
      assert (P2 : qget demands node_id <= route_demand demands node_ids).
      { apply route_demand_member. unfold node_id, nget. apply nth_In.
        exact Hpos'. }
      lra. }
    replace (nr_veh - start)%nat with (S (nr_veh - start - 1))%nat by lia.
    cbn [seq]. rewrite try_routes_first by exact Hfit.
    apply IH.
    + rewrite length_remove_at by exact Hpos'. lia.
    + apply init_inv_step; assumption.
    + destruct Hinv as (L1 & _).
      etransitivity; [|exact Hperm].
      etransitivity.
      { apply Permutation_app_tail.
        apply (@concat_vset_perm sv start (rget sv start ++ [node_id]) node_id);
          [lia|].
        rewrite Permutation_app_comm. reflexivity. }
      cbn [app]. etransitivity; [apply Permutation_middle|].
      apply Permutation_app_head. symmetry.
      apply remove_at_perm. exact Hpos'.
Qed.

End Nonneg.

Lemma init_loop_throws (nr_veh : nat) (demands : list Q) (max_capacity : Z) :
  forall (fuel : nat) (node_ids : list nat) (sv : list (list nat))
         (vl : list Q) (k k' : tools.kiss) (e : exn),
    init_loop fuel nr_veh demands max_capacity node_ids sv vl k = Throw e k' ->
    e = invalid_argument.
Proof.
  induction fuel as [|fuel IH]; intros node_ids sv vl k k' e E;
    cbn [init_loop] in E; [discriminate|].
  destruct (tools.rand_number (Z.of_nat (length node_ids) - 1) 0 k) as [p k1].
  destruct (tools.rand_number (Z.of_nat nr_veh - 1) 0 k1) as [q k2].
  destruct (try_routes (seq (Z.to_nat q) (nr_veh - Z.to_nat q)) _ _ _ _ _)
    as [[sv1 vl1]|].
  - eapply IH. exact E.
  - destruct (try_routes (seq 0 (Z.to_nat q)) _ _ _ _ _) as [[sv1 vl1]|].
    + eapply IH. exact E.
    + inversion E. reflexivity.
Qed.

(** X26: with at least one vehicle, demands that are not negative and a total
    demand below [max_capacity], [route_init_random] returns: the first
    route tried always has room *)
Theorem route_init_random_returns (nr_veh nr_customers : nat)
  (demands : list Q) (max_capacity : Z) (k : tools.kiss) :
  (1 <= nr_veh)%nat ->
  (forall c, 0 <= qget demands c) ->
  route_demand demands (seq 0 nr_customers) < inject_Z max_capacity ->
  exists routes k',
    route_init_random nr_veh nr_customers demands max_capacity k = Ok routes k'.
Proof.
  intros Hveh Hpos Hsum. unfold route_init_random, tools.range.
  apply init_loop_returns with (all := seq 0 nr_customers); try assumption.
  - apply length_seq.
  - apply init_inv_start.
  - rewrite concat_repeat_nil. reflexivity.
Qed.

(** X26 at a concrete input *)
Lemma route_init_random_returns_witness :
  exists routes k',
    route_init_random 2 5 [6; 5; 4; 6; 6] 106 tools.kiss_init = Ok routes k'.
Proof.
  apply (@route_init_random_returns 2 5 [6; 5; 4; 6; 6] 106 tools.kiss_init).
  - lia.
  - intros c. unfold qget.
    do 5 (destruct c as [|c]; [cbn; lra|]). destruct c; cbn; lra.
  - vm_compute. reflexivity.
Defined.

(** X28: when [max_iterations] is not positive, or the time between the two
    readings of the clock before the loop already reaches [max_time], the
    loop body never runs: [solve] on a freshly constructed driver returns
    the default-constructed best solution (no routes, driving time
    [DBL_MAX]) with 0 iterations, not the initial solution, which stays in
    the driver as current and running solution *)
Theorem solve_without_budget dat cfg lib dfs rfs (clock0 clock1 : Z)
  (ticks : list Tick) (a0 : ALNS) :
  max_iterations cfg <= 0
  \/ (max_time cfg <= Z.quot (clock1 - clock0) 1000)%Z ->
  initialization dat (ALNS_new dat cfg lib) = Ok tt a0 ->
  solve dat cfg lib dfs rfs clock0 clock1 ticks (ALNS_new dat cfg lib)
  = Ok (Solution_default, 0%Z, (clock1 - clock0)%Z) a0
  /\ solution_representation Solution_default = []
  /\ driving_time Solution_default = DBL_MAX
  /\ (1 <= nr_vehicles dat -> complete dat (current_solution a0))%nat.
Proof.
  intros Hb I. unfold solve. rewrite I.
  assert (Hs : solution a0 = Solution_default).
  { unfold initialization in I.
    destruct (route_init_random _ _ _ _ _) as [routes k|e k];
      inversion I; subst; reflexivity. }
  assert (Hc : (Z.quot (clock1 - clock0) 1000 <? max_time cfg)%Z = false
               \/ Qltb (inject_Z 0) (max_iterations cfg) = false).
  { destruct Hb as [Hb|Hb].
    - right. apply Qltb_ge. exact Hb.
    - left. apply Z.ltb_ge. exact Hb. }
  assert (Hl : main_loop dat cfg lib dfs rfs ticks
                 (a0, with_locals
                        (init_temperature cfg
                         * solution_quality (running_solution a0)) 0 0 0
                        clock0 clock1)
               = Ok tt (a0, with_locals
                              (init_temperature cfg
                               * solution_quality (running_solution a0)) 0 0 0
                              clock0 clock1)).
  { destruct ticks as [|t ticks]; cbn [main_loop snd prev_time_stamp start
                                         iteration_wi with_locals];
      destruct Hc as [Hc|Hc]; rewrite Hc; try rewrite andb_false_r;
      try reflexivity; destruct (_ <? _)%Z; reflexivity. }
  rewrite Hl. cbn [iteration prev_time_stamp start with_locals]. rewrite Hs.
  split; [reflexivity|]. split; [reflexivity|]. split; [reflexivity|].
  intros Hn. apply initialization_facts in I; [|exact Hn].
  destruct I as (I1 & I2 & _). rewrite I2. exact I1.
Qed.

(** X28 at a concrete input *)
Lemma solve_without_budget_witness :
  let dat := Examples.five 100 in
  let a0 := state_of (initialization dat (ALNS_new dat plain_config plain_math)) in
  solve dat plain_config plain_math [] [] 0 10000 two_ticks
    (ALNS_new dat plain_config plain_math)
  = Ok (Solution_default, 0%Z, (10000 - 0)%Z) a0
  /\ solution_representation Solution_default = []
  /\ driving_time Solution_default = DBL_MAX
  /\ (1 <= nr_vehicles dat -> complete dat (current_solution a0))%nat.
Proof.
  cbn zeta.
  apply (@solve_without_budget (Examples.five 100) plain_config plain_math
           [] [] 0 10000 two_ticks).
  - right. vm_compute. discriminate.
  - vm_compute. reflexivity.
Defined.

End StartFacts.
